(** * FP-Growth: the FP-tree, conditional-tree projection and recursive search

    A shallow embedding of [fpgrowth.py].  Python objects live in a store
    (a list of nodes); a reference to a node is its index in the store of the
    tree that owns it, and a field assignment is an update of the store at
    that index.  Python exceptions are the [Err] results of an error monad. *)

From Stdlib Require Import ZArith Lia.
From stdpp Require Import base option list gmap sorting.

(** ** Exceptions and the error monad *)

Inductive error :=
  | TypeError            (* None + 1, sum over a None support *)
  | UnboundLocalError    (* local variable read before assignment *)
  | AttributeError       (* attribute access on None *)
  | IndexError           (* path[-1] on an empty list *)
  | RecursionError       (* recursion depth limit reached *)
  | NonTermination       (* a while loop that runs round a cycle for ever *)
  | DanglingReference.   (* an index outside the store; no Python counterpart *)

Inductive result (A : Type) :=
  | Ok (a : A)
  | Err (e : error).
Arguments Ok {A} a.
Arguments Err {A} e.

#[global] Instance result_ret : MRet result := λ A a, Ok a.
#[global] Instance result_bind : MBind result := λ A B f m,
  match m with
  | Ok a => f a
  | Err e => Err e
  end.

(** ** FPNode *)

(** An item is a Python value that is an [int] or [None]: [None] is what the
    root carries, [Some z] is the integer [z]. *)
Abbreviation Item := (option Z).

Record FPNode := mkFPNode {
  item : Item;
  support : option Z;
  parent : option nat;
  children : gmap Item nat;
  link : option nat
}.

(** [FPNode.__init__(tree, item, support)]: no parent, no children, no link. *)
Definition FPNode_init (it : Item) (sup : option Z) : FPNode :=
  mkFPNode it sup None ∅ None.

Definition set_support (s : option Z) (n : FPNode) : FPNode :=
  mkFPNode (item n) s (parent n) (children n) (link n).
Definition set_parent (p : option nat) (n : FPNode) : FPNode :=
  mkFPNode (item n) (support n) p (children n) (link n).
Definition set_children (c : gmap Item nat) (n : FPNode) : FPNode :=
  mkFPNode (item n) (support n) (parent n) c (link n).
Definition set_link (l : option nat) (n : FPNode) : FPNode :=
  mkFPNode (item n) (support n) (parent n) (children n) l.

(** Reading through a reference. *)
Definition get (h : list FPNode) (r : nat) : result FPNode :=
  match h !! r with
  | Some n => Ok n
  | None => Err DanglingReference
  end.

(** [FPNode.add(self, child)] *)
Definition FPNode_add (h : list FPNode) (self child : nat) : result (list FPNode) :=
  s ← get h self;
  c ← get h child;
  match children s !! item c with
  | None =>
      let h1 := <[self := set_children (<[item c := child]> (children s)) s]> h in
      c1 ← get h1 child;
      Ok (<[child := set_parent (Some self) c1]> h1)
  | Some _ => Ok h
  end.

(** [FPNode.search(self, item)] *)
Definition FPNode_search (n : FPNode) (it : Item) : option nat :=
  children n !! it.

(** [FPNode.increment_node_support(self)]: [self.support += 1]. *)
Definition increment_node_support (h : list FPNode) (self : nat) : result (list FPNode) :=
  n ← get h self;
  match support n with
  | Some s => Ok (<[self := set_support (Some (s + 1)%Z) n]> h)
  | None => Err TypeError
  end.

(** [FPNode.root]: [self.item is None and self.support is None]. *)
Definition FPNode_root (n : FPNode) : bool :=
  bool_decide (item n = None) && bool_decide (support n = None).

(** ** FPTree *)

(** [hyperlinks] is a Python dict whose iteration order (insertion order of
    the keys) is observed by [items], hence an association list. *)
Record FPTree := mkFPTree {
  store : list FPNode;
  root : nat;
  hyperlinks : list (Item * (nat * nat))
}.

Definition set_store (h : list FPNode) (t : FPTree) : FPTree :=
  mkFPTree h (root t) (hyperlinks t).

Fixpoint alist_lookup {V} (k : Item) (l : list (Item * V)) : option V :=
  match l with
  | [] => None
  | (k', v) :: l' => if decide (k = k') then Some v else alist_lookup k l'
  end.

(** [d[k] = v]: an existing key keeps its place, a new key goes last. *)
Fixpoint alist_set {V} (k : Item) (v : V) (l : list (Item * V)) : list (Item * V) :=
  match l with
  | [] => [(k, v)]
  | (k', v') :: l' =>
      if decide (k = k') then (k', v) :: l' else (k', v') :: alist_set k v l'
  end.

(** [FPTree.__init__]: the root is the first node of a new store. *)
Definition FPTree_init : FPTree :=
  mkFPTree [FPNode_init None None] 0 [].

(** [FPTree.update_route(self, point)] *)
Definition update_route (t : FPTree) (point : nat) : result FPTree :=
  p ← get (store t) point;
  match alist_lookup (item p) (hyperlinks t) with
  | Some (hd, tl) =>
      r1 ← get (store t) tl;
      Ok (mkFPTree (<[tl := set_link (Some point) r1]> (store t)) (root t)
                   (alist_set (item p) (hd, point) (hyperlinks t)))
  | None =>
      Ok (mkFPTree (store t) (root t) (hyperlinks t ++ [(item p, (point, point))]))
  end.

(** One round of the loop of [FPTree.add_transaction]; returns the tree and
    the new [point]. *)
Definition add_transaction_step (t : FPTree) (point : nat) (it : Item)
  : result (FPTree * nat) :=
  p ← get (store t) point;
  match FPNode_search p it with
  | Some next_point =>
      h ← increment_node_support (store t) next_point;
      Ok (set_store h t, next_point)
  | None =>
      let next_point := length (store t) in
      h1 ← FPNode_add (store t ++ [FPNode_init it (Some 1%Z)]) point next_point;
      t2 ← update_route (set_store h1 t) next_point;
      Ok (t2, next_point)
  end.

Fixpoint add_transaction_from (t : FPTree) (point : nat) (itemset : list Item)
  : result FPTree :=
  match itemset with
  | [] => Ok t
  | it :: rest =>
      '(t', next_point) ← add_transaction_step t point it;
      add_transaction_from t' next_point rest
  end.

(** [FPTree.add_transaction(self, itemset)]; [itemset] is listed in the order
    in which the loop iterates over it. *)
Definition add_transaction (t : FPTree) (itemset : list Item) : result FPTree :=
  add_transaction_from t (root t) itemset.

(** The [while node:] loop of [FPTree.nodes].  [fuel] is the number of further
    nodes the walk may move to; a walk that moves more often than the store
    has nodes has come back to a node and never ends. *)
Fixpoint follow_links (h : list FPNode) (fuel : nat) (node : nat) : result (list nat) :=
  n ← get h node;
  match link n with
  | None => Ok [node]
  | Some next =>
      match fuel with
      | O => Err NonTermination
      | S fuel' => rest ← follow_links h fuel' next; Ok (node :: rest)
      end
  end.

(** [FPTree.nodes(self, item)], consumed to its end.  When [item] is not a
    key of [hyperlinks] the local [node] is never assigned. *)
Definition nodes (t : FPTree) (it : Item) : result (list nat) :=
  match alist_lookup it (hyperlinks t) with
  | Some (hd, _) => follow_links (store t) (length (store t)) hd
  | None => Err UnboundLocalError
  end.

(** [FPTree.items(self)] *)
Definition items (t : FPTree) : list (Item * result (list nat)) :=
  map (λ e, (e.1, nodes t e.1)) (hyperlinks t).

(** The [while not node.root and node:] loop of [FPTree.prefix_paths]. *)
Fixpoint walk_up (h : list FPNode) (fuel : nat) (node : nat) (path : list nat)
  : result (list nat) :=
  n ← get h node;
  if FPNode_root n then Ok path
  else
    match parent n with
    | None => Err AttributeError
    | Some p =>
        match fuel with
        | O => Err NonTermination
        | S fuel' => walk_up h fuel' p (node :: path)
        end
    end.

Fixpoint prefix_paths_of (h : list FPNode) (ns : list nat) : result (list (list nat)) :=
  match ns with
  | [] => Ok []
  | node :: rest =>
      path ← walk_up h (length h) node [];
      paths ← prefix_paths_of h rest;
      Ok (path :: paths)
  end.

(** [FPTree.prefix_paths(self, item)].  The source draws the nodes from the
    generator one at a time; here the list of them is made first. *)
Definition prefix_paths (t : FPTree) (it : Item) : result (list (list nat)) :=
  ns ← nodes t it;
  prefix_paths_of (store t) ns.

(** ** project *)

(** The local [seed] of [project]: [False] until it is taken from a path. *)
Inductive seed_value :=
  | SeedFalse
  | SeedItem (i : Item).

(** [bool(seed)] *)
Definition seed_truthy (s : seed_value) : bool :=
  match s with
  | SeedItem (Some z) => negb (z =? 0)%Z
  | _ => false
  end.

(** [node.item == seed]; [0 == False] holds in Python. *)
Definition item_eq_seed (it : Item) (s : seed_value) : bool :=
  match s with
  | SeedFalse => bool_decide (it = Some 0%Z)
  | SeedItem j => bool_decide (it = j)
  end.

(** [seed] as a dictionary key: [False] and [0] are the same key. *)
Definition seed_key (s : seed_value) : Item :=
  match s with
  | SeedFalse => Some 0%Z
  | SeedItem j => j
  end.

(** One round of the inner loop of the first pass of [project].  The set
    [itemset] of the source is written and never read, and is left out. *)
Definition project_step (seed : seed_value) (t : FPTree) (current_node : nat)
    (node : FPNode) : result (FPTree * nat) :=
  c ← get (store t) current_node;
  match FPNode_search c (item node) with
  | Some next_current_node => Ok (t, next_current_node)
  | None =>
      let sup := if item_eq_seed (item node) seed then support node else Some 0%Z in
      let next_current_node := length (store t) in
      h1 ← FPNode_add (store t ++ [FPNode_init (item node) sup])
                      current_node next_current_node;
      t2 ← update_route (set_store h1 t) next_current_node;
      Ok (t2, next_current_node)
  end.

Fixpoint project_path (seed : seed_value) (t : FPTree) (current_node : nat)
    (path : list FPNode) : result FPTree :=
  match path with
  | [] => Ok t
  | node :: rest =>
      '(t', next_current_node) ← project_step seed t current_node node;
      project_path seed t' next_current_node rest
  end.

(** [if not bool(seed): seed = path[-1].item] *)
Definition take_seed (seed : seed_value) (path : list FPNode) : result seed_value :=
  if seed_truthy seed then Ok seed
  else
    match last path with
    | Some n => Ok (SeedItem (item n))
    | None => Err IndexError
    end.

(** The first pass of [project]: the paths are inserted one by one. *)
Fixpoint project_paths (seed : seed_value) (t : FPTree) (paths : list (list FPNode))
  : result (seed_value * FPTree) :=
  match paths with
  | [] => Ok (seed, t)
  | path :: rest =>
      seed' ← take_seed seed path;
      t' ← project_path seed' t (root t) path;
      project_paths seed' t' rest
  end.

(** [node.support += support] *)
Definition add_support (h : list FPNode) (node : nat) (sup : option Z)
  : result (list FPNode) :=
  n ← get h node;
  match support n, sup with
  | Some a, Some b => Ok (<[node := set_support (Some (a + b)%Z) n]> h)
  | _, _ => Err TypeError
  end.

Fixpoint add_support_all (h : list FPNode) (ns : list nat) (sup : option Z)
  : result (list FPNode) :=
  match ns with
  | [] => Ok h
  | node :: rest => h' ← add_support h node sup; add_support_all h' rest sup
  end.

(** One round of the second pass: [path[-1].support] is added to every node
    of [path[:-1][::-1]]. *)
Definition propagate_path (h : list FPNode) (path : list nat) : result (list FPNode) :=
  match last path with
  | None => Err IndexError
  | Some l =>
      n ← get h l;
      add_support_all h (reverse (removelast path)) (support n)
  end.

Fixpoint propagate (h : list FPNode) (paths : list (list nat)) : result (list FPNode) :=
  match paths with
  | [] => Ok h
  | path :: rest => h' ← propagate_path h path; propagate h' rest
  end.

(** [project(paths)].  The paths are lists of nodes of another tree, of which
    only [item] and [support] are read. *)
Definition project (paths : list (list FPNode)) : result FPTree :=
  '(seed, new_tree) ← project_paths SeedFalse FPTree_init paths;
  ps ← prefix_paths new_tree (seed_key seed);
  h ← propagate (store new_tree) ps;
  Ok (set_store h new_tree).

(** ** fp_search *)

(** [sum(n.support for n in nodes)] *)
Fixpoint sum_support (h : list FPNode) (ns : list nat) : result Z :=
  match ns with
  | [] => Ok 0%Z
  | node :: rest =>
      n ← get h node;
      match support n with
      | Some s => r ← sum_support h rest; Ok (s + r)%Z
      | None => Err TypeError
      end
  end.

(** The node objects behind a list of paths of references. *)
Fixpoint deref_path (h : list FPNode) (path : list nat) : result (list FPNode) :=
  match path with
  | [] => Ok []
  | r :: rest => n ← get h r; ns ← deref_path h rest; Ok (n :: ns)
  end.

Fixpoint deref (h : list FPNode) (paths : list (list nat)) : result (list (list FPNode)) :=
  match paths with
  | [] => Ok []
  | p :: rest => np ← deref_path h p; nps ← deref h rest; Ok (np :: nps)
  end.

(** The conditional tree of [it]: [project(tree.prefix_paths(item))]. *)
Definition conditional_tree (tree : FPTree) (it : Item) : result FPTree :=
  paths ← prefix_paths tree it;
  node_paths ← deref (store tree) paths;
  project node_paths.

(** The [for item, nodes in tree.items()] loop of [fp_search]; [rec] is the
    recursive call [fp_search(proj_tree, epsilon, freq_items)]. *)
Fixpoint fp_search_items
    (rec : FPTree → list Item → result (list (list Item * Z)))
    (tree : FPTree) (epsilon : Z) (suffix : list Item)
    (its : list (Item * result (list nat))) : result (list (list Item * Z)) :=
  match its with
  | [] => Ok []
  | (it, ns) :: rest =>
      ns' ← ns;
      tree_support ← sum_support (store tree) ns';
      if (epsilon <=? tree_support)%Z && negb (bool_decide (it ∈ suffix)) then
        let freq_items := it :: suffix in
        proj_tree ← conditional_tree tree it;
        sub ← rec proj_tree freq_items;
        more ← fp_search_items rec tree epsilon suffix rest;
        Ok ((freq_items, tree_support) :: sub ++ more)
      else fp_search_items rec tree epsilon suffix rest
  end.

(** [fp_search(tree, epsilon, suffix)], consumed to its end: the list of the
    pairs it yields, in the order it yields them.  [depth] is the number of
    nested calls the interpreter allows; [epsilon] is the absolute threshold,
    an integer as in the docstring; [suffix] is [[]] at the outermost call. *)
Fixpoint fp_search (depth : nat) (tree : FPTree) (epsilon : Z) (suffix : list Item)
  : result (list (list Item * Z)) :=
  match depth with
  | O => Err RecursionError
  | S depth' =>
      fp_search_items (λ t s, fp_search depth' t epsilon s) tree epsilon suffix (items tree)
  end.

(** The main program's construction of the initial tree:
    [for transaction in TRANSACTIONS: START_TREE.add_transaction(transaction)]. *)
Fixpoint add_transactions (t : FPTree) (transactions : list (list Item)) : result FPTree :=
  match transactions with
  | [] => Ok t
  | tr :: rest => t' ← add_transaction t tr; add_transactions t' rest
  end.

Definition build (transactions : list (list Item)) : result FPTree :=
  add_transactions FPTree_init transactions.

(** ** first_scan and the main program *)

(** [Counter] objects are dicts from items to counts, in the order in which
    the keys came in.  [counter[elem] += count]: a key that is missing counts
    as 0 and goes last. *)
Definition counter_add (elem : Item) (count : Z) (counter : list (Item * Z))
  : list (Item * Z) :=
  alist_set elem (default 0%Z (alist_lookup elem counter) + count)%Z counter.

(** [Counter(iterable)] *)
Definition Counter (iterable : list Item) : list (Item * Z) :=
  foldl (λ counter elem, counter_add elem 1 counter) [] iterable.

(** [self += other] on counters: the counts of [other] are added, then the
    entries that are not positive are dropped. *)
Definition Counter_iadd (self other : list (Item * Z)) : list (Item * Z) :=
  filter (λ e, (0 < e.2)%Z)
         (foldl (λ counter e, counter_add e.1 e.2 counter) self other).

(** [sorted(items, key=lambda item: item[1], reverse=True)]: by falling
    count, the entries of one count in the order they had. *)
Fixpoint insert_by_count (e : Item * Z) (l : list (Item * Z)) : list (Item * Z) :=
  match l with
  | [] => [e]
  | e' :: l' =>
      if (e'.2 <=? e.2)%Z then e :: e' :: l' else e' :: insert_by_count e l'
  end.

Definition sorted_by_count (l : list (Item * Z)) : list (Item * Z) :=
  foldr insert_by_count [] l.

(** [{k: v for k, v in pairs}] *)
Definition dict_of (pairs : list (Item * Z)) : list (Item * Z) :=
  foldl (λ d e, alist_set e.1 e.2 d) [] pairs.

(** The key that the main program makes of a yielded list of items:
    [frozenset((fset[0][0], ))] when [len(fset[0]) == 1], and
    [frozenset(fset[0])] otherwise. *)
Definition rule_key (items : list Item) : gset Item :=
  match items with
  | [x] => {[x]}
  | _ => list_to_set items
  end.

(** The loop of the main program that fills the dict [RULES], whose keys are
    frozensets: [RULES[key] = fset[1]] for each pair that the search yields,
    in the order in which they are yielded. *)
Definition rules_of (yielded : list (list Item * Z)) : gmap (gset Item) Z :=
  foldl (λ rules fset, <[rule_key fset.1 := fset.2]> rules) ∅ yielded.

Section first_scan.

(** A frozenset is the list of its elements in the order in which it is
    iterated.  The order in which [frozenset(iterable)] is iterated is the
    interpreter's business: [frozenset] stands for it. *)
Variable frozenset : list Item → list Item.

(** [first_scan(file_name, epsilon)], on the tuples that [scan_db] yields.
    [epsilon] is compared with integers only; when it is a float, the least
    integer that is not below it stands for it. *)
Definition first_scan (t_lines : list (Z * Z * list Item)) (epsilon : Z)
  : list (Item * Z) * list (list Item) :=
  let transactions := map (λ t_line, t_line.2) t_lines in
  let supporter :=
    foldl (λ supporter t_set, Counter_iadd supporter (Counter t_set)) [] transactions in
  let l_table :=
    dict_of (filter (λ e, (epsilon ≤ e.2)%Z) (sorted_by_count supporter)) in
  let transactions :=
    map (λ trans, frozenset (filter (λ item, item ∈ l_table.*1) trans)) transactions in
  (l_table, transactions).

(** The main program from the first scan to the dict [RULES]: the tree of
    the filtered transactions, the search with an empty suffix, and the loop
    over what it yields.  [depth] is the recursion limit, [epsilon] stands
    for [EPSILON] as in [first_scan]. *)
Definition main_rules (depth : nat) (t_lines : list (Z * Z * list Item)) (epsilon : Z)
  : result (gmap (gset Item) Z) :=
  let '(_, transactions) := first_scan t_lines epsilon in
  t ← build transactions;
  res ← fp_search depth t epsilon [];
  Ok (rules_of res).

End first_scan.

(** * Vocabulary of the specification *)

(** ** Views, references and well-formed trees *)

(** The positions, counted from [k], of the elements of [l] that pass [φ]. *)
Fixpoint ifilter {A} (φ : A → bool) (k : nat) (l : list A) : list nat :=
  match l with
  | [] => []
  | a :: l' => if φ a then k :: ifilter φ (S k) l' else ifilter φ (S k) l'
  end.

(** What a tree shows of its nodes to the counts: item and support. *)
Definition view (h : list FPNode) : list (Item * option Z) :=
  map (λ n, (item n, support n)) h.

(** The references of the nodes other than the root that carry [x], in the
    order in which the nodes were created. *)
Definition ids_of (h : list FPNode) (x : Item) : list nat :=
  ifilter (λ it : Item, bool_decide (it = x)) 1 (tail (map item h)).

(** [ids_of], read off the view. *)
Definition ids_ofV (V : list (Item * option Z)) (x : Item) : list nat :=
  ifilter (λ it : Item, bool_decide (it = x)) 1 (tail (map fst V)).

(** The pair that [hyperlinks] holds for a list of nodes: its head and tail. *)
Definition route_of (l : list nat) : option (nat * nat) :=
  match l with
  | [] => None
  | hd :: _ => Some (hd, default hd (last l))
  end.

(** [l] is threaded by [link], the last node having none. *)
Fixpoint chain (h : list FPNode) (l : list nat) : Prop :=
  match l with
  | [] => True
  | a :: l' => (∃ n, h !! a = Some n ∧ link n = head l') ∧ chain h l'
  end.

(** [P] lists, for each node, the items on the way from the root to it. *)
Record wf (t : FPTree) (P : list (list Item)) : Prop := {
  wf_root : root t = 0;
  wf_root_node : ∃ r, store t !! 0 = Some r ∧ item r = None ∧ support r = None;
  wf_len : length P = length (store t);
  wf_root_path : P !! 0 = Some [];
  wf_node : ∀ r n, store t !! r = Some n → r ≠ 0 →
      ∃ p np pp s, parent n = Some p ∧ p < r ∧ store t !! p = Some np ∧
        children np !! item n = Some r ∧ support n = Some s ∧
        P !! p = Some pp ∧ P !! r = Some (pp ++ [item n]);
  wf_child : ∀ p np x c, store t !! p = Some np → children np !! x = Some c →
      ∃ nc, c ≠ 0 ∧ store t !! c = Some nc ∧ parent nc = Some p ∧ item nc = x;
  wf_route : ∀ x, alist_lookup x (hyperlinks t) = route_of (ids_of (store t) x);
  wf_chain : ∀ x, chain (store t) (ids_of (store t) x);
  wf_keys : NoDup (hyperlinks t).*1
}.

(** Every node other than the root has a support. *)
Definition supported (V : list (Item * option Z)) : Prop :=
  ∀ k v, k ≠ 0 → V !! k = Some v → is_Some v.2.

(** [l] lists references to nodes other than the root whose items are [q]. *)
Definition spells (V : list (Item * option Z)) (l : list nat) (q : list Item) : Prop :=
  Forall2 (λ a x, a ≠ 0 ∧ fst <$> V !! a = Some x) l q.

(** [l] is the way from the root to [r]. *)
Definition trail (V : list (Item * option Z)) (P : list (list Item))
    (r : nat) (l : list nat) : Prop :=
  last l = Some r ∧ ∃ q, P !! r = Some q ∧ spells V l q.

(** The trees that [add_transaction] and [project] make, from the empty one. *)
Inductive reachable : FPTree → Prop :=
  | reachable_init : reachable FPTree_init
  | reachable_add t itemset t' :
      reachable t → add_transaction t itemset = Ok t' → reachable t'
  | reachable_project t it t' :
      reachable t → conditional_tree t it = Ok t' → reachable t'.

(** The linked lists alone: what [update_route] keeps whatever the supports
    and the shape of the tree. *)
Record linked (t : FPTree) : Prop := {
  linked_root : root t = 0;
  linked_store : store t ≠ [];
  linked_route : ∀ x, alist_lookup x (hyperlinks t) = route_of (ids_of (store t) x);
  linked_chain : ∀ x, chain (store t) (ids_of (store t) x)
}.

(** The trees that [add_transaction] and [project] make, whatever the paths
    that [project] is given. *)
Inductive made : FPTree → Prop :=
  | made_init : made FPTree_init
  | made_add t itemset t' : made t → add_transaction t itemset = Ok t' → made t'
  | made_project paths t' : project paths = Ok t' → made t'.

(** ** The statements that [add_transaction] and [project] share *)

(** The three statements that [add_transaction] and [project] share: a new
    node is created, made a child of [point] and entered in the routes. *)
Definition attach (t : FPTree) (point : nat) (it : Item) (sup : option Z)
  : result (FPTree * nat) :=
  let c := length (store t) in
  h1 ← FPNode_add (store t ++ [FPNode_init it sup]) point c;
  t2 ← update_route (set_store h1 t) c;
  Ok (t2, c).

(** ** Sums of supports *)

(** The sum of [F] over two lists taken side by side. *)
Fixpoint zsum {A B} (F : A → B → Z) (l1 : list A) (l2 : list B) : Z :=
  match l1, l2 with
  | a :: l1', b :: l2' => (F a b + zsum F l1' l2')%Z
  | _, _ => 0%Z
  end.

(** The sum of the supports of the nodes (other than the root) whose item and
    path from the root satisfy [φ]. *)
Definition wsum (φ : Item → list Item → bool) (V : list (Item * option Z))
    (P : list (list Item)) : Z :=
  zsum (λ v q, if φ v.1 q then default 0%Z v.2 else 0%Z) (tail V) (tail P).

(** The sum over [ids] of what [G] makes of the view and the path of a node. *)
Fixpoint isum (G : Item * option Z → list Item → Z) (V : list (Item * option Z))
    (P : list (list Item)) (ids : list nat) : Z :=
  match ids with
  | [] => 0%Z
  | r :: rest =>
      (match V !! r, P !! r with
       | Some v, Some q => G v q
       | _, _ => 0%Z
       end + isum G V P rest)%Z
  end.

(** The nodes of [j]. *)
Definition item_is (j : Item) : Item → list Item → bool :=
  λ it _, bool_decide (it = j).

(** The nodes of [i] below a node of [j], or of [i] when [j] is [i]. *)
Definition item_below (i j : Item) : Item → list Item → bool :=
  λ it q, bool_decide (it = i) && bool_decide (j ∈ q).

(** The support of a node below [j], and 0 for another node. *)
Definition on_path (j : Item) (v : Item * option Z) (q : list Item) : Z :=
  if decide (j ∈ q) then default 0%Z v.2 else 0%Z.

(** ** Counts of transactions *)

(** The number of positions of [tx] whose item and prefix satisfy [φ], the
    walk starting below the path [pp]. *)
Fixpoint walk_count (φ : Item → list Item → bool) (pp tx : list Item) : Z :=
  match tx with
  | [] => 0%Z
  | x :: rest =>
      ((if φ x (pp ++ [x]) then 1 else 0) + walk_count φ (pp ++ [x]) rest)%Z
  end.

(** The same, summed over the transactions, each walked from the root. *)
Fixpoint walk_count_all (φ : Item → list Item → bool) (txs : list (list Item)) : Z :=
  match txs with
  | [] => 0%Z
  | tx :: rest => (walk_count φ [] tx + walk_count_all φ rest)%Z
  end.

(** The number of transactions that contain [i]. *)
Definition count_containing (i : Item) (txs : list (list Item)) : Z :=
  Z.of_nat (length (filter (λ tx, i ∈ tx) txs)).

(** The number of transactions that contain both [i] and [j]. *)
Definition count_both (i j : Item) (txs : list (list Item)) : Z :=
  Z.of_nat (length (filter (λ tx, i ∈ tx ∧ j ∈ tx) txs)).

(** ** The two passes of [project], on views and paths *)

(** The support that the first pass gives to the copy of [n]. *)
Definition new_support (seed : seed_value) (n : FPNode) : option Z :=
  if item_eq_seed (item n) seed then support n else Some 0%Z.

(** Paths that all end in a node of [i]: the seed is [i] whatever its
    truth value. *)
Definition ends_in (i : Item) (path : list FPNode) : Prop :=
  ∃ n, last path = Some n ∧ item n = i.

(** The view and the paths of the new tree: the root alone. *)
Definition abs_init : list (Item * option Z) * list (list Item) :=
  ([(None, None)], [[]]).

(** What inserting a path does to the view and the paths of the new tree:
    a node is added for each prefix that names no node yet. *)
Fixpoint abs_path (seed : seed_value)
    (st : list (Item * option Z) * list (list Item))
    (pp : list Item) (path : list FPNode)
  : list (Item * option Z) * list (list Item) :=
  match path with
  | [] => st
  | n :: rest =>
      let q := pp ++ [item n] in
      abs_path seed
        (if decide (q ∈ st.2) then st
         else (st.1 ++ [(item n, new_support seed n)], st.2 ++ [q]))
        q rest
  end.

(** The same for the paths one after the other, each from the root. *)
Fixpoint abs_paths (seed : seed_value)
    (st : list (Item * option Z) * list (list Item)) (paths : list (list FPNode))
  : list (Item * option Z) * list (list Item) :=
  match paths with
  | [] => st
  | path :: rest => abs_paths seed (abs_path seed st [] path) rest
  end.

(** The sum over the inserted paths of what [G] makes of the seed node and
    the items of a path. *)
Definition dsum (i : Item) (G : Item * option Z → list Item → Z)
    (nps : list (list FPNode)) : Z :=
  foldr (λ np acc, (G (i, last np ≫= support) (map item np) + acc)%Z) 0%Z nps.

(** The state of the first pass: the nodes of [i] are the ends of the paths
    [D] inserted so far, the other nodes have support 0, and [S] is the sum
    over the nodes of [i]. *)
Record seeded (i : Item) (st : list (Item * option Z) * list (list Item))
    (D : list (list Item)) (S : (Item * option Z → list Item → Z) → Z) : Prop := {
  seeded_len : length st.1 = length st.2;
  seeded_ne : st.1 ≠ [];
  seeded_root : st.2 !! 0 = Some [];
  seeded_entry : ∀ k v q, k ≠ 0 → st.1 !! k = Some v → st.2 !! k = Some q →
      last q = Some v.1 ∧ is_Some v.2 ∧ (v.1 = i → q ∈ D) ∧
      (v.1 ≠ i → v.2 = Some 0%Z);
  seeded_sum : ∀ G,
      zsum (λ v q, if bool_decide (v.1 = i) then G v q else 0%Z)
           (tail st.1) (tail st.2) = S G
}.

(** [V[a].support += s] *)
Definition bumpV (s : Z) (V : list (Item * option Z)) (a : nat)
  : list (Item * option Z) :=
  match V !! a with
  | Some (x, Some s0) => <[a := (x, Some (s0 + s)%Z)]> V
  | _ => V
  end.

(** What one round of the second pass does to the view: the support of the
    last node of the path is added to the nodes before it, from the nearest. *)
Definition propV_path (V : list (Item * option Z)) (l : list nat)
  : list (Item * option Z) :=
  match last l with
  | Some r =>
      match V !! r with
      | Some (_, Some s) => foldl (bumpV s) V (reverse (removelast l))
      | _ => V
      end
  | None => V
  end.

(** The second pass, on the view. *)
Definition propV (V : list (Item * option Z)) (paths : list (list nat))
  : list (Item * option Z) :=
  foldl propV_path V paths.

(** The first pass of [project] run with one seed for all the paths. *)
Fixpoint project_paths_fixed (seed : seed_value) (t : FPTree)
    (paths : list (list FPNode)) : result FPTree :=
  match paths with
  | [] => Ok t
  | path :: rest =>
      t' ← project_path seed t (root t) path;
      project_paths_fixed seed t' rest
  end.

(** ** The search *)

(** The number of keys of the tree that are not in the suffix. *)
Definition mes (t : FPTree) (suffix : list Item) : nat :=
  length (filter (λ k, k ∉ suffix) (hyperlinks t).*1).

(** The number of distinct items of a tree: the keys of [hyperlinks]. *)
Definition distinct_items (t : FPTree) : nat := length (hyperlinks t).

(** The main program after the first scan: the tree is built, then searched. *)
Definition run (depth : nat) (db : list (list Item)) (epsilon : Z)
  : result (list (list Item * Z)) :=
  t ← build db; fp_search depth t epsilon [].

(** ** Examples *)

(** The transactions of the example of the specification. *)
Definition ex_db : list (list Item) :=
  map (map Some) [[1;2;3]; [1;2]; [1;3]; [2;3]; [1;2;3;4]]%Z.

(** What the search yields on the example, in the order it yields it. *)
Definition ex_result : list (list Item * Z) :=
  [([Some 1], 4); ([Some 2], 4); ([Some 1; Some 2], 3);
   ([Some 3], 4); ([Some 1; Some 3], 3); ([Some 2; Some 3], 3)]%Z.

(** What the search yields on the example with the suffix [[4]]. *)
Definition ex_result_4 : list (list Item * Z) :=
  map (λ r, (r.1 ++ [Some 4%Z], r.2)) ex_result.

(** The same transactions once the item 4, of support 1, is filtered out. *)
Definition ex_db_filtered : list (list Item) :=
  map (map Some) [[1;2;3]; [1;2]; [1;3]; [2;3]; [1;2;3]]%Z.

(** The tree of the example database. *)
Definition ex_tree : FPTree :=
  match build ex_db with
  | Ok t => t
  | Err _ => FPTree_init
  end.

(** The order of the example database: by the integer. *)
Definition item_lt : relation Item :=
  λ a b, match a, b with
         | Some x, Some y => (x < y)%Z
         | _, _ => False
         end.

(** Two paths of one node each, the first of the item 0. *)
Definition ce_paths : list (list FPNode) :=
  [[FPNode_init (Some 0%Z) (Some 1%Z)]; [FPNode_init (Some 5%Z) (Some 2%Z)]].

(** ** Databases and the trees that stand for them *)

(** [l] with [x] put last unless it is there already: a key entering a
    dict, a path getting its node. *)
Definition add_key {A} `{EqDecision A} (x : A) (l : list A) : list A :=
  if decide (x ∈ l) then l else l ++ [x].

Definition adds {A} `{EqDecision A} (l xs : list A) : list A :=
  foldl (λ acc x, add_key x acc) l xs.

(** The elements of [xs], each once, in the order of their first places. *)
Definition first_seen {A} `{EqDecision A} (xs : list A) : list A := adds [] xs.

(** The prefixes of [tx] that are not empty, each put after [pp], from the
    shortest. *)
Fixpoint prefixes (pp tx : list Item) : list (list Item) :=
  match tx with
  | [] => []
  | x :: rest => (pp ++ [x]) :: prefixes (pp ++ [x]) rest
  end.

(** [tx] cut after the first [i], when it has one. *)
Fixpoint upto (i : Item) (tx : list Item) : option (list Item) :=
  match tx with
  | [] => None
  | x :: rest => if decide (x = i) then Some [x] else (x ::.) <$> upto i rest
  end.

(** The conditional database of [i]: the transactions that contain [i], each
    cut after [i]. *)
Definition cond_db (i : Item) (db : list (list Item)) : list (list Item) :=
  omap (upto i) db.

(** The number of transactions that start with [q]. *)
Definition count_prefix (q : list Item) (db : list (list Item)) : Z :=
  Z.of_nat (length (filter (λ tx, q `prefix_of` tx) db)).

(** The items of [s] come in [tx] in the order of [s]. *)
Fixpoint in_order (s tx : list Item) : bool :=
  match s, tx with
  | [], _ => true
  | _ :: _, [] => false
  | x :: s', y :: tx' => if decide (x = y) then in_order s' tx' else in_order s tx'
  end.

(** The number of transactions in which the items of [s] come in the order
    of [s]. *)
Definition count_sublist (s : list Item) (db : list (list Item)) : Z :=
  Z.of_nat (length (filter (λ tx, in_order s tx = true) db)).

(** The number of transactions that contain every item of [s]. *)
Definition count_subset (s : list Item) (db : list (list Item)) : Z :=
  Z.of_nat (length (filter (λ tx, s ⊆ tx) db)).

(** The sum of [f] over a list. *)
Definition lsum {A} (f : A → Z) (l : list A) : Z :=
  foldr (λ x acc, (f x + acc)%Z) 0%Z l.

(** The test of a node by its path: the path is [q]. *)
Definition path_is (q : list Item) : Item → list Item → bool :=
  λ _ q', bool_decide (q' = q).

(** [t] stands for the database [db]: [P] lists the prefixes of the
    transactions in the order in which they first come, the keys of
    [hyperlinks] are the items in the order in which they first come, and
    the supports count the transactions. *)
Record rep (t : FPTree) (P : list (list Item)) (db : list (list Item)) : Prop := {
  rep_wf : wf t P;
  rep_paths : P = adds [[]] (concat (map (prefixes []) db));
  rep_keys : (hyperlinks t).*1 = first_seen (concat db);
  rep_sum : ∀ φ, wsum φ (view (store t)) P = walk_count_all φ db
}.

(** The nodes on the way to a node have the prefixes of its path. *)
Definition way (P : list (list Item)) (l : list nat) (q : list Item) : Prop :=
  Forall2 (λ a qa, a ≠ 0 ∧ P !! a = Some qa) l (prefixes [] q).

(** The node that the items of [q] lead to from [r], child by child. *)
Fixpoint descend (h : list FPNode) (r : nat) (q : list Item) : option nat :=
  match q with
  | [] => Some r
  | x :: rest =>
      n ← h !! r;
      c ← FPNode_search n x;
      descend h c rest
  end.

(** The support of the node that [q] leads to from the root. *)
Definition support_at (t : FPTree) (q : list Item) : option (option Z) :=
  r ← descend (store t) (root t) q;
  n ← store t !! r;
  Some (support n).

(** The search on the databases themselves: the items of [db] in the order
    in which they first come, each with the number of transactions that hold
    it, and below it the search of its conditional database. *)
Fixpoint mine_items
    (rec : list (list Item) → list Item → result (list (list Item * Z)))
    (db : list (list Item)) (epsilon : Z) (suffix : list Item)
    (its : list Item) : result (list (list Item * Z)) :=
  match its with
  | [] => Ok []
  | it :: rest =>
      let c := count_containing it db in
      if (epsilon <=? c)%Z && negb (bool_decide (it ∈ suffix)) then
        sub ← rec (cond_db it db) (it :: suffix);
        more ← mine_items rec db epsilon suffix rest;
        Ok ((it :: suffix, c) :: sub ++ more)
      else mine_items rec db epsilon suffix rest
  end.

Fixpoint mine (depth : nat) (db : list (list Item)) (epsilon : Z)
    (suffix : list Item) : result (list (list Item * Z)) :=
  match depth with
  | O => Err RecursionError
  | S depth' =>
      mine_items (λ db' s, mine depth' db' epsilon s) db epsilon suffix
                 (first_seen (concat db))
  end.

(** The keys of [hyperlinks] are the items of the nodes other than the root,
    in the order in which the first node of each was made. *)
Definition keyed (t : FPTree) : Prop :=
  (hyperlinks t).*1 = first_seen (tail (map item (store t))).

(** The last item of a path, [None] for the path of the root. *)
Definition lastd (q : list Item) : Item := default None (last q).

(** [l] is the way from the root to [r], node by node. *)
Definition trailw (V : list (Item * option Z)) (P : list (list Item))
    (r : nat) (l : list nat) : Prop :=
  last l = Some r ∧ ∃ q, P !! r = Some q ∧ spells V l q ∧ way P l q.

(** The number of places of [L] that hold [x]. *)
Definition mult {A} `{EqDecision A} (x : A) (L : list A) : Z :=
  Z.of_nat (length (filter (λ y, y = x) L)).

(** The root has neither parent nor link. *)
Definition root_clean (t : FPTree) : Prop :=
  ∃ r, store t !! 0 = Some r ∧ parent r = None ∧ link r = None.

(** The count that a counter holds for an item, 0 when it holds none. *)
Definition count_of (counter : list (Item * Z)) (x : Item) : Z :=
  default 0%Z (alist_lookup x counter).

(** What is asked of the order in which a frozenset is iterated: every
    element comes, and comes once. *)
Definition frozenset_spec (frozenset : list Item → list Item) : Prop :=
  ∀ l, NoDup (frozenset l) ∧ ∀ x, x ∈ frozenset l ↔ x ∈ l.

(** By falling count. *)
Definition by_count (a b : Item * Z) : Prop := (b.2 ≤ a.2)%Z.

(** The number of transactions that hold every item of the set [K]. *)
Definition count_superset (K : gset Item) (t_sets : list (list Item)) : Z :=
  Z.of_nat (length (filter (λ t_set, K ⊆ list_to_set t_set) t_sets)).

(** The lines of the example database, as [scan_db] yields them. *)
Definition ex_lines : list (Z * Z * list Item) :=
  [(1, 3, map Some [1; 2; 3]); (2, 2, map Some [1; 2]); (3, 2, map Some [1; 3]);
   (4, 2, map Some [2; 3]); (5, 4, map Some [1; 2; 3; 4])]%Z.

(** A store of two nodes: the root, and a node of the item 7. *)
Definition ex_store : list FPNode :=
  [FPNode_init None None; FPNode_init (Some 7%Z) (Some 1%Z)].

(** A counter as the program makes them: no key twice, no count but a
    positive one. *)
Definition counter_ok (c : list (Item * Z)) : Prop :=
  NoDup c.*1 ∧ Forall (λ e, (0 < e.2)%Z) c.

(** * Lemmas *)

(** ** The error monad *)

Lemma bind_Ok {A B} (m : result A) (f : A → result B) (b : B) :
  m ≫= f = Ok b ↔ ∃ a, m = Ok a ∧ f a = Ok b.
Proof.
  destruct m as [a|e]; simpl; split.
  - eauto.
  - intros (a' & Ha & Hf). by inversion Ha.
  - discriminate.
  - intros (a' & Ha & _). discriminate.
Qed.

Lemma get_Ok (h : list FPNode) (r : nat) (n : FPNode) :
  get h r = Ok n ↔ h !! r = Some n.
Proof. unfold get. destruct (h !! r); split; congruence. Qed.

Lemma get_lookup (h : list FPNode) (r : nat) (n : FPNode) :
  h !! r = Some n → get h r = Ok n.
Proof. apply get_Ok. Qed.

(** ** Indexed filters: the references of the nodes that satisfy a test *)

Lemma ifilter_app {A} (φ : A → bool) k (l1 l2 : list A) :
  ifilter φ k (l1 ++ l2) = ifilter φ k l1 ++ ifilter φ (k + length l1) l2.
Proof.
  revert k. induction l1 as [|a l1 IH]; intros k; simpl.
  - by rewrite Nat.add_0_r.
  - rewrite IH. replace (S k + length l1) with (k + S (length l1)) by lia.
    by destruct (φ a).
Qed.

Lemma elem_of_ifilter {A} (φ : A → bool) k (l : list A) r :
  r ∈ ifilter φ k l ↔ ∃ a, k ≤ r ∧ l !! (r - k) = Some a ∧ φ a = true.
Proof.
  revert k. induction l as [|a l IH]; intros k; simpl.
  - split; [by intros ?%elem_of_nil | by intros (? & ? & ? & ?)].
  - assert (r ∈ ifilter φ (S k) l ↔
            ∃ b, k ≤ r ∧ r ≠ k ∧ l !! (r - S k) = Some b ∧ φ b = true) as Hrec.
    { rewrite IH. split; intros (b & ?); exists b; intuition lia. }
    assert (∀ b, r ≠ k → k ≤ r →
              (a :: l) !! (r - k) = Some b ↔ l !! (r - S k) = Some b) as Hshift.
    { intros b ? ?. replace (r - k) with (S (r - S k)) by lia. done. }
    destruct (φ a) eqn:Ha.
    + rewrite elem_of_cons, Hrec. split.
      * intros [->|(b & ? & ? & ? & ?)].
        -- exists a. rewrite Nat.sub_diag. auto.
        -- exists b. rewrite Hshift by done. auto.
      * intros (b & ? & Hl & ?). destruct (decide (r = k)) as [->|]; [by left|].
        right. exists b. rewrite <- Hshift by done. auto.
    + rewrite Hrec. split.
      * intros (b & ? & ? & ? & ?). exists b. rewrite Hshift by done. auto.
      * intros (b & ? & Hl & ?). destruct (decide (r = k)) as [->|].
        -- rewrite Nat.sub_diag in Hl. simpl in Hl. congruence.
        -- exists b. rewrite <- Hshift by done. auto.
Qed.

Lemma ifilter_lower {A} (φ : A → bool) k (l : list A) :
  Forall (λ r, k ≤ r < k + length l) (ifilter φ k l).
Proof.
  apply Forall_forall. intros r (a & ? & Hl & _)%elem_of_ifilter.
  apply lookup_lt_Some in Hl. lia.
Qed.

Lemma ifilter_NoDup {A} (φ : A → bool) k (l : list A) : NoDup (ifilter φ k l).
Proof.
  revert k. induction l as [|a l IH]; intros k; simpl; [constructor|].
  destruct (φ a); [|done]. constructor; [|done].
  intros Hin. pose proof (ifilter_lower φ (S k) l) as Hlow.
  rewrite Forall_forall in Hlow. apply Hlow in Hin. lia.
Qed.

Lemma ifilter_ext {A B} (φ : A → bool) (ψ : B → bool) k (l1 : list A) (l2 : list B) :
  Forall2 (λ a b, φ a = ψ b) l1 l2 → ifilter φ k l1 = ifilter ψ k l2.
Proof.
  intros H. revert k. induction H as [|a b l1 l2 Hab _ IH]; intros k; simpl; [done|].
  rewrite Hab, IH. done.
Qed.

(** ** Association lists *)

Lemma alist_lookup_None {V} k (l : list (Item * V)) :
  alist_lookup k l = None ↔ k ∉ l.*1.
Proof.
  induction l as [|[k' v] l IH]; simpl.
  - split; [intros _; apply not_elem_of_nil | done].
  - rewrite not_elem_of_cons. destruct (decide (k = k')); [|tauto].
    split; [discriminate | tauto].
Qed.

Lemma alist_lookup_app_None {V} k (v : V) (l : list (Item * V)) k' :
  alist_lookup k l = None →
  alist_lookup k' (l ++ [(k, v)]) =
    if decide (k' = k) then Some v else alist_lookup k' l.
Proof.
  induction l as [|[k1 v1] l IH]; simpl; [done|].
  destruct (decide (k = k1)); [discriminate|]. intros Hk.
  destruct (decide (k' = k1)) as [->|].
  - by destruct (decide (k1 = k)); [congruence|].
  - by apply IH.
Qed.

Lemma alist_lookup_set {V} k (v : V) (l : list (Item * V)) k' :
  alist_lookup k' (alist_set k v l) =
    if decide (k' = k) then Some v else alist_lookup k' l.
Proof.
  induction l as [|[k1 v1] l IH]; simpl.
  - by destruct (decide (k' = k)).
  - destruct (decide (k = k1)) as [->|]; simpl.
    + by destruct (decide (k' = k1)).
    + destruct (decide (k' = k1)) as [->|].
      * by destruct (decide (k1 = k)); [congruence|].
      * apply IH.
Qed.

Lemma alist_set_keys {V} k (v : V) (l : list (Item * V)) :
  is_Some (alist_lookup k l) → (alist_set k v l).*1 = l.*1.
Proof.
  induction l as [|[k1 v1] l IH]; simpl.
  - by intros [? ?].
  - destruct (decide (k = k1)); simpl; [done|]. intros H. f_equal. by apply IH.
Qed.

(** ** Well-formed trees *)

Lemma elem_of_ids_of h x r :
  r ∈ ids_of h x ↔ r ≠ 0 ∧ ∃ n, h !! r = Some n ∧ item n = x.
Proof.
  unfold ids_of. rewrite elem_of_ifilter. split.
  - intros (it & Hr & Hl & Hit). split; [lia|].
    rewrite lookup_tail, list_lookup_fmap in Hl.
    replace (S (r - 1)) with r in Hl by lia.
    destruct (h !! r) as [n|]; [|done]. exists n. split; [done|].
    simpl in Hl. apply bool_decide_eq_true in Hit. congruence.
  - intros (Hr & n & Hl & Hit). exists x. split; [lia|].
    rewrite lookup_tail, list_lookup_fmap.
    replace (S (r - 1)) with r by lia. rewrite Hl. simpl.
    split; [by rewrite Hit | by apply bool_decide_eq_true].
Qed.

Lemma ids_of_NoDup h x : NoDup (ids_of h x).
Proof. apply ifilter_NoDup. Qed.

Lemma ids_of_lt h x r : r ∈ ids_of h x → 0 < r < length h.
Proof.
  intros (? & n & Hl & _)%elem_of_ids_of. apply lookup_lt_Some in Hl. lia.
Qed.

Lemma ids_of_items h h' x : map item h = map item h' → ids_of h x = ids_of h' x.
Proof. unfold ids_of. by intros ->. Qed.

Lemma ids_of_snoc h n x :
  h ≠ [] →
  ids_of (h ++ [n]) x = ids_of h x ++ (if decide (item n = x) then [length h] else []).
Proof.
  intros Hne. unfold ids_of. destruct h as [|r h]; [done|]. simpl.
  rewrite map_app, ifilter_app. simpl. rewrite length_map.
  destruct (decide (item n = x)) as [Hx|Hx].
  - by rewrite bool_decide_eq_true_2.
  - by rewrite bool_decide_eq_false_2.
Qed.

Lemma chain_ext h h' l :
  (∀ r, r ∈ l → link <$> h !! r = link <$> h' !! r) → chain h l → chain h' l.
Proof.
  induction l as [|a l IH]; simpl; [done|]. intros Hext [(n & Ha & Hn) Hl].
  split.
  - specialize (Hext a (list_elem_of_here _ _)). rewrite Ha in Hext. simpl in Hext.
    destruct (h' !! a) as [n'|]; [|done]. exists n'. split; [done|].
    simpl in Hext. congruence.
  - apply IH; [|done]. intros r Hr. apply Hext. by apply list_elem_of_further.
Qed.

Lemma chain_snoc h h' l c :
  chain h l → NoDup l → c ∉ l →
  (∀ r n, r ∈ l → h !! r = Some n →
     ∃ n', h' !! r = Some n' ∧
           link n' = if decide (last l = Some r) then Some c else link n) →
  (∃ n, h' !! c = Some n ∧ link n = None) →
  chain h' (l ++ [c]).
Proof.
  intros Hch Hnd Hc Hold Hnew. induction l as [|a l IH]; simpl.
  - split; [|done]. destruct Hnew as (n & ? & ?). by exists n.
  - destruct Hch as [(n & Ha & Hn) Hl]. apply NoDup_cons in Hnd as [Hal Hnd].
    apply not_elem_of_cons in Hc as [Hca Hcl]. split.
    + destruct (Hold a n (list_elem_of_here _ _) Ha) as (n' & Ha' & Hn').
      exists n'. split; [done|]. rewrite Hn'. destruct l as [|b l].
      * simpl. by rewrite decide_True.
      * rewrite last_cons_cons. simpl. rewrite decide_False; [done|].
        intros Hlast. apply Hal. by apply last_Some_elem_of.
    + apply IH; try done. intros r nr Hr Hnr.
      destruct (Hold r nr (list_elem_of_further _ _ _ Hr) Hnr) as (n' & ? & Hn').
      exists n'. split; [done|]. rewrite Hn'. destruct l as [|b l].
      * by apply elem_of_nil in Hr.
      * by rewrite last_cons_cons.
Qed.

Lemma follow_links_chain h fuel a l :
  chain h (a :: l) → length l ≤ fuel → follow_links h fuel a = Ok (a :: l).
Proof.
  revert a l. induction fuel as [|fuel IH]; intros a l [(n & Ha & Hn) Hl] Hlen.
  - destruct l; [|simpl in Hlen; lia]. simpl in *.
    rewrite (get_lookup _ _ _ Ha). simpl. by rewrite Hn.
  - simpl. rewrite (get_lookup _ _ _ Ha). simpl. rewrite Hn.
    destruct l as [|b l]; simpl; [done|].
    rewrite (IH b l); [done|done|simpl in Hlen; lia].
Qed.

Lemma route_of_snoc l c : route_of (l ++ [c]) = Some (default c (head l), c).
Proof.
  unfold route_of. destruct l as [|a l]; simpl; [done|].
  change (a :: l ++ [c]) with ((a :: l) ++ [c]). by rewrite last_snoc.
Qed.

Lemma route_of_None l : route_of l = None ↔ l = [].
Proof. destruct l; simpl; split; congruence. Qed.

Lemma route_of_Some l hd tl :
  route_of l = Some (hd, tl) → head l = Some hd ∧ last l = Some tl.
Proof.
  destruct l as [|a l]; simpl; [done|]. intros [= <- <-]. split; [done|].
  destruct (last (a :: l)) eqn:E; [done|]. by apply last_None in E.
Qed.

(** ** Attaching a new node *)

Lemma FPNode_add_fresh h point np N :
  h !! point = Some np → children np !! item N = None →
  FPNode_add (h ++ [N]) point (length h) =
    Ok (<[point := set_children (<[item N := length h]> (children np)) np]> h
          ++ [set_parent (Some point) N]).
Proof.
  intros Hp Hc. unfold FPNode_add.
  rewrite (get_lookup (h ++ [N]) point np) by (by apply lookup_app_l_Some). simpl.
  rewrite (get_lookup (h ++ [N]) (length h) N) by (by apply list_lookup_middle). simpl.
  rewrite Hc. pose proof (lookup_lt_Some _ _ _ Hp) as Hlt.
  rewrite insert_app_l by done.
  rewrite (get_lookup _ _ N) by (apply list_lookup_middle; by rewrite length_insert).
  simpl. rewrite insert_app_r_alt by (by rewrite length_insert).
  rewrite length_insert, Nat.sub_diag. done.
Qed.

Lemma wf_grow t P point np pp x s h' HL' :
  wf t P →
  store t !! point = Some np → children np !! x = None → P !! point = Some pp →
  length h' = length (store t) →
  (∀ r n, store t !! r = Some n →
     ∃ n', h' !! r = Some n' ∧ item n' = item n ∧ support n' = support n ∧
       parent n' = parent n ∧
       children n' = (if decide (r = point)
                      then <[x := length (store t)]> (children n) else children n) ∧
       link n' = (if decide (last (ids_of (store t) x) = Some r)
                  then Some (length (store t)) else link n)) →
  (∀ y, alist_lookup y HL' =
     if decide (y = x)
     then Some (default (length (store t)) (head (ids_of (store t) x)), length (store t))
     else alist_lookup y (hyperlinks t)) →
  NoDup HL'.*1 →
  wf (mkFPTree (h' ++ [mkFPNode x (Some s) (Some point) ∅ None]) (root t) HL')
     (P ++ [pp ++ [x]]).
Proof.
  intros Hwf Hpt Hcx Hpp Hlen Hold Hroute Hkeys.
  destruct Hwf as [Hr (r0 & Hr0 & Hr0i & Hr0s) HlenP HP0 Hnode Hchild Hrt Hch Hk].
  set (c := length (store t)) in *.
  assert (0 < c) as Hc0 by (apply lookup_lt_Some in Hr0; lia).
  assert (point < c) as Hptc by (by apply lookup_lt_Some in Hpt).
  assert (map item h' = map item (store t)) as Hitems.
  { apply list_eq. intros r. rewrite !list_lookup_fmap.
    destruct (store t !! r) as [n|] eqn:E.
    - destruct (Hold r n E) as (n' & Hn' & Hi & _). rewrite Hn'. simpl. by rewrite Hi.
    - apply lookup_ge_None in E. rewrite (proj2 (lookup_ge_None h' r)); [done|lia]. }
  assert (h' ≠ []) as Hne by (intros ->; simpl in Hlen; lia).
  assert (store t ≠ []) as Hne' by (intros E; rewrite E in Hr0; done).
  assert (∀ r n', r < c → (h' ++ [mkFPNode x (Some s) (Some point) ∅ None]) !! r = Some n' →
            ∃ n, store t !! r = Some n ∧ h' !! r = Some n' ∧ item n' = item n ∧
              support n' = support n ∧ parent n' = parent n ∧
              children n' = (if decide (r = point) then <[x := c]> (children n)
                             else children n) ∧
              link n' = (if decide (last (ids_of (store t) x) = Some r)
                         then Some c else link n)) as Hback.
  { intros r n' Hrc Hl. rewrite lookup_app_l in Hl by lia.
    destruct (lookup_lt_is_Some_2 (store t) r Hrc) as [n Hn].
    destruct (Hold r n Hn) as (n'' & Hn'' & ?). exists n.
    assert (n'' = n') as -> by congruence. done. }
  constructor; simpl.
  - done.
  - destruct (Hold 0 r0 Hr0) as (n' & Hn' & Hi & Hs & _). exists n'.
    rewrite lookup_app_l by lia. rewrite Hi, Hs. done.
  - rewrite !length_app. simpl. lia.
  - by apply lookup_app_l_Some.
  - intros r n' Hl Hr0'. destruct (decide (r < c)) as [Hlt|Hge].
    + destruct (Hback r n' Hlt Hl) as (n & Hn & Hn' & Hi & Hs & Hpa & _).
      destruct (Hnode r n Hn Hr0') as (p & np0 & pp0 & s0 & H1 & H2 & H3 & H4 & H5 & H6 & H7).
      destruct (Hold p np0 H3) as (np' & Hnp' & _ & _ & _ & Hcn & _).
      exists p, np', pp0, s0. rewrite Hi, Hs, Hpa.
      repeat split; try done.
      * by apply lookup_app_l_Some.
      * rewrite Hcn. destruct (decide (p = point)) as [->|]; [|done].
        assert (np0 = np) as -> by congruence.
        rewrite lookup_insert_ne; [done|]. intros Hx. rewrite <- Hx in H4. congruence.
      * by apply lookup_app_l_Some.
      * by apply lookup_app_l_Some.
    + assert (r = c) as ->.
      { apply lookup_lt_Some in Hl. rewrite length_app in Hl. simpl in Hl. lia. }
      rewrite list_lookup_middle in Hl by done. inversion Hl; subst n'; simpl.
      destruct (Hold point np Hpt) as (np' & Hnp' & _ & _ & _ & Hcn & _).
      exists point, np', pp, s. repeat split; try done.
      * by apply lookup_app_l_Some.
      * rewrite Hcn, decide_True by done. by rewrite lookup_insert_eq.
      * by apply lookup_app_l_Some.
      * apply list_lookup_middle. done.
  - intros p np' y d Hl Hd. destruct (decide (p < c)) as [Hlt|Hge].
    + destruct (Hback p np' Hlt Hl) as (n & Hn & Hn' & _ & _ & _ & Hcn & _).
      rewrite Hcn in Hd.
      assert (children n !! y = Some d ∨ (p = point ∧ y = x ∧ d = c)) as [Hd'|(-> & -> & ->)].
      { destruct (decide (p = point)) as [->|]; [|by left].
        destruct (decide (x = y)) as [->|].
        - rewrite lookup_insert_eq in Hd. right. split; [done|]. split; [done|]. congruence.
        - rewrite lookup_insert_ne in Hd by done. by left. }
      * destruct (Hchild p n y d Hn Hd') as (nc & ? & Hnc & ? & ?).
        destruct (Hold d nc Hnc) as (nc' & Hnc' & Hi & _ & Hpa & _).
        exists nc'. rewrite Hi, Hpa. repeat split; try done.
        by apply lookup_app_l_Some.
      * eexists. split; [lia|]. split; [by apply list_lookup_middle|]. done.
    + assert (p = c) as ->.
      { apply lookup_lt_Some in Hl. rewrite length_app in Hl. simpl in Hl. lia. }
      rewrite list_lookup_middle in Hl by done. inversion Hl; subst np'; simpl in Hd.
      by rewrite lookup_empty in Hd.
  - intros y. rewrite Hroute, ids_of_snoc by done. simpl.
    rewrite (ids_of_items _ _ _ Hitems), Hlen. fold c.
    destruct (decide (y = x)) as [->|Hyx].
    + rewrite decide_True by done. by rewrite route_of_snoc.
    + rewrite decide_False by done. rewrite app_nil_r. apply Hrt.
  - intros y. rewrite ids_of_snoc by done. simpl.
    rewrite (ids_of_items _ _ _ Hitems), Hlen. fold c.
    destruct (decide (x = y)) as [->|Hyx].
    + apply chain_snoc with (h := store t).
      * apply Hch.
      * apply ids_of_NoDup.
      * intros Hin%ids_of_lt. lia.
      * intros r n Hin Hn. destruct (Hold r n Hn) as (n' & Hn' & _ & _ & _ & _ & Hlk).
        exists n'. split; [by apply lookup_app_l_Some|]. done.
      * eexists. split; [by apply list_lookup_middle|]. done.
    + rewrite app_nil_r. apply chain_ext with (h := store t); [|apply Hch].
      intros r Hin. pose proof Hin as (_ & n & Hn & Hni)%elem_of_ids_of.
      destruct (Hold r n Hn) as (n' & Hn' & _ & _ & _ & _ & Hlk).
      rewrite lookup_app_l by (apply lookup_lt_Some in Hn'; lia).
      rewrite Hn, Hn'. simpl. rewrite Hlk. rewrite decide_False; [done|].
      intros Hlast%last_Some_elem_of. apply elem_of_ids_of in Hlast as (_ & n2 & Hn2 & ?).
      congruence.
  - done.
Qed.

Lemma view_snoc h n : view (h ++ [n]) = view h ++ [(item n, support n)].
Proof. unfold view. by rewrite map_app. Qed.

Lemma view_insert h r n n' :
  h !! r = Some n → item n' = item n → support n' = support n →
  view (<[r := n']> h) = view h.
Proof.
  intros Hn Hi Hs. unfold view.
  change (map (λ n0 : FPNode, (item n0, support n0))) with
    (fmap (M := list) (λ n0 : FPNode, (item n0, support n0))).
  rewrite list_fmap_insert. apply list_insert_id.
  rewrite list_lookup_fmap, Hn. simpl. by rewrite Hi, Hs.
Qed.

(** What [attach] returns, at a position that has no child with the item. *)
Lemma attach_result t point np x sup :
  (∀ y, alist_lookup y (hyperlinks t) = route_of (ids_of (store t) y)) →
  store t !! point = Some np → children np !! x = None →
  ∃ h' HL',
    attach t point x sup =
      Ok (mkFPTree (h' ++ [mkFPNode x sup (Some point) ∅ None]) (root t) HL',
          length (store t)) ∧
    length h' = length (store t) ∧
    (∀ r n, store t !! r = Some n →
       ∃ n', h' !! r = Some n' ∧ item n' = item n ∧ support n' = support n ∧
         parent n' = parent n ∧
         children n' = (if decide (r = point)
                        then <[x := length (store t)]> (children n) else children n) ∧
         link n' = (if decide (last (ids_of (store t) x) = Some r)
                    then Some (length (store t)) else link n)) ∧
    (∀ y, alist_lookup y HL' =
       if decide (y = x)
       then Some (default (length (store t)) (head (ids_of (store t) x)),
                  length (store t))
       else alist_lookup y (hyperlinks t)) ∧
    (NoDup (hyperlinks t).*1 → NoDup HL'.*1).
Proof.
  intros Hrt Hpt Hcx. unfold attach. cbv zeta.
  rewrite (FPNode_add_fresh (store t) point np (FPNode_init x sup) Hpt Hcx).
  simpl.
  set (c := length (store t)).
  set (hA := <[point := set_children (<[x := c]> (children np)) np]> (store t)).
  change (set_parent (Some point) (FPNode_init x sup))
    with (mkFPNode x sup (Some point) ∅ None).
  set (N' := mkFPNode x sup (Some point) ∅ None).
  assert (length hA = c) as HlenA by (unfold hA; by rewrite length_insert).
  assert (point < c) as Hptc by (by apply lookup_lt_Some in Hpt).
  assert (∀ r n, store t !! r = Some n →
     ∃ n', hA !! r = Some n' ∧ item n' = item n ∧ support n' = support n ∧
       parent n' = parent n ∧
       children n' = (if decide (r = point) then <[x := c]> (children n) else children n) ∧
       link n' = link n) as HoldA.
  { intros r n Hn. unfold hA. destruct (decide (r = point)) as [->|Hne].
    - rewrite list_lookup_insert_eq by done.
      assert (n = np) as -> by congruence. eexists. split; [done|]. done.
    - rewrite list_lookup_insert_ne by done. exists n. done. }
  unfold update_route. simpl.
  rewrite (get_lookup (hA ++ [N']) c N') by (apply list_lookup_middle; lia).
  simpl. rewrite Hrt.
  destruct (ids_of (store t) x) as [|a l] eqn:Hids; simpl.
  - exists hA, (hyperlinks t ++ [(x, (c, c))]). split; [done|]. split; [done|].
    split; [|split].
    + intros r n Hn. destruct (HoldA r n Hn) as (n' & ? & ? & ? & ? & ? & ?).
      exists n'. done.
    + intros y. apply alist_lookup_app_None. rewrite Hrt, Hids. done.
    + intros Hnd. rewrite fmap_app. simpl. apply NoDup_app. split; [done|].
      split; [|apply NoDup_singleton].
      intros y Hy ->%list_elem_of_singleton.
      assert (alist_lookup x (hyperlinks t) = None) as Hn by (by rewrite Hrt, Hids).
      by apply alist_lookup_None in Hn.
  - set (tl := default a (last (a :: l))).
    assert (last (a :: l) = Some tl) as Hlast.
    { unfold tl. destruct (last (a :: l)) eqn:E; [done|]. by apply last_None in E. }
    assert (tl ∈ ids_of (store t) x) as Htl by (rewrite Hids; by apply last_Some_elem_of).
    pose proof (ids_of_lt _ _ _ Htl) as Htlc. fold c in Htlc.
    destruct (lookup_lt_is_Some_2 (store t) tl) as [ntl Hntl]; [lia|].
    destruct (HoldA tl ntl Hntl) as (ntl' & Hntl' & Hi1 & Hs1 & Hp1 & Hc1 & Hl1).
    rewrite (get_lookup (hA ++ [N']) tl ntl') by (by apply lookup_app_l_Some).
    simpl. rewrite insert_app_l by lia.
    eexists _, _. split; [done|]. split; [by rewrite length_insert|]. split; [|split].
    + intros r n Hn. rewrite Hlast.
      destruct (HoldA r n Hn) as (n' & Hn' & ? & ? & ? & ? & ?).
      destruct (decide (r = tl)) as [->|Hne].
      * rewrite list_lookup_insert_eq by lia. eexists. split; [done|].
        assert (n = ntl) as -> by congruence.
        assert (n' = ntl') as -> by congruence. simpl.
        repeat split; try done. by rewrite decide_True.
      * rewrite list_lookup_insert_ne by done. exists n'.
        repeat split; try done. rewrite decide_False; [done|congruence].
    + intros y. by rewrite alist_lookup_set.
    + intros Hnd. rewrite alist_set_keys; [done|]. rewrite Hrt, Hids. simpl. eauto.
Qed.

Lemma attach_spec t P point np pp x s :
  wf t P → store t !! point = Some np → children np !! x = None →
  P !! point = Some pp →
  ∃ t', attach t point x (Some s) = Ok (t', length (store t)) ∧
        wf t' (P ++ [pp ++ [x]]) ∧
        view (store t') = view (store t) ++ [(x, Some s)] ∧
        store t' !! length (store t) = Some (mkFPNode x (Some s) (Some point) ∅ None) ∧
        ∃ np', store t' !! point = Some np' ∧
               children np' = <[x := length (store t)]> (children np).
Proof.
  intros Hwf Hpt Hcx Hpp.
  destruct (attach_result t point np x (Some s) (wf_route _ _ Hwf) Hpt Hcx)
    as (h' & HL' & Ha & Hlen & Hold & Hroute & Hnd).
  eexists. split; [done|]. split; [|split; [|split]].
  - apply wf_grow with (np := np); try done. apply Hnd, Hwf.
  - simpl. rewrite view_snoc. simpl. f_equal. unfold view.
    apply list_eq. intros r. rewrite !list_lookup_fmap.
    destruct (store t !! r) as [n|] eqn:E.
    + destruct (Hold r n E) as (n' & Hn' & Hi & Hs & _). rewrite Hn'. simpl.
      by rewrite Hi, Hs.
    + apply lookup_ge_None in E. rewrite (proj2 (lookup_ge_None h' r)); [done|lia].
  - simpl. by apply list_lookup_middle.
  - destruct (Hold point np Hpt) as (np' & Hnp' & _ & _ & _ & Hcn & _).
    exists np'. split; [by apply lookup_app_l_Some|].
    by rewrite Hcn, decide_True.
Qed.

(** ** Updates that keep the shape *)

Lemma wf_update t P h' :
  wf t P →
  length h' = length (store t) →
  (∀ r n, store t !! r = Some n →
     ∃ n', h' !! r = Some n' ∧ item n' = item n ∧ parent n' = parent n ∧
       children n' = children n ∧ link n' = link n ∧
       (support n' = support n ∨ (r ≠ 0 ∧ is_Some (support n')))) →
  wf (set_store h' t) P.
Proof.
  intros [Hr (r0 & Hr0 & Hr0i & Hr0s) HlenP HP0 Hnode Hchild Hrt Hch Hk] Hlen Hold.
  assert (map item h' = map item (store t)) as Hitems.
  { apply list_eq. intros r. rewrite !list_lookup_fmap.
    destruct (store t !! r) as [n|] eqn:E.
    - destruct (Hold r n E) as (n' & Hn' & Hi & _). rewrite Hn'. simpl. by rewrite Hi.
    - apply lookup_ge_None in E. rewrite (proj2 (lookup_ge_None h' r)); [done|lia]. }
  assert (∀ r n', h' !! r = Some n' →
            ∃ n, store t !! r = Some n ∧ item n' = item n ∧ parent n' = parent n ∧
              children n' = children n ∧ link n' = link n ∧
              (support n' = support n ∨ (r ≠ 0 ∧ is_Some (support n')))) as Hback.
  { intros r n' Hl. pose proof (lookup_lt_Some _ _ _ Hl) as Hlt. rewrite Hlen in Hlt.
    destruct (lookup_lt_is_Some_2 (store t) r Hlt) as [n Hn].
    destruct (Hold r n Hn) as (n'' & Hn'' & ?). exists n.
    assert (n'' = n') as -> by congruence. done. }
  constructor; simpl.
  - done.
  - destruct (Hold 0 r0 Hr0) as (n' & Hn' & Hi & _ & _ & _ & [Hs|[? _]]); [|done].
    exists n'. rewrite Hi, Hs. done.
  - lia.
  - done.
  - intros r n' Hl Hr0'.
    destruct (Hback r n' Hl) as (n & Hn & Hi & Hpa & _ & _ & Hs).
    destruct (Hnode r n Hn Hr0') as (p & np0 & pp0 & s0 & H1 & H2 & H3 & H4 & H5 & H6 & H7).
    destruct (Hold p np0 H3) as (np' & Hnp' & _ & _ & Hcn & _).
    assert (is_Some (support n')) as [s' Hs'].
    { destruct Hs as [->|[_ ?]]; [by rewrite H5|done]. }
    exists p, np', pp0, s'. rewrite Hi, Hpa, Hcn. done.
  - intros p np' y d Hl Hd.
    destruct (Hback p np' Hl) as (n & Hn & _ & _ & Hcn & _).
    rewrite Hcn in Hd.
    destruct (Hchild p n y d Hn Hd) as (nc & ? & Hnc & ? & ?).
    destruct (Hold d nc Hnc) as (nc' & Hnc' & Hi & Hpa & _).
    exists nc'. rewrite Hi, Hpa. done.
  - intros y. rewrite (ids_of_items _ _ _ Hitems). apply Hrt.
  - intros y. rewrite (ids_of_items _ _ _ Hitems).
    apply chain_ext with (h := store t); [|apply Hch].
    intros r Hin. pose proof Hin as (_ & n & Hn & Hni)%elem_of_ids_of.
    destruct (Hold r n Hn) as (n' & Hn' & _ & _ & _ & Hlk & _).
    rewrite Hn, Hn'. simpl. by rewrite Hlk.
  - done.
Qed.

Lemma wf_set_support t P c n s :
  wf t P → store t !! c = Some n → c ≠ 0 →
  wf (set_store (<[c := set_support (Some s) n]> (store t)) t) P.
Proof.
  intros Hwf Hc Hc0. apply wf_update; [done|by rewrite length_insert|].
  intros r m Hm. destruct (decide (r = c)) as [->|Hne].
  - rewrite list_lookup_insert_eq by (by apply lookup_lt_Some in Hc).
    assert (m = n) as -> by congruence. eexists. split; [done|]. simpl.
    repeat split; try done. right. eauto.
  - rewrite list_lookup_insert_ne by done. exists m. repeat split; try done. by left.
Qed.

Lemma wf_init : wf FPTree_init [[]].
Proof.
  constructor; simpl; try done.
  - eexists. done.
  - intros [|r] n Hl Hr; [done|]. done.
  - intros [|p] np x c Hl Hc; [|done]. inversion Hl; subst np. simpl in Hc.
    by rewrite lookup_empty in Hc.
  - constructor.
Qed.

Lemma wf_lookup_path t P r n :
  wf t P → store t !! r = Some n → ∃ q, P !! r = Some q.
Proof.
  intros Hwf Hn. apply lookup_lt_Some in Hn. rewrite <- (wf_len _ _ Hwf) in Hn.
  by apply lookup_lt_is_Some_2.
Qed.

(** A child found by [search] lies one item further than its parent. *)
Lemma wf_found t P point np pp x c :
  wf t P → store t !! point = Some np → P !! point = Some pp →
  children np !! x = Some c →
  ∃ nc s, c ≠ 0 ∧ store t !! c = Some nc ∧ item nc = x ∧ support nc = Some s ∧
          parent nc = Some point ∧ P !! c = Some (pp ++ [x]).
Proof.
  intros Hwf Hpt Hpp Hc.
  destruct (wf_child _ _ Hwf point np x c Hpt Hc) as (nc & Hc0 & Hnc & Hpa & Hi).
  destruct (wf_node _ _ Hwf c nc Hnc Hc0) as (p & np0 & pp0 & s & H1 & _ & _ & _ & H5 & H6 & H7).
  exists nc, s. assert (p = point) as -> by congruence.
  assert (pp0 = pp) as -> by congruence. rewrite Hi in H7. done.
Qed.

(** ** One round of [add_transaction] *)

Lemma add_transaction_step_found t point np x c nc s :
  store t !! point = Some np → children np !! x = Some c →
  store t !! c = Some nc → support nc = Some s →
  add_transaction_step t point x =
    Ok (set_store (<[c := set_support (Some (s + 1)%Z) nc]> (store t)) t, c).
Proof.
  intros Hpt Hc Hnc Hs. unfold add_transaction_step, FPNode_search.
  rewrite (get_lookup _ _ _ Hpt). simpl. rewrite Hc.
  unfold increment_node_support. rewrite (get_lookup _ _ _ Hnc). simpl.
  by rewrite Hs.
Qed.

Lemma add_transaction_step_new t point np x :
  store t !! point = Some np → children np !! x = None →
  add_transaction_step t point x = attach t point x (Some 1%Z).
Proof.
  intros Hpt Hc. unfold add_transaction_step, FPNode_search, attach.
  rewrite (get_lookup _ _ _ Hpt). simpl. by rewrite Hc.
Qed.

Lemma project_step_found seed t current np node c :
  store t !! current = Some np → children np !! item node = Some c →
  project_step seed t current node = Ok (t, c).
Proof.
  intros Hpt Hc. unfold project_step, FPNode_search.
  rewrite (get_lookup _ _ _ Hpt). simpl. by rewrite Hc.
Qed.

Lemma project_step_new seed t current np node :
  store t !! current = Some np → children np !! item node = None →
  project_step seed t current node =
    attach t current (item node)
      (if item_eq_seed (item node) seed then support node else Some 0%Z).
Proof.
  intros Hpt Hc. unfold project_step, FPNode_search, attach.
  rewrite (get_lookup _ _ _ Hpt). simpl. by rewrite Hc.
Qed.

(** ** Weighted sums of supports *)

Lemma zsum_app {A B} (F : A → B → Z) (l1 l1' : list A) (l2 l2' : list B) :
  length l1 = length l2 →
  zsum F (l1 ++ l1') (l2 ++ l2') = (zsum F l1 l2 + zsum F l1' l2')%Z.
Proof.
  revert l2. induction l1 as [|a l1 IH]; intros [|b l2] Hlen; simpl in *; try done.
  rewrite IH by lia. lia.
Qed.

Lemma zsum_insert {A B} (F : A → B → Z) (l1 : list A) (l2 : list B) c a a' b :
  l1 !! c = Some a → l2 !! c = Some b →
  zsum F (<[c := a']> l1) l2 = (zsum F l1 l2 - F a b + F a' b)%Z.
Proof.
  revert l2 c. induction l1 as [|a1 l1 IH]; intros [|b1 l2] [|c] H1 H2; simpl in *;
    try done.
  - inversion H1; inversion H2; subst. lia.
  - rewrite (IH l2 c H1 H2). lia.
Qed.

Lemma wsum_snoc φ V P x s q :
  V ≠ [] → length V = length P →
  wsum φ (V ++ [(x, Some s)]) (P ++ [q]) = (wsum φ V P + if φ x q then s else 0)%Z.
Proof.
  intros Hne Hlen. unfold wsum. destruct V as [|v V]; [done|].
  destruct P as [|p P]; [done|]. simpl in *.
  rewrite zsum_app by lia. simpl. lia.
Qed.

Lemma wsum_insert φ V P c x s s' q :
  c ≠ 0 → V !! c = Some (x, Some s) → P !! c = Some q →
  wsum φ (<[c := (x, Some s')]> V) P = (wsum φ V P + if φ x q then s' - s else 0)%Z.
Proof.
  intros Hc HV HP. unfold wsum. destruct c as [|c]; [done|].
  destruct V as [|v V]; [done|]. destruct P as [|p P]; [done|]. simpl in *.
  rewrite (zsum_insert _ _ _ _ _ _ _ HV HP). simpl. destruct (φ x q); lia.
Qed.

Lemma view_lookup h r n : h !! r = Some n → view h !! r = Some (item n, support n).
Proof.
  intros Hn. unfold view.
  change (map (λ n0 : FPNode, (item n0, support n0))) with
    (fmap (M := list) (λ n0 : FPNode, (item n0, support n0))).
  by rewrite list_lookup_fmap, Hn.
Qed.

Lemma view_set_support h r n s :
  h !! r = Some n →
  view (<[r := set_support s n]> h) = <[r := (item n, s)]> (view h).
Proof.
  intros Hn. unfold view.
  change (map (λ n0 : FPNode, (item n0, support n0))) with
    (fmap (M := list) (λ n0 : FPNode, (item n0, support n0))).
  by rewrite list_fmap_insert.
Qed.

Lemma view_length h : length (view h) = length h.
Proof. unfold view. apply length_map. Qed.

Lemma wf_point t P point pp :
  wf t P → P !! point = Some pp → ∃ np, store t !! point = Some np.
Proof.
  intros Hwf Hpp. apply lookup_lt_Some in Hpp. rewrite (wf_len _ _ Hwf) in Hpp.
  by apply lookup_lt_is_Some_2.
Qed.

Lemma wf_store_nonempty t P : wf t P → store t ≠ [].
Proof. intros Hwf E. destruct (wf_root_node _ _ Hwf) as (r & Hr & _). by rewrite E in Hr. Qed.

(** ** Paths name nodes *)

Lemma wf_path_nonroot t P r n q :
  wf t P → store t !! r = Some n → r ≠ 0 → P !! r = Some q →
  ∃ q', q = q' ++ [item n].
Proof.
  intros Hwf Hn Hr Hq.
  destruct (wf_node _ _ Hwf r n Hn Hr) as (p & np & pp & s & _ & _ & _ & _ & _ & _ & H7).
  exists pp. congruence.
Qed.

Lemma wf_path_inj t P q : ∀ a b,
  wf t P → P !! a = Some q → P !! b = Some q → a = b.
Proof.
  induction q as [|x q IH] using rev_ind; intros a b Hwf Ha Hb.
  - assert (∀ c, P !! c = Some [] → c = 0) as H0.
    { intros c Hc. destruct (decide (c = 0)) as [|Hne]; [done|].
      destruct (wf_point _ _ _ _ Hwf Hc) as [n Hn].
      destruct (wf_path_nonroot _ _ _ _ _ Hwf Hn Hne Hc) as (q' & Hq').
      by destruct q'. }
    by rewrite (H0 a Ha), (H0 b Hb).
  - assert (∀ c, P !! c = Some (q ++ [x]) →
              ∃ n p np, store t !! c = Some n ∧ item n = x ∧ store t !! p = Some np ∧
                        children np !! x = Some c ∧ P !! p = Some q) as Hup.
    { intros c Hc. destruct (wf_point _ _ _ _ Hwf Hc) as [n Hn].
      assert (c ≠ 0) as Hc0.
      { intros ->. rewrite (wf_root_path _ _ Hwf) in Hc. inversion Hc as [Hq].
        by destruct q. }
      destruct (wf_node _ _ Hwf c n Hn Hc0)
        as (p & np & pp & s & _ & _ & H3 & H4 & _ & H6 & H7).
      rewrite Hc in H7. inversion H7 as [Hq]. apply app_inj_tail in Hq as [-> ->].
      exists n, p, np. done. }
    destruct (Hup a Ha) as (na & pa & npa & _ & _ & Hpa & Hca & HPa).
    destruct (Hup b Hb) as (nb & pb & npb & _ & _ & Hpb & Hcb & HPb).
    assert (pa = pb) as -> by (by apply IH).
    congruence.
Qed.

Lemma wf_paths_NoDup t P : wf t P → NoDup P.
Proof.
  intros Hwf. apply NoDup_alt. intros a b q Ha Hb. by apply (wf_path_inj t P q).
Qed.

(** [search] finds a child exactly when the longer path names a node. *)
Lemma wf_search t P point np pp x c :
  wf t P → store t !! point = Some np → P !! point = Some pp →
  P !! c = Some (pp ++ [x]) → children np !! x = Some c.
Proof.
  intros Hwf Hpt Hpp Hc. destruct (wf_point _ _ _ _ Hwf Hc) as [n Hn].
  assert (c ≠ 0) as Hc0.
  { intros ->. rewrite (wf_root_path _ _ Hwf) in Hc. inversion Hc as [Hq].
    by destruct pp. }
  destruct (wf_node _ _ Hwf c n Hn Hc0)
    as (p & np0 & pp0 & s & _ & _ & H3 & H4 & _ & H6 & H7).
  rewrite Hc in H7. inversion H7 as [Hq]. apply app_inj_tail in Hq as [-> ->].
  assert (p = point) as -> by (by apply (wf_path_inj t P pp0)).
  congruence.
Qed.

(** ** The linked list of an item *)

Lemma ifilter_length {A} (φ : A → bool) k (l : list A) :
  length (ifilter φ k l) ≤ length l.
Proof.
  revert k. induction l as [|a l IH]; intros k; simpl; [done|].
  specialize (IH (S k)). destruct (φ a); simpl; lia.
Qed.

Lemma tail_length {A} (l : list A) : length (tail l) = pred (length l).
Proof. by destruct l. Qed.

Lemma ids_of_length h x : length (ids_of h x) ≤ length h.
Proof.
  unfold ids_of. etrans; [apply ifilter_length|].
  rewrite tail_length, length_map. lia.
Qed.

Lemma wf_key t P x : wf t P → x ∈ (hyperlinks t).*1 ↔ ids_of (store t) x ≠ [].
Proof.
  intros Hwf. rewrite <- route_of_None, <- (wf_route _ _ Hwf), alist_lookup_None.
  destruct (decide (x ∈ (hyperlinks t).*1)); tauto.
Qed.

Lemma nodes_spec t P x :
  wf t P → x ∈ (hyperlinks t).*1 → nodes t x = Ok (ids_of (store t) x).
Proof.
  intros Hwf Hx. apply (wf_key _ _ _ Hwf) in Hx. unfold nodes.
  rewrite (wf_route _ _ Hwf). pose proof (wf_chain _ _ Hwf x) as Hch.
  pose proof (ids_of_length (store t) x) as Hlen.
  destruct (ids_of (store t) x) as [|a l]; [done|]. simpl.
  apply follow_links_chain; [done|]. simpl in Hlen. lia.
Qed.

Lemma nodes_absent t x :
  alist_lookup x (hyperlinks t) = None → nodes t x = Err UnboundLocalError.
Proof. intros H. unfold nodes. by rewrite H. Qed.

(** ** Sums over a list of references *)

Lemma isum_ifilter G (ψ : Item → bool) (V : list (Item * option Z)) (P : list (list Item)) :
  ∀ (l : list (Item * option Z)) (Pl : list (list Item)) k,
  length l = length Pl →
  (∀ i, l !! i = V !! (k + i)) → (∀ i, Pl !! i = P !! (k + i)) →
  isum G V P (ifilter ψ k (map fst l)) =
    zsum (λ v q, if ψ v.1 then G v q else 0%Z) l Pl.
Proof.
  induction l as [|v l IH]; intros [|q Pl] k Hlen Hl HP; simpl in *; try done.
  assert (isum G V P (ifilter ψ (S k) (map fst l)) =
          zsum (λ v q, if ψ v.1 then G v q else 0%Z) l Pl) as Hrec.
  { apply IH; [lia| |].
    - intros i. specialize (Hl (S i)). simpl in Hl. rewrite Hl. f_equal. lia.
    - intros i. specialize (HP (S i)). simpl in HP. rewrite HP. f_equal. lia. }
  destruct (ψ v.1); simpl; [|by rewrite Hrec].
  specialize (Hl 0). specialize (HP 0). simpl in Hl, HP.
  rewrite Nat.add_0_r in Hl, HP. rewrite <- Hl, <- HP, Hrec. done.
Qed.

Lemma view_items h : map fst (view h) = map item h.
Proof. unfold view. rewrite map_map. done. Qed.

Lemma tail_map {A B} (f : A → B) (l : list A) : tail (map f l) = map f (tail l).
Proof. by destruct l. Qed.

(** Summing over the linked list of [x] is summing over the nodes of [x]. *)
Lemma isum_ids_of G t P x :
  wf t P →
  isum G (view (store t)) P (ids_of (store t) x) =
    zsum (λ v q, if bool_decide (v.1 = x) then G v q else 0%Z)
         (tail (view (store t))) (tail P).
Proof.
  intros Hwf. unfold ids_of. rewrite <- view_items, tail_map.
  apply (isum_ifilter G (λ it, bool_decide (it = x))).
  - rewrite !tail_length, view_length, (wf_len _ _ Hwf). done.
  - intros i. by rewrite lookup_tail.
  - intros i. by rewrite lookup_tail.
Qed.

Lemma sum_support_isum h V P ids :
  V = view h → length P = length h →
  Forall (λ r, ∃ n s, h !! r = Some n ∧ support n = Some s) ids →
  sum_support h ids = Ok (isum (λ v _, default 0%Z v.2) V P ids).
Proof.
  intros -> Hlen. induction 1 as [|r ids (n & s & Hn & Hs) _ IH]; simpl; [done|].
  rewrite (get_lookup _ _ _ Hn). simpl. rewrite Hs, IH. simpl.
  rewrite (view_lookup _ _ _ Hn).
  destruct (lookup_lt_is_Some_2 P r) as [q ->].
  { rewrite Hlen. by apply lookup_lt_Some in Hn. }
  simpl. by rewrite Hs.
Qed.

Lemma ids_of_support t P x :
  wf t P →
  Forall (λ r, ∃ n s, store t !! r = Some n ∧ support n = Some s) (ids_of (store t) x).
Proof.
  intros Hwf. apply Forall_forall. intros r (Hr & n & Hn & _)%elem_of_ids_of.
  destruct (wf_node _ _ Hwf r n Hn Hr) as (_ & _ & _ & s & _ & _ & _ & _ & Hs & _).
  eauto.
Qed.

(** What [fp_search] computes as [tree_support]. *)
Lemma sum_support_ids_of t P x :
  wf t P →
  sum_support (store t) (ids_of (store t) x) =
    Ok (wsum (λ it _, bool_decide (it = x)) (view (store t)) P).
Proof.
  intros Hwf.
  rewrite (sum_support_isum _ (view (store t)) P); try done.
  - f_equal. apply (isum_ids_of _ _ _ _ Hwf).
  - apply Hwf.
  - by apply ids_of_support with (P := P).
Qed.

(** ** The walk of [add_transaction] *)

Lemma items_set_support h r n s :
  h !! r = Some n → map item (<[r := set_support s n]> h) = map item h.
Proof.
  intros Hn. change (map item) with (fmap (M := list) item).
  rewrite list_fmap_insert. apply list_insert_id.
  by rewrite list_lookup_fmap, Hn.
Qed.

Lemma add_transaction_step_spec t P point pp x :
  wf t P → P !! point = Some pp →
  ∃ t' P' c, add_transaction_step t point x = Ok (t', c) ∧ wf t' P' ∧
    P' !! c = Some (pp ++ [x]) ∧
    ((P' = P ∧ map item (store t') = map item (store t)) ∨
     (P' = P ++ [pp ++ [x]] ∧ ∀ c', P !! c' ≠ Some (pp ++ [x]))) ∧
    ∀ φ, wsum φ (view (store t')) P' =
         (wsum φ (view (store t)) P + if φ x (pp ++ [x]) then 1 else 0)%Z.
Proof.
  intros Hwf Hpp. destruct (wf_point _ _ _ _ Hwf Hpp) as [np Hpt].
  destruct (children np !! x) as [c|] eqn:Hc.
  - destruct (wf_found _ _ _ _ _ _ _ Hwf Hpt Hpp Hc)
      as (nc & s & Hc0 & Hnc & Hi & Hs & _ & HPc).
    rewrite (add_transaction_step_found _ _ _ _ _ _ _ Hpt Hc Hnc Hs).
    eexists _, P, c. split; [done|]. split; [by apply wf_set_support|].
    split; [done|]. split.
    { left. split; [done|]. simpl. by apply items_set_support. }
    intros φ. simpl.
    rewrite (view_set_support _ _ _ _ Hnc), Hi.
    rewrite (wsum_insert φ _ P c x s (s + 1)%Z (pp ++ [x])); try done.
    + destruct (φ x (pp ++ [x])); lia.
    + rewrite (view_lookup _ _ _ Hnc). by rewrite Hi, Hs.
  - rewrite (add_transaction_step_new _ _ _ _ Hpt Hc).
    destruct (attach_spec t P point np pp x 1%Z Hwf Hpt Hc Hpp)
      as (t' & Ha & Hwf' & Hv & _).
    exists t', (P ++ [pp ++ [x]]), (length (store t)). split; [done|].
    split; [done|]. split.
    { apply list_lookup_middle. by rewrite (wf_len _ _ Hwf). }
    split.
    { right. split; [done|]. intros c' Hc'.
      pose proof (wf_search _ _ _ _ _ _ _ Hwf Hpt Hpp Hc'). congruence. }
    intros φ. rewrite Hv. apply wsum_snoc.
    + intros E. apply (wf_store_nonempty _ _ Hwf). by destruct (store t).
    + by rewrite view_length, (wf_len _ _ Hwf).
Qed.

Lemma add_transaction_from_spec tx : ∀ t P point pp,
  wf t P → P !! point = Some pp →
  ∃ t' P', add_transaction_from t point tx = Ok t' ∧ wf t' P' ∧
    (∀ Q : list Item → Prop, Forall Q P →
       (∀ k, 0 < k ≤ length tx → Q (pp ++ take k tx)) → Forall Q P') ∧
    ((∀ k, 0 < k ≤ length tx → ∃ c, P !! c = Some (pp ++ take k tx)) →
       P' = P ∧ map item (store t') = map item (store t)) ∧
    (∀ φ, wsum φ (view (store t')) P' =
          (wsum φ (view (store t)) P + walk_count φ pp tx)%Z) ∧
    (∃ ext, P' = P ++ ext) ∧
    (∀ k, 0 < k ≤ length tx → ∃ c, P' !! c = Some (pp ++ take k tx)).
Proof.
  induction tx as [|x tx IH]; intros t P point pp Hwf Hpp; simpl.
  - exists t, P. split; [done|]. split; [done|]. split; [by intros|].
    split; [done|]. split; [intros φ; lia|]. split; [exists []; by rewrite app_nil_r|].
    intros k Hk. lia.
  - destruct (add_transaction_step_spec t P point pp x Hwf Hpp)
      as (t1 & P1 & c & Hstep & Hwf1 & HPc & HP1 & Hsum1).
    rewrite Hstep. simpl.
    destruct (IH t1 P1 c (pp ++ [x]) Hwf1 HPc)
      as (t2 & P2 & Hrest & Hwf2 & HQ2 & Hsame2 & Hsum2 & [ext2 Hext2] & Hin2).
    exists t2, P2. split; [done|]. split; [done|]. split; [|split; [|split; [|split]]].
    + intros Q HQ Hpre. apply HQ2.
      * destruct HP1 as [[-> _]|[-> _]]; [done|]. apply Forall_app. split; [done|].
        apply Forall_singleton. apply (Hpre 1). simpl; lia.
      * intros k Hk. rewrite <- app_assoc. apply (Hpre (S k)). simpl; lia.
    + intros Hin. destruct HP1 as [[-> Hit1]|[_ Hnew]].
      * destruct Hsame2 as [-> Hit2].
        { intros k Hk. rewrite <- app_assoc. apply (Hin (S k)). simpl; lia. }
        split; [done|]. by rewrite Hit2.
      * destruct (Hin 1) as [c' Hc']; [simpl; lia|]. simpl in Hc'. by apply Hnew in Hc'.
    + intros φ. rewrite Hsum2, Hsum1. lia.
    + destruct HP1 as [[-> _]|[-> _]]; [by exists ext2|].
      exists ([pp ++ [x]] ++ ext2). by rewrite Hext2, <- app_assoc.
    + intros [|[|k]] Hk; [lia| |].
      * simpl. exists c. rewrite Hext2. by apply lookup_app_l_Some.
      * destruct (Hin2 (S k)) as [c' Hc']; [simpl in *; lia|].
        exists c'. rewrite Hc'. by rewrite <- app_assoc.
Qed.

Lemma add_transaction_spec t P tx :
  wf t P →
  ∃ t' P', add_transaction t tx = Ok t' ∧ wf t' P' ∧
    (∀ Q : list Item → Prop, Forall Q P →
       (∀ k, 0 < k ≤ length tx → Q (take k tx)) → Forall Q P') ∧
    ((∀ k, 0 < k ≤ length tx → ∃ c, P !! c = Some (take k tx)) →
       P' = P ∧ map item (store t') = map item (store t)) ∧
    (∀ φ, wsum φ (view (store t')) P' =
          (wsum φ (view (store t)) P + walk_count φ [] tx)%Z) ∧
    (∃ ext, P' = P ++ ext) ∧
    (∀ k, 0 < k ≤ length tx → ∃ c, P' !! c = Some (take k tx)).
Proof.
  intros Hwf. unfold add_transaction. rewrite (wf_root _ _ Hwf).
  apply (add_transaction_from_spec tx t P 0 [] Hwf (wf_root_path _ _ Hwf)).
Qed.

Lemma add_transactions_spec txs : ∀ t P,
  wf t P →
  ∃ t' P', add_transactions t txs = Ok t' ∧ wf t' P' ∧
    (∀ Q : list Item → Prop, Forall Q P →
       (∀ tx k, tx ∈ txs → 0 < k ≤ length tx → Q (take k tx)) → Forall Q P') ∧
    ∀ φ, wsum φ (view (store t')) P' =
         (wsum φ (view (store t)) P + walk_count_all φ txs)%Z.
Proof.
  induction txs as [|tx txs IH]; intros t P Hwf; simpl.
  - exists t, P. split; [done|]. split; [done|]. split; [by intros|]. intros φ. lia.
  - destruct (add_transaction_spec t P tx Hwf)
      as (t1 & P1 & H1 & Hwf1 & HQ1 & _ & Hs1 & _).
    rewrite H1. simpl.
    destruct (IH t1 P1 Hwf1) as (t2 & P2 & H2 & Hwf2 & HQ2 & Hs2).
    exists t2, P2. split; [done|]. split; [done|]. split.
    + intros Q HQ Hpre. apply HQ2.
      * apply HQ1; [done|]. intros k Hk. apply (Hpre tx k); [apply list_elem_of_here|done].
      * intros tx' k Hin Hk. apply (Hpre tx' k); [by apply list_elem_of_further|done].
    + intros φ. rewrite Hs2, Hs1. lia.
Qed.

Lemma build_spec txs :
  ∃ t P, build txs = Ok t ∧ wf t P ∧
    (∀ Q : list Item → Prop, Q [] →
       (∀ tx k, tx ∈ txs → 0 < k ≤ length tx → Q (take k tx)) → Forall Q P) ∧
    ∀ φ, wsum φ (view (store t)) P = walk_count_all φ txs.
Proof.
  destruct (add_transactions_spec txs FPTree_init [[]] wf_init)
    as (t & P & Hb & Hwf & HQ & Hs).
  exists t, P. split; [done|]. split; [done|]. split.
  - intros Q HQ0 Hpre. apply HQ; [by apply Forall_singleton|done].
  - intros φ. rewrite Hs. unfold wsum. simpl. lia.
Qed.

(** ** Counting transactions *)

Lemma walk_count_item i tx : ∀ pp,
  NoDup tx →
  walk_count (λ it _, bool_decide (it = i)) pp tx = if decide (i ∈ tx) then 1%Z else 0%Z.
Proof.
  induction tx as [|x tx IH]; intros pp Hnd; simpl.
  - destruct (decide (i ∈ [])) as [H%elem_of_nil|]; done.
  - apply NoDup_cons in Hnd as [Hx Hnd]. rewrite (IH _ Hnd).
    destruct (decide (x = i)) as [->|Hne].
    + rewrite bool_decide_eq_true_2 by done.
      rewrite (decide_True (P := i ∈ i :: tx)) by apply list_elem_of_here.
      by rewrite decide_False.
    + rewrite bool_decide_eq_false_2 by done.
      destruct (decide (i ∈ tx)) as [Hin|Hin].
      * rewrite decide_True; [done|]. by apply list_elem_of_further.
      * rewrite decide_False; [done|]. rewrite not_elem_of_cons. split; congruence.
Qed.

Lemma walk_count_all_item i txs :
  Forall NoDup txs →
  walk_count_all (λ it _, bool_decide (it = i)) txs = count_containing i txs.
Proof.
  unfold count_containing. induction 1 as [|tx txs Hnd _ IH]; simpl; [done|].
  rewrite IH, (walk_count_item i tx [] Hnd), filter_cons.
  destruct (decide (i ∈ tx)); simpl; lia.
Qed.

(** ** The first pass of [project], on views and paths *)

Lemma project_step_spec seed t P point pp node :
  wf t P → P !! point = Some pp → is_Some (support node) →
  ∃ t' P' c, project_step seed t point node = Ok (t', c) ∧ wf t' P' ∧
    P' !! c = Some (pp ++ [item node]) ∧
    (view (store t'), P') = abs_path seed (view (store t), P) pp [node].
Proof.
  intros Hwf Hpp Hsup. destruct (wf_point _ _ _ _ Hwf Hpp) as [np Hpt].
  assert (is_Some (new_support seed node)) as [s Hs].
  { unfold new_support. destruct (item_eq_seed _ _); eauto. }
  simpl. destruct (children np !! item node) as [c|] eqn:Hc.
  - destruct (wf_found _ _ _ _ _ _ _ Hwf Hpt Hpp Hc)
      as (nc & s' & Hc0 & Hnc & Hi & Hs' & _ & HPc).
    rewrite (project_step_found _ _ _ _ _ _ Hpt Hc).
    exists t, P, c. split; [done|]. split; [done|]. split; [done|].
    rewrite decide_True; [done|]. by apply list_elem_of_lookup_2 in HPc.
  - rewrite (project_step_new _ _ _ _ _ Hpt Hc). fold (new_support seed node).
    rewrite Hs.
    destruct (attach_spec t P point np pp (item node) s Hwf Hpt Hc Hpp)
      as (t' & Ha & Hwf' & Hv & _).
    exists t', (P ++ [pp ++ [item node]]), (length (store t)). split; [done|].
    split; [done|]. split.
    { apply list_lookup_middle. by rewrite (wf_len _ _ Hwf). }
    rewrite decide_False; [by rewrite Hv|].
    intros [c' Hc']%list_elem_of_lookup_1.
    pose proof (wf_search _ _ _ _ _ _ _ Hwf Hpt Hpp Hc'). congruence.
Qed.

Lemma project_path_spec seed path : ∀ t P point pp,
  wf t P → P !! point = Some pp → Forall (λ n, is_Some (support n)) path →
  ∃ t' P', project_path seed t point path = Ok t' ∧ wf t' P' ∧
    (view (store t'), P') = abs_path seed (view (store t), P) pp path.
Proof.
  induction path as [|n path IH]; intros t P point pp Hwf Hpp Hsup.
  - exists t, P. done.
  - apply Forall_cons in Hsup as [Hn Hsup].
    destruct (project_step_spec seed t P point pp n Hwf Hpp Hn)
      as (t1 & P1 & c & Hstep & Hwf1 & HPc & Habs).
    simpl project_path. rewrite Hstep. simpl.
    destruct (IH t1 P1 c (pp ++ [item n]) Hwf1 HPc Hsup) as (t2 & P2 & Hrest & Hwf2 & Habs2).
    exists t2, P2. split; [done|]. split; [done|].
    rewrite Habs2, Habs. done.
Qed.

Lemma take_seed_ends_in i seed path :
  ends_in i path → seed = SeedFalse ∨ seed = SeedItem i →
  take_seed seed path = Ok (SeedItem i).
Proof.
  intros (n & Hl & Hi) Hseed. unfold take_seed.
  destruct (seed_truthy seed) eqn:Ht.
  - destruct Hseed as [->| ->]; [done|done].
  - by rewrite Hl, Hi.
Qed.

Lemma project_paths_spec i paths : ∀ seed t P,
  wf t P → seed = SeedFalse ∨ seed = SeedItem i →
  Forall (λ path, ends_in i path ∧ Forall (λ n, is_Some (support n)) path) paths →
  ∃ t' P', project_paths seed t paths =
             Ok (if decide (paths = []) then seed else SeedItem i, t') ∧
    wf t' P' ∧
    (view (store t'), P') = abs_paths (SeedItem i) (view (store t), P) paths.
Proof.
  induction paths as [|path paths IH]; intros seed t P Hwf Hseed Hall.
  - exists t, P. done.
  - apply Forall_cons in Hall as [[Hend Hsup] Hall]. simpl project_paths.
    rewrite (take_seed_ends_in i seed path Hend Hseed). simpl.
    rewrite (wf_root _ _ Hwf).
    destruct (project_path_spec (SeedItem i) path t P 0 [] Hwf (wf_root_path _ _ Hwf) Hsup)
      as (t1 & P1 & Hp & Hwf1 & Habs1).
    rewrite Hp. simpl.
    destruct (IH (SeedItem i) t1 P1 Hwf1 (or_intror eq_refl) Hall)
      as (t2 & P2 & Hps & Hwf2 & Habs2).
    exists t2, P2. split; [|split; [done|]].
    + rewrite Hps. by destruct paths.
    + simpl. rewrite Habs2, Habs1. done.
Qed.

(** ** Prefix paths *)

Lemma walk_up_spec t P : ∀ r fuel acc q,
  wf t P → P !! r = Some q → r ≤ fuel →
  ∃ l, walk_up (store t) fuel r acc = Ok (l ++ acc) ∧ spells (view (store t)) l q ∧
       (r ≠ 0 → last l = Some r).
Proof.
  induction r as [r IH] using lt_wf_ind. intros fuel acc q Hwf Hq Hfuel.
  destruct (wf_point _ _ _ _ Hwf Hq) as [n Hn].
  destruct (decide (r = 0)) as [->|Hr].
  - destruct (wf_root_node _ _ Hwf) as (r0 & Hr0 & Hi & Hs).
    rewrite (wf_root_path _ _ Hwf) in Hq. inversion Hq; subst q.
    exists []. split; [|split; [constructor|done]].
    destruct fuel; simpl; rewrite (get_lookup _ _ _ Hr0); simpl;
      unfold FPNode_root; by rewrite Hi, Hs.
  - destruct (wf_node _ _ Hwf r n Hn Hr)
      as (p & np & pp & s & H1 & H2 & H3 & H4 & H5 & H6 & H7).
    assert (q = pp ++ [item n]) as -> by congruence.
    destruct fuel as [|fuel]; [lia|].
    destruct (IH p H2 fuel (r :: acc) pp Hwf H6 ltac:(lia)) as (l & Hl & Hsp & _).
    exists (l ++ [r]). split; [|split].
    + simpl. rewrite (get_lookup _ _ _ Hn). simpl.
      unfold FPNode_root. rewrite H5.
      rewrite (bool_decide_eq_false_2 (Some s = None)) by done.
      rewrite andb_false_r, H1, Hl. by rewrite <- app_assoc.
    + apply Forall2_app; [done|]. constructor; [|constructor].
      split; [done|]. by rewrite (view_lookup _ _ _ Hn).
    + intros _. apply last_snoc.
Qed.

Lemma prefix_paths_of_spec t P ns :
  wf t P → Forall (λ r, 0 < r < length (store t)) ns →
  ∃ paths, prefix_paths_of (store t) ns = Ok paths ∧
           Forall2 (trail (view (store t)) P) ns paths.
Proof.
  intros Hwf. induction 1 as [|r ns Hr _ (paths & Hps & Htr)]; simpl.
  - exists []. split; [done|constructor].
  - destruct (lookup_lt_is_Some_2 P r) as [q Hq]; [rewrite (wf_len _ _ Hwf); lia|].
    destruct (walk_up_spec t P r (length (store t)) [] q Hwf Hq ltac:(lia))
      as (l & Hl & Hsp & Hlast).
    rewrite Hl, app_nil_r, Hps. simpl. exists (l :: paths). split; [done|].
    constructor; [|done]. split; [apply Hlast; lia|]. eauto.
Qed.

Lemma ids_of_range h x : Forall (λ r, 0 < r < length h) (ids_of h x).
Proof. apply Forall_forall. intros r. apply ids_of_lt. Qed.

Lemma prefix_paths_spec t P x :
  wf t P → x ∈ (hyperlinks t).*1 →
  ∃ paths, prefix_paths t x = Ok paths ∧
           Forall2 (trail (view (store t)) P) (ids_of (store t) x) paths.
Proof.
  intros Hwf Hx. unfold prefix_paths. rewrite (nodes_spec _ _ _ Hwf Hx). simpl.
  apply prefix_paths_of_spec; [done|apply ids_of_range].
Qed.

(** ** The second pass of [project], on views *)

Lemma bumpV_lookup s V a x s0 :
  V !! a = Some (x, Some s0) → bumpV s V a = <[a := (x, Some (s0 + s)%Z)]> V.
Proof. intros H. unfold bumpV. by rewrite H. Qed.

Lemma add_support_all_spec s ns : ∀ t P,
  wf t P → Forall (λ a, 0 < a < length (store t)) ns →
  ∃ h', add_support_all (store t) ns (Some s) = Ok h' ∧ wf (set_store h' t) P ∧
        view h' = foldl (bumpV s) (view (store t)) ns.
Proof.
  induction ns as [|a ns IH]; intros t P Hwf Hns; simpl.
  - exists (store t). split; [done|]. split; [by destruct t|done].
  - apply Forall_cons in Hns as [Ha Hns].
    destruct (lookup_lt_is_Some_2 (store t) a) as [n Hn]; [lia|].
    destruct (wf_node _ _ Hwf a n Hn) as (_ & _ & _ & s0 & _ & _ & _ & _ & Hs0 & _); [lia|].
    unfold add_support. rewrite (get_lookup _ _ _ Hn). simpl. rewrite Hs0. simpl.
    assert (wf (set_store (<[a := set_support (Some (s0 + s)%Z) n]> (store t)) t) P) as Hwf1.
    { apply wf_set_support; [done|done|lia]. }
    destruct (IH _ P Hwf1) as (h' & Hh' & Hwf' & Hv).
    { simpl. by rewrite length_insert. }
    exists h'. split; [done|]. split; [done|]. rewrite Hv. simpl.
    rewrite (view_set_support _ _ _ _ Hn).
    rewrite (bumpV_lookup s (view (store t)) a (item n) s0); [done|].
    by rewrite (view_lookup _ _ _ Hn), Hs0.
Qed.

Lemma spells_range V l q : spells V l q → Forall (λ a, 0 < a < length V) l.
Proof.
  induction 1 as [|a x l q [Ha Hx] _ IH]; constructor; [|done].
  destruct (V !! a) eqn:E; [|done]. apply lookup_lt_Some in E. lia.
Qed.

Lemma propagate_path_spec t P l :
  wf t P → is_Some (last l) → Forall (λ a, 0 < a < length (store t)) l →
  ∃ h', propagate_path (store t) l = Ok h' ∧ wf (set_store h' t) P ∧
        view h' = propV_path (view (store t)) l.
Proof.
  intros Hwf [r Hr] Hl. unfold propagate_path, propV_path. rewrite Hr.
  assert (0 < r < length (store t)) as Hrr.
  { rewrite Forall_forall in Hl. apply Hl. by apply last_Some_elem_of. }
  destruct (lookup_lt_is_Some_2 (store t) r) as [n Hn]; [lia|].
  destruct (wf_node _ _ Hwf r n Hn) as (_ & _ & _ & s & _ & _ & _ & _ & Hs & _); [lia|].
  rewrite (get_lookup _ _ _ Hn). simpl. rewrite Hs, (view_lookup _ _ _ Hn), Hs.
  apply add_support_all_spec; [done|].
  apply Forall_reverse. apply Forall_forall. intros a Ha.
  rewrite Forall_forall in Hl. apply Hl.
  apply last_Some in Hr as [l' ->]. rewrite removelast_last in Ha.
  apply elem_of_app. by left.
Qed.

Lemma bumpV_length s V a : length (bumpV s V a) = length V.
Proof.
  unfold bumpV. destruct (V !! a) as [[x [s0|]]|]; [|done|done].
  by rewrite length_insert.
Qed.

Lemma bumpV_items s V a : map fst (bumpV s V a) = map fst V.
Proof.
  unfold bumpV. destruct (V !! a) as [[x [s0|]]|] eqn:E; [|done|done].
  change (map fst) with (fmap (M := list) (fst (A := Item) (B := option Z))).
  rewrite list_fmap_insert. apply list_insert_id. by rewrite list_lookup_fmap, E.
Qed.

Lemma foldl_bumpV_length s ns : ∀ V, length (foldl (bumpV s) V ns) = length V.
Proof.
  induction ns as [|a ns IH]; intros V; simpl; [done|]. by rewrite IH, bumpV_length.
Qed.

Lemma foldl_bumpV_items s ns : ∀ V, map fst (foldl (bumpV s) V ns) = map fst V.
Proof.
  induction ns as [|a ns IH]; intros V; simpl; [done|]. by rewrite IH, bumpV_items.
Qed.

Lemma propV_path_length V l : length (propV_path V l) = length V.
Proof.
  unfold propV_path. destruct (last l); [|done].
  destruct (V !! n) as [[x [s|]]|]; try done. apply foldl_bumpV_length.
Qed.

Lemma propV_path_items V l : map fst (propV_path V l) = map fst V.
Proof.
  unfold propV_path. destruct (last l); [|done].
  destruct (V !! n) as [[x [s|]]|]; try done. apply foldl_bumpV_items.
Qed.

Lemma propV_items paths : ∀ V, map fst (propV V paths) = map fst V.
Proof.
  unfold propV. induction paths as [|l paths IH]; intros V; simpl; [done|].
  by rewrite IH, propV_path_items.
Qed.

Lemma propagate_spec paths : ∀ t P,
  wf t P →
  Forall (λ l, is_Some (last l) ∧ Forall (λ a, 0 < a < length (store t)) l) paths →
  ∃ h', propagate (store t) paths = Ok h' ∧ wf (set_store h' t) P ∧
        view h' = propV (view (store t)) paths.
Proof.
  induction paths as [|l paths IH]; intros t P Hwf Hall; simpl.
  - exists (store t). split; [done|]. split; [by destruct t|done].
  - apply Forall_cons in Hall as [[Hlast Hl] Hall].
    destruct (propagate_path_spec t P l Hwf Hlast Hl) as (h1 & Hh1 & Hwf1 & Hv1).
    rewrite Hh1. simpl.
    destruct (IH (set_store h1 t) P Hwf1) as (h2 & Hh2 & Hwf2 & Hv2).
    { simpl. assert (length h1 = length (store t)) as ->; [|done].
      rewrite <- !view_length, Hv1. apply propV_path_length. }
    exists h2. split; [done|]. split; [done|]. rewrite Hv2. simpl. by rewrite Hv1.
Qed.

(** ** [project] as a whole *)

Lemma ids_of_view h x : ids_of h x = ids_ofV (view h) x.
Proof. unfold ids_of, ids_ofV. by rewrite view_items. Qed.

Lemma abs_path_in seed path : ∀ st pp,
  path ≠ [] → pp ++ map item path ∈ (abs_path seed st pp path).2.
Proof.
  induction path as [|n path IH]; intros st pp Hne; [done|]. simpl.
  destruct path as [|n' path].
  - simpl. destruct (decide (pp ++ [item n] ∈ st.2)); [done|]. simpl.
    apply elem_of_app. right. apply list_elem_of_here.
  - change (pp ++ item n :: map item (n' :: path))
      with (pp ++ [item n] ++ map item (n' :: path)).
    rewrite app_assoc. by apply IH.
Qed.

Lemma abs_path_extends seed path : ∀ st pp,
  ∃ eV eP, (abs_path seed st pp path).1 = st.1 ++ eV ∧
           (abs_path seed st pp path).2 = st.2 ++ eP ∧
           Forall (λ v, ∃ n, n ∈ path ∧ v = (item n, new_support seed n)) eV.
Proof.
  induction path as [|n path IH]; intros st pp; simpl.
  - exists [], []. by rewrite !app_nil_r.
  - match goal with |- context [abs_path seed ?s ?q path] =>
      destruct (IH s q) as (eV & eP & HV & HP & Hall) end.
    rewrite HV, HP.
    assert (Forall (λ v, ∃ n0, n0 ∈ n :: path ∧ v = (item n0, new_support seed n0)) eV)
      as Hall'.
    { eapply Forall_impl; [done|]. intros v (n0 & ? & ?). exists n0.
      split; [by apply list_elem_of_further|done]. }
    destruct (decide (pp ++ [item n] ∈ st.2)); simpl.
    + by exists eV, eP.
    + exists ((item n, new_support seed n) :: eV), ((pp ++ [item n]) :: eP).
      rewrite <- !app_assoc. split; [done|]. split; [done|].
      constructor; [|done]. exists n. split; [apply list_elem_of_here|done].
Qed.

Lemma abs_paths_extends seed paths : ∀ st,
  ∃ eV eP, (abs_paths seed st paths).1 = st.1 ++ eV ∧
           (abs_paths seed st paths).2 = st.2 ++ eP ∧
           Forall (λ v, ∃ path n, path ∈ paths ∧ n ∈ path ∧
                                  v = (item n, new_support seed n)) eV.
Proof.
  induction paths as [|path paths IH]; intros st; simpl.
  - exists [], []. by rewrite !app_nil_r.
  - destruct (abs_path_extends seed path st []) as (eV1 & eP1 & HV1 & HP1 & H1).
    destruct (IH (abs_path seed st [] path)) as (eV2 & eP2 & HV2 & HP2 & H2).
    exists (eV1 ++ eV2), (eP1 ++ eP2). rewrite HV2, HP2, HV1, HP1, <- !app_assoc.
    split; [done|]. split; [done|]. apply Forall_app. split.
    + eapply Forall_impl; [done|]. intros v (n & ? & ?). exists path, n.
      split; [apply list_elem_of_here|done].
    + eapply Forall_impl; [done|]. intros v (p & n & ? & ?). exists p, n.
      split; [by apply list_elem_of_further|done].
Qed.

Lemma wf_item_key t P r n :
  wf t P → store t !! r = Some n → r ≠ 0 → item n ∈ (hyperlinks t).*1.
Proof.
  intros Hwf Hn Hr. apply (wf_key _ _ _ Hwf).
  assert (r ∈ ids_of (store t) (item n)) as Hin.
  { apply elem_of_ids_of. eauto. }
  intros E. rewrite E in Hin. by apply elem_of_nil in Hin.
Qed.

Lemma wf_key_node t P x :
  wf t P → x ∈ (hyperlinks t).*1 →
  ∃ r n, r ≠ 0 ∧ store t !! r = Some n ∧ item n = x.
Proof.
  intros Hwf Hx. apply (wf_key _ _ _ Hwf) in Hx.
  destruct (ids_of (store t) x) as [|r l] eqn:E; [done|].
  assert (r ∈ ids_of (store t) x) as Hin by (rewrite E; apply list_elem_of_here).
  apply elem_of_ids_of in Hin as (? & n & ? & ?). eauto.
Qed.

Lemma project_spec i paths :
  paths ≠ [] →
  Forall (λ path, ends_in i path ∧ Forall (λ n, is_Some (support n)) path) paths →
  ∃ c ps, project paths = Ok c ∧
    wf c (abs_paths (SeedItem i) abs_init paths).2 ∧
    Forall2 (trail (abs_paths (SeedItem i) abs_init paths).1
                   (abs_paths (SeedItem i) abs_init paths).2)
            (ids_ofV (abs_paths (SeedItem i) abs_init paths).1 i) ps ∧
    view (store c) = propV (abs_paths (SeedItem i) abs_init paths).1 ps.
Proof.
  intros Hne Hall. unfold project.
  destruct (project_paths_spec i paths SeedFalse FPTree_init [[]] wf_init
              (or_introl eq_refl) Hall) as (c1 & P1 & Hp & Hwf1 & Habs).
  rewrite Hp. rewrite decide_False by done. simpl.
  change (view (store FPTree_init), [[]]) with abs_init in Habs.
  set (st := abs_paths (SeedItem i) abs_init paths) in *.
  assert (view (store c1) = st.1) as HV by (by rewrite <- Habs).
  assert (P1 = st.2) as HP by (by rewrite <- Habs).
  assert (i ∈ (hyperlinks c1).*1) as Hkey.
  { destruct paths as [|path paths]; [done|].
    apply Forall_cons in Hall as [[(n & Hlast & Hi) _] _].
    apply last_Some in Hlast as [path' ->].
    destruct (abs_paths_extends (SeedItem i)
                paths (abs_path (SeedItem i) abs_init [] (path' ++ [n])))
      as (_ & eP & _ & HeP & _).
    assert (map item (path' ++ [n]) ∈ P1) as Hin.
    { rewrite HP. unfold st. simpl. rewrite HeP. apply elem_of_app. left.
      apply (abs_path_in (SeedItem i) (path' ++ [n]) abs_init []).
      by destruct path'. }
    apply list_elem_of_lookup_1 in Hin as [r Hr].
    destruct (wf_point _ _ _ _ Hwf1 Hr) as [nr Hnr].
    assert (r ≠ 0) as Hr0.
    { intros ->. rewrite (wf_root_path _ _ Hwf1) in Hr. inversion Hr as [E].
      rewrite map_app in E. by destruct (map item path'). }
    destruct (wf_path_nonroot _ _ _ _ _ Hwf1 Hnr Hr0 Hr) as (q' & Hq').
    rewrite map_app in Hq'. simpl in Hq'. apply app_inj_tail in Hq' as [_ Hq'].
    rewrite <- Hi, Hq'. by apply (wf_item_key c1 P1 r). }
  destruct (prefix_paths_spec c1 P1 i Hwf1 Hkey) as (ps & Hps & Htr).
  rewrite Hps. simpl.
  destruct (propagate_spec ps c1 P1 Hwf1) as (h' & Hh' & Hwf' & Hv').
  { eapply Forall2_Forall_r; [done|]. apply Forall_forall.
    intros r _ l [Hlast (q & _ & Hsp)]. split; [by eexists|].
    rewrite <- view_length. by apply spells_range with (q := q). }
  rewrite Hh'. simpl. exists (set_store h' c1), ps. split; [done|].
  rewrite <- HP. split; [done|]. rewrite <- HV, <- ids_of_view. split; [done|]. done.
Qed.

(** ** Conditional trees *)

Lemma deref_path_spec h l :
  Forall (λ a, a < length h) l →
  ∃ np, deref_path h l = Ok np ∧ Forall2 (λ a n, h !! a = Some n) l np.
Proof.
  induction 1 as [|a l Ha _ (np & Hnp & Hall)]; simpl.
  - exists []. split; [done|constructor].
  - destruct (lookup_lt_is_Some_2 h a Ha) as [n Hn].
    rewrite (get_lookup _ _ _ Hn), Hnp. simpl. exists (n :: np).
    split; [done|]. by constructor.
Qed.

Lemma deref_spec h ps :
  Forall (Forall (λ a, a < length h)) ps →
  ∃ nps, deref h ps = Ok nps ∧ Forall2 (Forall2 (λ a n, h !! a = Some n)) ps nps.
Proof.
  induction 1 as [|l ps Hl _ (nps & Hnps & Hall)]; simpl.
  - exists []. split; [done|constructor].
  - destruct (deref_path_spec h l Hl) as (np & Hnp & Hnp2).
    rewrite Hnp, Hnps. simpl. exists (np :: nps). split; [done|]. by constructor.
Qed.

Lemma Forall2_last_l {A B} (R : A → B → Prop) l k a :
  Forall2 R l k → last l = Some a → ∃ b, last k = Some b ∧ R a b.
Proof.
  intros HF [l' ->]%last_Some.
  apply Forall2_app_inv_l in HF as (k1 & k2 & _ & H2 & ->).
  apply Forall2_cons_inv_l in H2 as (b & k3 & Hab & H3 & ->).
  apply Forall2_nil_inv_l in H3 as ->. exists b. split; [apply last_snoc|done].
Qed.

Lemma conditional_tree_parts t P x :
  wf t P → x ∈ (hyperlinks t).*1 →
  ∃ ps nps, prefix_paths t x = Ok ps ∧ deref (store t) ps = Ok nps ∧
    Forall2 (trail (view (store t)) P) (ids_of (store t) x) ps ∧
    Forall2 (Forall2 (λ a n, store t !! a = Some n)) ps nps ∧
    nps ≠ [] ∧
    Forall (λ path, ends_in x path ∧ Forall (λ n, is_Some (support n)) path) nps ∧
    Forall (Forall (λ n, item n ∈ (hyperlinks t).*1)) nps.
Proof.
  intros Hwf Hx. destruct (prefix_paths_spec t P x Hwf Hx) as (ps & Hps & Htr).
  assert (Forall (λ l, ∃ r, r ∈ ids_of (store t) x ∧ last l = Some r ∧
                      Forall (λ a, 0 < a < length (store t)) l) ps) as Hps2.
  { apply Forall_forall. intros l Hl.
    apply list_elem_of_lookup_1 in Hl as [k Hk].
    destruct (Forall2_lookup_r _ _ _ _ _ Htr Hk) as (r & Hr & Hlast & q & _ & Hsp).
    exists r. split; [by apply list_elem_of_lookup_2 in Hr|]. split; [done|].
    rewrite <- view_length. by apply spells_range with (q := q). }
  destruct (deref_spec (store t) ps) as (nps & Hnps & Hd).
  { eapply Forall_impl; [done|]. intros l (_ & _ & _ & Hl).
    eapply Forall_impl; [done|]. simpl. intros; lia. }
  exists ps, nps. split; [done|]. split; [done|]. split; [done|]. split; [done|].
  assert (∀ l np, l ∈ ps → Forall2 (λ a n, store t !! a = Some n) l np →
            (ends_in x np ∧ Forall (λ n, is_Some (support n)) np) ∧
            Forall (λ n, item n ∈ (hyperlinks t).*1) np) as Hone.
  { intros l np Hl Hlnp. rewrite Forall_forall in Hps2.
    destruct (Hps2 l Hl) as (r & Hr & Hlast & Hrange).
    assert (∀ n, n ∈ np → ∃ a, 0 < a ∧ store t !! a = Some n) as Hnodes.
    { intros n Hn. apply list_elem_of_lookup_1 in Hn as [k Hk].
      destruct (Forall2_lookup_r _ _ _ _ _ Hlnp Hk) as (a & Ha & Han).
      exists a. split; [|done]. rewrite Forall_forall in Hrange.
      apply list_elem_of_lookup_2 in Ha. apply Hrange in Ha. lia. }
    split; [split|].
    - destruct (Forall2_last_l _ _ _ _ Hlnp Hlast) as (n & Hn & Hrn).
      exists n. split; [done|].
      apply elem_of_ids_of in Hr as (_ & n' & Hn' & Hi). congruence.
    - apply Forall_forall. intros n (a & Ha & Hn)%Hnodes.
      destruct (wf_node _ _ Hwf a n Hn) as (_ & _ & _ & s & _ & _ & _ & _ & Hs & _);
        [lia|]. by rewrite Hs.
    - apply Forall_forall. intros n (a & Ha & Hn)%Hnodes.
      apply (wf_item_key t P a n Hwf Hn). lia. }
  split; [|split].
  - apply (wf_key _ _ _ Hwf) in Hx. intros ->.
    apply Forall2_nil_inv_r in Hd as ->. by apply Forall2_nil_inv_r in Htr.
  - apply Forall_forall. intros np Hnp.
    apply list_elem_of_lookup_1 in Hnp as [k Hk].
    destruct (Forall2_lookup_r _ _ _ _ _ Hd Hk) as (l & Hl & Hlnp).
    apply list_elem_of_lookup_2 in Hl. by apply (Hone l np).
  - apply Forall_forall. intros np Hnp.
    apply list_elem_of_lookup_1 in Hnp as [k Hk].
    destruct (Forall2_lookup_r _ _ _ _ _ Hd Hk) as (l & Hl & Hlnp).
    apply list_elem_of_lookup_2 in Hl. by apply (Hone l np).
Qed.

Lemma conditional_tree_wf t P x :
  wf t P → x ∈ (hyperlinks t).*1 →
  ∃ c Pc, conditional_tree t x = Ok c ∧ wf c Pc ∧
          ∀ y, y ∈ (hyperlinks c).*1 → y ∈ (hyperlinks t).*1.
Proof.
  intros Hwf Hx.
  destruct (conditional_tree_parts t P x Hwf Hx)
    as (ps & nps & Hps & Hnps & _ & _ & Hne & Hall & Hkeys).
  destruct (project_spec x nps Hne Hall) as (c & psc & Hc & Hwfc & _ & Hv).
  unfold conditional_tree. rewrite Hps. simpl. rewrite Hnps. simpl.
  eexists c, _. split; [done|]. split; [done|].
  intros y Hy. destruct (wf_key_node _ _ _ Hwfc Hy) as (r & n & Hr & Hn & Hi).
  assert (map fst (view (store c)) !! r = Some y) as Hry.
  { rewrite view_items.
    change (map item) with (fmap (M := list) item).
    by rewrite list_lookup_fmap, Hn, <- Hi. }
  rewrite Hv, propV_items in Hry.
  destruct (abs_paths_extends (SeedItem x) nps abs_init) as (eV & eP & HeV & _ & HF).
  rewrite HeV in Hry. destruct r as [|r]; [done|]. simpl in Hry.
  change (map fst) with (fmap (M := list) (fst (A := Item) (B := option Z))) in Hry.
  rewrite list_lookup_fmap in Hry.
  destruct (eV !! r) as [v|] eqn:Hv'; [|done]. simpl in Hry.
  rewrite Forall_forall in HF.
  destruct (HF v (list_elem_of_lookup_2 _ _ _ Hv')) as (path & n0 & Hpath & Hn0 & ->).
  simpl in Hry. inversion Hry; subst y.
  rewrite Forall_forall in Hkeys. specialize (Hkeys path Hpath).
  rewrite Forall_forall in Hkeys. by apply Hkeys.
Qed.

(** ** [fp_search] ends *)

Lemma NoDup_length_lt {A} (l k : list A) x :
  NoDup l → (∀ y, y ∈ l → y ∈ k) → x ∈ k → x ∉ l → length l < length k.
Proof.
  intros Hnd Hsub Hx Hxl.
  assert (x :: l ⊆+ k) as Hs.
  { apply NoDup_submseteq; [by constructor|].
    intros y [->|Hy]%elem_of_cons; auto. }
  apply submseteq_length in Hs. simpl in Hs. lia.
Qed.

Lemma mes_decrease t c x suffix :
  NoDup (hyperlinks c).*1 →
  (∀ y, y ∈ (hyperlinks c).*1 → y ∈ (hyperlinks t).*1) →
  x ∈ (hyperlinks t).*1 → x ∉ suffix →
  mes c (x :: suffix) < mes t suffix.
Proof.
  intros Hnd Hsub Hx Hxs. unfold mes.
  apply NoDup_length_lt with (x := x).
  - by apply NoDup_filter.
  - intros y [Hy1 Hy2]%list_elem_of_filter. apply list_elem_of_filter.
    rewrite not_elem_of_cons in Hy1. split; [tauto|auto].
  - by apply list_elem_of_filter.
  - intros [Hy1 _]%list_elem_of_filter. rewrite not_elem_of_cons in Hy1. tauto.
Qed.

Lemma fp_search_items_total rec t P epsilon suffix :
  wf t P →
  (∀ x c, x ∈ (hyperlinks t).*1 → x ∉ suffix → conditional_tree t x = Ok c →
     ∃ r, rec c (x :: suffix) = Ok r) →
  ∀ its : list (Item * (nat * nat)), Forall (λ e, e.1 ∈ (hyperlinks t).*1) its →
  ∃ res, fp_search_items rec t epsilon suffix
           (map (λ e, (e.1, nodes t e.1)) its) = Ok res.
Proof.
  intros Hwf Hrec. induction 1 as [|[x rt] its Hx _ (more & Hmore)]; simpl.
  - by exists [].
  - simpl in Hx. rewrite (nodes_spec _ _ _ Hwf Hx). simpl.
    rewrite (sum_support_ids_of _ _ _ Hwf). simpl.
    destruct (_ && _) eqn:Hcond; [|by exists more].
    apply andb_true_iff in Hcond as [_ Hns].
    apply negb_true_iff, bool_decide_eq_false in Hns.
    destruct (conditional_tree_wf t P x Hwf Hx) as (c & Pc & Hc & _ & _).
    rewrite Hc. simpl. destruct (Hrec x c Hx Hns Hc) as (sub & Hsub).
    rewrite Hsub, Hmore. simpl. eauto.
Qed.

Lemma keys_items t : Forall (λ e : Item * (nat * nat), e.1 ∈ (hyperlinks t).*1) (hyperlinks t).
Proof.
  apply Forall_forall. intros e He. by apply list_elem_of_fmap_2.
Qed.

Lemma fp_search_total epsilon depth : ∀ t P suffix,
  wf t P → mes t suffix < depth →
  ∃ res, fp_search depth t epsilon suffix = Ok res.
Proof.
  induction depth as [|depth IH]; intros t P suffix Hwf Hmes; [lia|].
  simpl. unfold items.
  apply (fp_search_items_total _ t P epsilon suffix Hwf); [|apply keys_items].
  intros x c Hx Hxs Hc.
  destruct (conditional_tree_wf t P x Hwf Hx) as (c' & Pc & Hc' & Hwfc & Hsub).
  assert (c' = c) as -> by congruence.
  apply (IH c Pc); [done|].
  pose proof (mes_decrease t c x suffix (wf_keys _ _ Hwfc) Hsub Hx Hxs). lia.
Qed.

Lemma fp_search_items_mono
    (rec1 rec2 : FPTree → list Item → result (list (list Item * Z)))
    t epsilon suffix :
  (∀ c s r, rec1 c s = Ok r → rec2 c s = Ok r) →
  ∀ its r, fp_search_items rec1 t epsilon suffix its = Ok r →
           fp_search_items rec2 t epsilon suffix its = Ok r.
Proof.
  intros Hrec. induction its as [|[x ns] its IH]; intros r; simpl; [done|].
  destruct ns as [ns'|]; simpl; [|done].
  destruct (sum_support (store t) ns') as [ts|]; simpl; [|done].
  destruct (_ && _); [|apply IH].
  destruct (conditional_tree t x) as [c|]; simpl; [|done].
  destruct (rec1 c (x :: suffix)) as [sub|] eqn:Hsub; simpl; [|done].
  rewrite (Hrec _ _ _ Hsub). simpl.
  destruct (fp_search_items rec1 t epsilon suffix its) as [more|] eqn:Hmore; simpl; [|done].
  by rewrite (IH more eq_refl).
Qed.

Lemma fp_search_mono epsilon depth : ∀ t suffix r,
  fp_search depth t epsilon suffix = Ok r →
  fp_search (S depth) t epsilon suffix = Ok r.
Proof.
  induction depth as [|depth IH]; intros t suffix r H; [done|].
  simpl in H. change (fp_search (S (S depth)) t epsilon suffix) with
    (fp_search_items (λ t0 s, fp_search (S depth) t0 epsilon s) t epsilon suffix (items t)).
  eapply fp_search_items_mono; [|done]. intros c s r'. apply IH.
Qed.

Lemma fp_search_mono_le epsilon d d' t suffix r :
  d ≤ d' → fp_search d t epsilon suffix = Ok r → fp_search d' t epsilon suffix = Ok r.
Proof.
  induction 1 as [|d' _ IH]; [done|]. intros H. by apply fp_search_mono, IH.
Qed.

Lemma fp_search_result epsilon t P suffix :
  wf t P →
  ∃ res, ∀ depth, mes t suffix < depth → fp_search depth t epsilon suffix = Ok res.
Proof.
  intros Hwf.
  destruct (fp_search_total epsilon (S (mes t suffix)) t P suffix Hwf) as (res & Hres); [lia|].
  exists res. intros depth Hd. apply (fp_search_mono_le epsilon (S (mes t suffix))); [lia|done].
Qed.

(** ** The trees of the program *)

Lemma conditional_tree_key t it c :
  conditional_tree t it = Ok c → it ∈ (hyperlinks t).*1.
Proof.
  unfold conditional_tree, prefix_paths, nodes. intros H.
  destruct (alist_lookup it (hyperlinks t)) as [v|] eqn:E; [|done].
  destruct (decide (it ∈ (hyperlinks t).*1)) as [|Hn]; [done|].
  apply alist_lookup_None in Hn. congruence.
Qed.

Lemma reachable_wf t : reachable t → ∃ P, wf t P.
Proof.
  induction 1 as [|t tx t' _ [P Hwf] Hadd|t x t' _ [P Hwf] Hc].
  - exists [[]]. apply wf_init.
  - destruct (add_transaction_spec t P tx Hwf) as (t2 & P2 & H2 & Hwf2 & _).
    exists P2. congruence.
  - destruct (conditional_tree_wf t P x Hwf (conditional_tree_key _ _ _ Hc))
      as (c & Pc & Hc' & Hwfc & _).
    exists Pc. congruence.
Qed.

Lemma ifilter_sorted {A} (φ : A → bool) k (l : list A) :
  StronglySorted lt (ifilter φ k l).
Proof.
  revert k. induction l as [|a l IH]; intros k; simpl; [constructor|].
  destruct (φ a); [|done]. constructor; [done|].
  eapply Forall_impl; [apply (ifilter_lower φ (S k) l)|]. simpl. intros; lia.
Qed.

Lemma run_mono depth depth' db epsilon r :
  depth ≤ depth' → run depth db epsilon = Ok r → run depth' db epsilon = Ok r.
Proof.
  unfold run. intros Hle. destruct (build db) as [t|]; simpl; [|done].
  by apply fp_search_mono_le.
Qed.

Lemma add_transactions_reachable txs : ∀ t t',
  reachable t → add_transactions t txs = Ok t' → reachable t'.
Proof.
  induction txs as [|tx txs IH]; intros t t' Hr; simpl.
  - by intros [= <-].
  - destruct (add_transaction t tx) as [t1|] eqn:E; simpl; [|done].
    apply IH. by apply (reachable_add t tx).
Qed.

Lemma build_reachable txs t : build txs = Ok t → reachable t.
Proof. apply add_transactions_reachable. constructor. Qed.

Lemma ex_tree_build : build ex_db = Ok ex_tree.
Proof. vm_compute. reflexivity. Qed.

Lemma ex_tree_reachable : reachable ex_tree.
Proof. apply (build_reachable ex_db). apply ex_tree_build. Qed.

(** The example tree: the linked list of item 3, its prefix paths, and the
    supports that its conditional tree gives to the items 1 and 2. *)
Example ex_tree_nodes : nodes ex_tree (Some 3%Z) = Ok [3; 4; 6].
Proof. vm_compute. reflexivity. Qed.

Example ex_tree_prefix_paths :
  prefix_paths ex_tree (Some 3%Z) = Ok [[1; 2; 3]; [1; 4]; [5; 6]].
Proof. vm_compute. reflexivity. Qed.

Example ex_tree_conditional :
  (c ← conditional_tree ex_tree (Some 3%Z);
   n1 ← nodes c (Some 1%Z); s1 ← sum_support (store c) n1;
   n2 ← nodes c (Some 2%Z); s2 ← sum_support (store c) n2;
   Ok (n1, s1, n2, s2)) = Ok ([1], 3%Z, [2; 5], 3%Z).
Proof. vm_compute. reflexivity. Qed.

Example ex_tree_absent : nodes ex_tree (Some 9%Z) = Err UnboundLocalError.
Proof. vm_compute. reflexivity. Qed.

(** No path, no seed: [prefix_paths(False)] finds no key in the new tree. *)
Example project_no_path : project [] = Err UnboundLocalError.
Proof. vm_compute. reflexivity. Qed.

(** No transaction, no result. *)
Example run_empty : run 1 [] 1 = Ok [].
Proof. vm_compute. reflexivity. Qed.

Lemma count_containing_0 i txs tx :
  count_containing i txs = 0%Z → tx ∈ txs → i ∉ tx.
Proof.
  unfold count_containing. intros H0 Htx Hi.
  assert (tx ∈ filter (λ tx, i ∈ tx) txs) as Hin by (by apply list_elem_of_filter).
  destruct (filter (λ tx, i ∈ tx) txs); [by apply elem_of_nil in Hin|].
  simpl in H0. lia.
Qed.

Lemma ids_of_view_snoc h h' x y s :
  h ≠ [] → view h' = view h ++ [(y, s)] →
  ids_of h' x = ids_of h x ++ (if decide (y = x) then [length h] else []).
Proof.
  intros Hne Hv.
  rewrite (ids_of_items h' (h ++ [mkFPNode y s None ∅ None]) x).
  - by rewrite ids_of_snoc.
  - rewrite <- !view_items, Hv, view_snoc. done.
Qed.

(** ** The linked lists alone *)

Lemma wf_linked t P : wf t P → linked t.
Proof.
  intros Hwf. constructor; try apply Hwf. by apply (wf_store_nonempty t P).
Qed.

Lemma linked_init : linked FPTree_init.
Proof. apply (wf_linked _ [[]]), wf_init. Qed.

Lemma linked_key t x : linked t → x ∈ (hyperlinks t).*1 ↔ ids_of (store t) x ≠ [].
Proof.
  intros Hl. rewrite <- route_of_None, <- (linked_route _ Hl), alist_lookup_None.
  destruct (decide (x ∈ (hyperlinks t).*1)); tauto.
Qed.

Lemma nodes_linked t x :
  linked t → x ∈ (hyperlinks t).*1 → nodes t x = Ok (ids_of (store t) x).
Proof.
  intros Hl Hx. apply (linked_key _ _ Hl) in Hx. unfold nodes.
  rewrite (linked_route _ Hl). pose proof (linked_chain _ Hl x) as Hch.
  pose proof (ids_of_length (store t) x) as Hlen.
  destruct (ids_of (store t) x) as [|a l]; [done|]. simpl.
  apply follow_links_chain; [done|]. simpl in Hlen. lia.
Qed.

Lemma linked_set_support t c n s :
  linked t → store t !! c = Some n →
  linked (set_store (<[c := set_support s n]> (store t)) t).
Proof.
  intros [Hr Hne Hrt Hch] Hn.
  pose proof (items_set_support (store t) c n s Hn) as Hit.
  constructor; simpl.
  - done.
  - intros E. apply (f_equal length) in E. rewrite length_insert in E.
    by destruct (store t).
  - intros x. rewrite (ids_of_items _ _ x Hit). apply Hrt.
  - intros x. rewrite (ids_of_items _ _ x Hit).
    apply chain_ext with (h := store t); [|apply Hch].
    intros r _. destruct (decide (r = c)) as [->|Hrc].
    + rewrite list_lookup_insert_eq by (by apply lookup_lt_Some in Hn). by rewrite Hn.
    + by rewrite list_lookup_insert_ne.
Qed.

Lemma linked_grow t point x sup h' HL' :
  linked t → length h' = length (store t) →
  (∀ r n, store t !! r = Some n →
     ∃ n', h' !! r = Some n' ∧ item n' = item n ∧
       link n' = (if decide (last (ids_of (store t) x) = Some r)
                  then Some (length (store t)) else link n)) →
  (∀ y, alist_lookup y HL' =
     if decide (y = x)
     then Some (default (length (store t)) (head (ids_of (store t) x)), length (store t))
     else alist_lookup y (hyperlinks t)) →
  linked (mkFPTree (h' ++ [mkFPNode x sup (Some point) ∅ None]) (root t) HL').
Proof.
  intros [Hr Hne' Hrt Hch] Hlen Hold Hroute.
  set (c := length (store t)) in *.
  assert (map item h' = map item (store t)) as Hitems.
  { apply list_eq. intros r. rewrite !list_lookup_fmap.
    destruct (store t !! r) as [n|] eqn:E.
    - destruct (Hold r n E) as (n' & Hn' & Hi & _). rewrite Hn'. simpl. by rewrite Hi.
    - apply lookup_ge_None in E. rewrite (proj2 (lookup_ge_None h' r)); [done|lia]. }
  assert (h' ≠ []) as Hne.
  { intros ->. simpl in Hlen. by destruct (store t). }
  constructor; simpl.
  - done.
  - by destruct h'.
  - intros y. rewrite Hroute, ids_of_snoc by done. simpl.
    rewrite (ids_of_items _ _ _ Hitems), Hlen. fold c.
    destruct (decide (y = x)) as [->|Hyx].
    + rewrite decide_True by done. by rewrite route_of_snoc.
    + rewrite decide_False by done. rewrite app_nil_r. apply Hrt.
  - intros y. rewrite ids_of_snoc by done. simpl.
    rewrite (ids_of_items _ _ _ Hitems), Hlen. fold c.
    destruct (decide (x = y)) as [->|Hyx].
    + apply chain_snoc with (h := store t).
      * apply Hch.
      * apply ids_of_NoDup.
      * intros Hin%ids_of_lt. lia.
      * intros r n Hin Hn. destruct (Hold r n Hn) as (n' & Hn' & _ & Hlk).
        exists n'. split; [by apply lookup_app_l_Some|]. done.
      * eexists. split; [by apply list_lookup_middle|]. done.
    + rewrite app_nil_r. apply chain_ext with (h := store t); [|apply Hch].
      intros r Hin. pose proof Hin as (_ & n & Hn & Hni)%elem_of_ids_of.
      destruct (Hold r n Hn) as (n' & Hn' & _ & Hlk).
      rewrite lookup_app_l by (apply lookup_lt_Some in Hn'; lia).
      rewrite Hn, Hn'. simpl. rewrite Hlk. rewrite decide_False; [done|].
      intros Hlast%last_Some_elem_of. apply elem_of_ids_of in Hlast as (_ & n2 & Hn2 & ?).
      congruence.
Qed.

Lemma attach_linked t point np x sup :
  linked t → store t !! point = Some np → children np !! x = None →
  ∃ t', attach t point x sup = Ok (t', length (store t)) ∧ linked t'.
Proof.
  intros Hl Hpt Hcx.
  destruct (attach_result t point np x sup (linked_route _ Hl) Hpt Hcx)
    as (h' & HL' & Ha & Hlen & Hold & Hroute & _).
  eexists. split; [done|]. apply linked_grow; try done.
  intros r n Hn. destruct (Hold r n Hn) as (n' & ? & ? & _ & _ & _ & ?). eauto.
Qed.

Lemma add_transaction_step_linked t point x t' c :
  linked t → add_transaction_step t point x = Ok (t', c) → linked t'.
Proof.
  intros Hl H. unfold add_transaction_step, FPNode_search in H.
  apply bind_Ok in H as (np & Hnp%get_Ok & H).
  destruct (children np !! x) as [c'|] eqn:Hc.
  - apply bind_Ok in H as (h & Hinc & Heq). inversion Heq; subst.
    unfold increment_node_support in Hinc.
    apply bind_Ok in Hinc as (nc & Hnc%get_Ok & Hinc).
    destruct (support nc); inversion Hinc. by apply linked_set_support.
  - destruct (attach_linked t point np x (Some 1%Z) Hl Hnp Hc) as (t1 & Ha & Hl1).
    unfold attach in Ha. cbv zeta in Ha. rewrite Ha in H. by inversion H; subst.
Qed.

Lemma add_transaction_from_linked itemset : ∀ t point t',
  linked t → add_transaction_from t point itemset = Ok t' → linked t'.
Proof.
  induction itemset as [|x itemset IH]; intros t point t' Hl H; simpl in H.
  - by inversion H; subst.
  - apply bind_Ok in H as ([t1 c] & Hstep & H).
    apply (IH t1 c t'); [|done]. by apply (add_transaction_step_linked t point x t1 c).
Qed.

Lemma project_step_linked seed t current node t' c :
  linked t → project_step seed t current node = Ok (t', c) → linked t'.
Proof.
  intros Hl H. unfold project_step, FPNode_search in H.
  apply bind_Ok in H as (np & Hnp%get_Ok & H).
  destruct (children np !! item node) as [c'|] eqn:Hc.
  - by inversion H; subst.
  - destruct (attach_linked t current np (item node)
                (if item_eq_seed (item node) seed then support node else Some 0%Z)
                Hl Hnp Hc) as (t1 & Ha & Hl1).
    unfold attach in Ha. cbv zeta in Ha. rewrite Ha in H. by inversion H; subst.
Qed.

Lemma project_path_linked seed path : ∀ t current t',
  linked t → project_path seed t current path = Ok t' → linked t'.
Proof.
  induction path as [|n path IH]; intros t current t' Hl H; simpl in H.
  - by inversion H; subst.
  - apply bind_Ok in H as ([t1 c] & Hstep & H).
    apply (IH t1 c t'); [|done]. by apply (project_step_linked seed t current n t1 c).
Qed.

Lemma project_paths_linked paths : ∀ seed t seed' t',
  linked t → project_paths seed t paths = Ok (seed', t') → linked t'.
Proof.
  induction paths as [|path paths IH]; intros seed t seed' t' Hl H; simpl in H.
  - by inversion H; subst.
  - apply bind_Ok in H as (s1 & _ & H). apply bind_Ok in H as (t1 & Hp & H).
    apply (IH s1 t1 seed' t'); [|done]. by apply (project_path_linked s1 path t (root t)).
Qed.

Lemma add_support_all_linked t sup ns : ∀ h h',
  linked (set_store h t) → add_support_all h ns sup = Ok h' → linked (set_store h' t).
Proof.
  induction ns as [|a ns IH]; intros h h' Hl H; simpl in H.
  - by inversion H; subst.
  - apply bind_Ok in H as (h1 & Ha & H). apply (IH h1 h'); [|done].
    unfold add_support in Ha. apply bind_Ok in Ha as (n & Hn%get_Ok & Ha).
    destruct (support n), sup; inversion Ha.
    apply (linked_set_support (set_store h t) a n); done.
Qed.

Lemma propagate_linked t paths : ∀ h h',
  linked (set_store h t) → propagate h paths = Ok h' → linked (set_store h' t).
Proof.
  induction paths as [|l paths IH]; intros h h' Hl H; simpl in H.
  - by inversion H; subst.
  - apply bind_Ok in H as (h1 & Hp & H). apply (IH h1 h'); [|done].
    unfold propagate_path in Hp. destruct (last l); [|done].
    apply bind_Ok in Hp as (n' & _ & Hp). by apply (add_support_all_linked t _ _ h h1) in Hp.
Qed.

Lemma made_linked t : made t → linked t.
Proof.
  induction 1 as [|t tx t' _ Hl Hadd|paths t' Hp].
  - apply linked_init.
  - by apply (add_transaction_from_linked tx t (root t)).
  - unfold project in Hp. apply bind_Ok in Hp as ([seed c1] & H1 & Hp).
    apply bind_Ok in Hp as (ps & _ & Hp). apply bind_Ok in Hp as (h & Hh & Hp).
    inversion Hp; subst.
    apply (propagate_linked c1 ps (store c1)); [|done].
    assert (set_store (store c1) c1 = c1) as -> by (by destruct c1).
    by apply (project_paths_linked paths SeedFalse FPTree_init seed c1 linked_init).
Qed.

Lemma reachable_made t : reachable t → made t.
Proof.
  induction 1 as [|t tx t' _ IH Hadd|t x t' _ _ Hc].
  - constructor.
  - by apply (made_add t tx).
  - unfold conditional_tree in Hc. apply bind_Ok in Hc as (ps & _ & Hc).
    apply bind_Ok in Hc as (nps & _ & Hc). by apply (made_project nps).
Qed.

(** ** The support of one node *)

Lemma zsum_no_path {A} (f : A → Z) (q : list Item) (V : list A) :
  ∀ P : list (list Item), q ∉ P →
  zsum (λ v q', if bool_decide (q' = q) then f v else 0%Z) V P = 0%Z.
Proof.
  induction V as [|v V IH]; intros [|q0 P] Hq; simpl; try done.
  apply not_elem_of_cons in Hq as [Hne Hq].
  rewrite bool_decide_eq_false_2 by done. by rewrite IH.
Qed.

Lemma zsum_one_path {A} (f : A → Z) (q : list Item) (V : list A) :
  ∀ (P : list (list Item)) k v, NoDup P → V !! k = Some v → P !! k = Some q →
  zsum (λ v q', if bool_decide (q' = q) then f v else 0%Z) V P = f v.
Proof.
  induction V as [|v0 V IH]; intros [|q0 P] k v Hnd HV HP; simpl; try done.
  apply NoDup_cons in Hnd as [Hq0 Hnd]. destruct k as [|k]; simpl in *.
  - inversion HV; inversion HP; subst. rewrite bool_decide_eq_true_2 by done.
    rewrite zsum_no_path by done. lia.
  - rewrite bool_decide_eq_false_2.
    + by rewrite (IH P k v).
    + intros ->. apply Hq0. by apply list_elem_of_lookup_2 in HP.
Qed.

Lemma NoDup_tail {A} (l : list A) : NoDup l → NoDup (tail l).
Proof. destruct l; [done|]. by intros [_ ?]%NoDup_cons. Qed.

(** The support of the node that a path names, as a weighted sum. *)
Lemma wsum_path t P r n q :
  wf t P → store t !! r = Some n → r ≠ 0 → P !! r = Some q →
  wsum (λ _ q', bool_decide (q' = q)) (view (store t)) P = default 0%Z (support n).
Proof.
  intros Hwf Hn Hr Hq. unfold wsum. destruct r as [|r]; [done|].
  apply (zsum_one_path (λ v, default 0%Z v.2) q _ _ r (item n, support n)).
  - apply NoDup_tail. by apply (wf_paths_NoDup t).
  - rewrite lookup_tail. by apply view_lookup.
  - by rewrite lookup_tail.
Qed.

Lemma mes_nil t : mes t [] = length (hyperlinks t).
Proof.
  unfold mes. rewrite <- (length_fmap fst (hyperlinks t)).
  f_equal. induction ((hyperlinks t).*1) as [|k l IH]; [done|].
  rewrite filter_cons_True by apply not_elem_of_nil. by rewrite IH.
Qed.

(** ** The seed of [project] *)

Lemma project_paths_constant i paths : ∀ t,
  seed_truthy (SeedItem i) = true ∨ Forall (ends_in i) paths →
  project_paths (SeedItem i) t paths =
    (t' ← project_paths_fixed (SeedItem i) t paths; Ok (SeedItem i, t')).
Proof.
  induction paths as [|path paths IH]; intros t H; simpl; [done|].
  assert (take_seed (SeedItem i) path = Ok (SeedItem i)) as ->.
  { destruct H as [Ht|Hall].
    - unfold take_seed. by rewrite Ht.
    - apply Forall_cons in Hall as [Hend _]. apply take_seed_ends_in; auto. }
  simpl. destruct (project_path (SeedItem i) t (root t) path) as [t1|]; simpl; [|done].
  apply IH. destruct H as [Ht|Hall]; [by left|].
  apply Forall_cons in Hall as [_ Hall]. by right.
Qed.

(** With a first path whose last item is true as a truth value, or with
    further paths that all end in that item, the seed of the first path is
    the seed of every path and of the second pass. *)
Lemma project_seed_kept (p : list FPNode) (ps : list (list FPNode)) (n : FPNode) :
  last p = Some n →
  seed_truthy (SeedItem (item n)) = true ∨ Forall (ends_in (item n)) ps →
  (∀ t, project_paths SeedFalse t (p :: ps) =
        (t' ← project_paths_fixed (SeedItem (item n)) t (p :: ps);
         Ok (SeedItem (item n), t'))) ∧
  project (p :: ps) =
    (new_tree ← project_paths_fixed (SeedItem (item n)) FPTree_init (p :: ps);
     paths ← prefix_paths new_tree (item n);
     h ← propagate (store new_tree) paths;
     Ok (set_store h new_tree)).
Proof.
  intros Hlast Hps.
  assert (∀ t, project_paths SeedFalse t (p :: ps) =
               (t' ← project_paths_fixed (SeedItem (item n)) t (p :: ps);
                Ok (SeedItem (item n), t'))) as Hfirst.
  { intros t. simpl. unfold take_seed. simpl. rewrite Hlast. simpl.
    destruct (project_path (SeedItem (item n)) t (root t) p) as [t1|]; simpl; [|done].
    by apply project_paths_constant. }
  split; [done|]. unfold project. rewrite Hfirst.
  destruct (project_paths_fixed (SeedItem (item n)) FPTree_init (p :: ps)); done.
Qed.

(** Paths that end in different items are another matter: after a first path
    that ends in the item 0, the seed is taken again from the next path. *)
Lemma project_seed_retaken :
  (item <$> (hd_error ce_paths ≫= last)) = Some (Some 0%Z) ∧
  (fst <$> match project_paths SeedFalse FPTree_init ce_paths with
           | Ok r => Some r
           | Err _ => None
           end) = Some (SeedItem (Some 5%Z)) ∧
  project_paths SeedFalse FPTree_init ce_paths ≠
    (t' ← project_paths_fixed (SeedItem (Some 0%Z)) FPTree_init ce_paths;
     Ok (SeedItem (Some 0%Z), t')).
Proof.
  split; [reflexivity|]. split; [vm_compute; reflexivity|].
  vm_compute. intros H. discriminate H.
Qed.

(** ** Counting in the conditional tree *)

Section projection_counts.

Variable i : Item.

Lemma dsum_app G nps1 nps2 : dsum i G (nps1 ++ nps2) = (dsum i G nps1 + dsum i G nps2)%Z.
Proof. induction nps1 as [|np nps1 IH]; simpl; [done|]. rewrite IH. lia. Qed.

Lemma seeded_init : seeded i abs_init [] (λ _, 0%Z).
Proof.
  constructor; simpl; try done.
  intros [|k] v q Hk; [done|]. done.
Qed.

Lemma seeded_snoc st D S D' x s q :
  seeded i st D S → last q = Some x → is_Some s → (x = i → q ∈ D') →
  (x ≠ i → s = Some 0%Z) → (∀ q0, q0 ∈ D → q0 ∈ D') →
  seeded i (st.1 ++ [(x, s)], st.2 ++ [q]) D'
         (λ G, (S G + if bool_decide (x = i) then G (x, s) q else 0)%Z).
Proof.
  intros [Hlen Hne Hroot Hentry Hsum] Hlast Hs Hx Hnx HD.
  constructor; simpl.
  - rewrite !length_app. simpl. lia.
  - by destruct st.1.
  - apply lookup_app_l_Some. done.
  - intros k v q0 Hk Hv Hq0.
    destruct (decide (k < length st.1)) as [Hlt|Hge].
    + rewrite lookup_app_l in Hv by done. rewrite lookup_app_l in Hq0 by lia.
      destruct (Hentry k v q0 Hk Hv Hq0) as (? & ? & ? & ?).
      split; [|split; [|split]]; auto.
    + assert (k = length st.1) as ->.
      { apply lookup_lt_Some in Hv. rewrite length_app in Hv. simpl in Hv. lia. }
      rewrite list_lookup_middle in Hv by done.
      rewrite list_lookup_middle in Hq0 by lia.
      inversion Hv; inversion Hq0; subst. simpl.
      split; [|split; [|split]]; auto.
  - intros G. rewrite <- (Hsum G).
    destruct st.1 as [|v0 V]; [done|]. destruct st.2 as [|q0 P]; [done|].
    simpl in *. rewrite zsum_app by lia. simpl. lia.
Qed.

Lemma seeded_ext st D S S' :
  (∀ G, S G = S' G) → seeded i st D S → seeded i st D S'.
Proof.
  intros HS [Hlen Hne Hroot Hentry Hsum]. constructor; try done.
  intros G. by rewrite Hsum.
Qed.

Lemma seeded_mono st D D' S :
  (∀ q, q ∈ D → q ∈ D') → seeded i st D S → seeded i st D' S.
Proof.
  intros HD [Hlen Hne Hroot Hentry Hsum]. constructor; try done.
  intros k v q Hk Hv Hq. destruct (Hentry k v q Hk Hv Hq) as (? & ? & ? & ?).
  split; [|split; [|split]]; auto.
Qed.

(** A path that is not yet the path of a node of [i] gets a new node. *)
Lemma seeded_fresh st D S q :
  seeded i st D S → last q = Some i → q ∉ D → q ∉ st.2.
Proof.
  intros Hs Hlast HD [k Hk]%list_elem_of_lookup_1.
  assert (k ≠ 0) as Hk0.
  { intros ->. rewrite (seeded_root _ _ _ _ Hs) in Hk. inversion Hk; subst. done. }
  destruct (lookup_lt_is_Some_2 st.1 k) as [v Hv].
  { rewrite (seeded_len _ _ _ _ Hs). by apply lookup_lt_Some in Hk. }
  destruct (seeded_entry _ _ _ _ Hs k v q Hk0 Hv Hk) as (Hl & _ & Hi & _).
  apply HD, Hi. congruence.
Qed.

Lemma abs_path_seeded rest : ∀ st pp D S nl,
  seeded i st D S → last rest = Some nl → item nl = i →
  NoDup (pp ++ map item rest) → Forall (λ n, is_Some (support n)) rest →
  pp ++ map item rest ∉ D →
  seeded i (abs_path (SeedItem i) st pp rest) (D ++ [pp ++ map item rest])
         (λ G, (S G + G (i, support nl) (pp ++ map item rest))%Z).
Proof.
  induction rest as [|n rest IH]; intros st pp D S nl Hs Hlast Hi Hnd Hsup HD;
    [done|].
  apply Forall_cons in Hsup as [Hn Hsup]. simpl abs_path.
  destruct rest as [|n' rest].
  - simpl in Hlast. inversion Hlast; subst nl. simpl in *.
    rewrite decide_False.
    2:{ apply (seeded_fresh st D S); [done|by rewrite last_snoc, Hi|done]. }
    eapply seeded_ext; [|apply (seeded_snoc st D S (D ++ [pp ++ [item n]])
                                  (item n) (new_support (SeedItem i) n)
                                  (pp ++ [item n]) Hs)].
    + intros G. simpl. rewrite bool_decide_eq_true_2 by done.
      unfold new_support. simpl. rewrite bool_decide_eq_true_2 by done.
      by rewrite Hi.
    + apply last_snoc.
    + unfold new_support. simpl. by rewrite bool_decide_eq_true_2.
    + intros _. apply elem_of_app. right. apply list_elem_of_here.
    + done.
    + intros q0 ?. apply elem_of_app. by left.
  - assert (item n ≠ i) as Hni.
    { intros E. rewrite last_cons_cons in Hlast.
      apply NoDup_app in Hnd as (_ & _ & Hnd). simpl in Hnd.
      apply NoDup_cons in Hnd as [Hnotin _]. apply Hnotin.
      apply last_Some_elem_of in Hlast. rewrite E, <- Hi.
      change (item n' :: map item rest) with (map item (n' :: rest)).
      by apply (list_elem_of_fmap_2 item). }
    assert (pp ++ map item (n :: n' :: rest) =
            (pp ++ [item n]) ++ map item (n' :: rest)) as Heq.
    { simpl. by rewrite <- app_assoc. }
    rewrite Heq in *. rewrite last_cons_cons in Hlast.
    assert (new_support (SeedItem i) n = Some 0%Z) as Hns.
    { unfold new_support. simpl. by rewrite bool_decide_eq_false_2. }
    destruct (decide (pp ++ [item n] ∈ st.2)).
    + by apply IH.
    + rewrite Hns. apply IH; try done.
      eapply seeded_ext; [|apply (seeded_snoc st D S D (item n) (Some 0%Z)
                                    (pp ++ [item n]) Hs)]; try done.
      * intros G. simpl. rewrite bool_decide_eq_false_2 by done. lia.
      * apply last_snoc.
Qed.

Lemma abs_paths_seeded nps : ∀ st D S,
  seeded i st D S →
  Forall (λ np, ends_in i np ∧ Forall (λ n, is_Some (support n)) np) nps →
  Forall (λ np, NoDup (map item np)) nps →
  NoDup (D ++ map (map item) nps) →
  seeded i (abs_paths (SeedItem i) st nps) (D ++ map (map item) nps)
         (λ G, (S G + dsum i G nps)%Z).
Proof.
  induction nps as [|np nps IH]; intros st D S Hs Hall Hnds HD; simpl.
  - rewrite app_nil_r. eapply seeded_ext; [|done]. intros G. simpl. lia.
  - apply Forall_cons in Hall as [[(nl & Hlast & Hi) Hsup] Hall].
    apply Forall_cons in Hnds as [Hnd Hnds].
    assert (map item np ∉ D) as HnpD.
    { apply NoDup_app in HD as (_ & HD & _). intros Hin. apply (HD _ Hin).
      apply list_elem_of_here. }
    pose proof (abs_path_seeded np st [] D S nl Hs Hlast Hi Hnd Hsup HnpD) as Hs1.
    simpl in Hs1, HD.
    replace (D ++ map item np :: map (map item) nps)
      with ((D ++ [map item np]) ++ map (map item) nps) in *
      by (by rewrite <- app_assoc).
    eapply seeded_ext; [|apply (IH _ _ _ Hs1 Hall Hnds HD)].
    intros G. simpl. rewrite Hlast. simpl. lia.
Qed.

End projection_counts.

Lemma bumpV_wsum j s V (P : list (list Item)) a x s0 :
  a ≠ 0 → V !! a = Some (x, Some s0) → length V = length P →
  wsum (item_is j) (bumpV s V a) P =
    (wsum (item_is j) V P + if bool_decide (x = j) then s else 0)%Z.
Proof.
  intros Ha HV Hlen. rewrite (bumpV_lookup s V a x s0 HV).
  destruct (lookup_lt_is_Some_2 P a) as [q Hq].
  { rewrite <- Hlen. by apply lookup_lt_Some in HV. }
  rewrite (wsum_insert (item_is j) V P a x s0 (s0 + s)%Z q Ha HV Hq).
  unfold item_is. destruct (bool_decide (x = j)); lia.
Qed.

Lemma bumpV_supported s V a : supported V → supported (bumpV s V a).
Proof.
  intros HV k v Hk Hv. unfold bumpV in Hv.
  destruct (V !! a) as [[x [s0|]]|] eqn:E; try by apply (HV k v).
  destruct (decide (k = a)) as [->|Hne].
  - rewrite list_lookup_insert_eq in Hv by (by apply lookup_lt_Some in E).
    inversion Hv; subst. simpl. eauto.
  - rewrite list_lookup_insert_ne in Hv by done. by apply (HV k v).
Qed.

Lemma spells_items V V' l q : map fst V = map fst V' → spells V l q → spells V' l q.
Proof.
  intros Hit Hsp. eapply Forall2_impl; [done|]. simpl. intros a x [Ha Hx].
  split; [done|].
  assert (map fst V !! a = map fst V' !! a) as E by (by rewrite Hit).
  change (map fst) with (fmap (M := list) (fst (A := Item) (B := option Z))) in E.
  rewrite !list_lookup_fmap in E. by rewrite <- E.
Qed.

Lemma foldl_bumpV_wsum j s (P : list (list Item)) ns : ∀ xs V,
  spells V ns xs → supported V → length V = length P →
  wsum (item_is j) (foldl (bumpV s) V ns) P =
    (wsum (item_is j) V P + s * Z.of_nat (length (filter (λ x, x = j) xs)))%Z.
Proof.
  induction ns as [|a ns IH]; intros xs V Hsp Hsup Hlen.
  - apply Forall2_nil_inv_l in Hsp as ->. simpl. lia.
  - apply Forall2_cons_inv_l in Hsp as (x & xs' & [Ha Hx] & Hsp & ->). simpl.
    destruct (V !! a) as [[x' sa]|] eqn:E; [|done]. simpl in Hx.
    inversion Hx; subst x'. destruct (Hsup a _ Ha E) as [s0 Hs0]. simpl in Hs0. subst sa.
    rewrite (IH xs' (bumpV s V a)).
    + rewrite (bumpV_wsum j s V P a x s0 Ha E Hlen). rewrite filter_cons.
      destruct (decide (x = j)) as [Hxj|Hxj].
      * rewrite bool_decide_eq_true_2 by done. simpl. lia.
      * rewrite bool_decide_eq_false_2 by done. lia.
    + apply (spells_items V); [by rewrite bumpV_items|done].
    + by apply bumpV_supported.
    + by rewrite bumpV_length.
Qed.

Lemma foldl_bumpV_supported s ns : ∀ V, supported V → supported (foldl (bumpV s) V ns).
Proof.
  induction ns as [|a ns IH]; intros V HV; simpl; [done|].
  by apply IH, bumpV_supported.
Qed.

(** Raising the support of nodes of other items leaves the nodes of [i]. *)
Lemma foldl_bumpV_keeps i s ns : ∀ xs V k sk,
  spells V ns xs → i ∉ xs → V !! k = Some (i, sk) →
  foldl (bumpV s) V ns !! k = Some (i, sk).
Proof.
  induction ns as [|a ns IH]; intros xs V k sk Hsp Hi Hk; simpl; [done|].
  apply Forall2_cons_inv_l in Hsp as (x & xs' & [Ha Hx] & Hsp & ->).
  apply not_elem_of_cons in Hi as [Hix Hi].
  apply (IH xs').
  - apply (spells_items V); [by rewrite bumpV_items|done].
  - done.
  - unfold bumpV. destruct (V !! a) as [[x' [s0|]]|] eqn:E; try done.
    rewrite list_lookup_insert_ne; [done|]. intros ->.
    rewrite Hk in E. inversion E; subst. simpl in Hx. congruence.
Qed.

Lemma filter_eq_NoDup (j : Item) (xs : list Item) :
  NoDup xs → length (filter (λ x, x = j) xs) = if decide (j ∈ xs) then 1 else 0.
Proof.
  induction 1 as [|x xs Hx _ IH]; [done|]. rewrite filter_cons.
  destruct (decide (x = j)) as [->|Hne]; simpl.
  - rewrite IH. rewrite (decide_False (P := j ∈ xs)) by done.
    by rewrite decide_True by apply list_elem_of_here.
  - rewrite IH. destruct (decide (j ∈ xs)) as [Hin|Hin].
    + by rewrite decide_True by (by apply list_elem_of_further).
    + rewrite decide_False; [done|]. rewrite not_elem_of_cons. split; congruence.
Qed.

Lemma propV_supported ps : ∀ V, supported V → supported (propV V ps).
Proof.
  unfold propV. induction ps as [|l ps IH]; intros V HV; simpl; [done|].
  apply IH. unfold propV_path. destruct (last l); [|done].
  destruct (V !! n) as [[x [s|]]|]; try done. by apply foldl_bumpV_supported.
Qed.

(** The second pass gives the nodes of [j] the supports of the nodes of [i]
    below them. *)
Lemma propV_wsum i j V1 P1 D S :
  seeded i (V1, P1) D S → Forall NoDup D → j ≠ i →
  ∀ ids ps V,
    Forall2 (trail V1 P1) ids ps →
    Forall (λ r, r ≠ 0 ∧ ∃ s, V1 !! r = Some (i, s)) ids →
    map fst V = map fst V1 →
    (∀ k s, V1 !! k = Some (i, s) → V !! k = Some (i, s)) →
    supported V → length V = length P1 →
    wsum (item_is j) (propV V ps) P1 =
      (wsum (item_is j) V P1 + isum (on_path j) V1 P1 ids)%Z.
Proof.
  intros Hseed HD Hji. induction ids as [|r ids IH]; intros ps V Htr Hids Hit Hkeep Hsup Hlen.
  - apply Forall2_nil_inv_l in Htr as ->. simpl. lia.
  - apply Forall2_cons_inv_l in Htr as (l & ps' & [Hlast (q & Hq & Hsp)] & Htr & ->).
    apply Forall_cons in Hids as [[Hr0 [sr Hr]] Hids].
    destruct (seeded_entry _ _ _ _ Hseed r (i, sr) q Hr0 Hr Hq) as (Hlq & [s Hs] & HqD & _).
    simpl in Hlq, Hs, HqD. subst sr.
    assert (NoDup q) as Hndq.
    { rewrite Forall_forall in HD. by apply HD, HqD. }
    apply last_Some in Hlast as [A ->].
    apply Forall2_app_inv_l in Hsp as (qA & qr & HspA & Hspr & ->).
    apply Forall2_cons_inv_l in Hspr as (x & qr' & [_ Hx] & Hnil & ->).
    apply Forall2_nil_inv_l in Hnil as ->.
    rewrite Hr in Hx. simpl in Hx. inversion Hx; subst x.
    apply NoDup_app in Hndq as (HndA & HiA & _).
    assert (i ∉ qA) as HiqA.
    { intros Hin. apply (HiA i Hin). apply list_elem_of_here. }
    assert (propV_path V (A ++ [r]) = foldl (bumpV s) V (reverse A)) as Hpath.
    { unfold propV_path. rewrite last_snoc, (Hkeep r (Some s) Hr), removelast_last. done. }
    assert (spells V (reverse A) (reverse qA)) as HspR.
    { apply Forall2_reverse. by apply (spells_items V1). }
    unfold propV. simpl. fold (propV (propV_path V (A ++ [r])) ps').
    rewrite Hpath.
    rewrite (IH ps' (foldl (bumpV s) V (reverse A))); try done.
    + rewrite (foldl_bumpV_wsum j s P1 (reverse A) (reverse qA) V HspR Hsup Hlen).
      simpl. rewrite Hr, Hq.
      rewrite filter_eq_NoDup by (by rewrite reverse_Permutation).
      assert (on_path j (i, Some s) (qA ++ [i]) =
              if decide (j ∈ reverse qA) then s else 0%Z) as ->.
      { unfold on_path. simpl. destruct (decide (j ∈ reverse qA)) as [Hin|Hin].
        - rewrite decide_True; [done|]. rewrite elem_of_reverse in Hin.
          apply elem_of_app. by left.
        - rewrite decide_False; [done|]. intros [Hin'|Hin']%elem_of_app.
          + apply Hin. by rewrite elem_of_reverse.
          + apply list_elem_of_singleton in Hin'. done. }
      destruct (decide (j ∈ reverse qA)); lia.
    + by rewrite foldl_bumpV_items.
    + intros k sk Hk. apply (foldl_bumpV_keeps i s (reverse A) (reverse qA)); try done.
      * by rewrite elem_of_reverse.
      * by apply Hkeep.
    + by apply foldl_bumpV_supported.
    + by rewrite foldl_bumpV_length.
Qed.

Lemma zsum_zero {A B} (F : A → B → Z) (l1 : list A) : ∀ l2 : list B,
  (∀ k a b, l1 !! k = Some a → l2 !! k = Some b → F a b = 0%Z) →
  zsum F l1 l2 = 0%Z.
Proof.
  induction l1 as [|a l1 IH]; intros [|b l2] H; simpl; try done.
  rewrite (H 0 a b) by done. rewrite IH; [done|].
  intros k a' b' Ha Hb. by apply (H (S k)).
Qed.

Lemma zsum_ext {A B} (F G : A → B → Z) (l1 : list A) : ∀ l2 : list B,
  (∀ a b, F a b = G a b) → zsum F l1 l2 = zsum G l1 l2.
Proof.
  induction l1 as [|a l1 IH]; intros [|b l2] H; simpl; try done.
  by rewrite H, (IH l2 H).
Qed.

Lemma isum_ids_ofV G V (P : list (list Item)) x :
  length V = length P →
  isum G V P (ids_ofV V x) =
    zsum (λ v q, if bool_decide (v.1 = x) then G v q else 0%Z) (tail V) (tail P).
Proof.
  intros Hlen. unfold ids_ofV. rewrite tail_map.
  apply (isum_ifilter G (λ it, bool_decide (it = x))).
  - by rewrite !tail_length, Hlen.
  - intros k. by rewrite lookup_tail.
  - intros k. by rewrite lookup_tail.
Qed.

Lemma elem_of_ids_ofV V x r :
  r ∈ ids_ofV V x → r ≠ 0 ∧ ∃ s, V !! r = Some (x, s).
Proof.
  unfold ids_ofV. intros (it & Hr & Hl & Hit)%elem_of_ifilter. split; [lia|].
  rewrite lookup_tail in Hl. replace (S (r - 1)) with r in Hl by lia.
  change (map fst) with (fmap (M := list) (fst (A := Item) (B := option Z))) in Hl.
  rewrite list_lookup_fmap in Hl. destruct (V !! r) as [[x' s]|]; [|done].
  simpl in Hl. apply bool_decide_eq_true in Hit. exists s. congruence.
Qed.

(** The conditional tree of [i], inserted from paths of distinct items that
    end in [i]: the supports of the nodes of another item [j] sum to the
    supports of the ends of the paths through [j]. *)
Lemma conditional_count i j nps ps :
  Forall (λ np, ends_in i np ∧ Forall (λ n, is_Some (support n)) np) nps →
  Forall (λ np, NoDup (map item np)) nps →
  NoDup (map (map item) nps) → j ≠ i →
  Forall2 (trail (abs_paths (SeedItem i) abs_init nps).1
                 (abs_paths (SeedItem i) abs_init nps).2)
          (ids_ofV (abs_paths (SeedItem i) abs_init nps).1 i) ps →
  wsum (item_is j) (propV (abs_paths (SeedItem i) abs_init nps).1 ps)
       (abs_paths (SeedItem i) abs_init nps).2 = dsum i (on_path j) nps.
Proof.
  intros Hall Hnds HD Hji Htr.
  pose proof (abs_paths_seeded i nps abs_init [] (λ _, 0%Z) (seeded_init i) Hall Hnds HD)
    as Hseed. simpl in Hseed.
  destruct (abs_paths (SeedItem i) abs_init nps) as [V1 P1] eqn:Hst. simpl in *.
  assert (length V1 = length P1) as Hlen by apply (seeded_len _ _ _ _ Hseed).
  pose proof (seeded_sum _ _ _ _ Hseed (on_path j)) as Hsum. simpl in Hsum.
  assert (supported V1) as Hsup.
  { intros k v Hk Hv. destruct (lookup_lt_is_Some_2 P1 k) as [q Hq].
    { rewrite <- Hlen. by apply lookup_lt_Some in Hv. }
    by destruct (seeded_entry _ _ _ _ Hseed k v q Hk Hv Hq) as (_ & ? & _). }
  assert (Forall NoDup ([] ++ map (map item) nps)) as HD'.
  { rewrite Forall_forall. intros np Hnp. simpl in Hnp.
    rewrite Forall_forall in Hnds.
    apply list_elem_of_fmap in Hnp as (np' & -> & Hnp'). by apply Hnds. }
  assert (Forall (λ r, r ≠ 0 ∧ ∃ s, V1 !! r = Some (i, s)) (ids_ofV V1 i)) as Hids.
  { apply Forall_forall. intros r Hr. by apply elem_of_ids_ofV. }
  rewrite (propV_wsum i j V1 P1 _ _ Hseed HD' Hji (ids_ofV V1 i) ps V1
             Htr Hids eq_refl (λ k s H, H) Hsup Hlen).
  rewrite (isum_ids_ofV _ _ _ _ Hlen), Hsum.
  assert (wsum (item_is j) V1 P1 = 0%Z) as ->; [|lia].
  unfold wsum. apply zsum_zero. intros k [x s] q Hv Hq. simpl.
  rewrite lookup_tail in Hv. rewrite lookup_tail in Hq. unfold item_is.
  destruct (decide (x = j)) as [->|Hne].
  - rewrite bool_decide_eq_true_2 by done.
    destruct (seeded_entry _ _ _ _ Hseed (S k) (j, s) q) as (_ & _ & _ & H0); try done.
    simpl in H0. by rewrite (H0 Hji).
  - by rewrite bool_decide_eq_false_2.
Qed.

(** ** The prefix paths of the tree of the transactions *)

Lemma spells_deref h l q np :
  spells (view h) l q → Forall2 (λ a n, h !! a = Some n) l np → map item np = q.
Proof.
  intros Hsp. revert np. induction Hsp as [|a x l q [_ Hx] _ IH]; intros np Hd.
  - by apply Forall2_nil_inv_l in Hd as ->.
  - apply Forall2_cons_inv_l in Hd as (n & np' & Hn & Hd & ->). simpl.
    rewrite (view_lookup _ _ _ Hn) in Hx. simpl in Hx. inversion Hx.
    by rewrite (IH np' Hd).
Qed.

(** What the paths handed to [project] are. *)
Lemma paths_of_nodes t P ids : ∀ ps nps,
  Forall2 (trail (view (store t)) P) ids ps →
  Forall2 (Forall2 (λ a n, store t !! a = Some n)) ps nps →
  Forall2 (λ r np, ∃ n q, store t !! r = Some n ∧ P !! r = Some q ∧
                          last np = Some n ∧ map item np = q) ids nps.
Proof.
  induction ids as [|r ids IH]; intros ps nps Htr Hd.
  - apply Forall2_nil_inv_l in Htr as ->. apply Forall2_nil_inv_l in Hd as ->. constructor.
  - apply Forall2_cons_inv_l in Htr as (l & ps' & [Hlast (q & Hq & Hsp)] & Htr & ->).
    apply Forall2_cons_inv_l in Hd as (np & nps' & Hnp & Hd & ->).
    constructor; [|by apply (IH ps')].
    destruct (Forall2_last_l _ _ _ _ Hnp Hlast) as (n & Hn & Hrn).
    exists n, q. split; [done|]. split; [done|]. split; [done|].
    by apply (spells_deref (store t) l).
Qed.

Lemma paths_dsum t i G (P : list (list Item)) ids : ∀ nps,
  Forall2 (λ r np, ∃ n q, store t !! r = Some n ∧ P !! r = Some q ∧
                          last np = Some n ∧ map item np = q) ids nps →
  Forall (λ r, ∃ n, store t !! r = Some n ∧ item n = i) ids →
  dsum i G nps = isum G (view (store t)) P ids.
Proof.
  induction ids as [|r ids IH]; intros nps HF Hi.
  - by apply Forall2_nil_inv_l in HF as ->.
  - apply Forall2_cons_inv_l in HF as (np & nps' & (n & q & Hn & Hq & Hlast & Hit) & HF & ->).
    apply Forall_cons in Hi as [(n' & Hn' & Hin) Hi]. simpl.
    rewrite (IH nps' HF Hi), (view_lookup _ _ _ Hn), Hq, Hlast, Hit. simpl.
    assert (n' = n) as -> by congruence. by rewrite Hin.
Qed.

Lemma paths_distinct t (P : list (list Item)) ids : ∀ nps,
  Forall2 (λ r np, ∃ n q, store t !! r = Some n ∧ P !! r = Some q ∧
                          last np = Some n ∧ map item np = q) ids nps →
  NoDup ids → NoDup P → NoDup (map (map item) nps).
Proof.
  induction ids as [|r ids IH]; intros nps HF Hids HP.
  - apply Forall2_nil_inv_l in HF as ->. constructor.
  - apply Forall2_cons_inv_l in HF as (np & nps' & (n & q & Hn & Hq & Hlast & Hit) & HF & ->).
    apply NoDup_cons in Hids as [Hr Hids]. simpl. constructor; [|by apply IH].
    intros Hin. apply list_elem_of_fmap in Hin as (np' & Hnp' & Hin).
    apply list_elem_of_lookup_1 in Hin as [k Hk].
    destruct (Forall2_lookup_r _ _ _ _ _ HF Hk) as (r' & Hr' & n2 & q2 & _ & Hq2 & _ & Hit2).
    assert (r' = r) as ->.
    { apply (proj1 (NoDup_alt P) HP r' r q); congruence. }
    apply Hr. by apply list_elem_of_lookup_2 in Hr'.
Qed.

(** ** Transactions in one order *)

Section sorted_transactions.

Context (R : relation Item) `{!StrictOrder R}.

Lemma sorted_NoDup (l : list Item) : StronglySorted R l → NoDup l.
Proof.
  induction 1 as [|x l _ IH Hx]; constructor; [|done].
  intros Hin. rewrite Forall_forall in Hx. by apply (irreflexivity R x), Hx.
Qed.

Lemma sorted_take (l : list Item) k : StronglySorted R l → StronglySorted R (take k l).
Proof.
  intros Hs. rewrite <- (take_drop k l) in Hs. by apply StronglySorted_app_1_l in Hs.
Qed.

Lemma walk_count_below i j tx : ∀ pp,
  R j i → StronglySorted R (pp ++ tx) →
  walk_count (item_below i j) pp tx =
    if bool_decide (i ∈ tx ∧ j ∈ pp ++ tx) then 1%Z else 0%Z.
Proof.
  induction tx as [|x tx IH]; intros pp Hji Hs; cbn [walk_count].
  - rewrite bool_decide_eq_false_2; [done|]. intros [[]%elem_of_nil _].
  - assert (pp ++ x :: tx = (pp ++ [x]) ++ tx) as Heq by (by rewrite <- app_assoc).
    rewrite Heq in Hs. rewrite (IH (pp ++ [x]) Hji Hs), <- Heq.
    assert (j ≠ i) as Hne by (intros ->; by apply (irreflexivity R i)).
    unfold item_below. destruct (decide (x = i)) as [->|Hxi].
    + rewrite bool_decide_eq_true_2 by done. simpl.
      assert (∀ y, y ∈ tx → R i y) as Hafter.
      { intros y Hy. apply (StronglySorted_app_1_elem_of R (pp ++ [i]) tx); [done| |done].
        apply elem_of_app. right. apply list_elem_of_here. }
      assert (i ∉ tx) as Hitx.
      { intros Hin. by apply (irreflexivity R i), Hafter. }
      assert (j ∉ tx) as Hjtx.
      { intros Hin. apply (irreflexivity R i). by trans j; [apply Hafter|]. }
      rewrite (bool_decide_eq_false_2 (i ∈ tx ∧ _)) by tauto.
      destruct (decide (j ∈ pp)) as [Hjp|Hjp].
      * rewrite bool_decide_eq_true_2 by (apply elem_of_app; by left).
        rewrite bool_decide_eq_true_2; [done|]. split; [apply list_elem_of_here|].
        apply elem_of_app. by left.
      * rewrite bool_decide_eq_false_2.
        2:{ rewrite elem_of_app, list_elem_of_singleton. tauto. }
        rewrite bool_decide_eq_false_2; [done|].
        intros [_ [?|[?|?]%elem_of_cons]%elem_of_app]; tauto.
    + rewrite bool_decide_eq_false_2 by done. simpl.
      rewrite Heq. rewrite (bool_decide_ext (i ∈ x :: tx ∧ j ∈ (pp ++ [x]) ++ tx)
                              (i ∈ tx ∧ j ∈ (pp ++ [x]) ++ tx)); [lia|].
      rewrite elem_of_cons. split; [|tauto]. intros [[->|?] ?]; [done|tauto].
Qed.

Lemma walk_count_all_below i j txs :
  R j i → Forall (StronglySorted R) txs →
  walk_count_all (item_below i j) txs = count_both i j txs.
Proof.
  intros Hji. unfold count_both. induction 1 as [|tx txs Hs _ IH]; simpl; [done|].
  rewrite IH, (walk_count_below i j tx [] Hji Hs), filter_cons. simpl.
  destruct (decide (i ∈ tx ∧ j ∈ tx)).
  - rewrite bool_decide_eq_true_2 by done. simpl. lia.
  - rewrite bool_decide_eq_false_2 by done. lia.
Qed.

End sorted_transactions.

Lemma below_sum i j (V : list (Item * option Z)) (P : list (list Item)) :
  zsum (λ v q, if bool_decide (v.1 = i) then on_path j v q else 0%Z) (tail V) (tail P) =
    wsum (item_below i j) V P.
Proof.
  unfold wsum. apply zsum_ext. intros v q. unfold on_path, item_below.
  destruct (bool_decide (v.1 = i)); simpl; [|done].
  destruct (decide (j ∈ q)).
  - by rewrite bool_decide_eq_true_2.
  - by rewrite bool_decide_eq_false_2.
Qed.

Lemma item_lt_strict : StrictOrder item_lt.
Proof.
  split.
  - intros [x|]; unfold complement, item_lt; [lia|done].
  - intros [x|] [y|] [z|]; unfold item_lt; try done. lia.
Qed.

(** ** Keys in the order in which they first come *)

Section first_seen.
Context {A : Type} `{EqDecision A}.
Implicit Types (x y : A) (l xs ys : list A).

Lemma elem_of_add_key x y l : y ∈ add_key x l ↔ y ∈ l ∨ y = x.
Proof.
  unfold add_key. destruct (decide (x ∈ l)) as [Hin|Hin].
  - split; [by left|]. intros [?| ->]; done.
  - rewrite elem_of_app, list_elem_of_singleton. done.
Qed.

Lemma add_key_NoDup x l : NoDup l → NoDup (add_key x l).
Proof.
  intros Hl. unfold add_key. destruct (decide (x ∈ l)) as [Hin|Hin]; [done|].
  apply NoDup_app. split; [done|]. split; [|apply NoDup_singleton].
  intros y Hy ->%list_elem_of_singleton. done.
Qed.

Lemma adds_app l xs ys : adds l (xs ++ ys) = adds (adds l xs) ys.
Proof. unfold adds. apply foldl_app. Qed.

Lemma adds_snoc l xs x : adds l (xs ++ [x]) = add_key x (adds l xs).
Proof. by rewrite adds_app. Qed.

Lemma elem_of_adds y xs : ∀ l, y ∈ adds l xs ↔ y ∈ l ∨ y ∈ xs.
Proof.
  induction xs as [|x xs IH]; intros l; simpl.
  - rewrite elem_of_nil. tauto.
  - rewrite IH, elem_of_add_key, elem_of_cons. tauto.
Qed.

Lemma elem_of_first_seen y xs : y ∈ first_seen xs ↔ y ∈ xs.
Proof. unfold first_seen. rewrite elem_of_adds, elem_of_nil. tauto. Qed.

Lemma adds_NoDup xs : ∀ l, NoDup l → NoDup (adds l xs).
Proof.
  induction xs as [|x xs IH]; intros l Hl; simpl; [done|].
  by apply IH, add_key_NoDup.
Qed.

Lemma first_seen_NoDup xs : NoDup (first_seen xs).
Proof. apply adds_NoDup. constructor. Qed.

Lemma adds_id xs : ∀ l, (∀ x, x ∈ xs → x ∈ l) → adds l xs = l.
Proof.
  induction xs as [|x xs IH]; intros l H; simpl; [done|].
  unfold add_key. rewrite decide_True by (apply H, list_elem_of_here).
  apply IH. intros y Hy. by apply H, list_elem_of_further.
Qed.

Lemma adds_cons x xs : ∀ l, x ∉ xs → adds (x :: l) xs = x :: adds l xs.
Proof.
  induction xs as [|y xs IH]; intros l Hx; simpl; [done|].
  apply not_elem_of_cons in Hx as [Hxy Hx].
  rewrite <- IH by done. f_equal. unfold add_key.
  destruct (decide (y ∈ l)) as [Hin|Hin].
  - by rewrite decide_True by (by apply list_elem_of_further).
  - rewrite decide_False; [done|]. rewrite not_elem_of_cons. split; congruence.
Qed.

Lemma adds_extends xs : ∀ l, ∃ e, adds l xs = l ++ e.
Proof.
  induction xs as [|x xs IH]; intros l; simpl.
  - exists []. by rewrite app_nil_r.
  - destruct (IH (add_key x l)) as [e He]. rewrite He. unfold add_key.
    destruct (decide (x ∈ l)); [by exists e|].
    exists ([x] ++ e). by rewrite <- app_assoc.
Qed.

Lemma filter_add_key (φ : A → Prop) `{!∀ x, Decision (φ x)} x l :
  filter φ (add_key x l) = if decide (φ x) then add_key x (filter φ l) else filter φ l.
Proof.
  unfold add_key. destruct (decide (x ∈ l)) as [Hin|Hin].
  - destruct (decide (φ x)); [|done].
    by rewrite decide_True by (by apply list_elem_of_filter).
  - rewrite filter_app, filter_cons, filter_nil.
    destruct (decide (φ x)); [|by rewrite app_nil_r].
    rewrite decide_False; [done|]. rewrite list_elem_of_filter. tauto.
Qed.

Lemma filter_adds (φ : A → Prop) `{!∀ x, Decision (φ x)} xs : ∀ l,
  filter φ (adds l xs) = adds (filter φ l) (filter φ xs).
Proof.
  induction xs as [|x xs IH]; intros l; simpl; [done|].
  rewrite IH, filter_add_key, filter_cons. by destruct (decide (φ x)).
Qed.

Lemma filter_first_seen (φ : A → Prop) `{!∀ x, Decision (φ x)} xs :
  filter φ (first_seen xs) = first_seen (filter φ xs).
Proof. unfold first_seen. by rewrite filter_adds. Qed.

End first_seen.

Lemma elem_of_concat {A} (x : A) (ls : list (list A)) :
  x ∈ concat ls ↔ ∃ l, l ∈ ls ∧ x ∈ l.
Proof.
  induction ls as [|l ls IH]; simpl.
  - split; [by intros ?%elem_of_nil|]. by intros (l & ?%elem_of_nil & _).
  - rewrite elem_of_app, IH. split.
    + intros [H|(l' & H1 & H2)].
      * exists l. split; [apply list_elem_of_here|done].
      * exists l'. split; [by apply list_elem_of_further|done].
    + intros (l' & [->|H1]%elem_of_cons & H2); [by left|]. right. eauto.
Qed.

Lemma adds_concat_first_seen {A B} `{EqDecision A} `{EqDecision B}
    (f : A → list B) (L : list A) (a : list B) :
  adds a (concat (map f (first_seen L))) = adds a (concat (map f L)).
Proof.
  induction L as [|x L IH] using rev_ind; [done|].
  unfold first_seen in *. rewrite adds_snoc. unfold add_key.
  destruct (decide (x ∈ adds [] L)) as [Hin|Hin].
  - rewrite IH, map_app, concat_app, adds_app. simpl. rewrite app_nil_r.
    symmetry. apply adds_id. intros y Hy. apply elem_of_adds. right.
    apply elem_of_concat. exists (f x). split; [|done].
    apply list_elem_of_fmap. exists x. split; [done|].
    apply elem_of_adds in Hin as [Hin|Hin]; [by apply elem_of_nil in Hin|done].
  - rewrite !map_app, !concat_app, !adds_app. by rewrite IH.
Qed.

Lemma adds_first_seen {A} `{EqDecision A} (l xs : list A) :
  adds l (first_seen xs) = adds l xs.
Proof.
  pose proof (adds_concat_first_seen (λ x : A, [x]) xs l) as H.
  assert (∀ l0 : list A, concat (map (λ x, [x]) l0) = l0) as E.
  { induction l0 as [|y l0 IHl]; simpl; [done|]. by rewrite IHl. }
  by rewrite !E in H.
Qed.

Lemma first_seen_map_first_seen {A B} `{EqDecision A} `{EqDecision B}
    (f : A → B) (L : list A) :
  first_seen (map f (first_seen L)) = first_seen (map f L).
Proof.
  pose proof (adds_concat_first_seen (λ x, [f x]) L []) as H.
  assert (∀ l : list A, concat (map (λ x, [f x]) l) = map f l) as E.
  { induction l as [|y l IHl]; simpl; [done|]. by rewrite IHl. }
  by rewrite !E in H.
Qed.

(** ** Prefixes *)

Lemma prefixes_app tx1 : ∀ pp tx2,
  prefixes pp (tx1 ++ tx2) = prefixes pp tx1 ++ prefixes (pp ++ tx1) tx2.
Proof.
  induction tx1 as [|x tx1 IH]; intros pp tx2; simpl.
  - by rewrite app_nil_r.
  - rewrite IH. by rewrite <- app_assoc.
Qed.

Lemma prefixes_snoc pp tx x :
  prefixes pp (tx ++ [x]) = prefixes pp tx ++ [pp ++ tx ++ [x]].
Proof. rewrite prefixes_app. simpl. by rewrite <- app_assoc. Qed.

Lemma prefixes_length tx : ∀ pp, length (prefixes pp tx) = length tx.
Proof. induction tx as [|x tx IH]; intros pp; simpl; [done|]. by rewrite IH. Qed.

Lemma prefixes_lookup tx : ∀ pp k,
  k < length tx → prefixes pp tx !! k = Some (pp ++ take (S k) tx).
Proof.
  induction tx as [|x tx IH]; intros pp k Hk; simpl in *; [lia|].
  destruct k as [|k]; simpl.
  - by rewrite take_0.
  - rewrite IH by lia. by rewrite <- app_assoc.
Qed.

Lemma elem_of_prefixes tx pp q :
  q ∈ prefixes pp tx ↔ ∃ k, 0 < k ≤ length tx ∧ q = pp ++ take k tx.
Proof.
  split.
  - intros [k Hk]%list_elem_of_lookup_1.
    pose proof (lookup_lt_Some _ _ _ Hk) as Hlt. rewrite prefixes_length in Hlt.
    rewrite prefixes_lookup in Hk by done. exists (S k). split; [lia|congruence].
  - intros (k & Hk & ->). destruct k as [|k]; [lia|].
    apply (list_elem_of_lookup_2 _ k). apply prefixes_lookup. lia.
Qed.

Lemma prefixes_not_nil tx pp : pp ∉ prefixes pp tx.
Proof.
  intros (k & Hk & E)%elem_of_prefixes.
  apply (f_equal length) in E. rewrite length_app, length_take in E. lia.
Qed.

Lemma prefixes_last tx : ∀ pp, map last (prefixes pp tx) = map Some tx.
Proof.
  induction tx as [|x tx IH]; intros pp; simpl; [done|].
  by rewrite last_snoc, IH.
Qed.

Lemma prefixes_NoDup tx pp : NoDup (prefixes pp tx).
Proof.
  apply NoDup_alt. intros a b q Ha Hb.
  pose proof (lookup_lt_Some _ _ _ Ha) as Hla.
  pose proof (lookup_lt_Some _ _ _ Hb) as Hlb.
  rewrite prefixes_length in Hla, Hlb.
  rewrite prefixes_lookup in Ha, Hb by done.
  assert (length (pp ++ take (S a) tx) = length (pp ++ take (S b) tx)) as E
    by congruence.
  rewrite !length_app, !length_take in E. lia.
Qed.

(** ** Sums over a list *)

Lemma lsum_app {A} (f : A → Z) l1 l2 : lsum f (l1 ++ l2) = (lsum f l1 + lsum f l2)%Z.
Proof. induction l1 as [|x l1 IH]; simpl; [done|]. rewrite IH. lia. Qed.

Lemma lsum_ext {A} (f g : A → Z) l :
  (∀ x, x ∈ l → f x = g x) → lsum f l = lsum g l.
Proof.
  induction l as [|x l IH]; intros H; simpl; [done|].
  rewrite (H x) by apply list_elem_of_here. rewrite IH; [done|].
  intros y Hy. by apply H, list_elem_of_further.
Qed.

Lemma lsum_plus {A} (f g : A → Z) l :
  lsum (λ x, (f x + g x)%Z) l = (lsum f l + lsum g l)%Z.
Proof. induction l as [|x l IH]; simpl; [done|]. rewrite IH. lia. Qed.

Lemma lsum_zero {A} (f : A → Z) l : (∀ x, x ∈ l → f x = 0%Z) → lsum f l = 0%Z.
Proof.
  induction l as [|x l IH]; intros H; simpl; [done|].
  rewrite (H x) by apply list_elem_of_here. rewrite IH; [done|].
  intros y Hy. by apply H, list_elem_of_further.
Qed.

(** The sum over a list without repetition of a function that is 0 but at
    one element of it. *)
Lemma lsum_one {A} `{EqDecision A} (f : A → Z) (x0 : A) l :
  NoDup l → x0 ∈ l → lsum (λ x, if decide (x = x0) then f x else 0%Z) l = f x0.
Proof.
  induction 1 as [|x l Hx Hnd IH]; intros Hin; [by apply elem_of_nil in Hin|].
  simpl. apply elem_of_cons in Hin as [->|Hin].
  - rewrite decide_True by done. rewrite lsum_zero; [lia|].
    intros y Hy. rewrite decide_False; [done|]. congruence.
  - rewrite decide_False by congruence. rewrite IH by done. lia.
Qed.

Lemma lsum_swap {A B} (F : A → B → Z) (l1 : list A) (l2 : list B) :
  lsum (λ a, lsum (λ b, F a b) l2) l1 = lsum (λ b, lsum (λ a, F a b) l1) l2.
Proof.
  induction l1 as [|a l1 IH]; simpl.
  - symmetry. by apply lsum_zero.
  - rewrite IH. by rewrite lsum_plus.
Qed.

Lemma lsum_scale {A} (f : A → Z) (c : Z) l :
  lsum (λ x, (c * f x)%Z) l = (c * lsum f l)%Z.
Proof. induction l as [|x l IH]; simpl; [lia|]. rewrite IH. lia. Qed.

Lemma lsum_filter {A} (φ : A → Prop) `{!∀ x, Decision (φ x)} (f : A → Z) l :
  lsum f (filter φ l) = lsum (λ x, if decide (φ x) then f x else 0%Z) l.
Proof.
  induction l as [|x l IH]; simpl; [done|]. rewrite filter_cons.
  destruct (decide (φ x)); simpl; rewrite IH; lia.
Qed.

Lemma lsum_count {A} (φ : A → Prop) `{!∀ x, Decision (φ x)} l :
  lsum (λ x, if decide (φ x) then 1%Z else 0%Z) l = Z.of_nat (length (filter φ l)).
Proof.
  induction l as [|x l IH]; simpl; [done|]. rewrite filter_cons.
  destruct (decide (φ x)); simpl length; rewrite IH; lia.
Qed.

(** ** Walks as sums over prefixes *)

Lemma walk_count_prefixes φ tx : ∀ pp,
  walk_count φ pp tx =
    lsum (λ q, if φ (default None (last q)) q then 1%Z else 0%Z) (prefixes pp tx).
Proof.
  induction tx as [|x tx IH]; intros pp; simpl; [done|].
  by rewrite last_snoc, IH.
Qed.

Lemma walk_count_all_prefixes φ db :
  walk_count_all φ db =
    lsum (λ tx, lsum (λ q, if φ (default None (last q)) q then 1%Z else 0%Z)
                     (prefixes [] tx)) db.
Proof.
  induction db as [|tx db IH]; simpl; [done|].
  by rewrite IH, walk_count_prefixes.
Qed.

Lemma walk_count_app φ tx1 : ∀ pp tx2,
  walk_count φ pp (tx1 ++ tx2) = (walk_count φ pp tx1 + walk_count φ (pp ++ tx1) tx2)%Z.
Proof.
  induction tx1 as [|x tx1 IH]; intros pp tx2; simpl.
  - by rewrite app_nil_r.
  - rewrite IH, <- app_assoc. simpl. lia.
Qed.

(** ** What every tree made by the program keeps *)

(** A property kept by the two ways in which the program changes a tree,
    a new node and a new support, holds of every tree it makes. *)
Section made_invariant.

Variable I : FPTree → Prop.
Hypothesis I_init : I FPTree_init.
Hypothesis I_attach : ∀ t point np x sup t' c,
  I t → store t !! point = Some np → children np !! x = None →
  attach t point x sup = Ok (t', c) → I t'.
Hypothesis I_support : ∀ t c n s,
  I t → store t !! c = Some n →
  I (set_store (<[c := set_support s n]> (store t)) t).

Lemma add_transaction_step_inv t point x t' c :
  I t → add_transaction_step t point x = Ok (t', c) → I t'.
Proof.
  intros Hl H. unfold add_transaction_step, FPNode_search in H.
  apply bind_Ok in H as (np & Hnp%get_Ok & H).
  destruct (children np !! x) as [c'|] eqn:Hc.
  - apply bind_Ok in H as (h & Hinc & Heq). inversion Heq; subst.
    unfold increment_node_support in Hinc.
    apply bind_Ok in Hinc as (nc & Hnc%get_Ok & Hinc).
    destruct (support nc); inversion Hinc. by apply I_support.
  - by apply (I_attach t point np x (Some 1%Z) t' c).
Qed.

Lemma add_transaction_from_inv itemset : ∀ t point t',
  I t → add_transaction_from t point itemset = Ok t' → I t'.
Proof.
  induction itemset as [|x itemset IH]; intros t point t' Hl H; simpl in H.
  - by inversion H; subst.
  - apply bind_Ok in H as ([t1 c] & Hstep & H).
    apply (IH t1 c t'); [|done]. by apply (add_transaction_step_inv t point x t1 c).
Qed.

Lemma project_step_inv seed t current node t' c :
  I t → project_step seed t current node = Ok (t', c) → I t'.
Proof.
  intros Hl H. unfold project_step, FPNode_search in H.
  apply bind_Ok in H as (np & Hnp%get_Ok & H).
  destruct (children np !! item node) as [c'|] eqn:Hc.
  - by inversion H; subst.
  - by apply (I_attach t current np (item node)
                (if item_eq_seed (item node) seed then support node else Some 0%Z) t' c).
Qed.

Lemma project_path_inv seed path : ∀ t current t',
  I t → project_path seed t current path = Ok t' → I t'.
Proof.
  induction path as [|n path IH]; intros t current t' Hl H; simpl in H.
  - by inversion H; subst.
  - apply bind_Ok in H as ([t1 c] & Hstep & H).
    apply (IH t1 c t'); [|done]. by apply (project_step_inv seed t current n t1 c).
Qed.

Lemma project_paths_inv paths : ∀ seed t seed' t',
  I t → project_paths seed t paths = Ok (seed', t') → I t'.
Proof.
  induction paths as [|path paths IH]; intros seed t seed' t' Hl H; simpl in H.
  - by inversion H; subst.
  - apply bind_Ok in H as (s1 & _ & H). apply bind_Ok in H as (t1 & Hp & H).
    apply (IH s1 t1 seed' t'); [|done]. by apply (project_path_inv s1 path t (root t)).
Qed.

Lemma add_support_all_inv t sup ns : ∀ h h',
  I (set_store h t) → add_support_all h ns sup = Ok h' → I (set_store h' t).
Proof.
  induction ns as [|a ns IH]; intros h h' Hl H; simpl in H.
  - by inversion H; subst.
  - apply bind_Ok in H as (h1 & Ha & H). apply (IH h1 h'); [|done].
    unfold add_support in Ha. apply bind_Ok in Ha as (n & Hn%get_Ok & Ha).
    destruct (support n), sup; inversion Ha.
    apply (I_support (set_store h t) a n); done.
Qed.

Lemma propagate_inv t paths : ∀ h h',
  I (set_store h t) → propagate h paths = Ok h' → I (set_store h' t).
Proof.
  induction paths as [|l paths IH]; intros h h' Hl H; simpl in H.
  - by inversion H; subst.
  - apply bind_Ok in H as (h1 & Hp & H). apply (IH h1 h'); [|done].
    unfold propagate_path in Hp. destruct (last l); [|done].
    apply bind_Ok in Hp as (n' & _ & Hp). by apply (add_support_all_inv t _ _ h h1) in Hp.
Qed.

Lemma made_inv t : made t → I t.
Proof.
  induction 1 as [|t tx t' _ Hl Hadd|paths t' Hp].
  - done.
  - by apply (add_transaction_from_inv tx t (root t)).
  - unfold project in Hp. apply bind_Ok in Hp as ([seed c1] & H1 & Hp).
    apply bind_Ok in Hp as (ps & _ & Hp). apply bind_Ok in Hp as (h & Hh & Hp).
    inversion Hp; subst.
    apply (propagate_inv c1 ps (store c1)); [|done].
    assert (set_store (store c1) c1 = c1) as -> by (by destruct c1).
    by apply (project_paths_inv paths SeedFalse FPTree_init seed c1).
Qed.

End made_invariant.

(** ** The order of the keys *)

Lemma items_insert h r n n' :
  h !! r = Some n → item n' = item n → map item (<[r := n']> h) = map item h.
Proof.
  intros Hn Hi. change (map item) with (fmap (M := list) item).
  rewrite list_fmap_insert. apply list_insert_id.
  by rewrite list_lookup_fmap, Hn, Hi.
Qed.

Lemma FPNode_add_items h self child h' :
  FPNode_add h self child = Ok h' → map item h' = map item h.
Proof.
  unfold FPNode_add. intros H.
  apply bind_Ok in H as (s & Hs%get_Ok & H). apply bind_Ok in H as (c & Hc%get_Ok & H).
  destruct (children s !! item c); [by inversion H|].
  apply bind_Ok in H as (c1 & Hc1%get_Ok & H). inversion H; subst.
  rewrite (items_insert _ child c1) by done.
  by rewrite (items_insert _ self s).
Qed.

Lemma update_route_keys t point t' p :
  update_route t point = Ok t' → store t !! point = Some p →
  (hyperlinks t').*1 = add_key (item p) (hyperlinks t).*1 ∧
  map item (store t') = map item (store t).
Proof.
  unfold update_route. intros H Hp. rewrite (get_lookup _ _ _ Hp) in H. simpl in H.
  destruct (alist_lookup (item p) (hyperlinks t)) as [[hd tl]|] eqn:E.
  - apply bind_Ok in H as (r1 & Hr1%get_Ok & H). inversion H; subst. simpl.
    split; [|by apply (items_insert _ tl r1)].
    rewrite alist_set_keys by (by rewrite E). unfold add_key.
    rewrite decide_True; [done|].
    destruct (decide (item p ∈ (hyperlinks t).*1)) as [|Hn]; [done|].
    apply alist_lookup_None in Hn. congruence.
  - inversion H; subst. simpl. split; [|done].
    rewrite fmap_app. simpl. unfold add_key.
    rewrite decide_False; [done|]. by apply alist_lookup_None.
Qed.

(** What [attach] does to the items of the store and to the keys. *)
Lemma attach_keys t point x sup t' c :
  store t ≠ [] → attach t point x sup = Ok (t', c) →
  map item (store t') = map item (store t) ++ [x] ∧
  (hyperlinks t').*1 = add_key x (hyperlinks t).*1.
Proof.
  intros Hne H. unfold attach in H. cbv zeta in H.
  apply bind_Ok in H as (h1 & Hadd & H). apply bind_Ok in H as (t2 & Hup & H).
  inversion H; subst. clear H.
  pose proof (FPNode_add_items _ _ _ _ Hadd) as Hit.
  rewrite map_app in Hit. simpl in Hit.
  assert (∃ p, h1 !! length (store t) = Some p ∧ item p = x) as (p & Hp & Hpx).
  { assert (map item h1 !! length (store t) = Some x) as Hl.
    { rewrite Hit. apply list_lookup_middle. by rewrite length_map. }
    change (map item) with (fmap (M := list) item) in Hl.
    rewrite list_lookup_fmap in Hl. destruct (h1 !! length (store t)) as [p|]; [|done].
    exists p. split; [done|]. simpl in Hl. congruence. }
  destruct (update_route_keys (set_store h1 t) (length (store t)) t' p Hup Hp)
    as [Hk Hi]. simpl in Hk, Hi.
  split; [by rewrite Hi, Hit|]. by rewrite Hk, Hpx.
Qed.

Lemma made_keyed t : made t → keyed t ∧ store t ≠ [].
Proof.
  revert t. apply (made_inv (λ t, keyed t ∧ store t ≠ [])).
  - done.
  - intros t0 point np x sup t' c [Hk Hne] _ _ Ha.
    destruct (attach_keys t0 point x sup t' c Hne Ha) as [Hi Hk'].
    split.
    + unfold keyed. rewrite Hk', Hi, Hk.
      assert (tail (map item (store t0) ++ [x]) = tail (map item (store t0)) ++ [x]) as ->.
      { destruct (store t0); [done|]. done. }
      unfold first_seen. by rewrite adds_snoc.
    + intros E. rewrite E in Hi. by destruct (map item (store t0)).
  - intros t0 c n s [Hk Hne] Hn. split.
    + unfold keyed. simpl. by rewrite (items_set_support _ _ _ _ Hn).
    + simpl. intros E. apply (f_equal length) in E. rewrite length_insert in E.
      by destruct (store t0).
Qed.

(** ** The paths of a tree are its own *)

Lemma wf_unique t P P' : wf t P → wf t P' → P = P'.
Proof.
  intros Hwf Hwf'. apply list_eq. intros r.
  induction r as [r IH] using lt_wf_ind.
  destruct (store t !! r) as [n|] eqn:Hn.
  - destruct (decide (r = 0)) as [->|Hr].
    + by rewrite (wf_root_path _ _ Hwf), (wf_root_path _ _ Hwf').
    + destruct (wf_node _ _ Hwf r n Hn Hr)
        as (p & np & pp & s & H1 & H2 & H3 & H4 & H5 & H6 & H7).
      destruct (wf_node _ _ Hwf' r n Hn Hr)
        as (p' & np' & pp' & s' & H1' & H2' & H3' & H4' & H5' & H6' & H7').
      assert (p' = p) as -> by congruence.
      specialize (IH p H2). rewrite H6, H6' in IH. rewrite H7, H7'. congruence.
  - apply lookup_ge_None in Hn.
    rewrite (proj2 (lookup_ge_None P r)) by (rewrite (wf_len _ _ Hwf); lia).
    by rewrite (proj2 (lookup_ge_None P' r)) by (rewrite (wf_len _ _ Hwf'); lia).
Qed.

Lemma wf_items_paths t P : wf t P → map item (store t) = map lastd P.
Proof.
  intros Hwf. apply list_eq. intros r.
  change (map item) with (fmap (M := list) item).
  change (map lastd) with (fmap (M := list) lastd).
  rewrite !list_lookup_fmap.
  destruct (store t !! r) as [n|] eqn:Hn.
  - destruct (decide (r = 0)) as [->|Hr].
    + destruct (wf_root_node _ _ Hwf) as (r0 & Hr0 & Hi & _).
      rewrite (wf_root_path _ _ Hwf). simpl. assert (n = r0) as -> by congruence.
      by rewrite Hi.
    + destruct (wf_node _ _ Hwf r n Hn Hr)
        as (p & np & pp & s & H1 & H2 & H3 & H4 & H5 & H6 & H7).
      rewrite H7. simpl. unfold lastd. by rewrite last_snoc.
  - apply lookup_ge_None in Hn.
    by rewrite (proj2 (lookup_ge_None P r)) by (rewrite (wf_len _ _ Hwf); lia).
Qed.

(** ** The tree of a database *)

Lemma add_transaction_from_paths tx : ∀ t P point pp,
  wf t P → P !! point = Some pp →
  ∃ t', add_transaction_from t point tx = Ok t' ∧ wf t' (adds P (prefixes pp tx)).
Proof.
  induction tx as [|x tx IH]; intros t P point pp Hwf Hpp; simpl.
  - by exists t.
  - destruct (add_transaction_step_spec t P point pp x Hwf Hpp)
      as (t1 & P1 & c & Hstep & Hwf1 & Hc & Hcase & _).
    rewrite Hstep. simpl.
    assert (P1 = add_key (pp ++ [x]) P) as HP1.
    { unfold add_key. destruct Hcase as [[-> _]|[-> Hnew]].
      - rewrite decide_True; [done|]. by apply list_elem_of_lookup_2 in Hc.
      - rewrite decide_False; [done|]. intros [k Hk]%list_elem_of_lookup_1.
        by apply (Hnew k). }
    rewrite <- HP1. by apply (IH t1 P1 c).
Qed.

Lemma add_transactions_paths db : ∀ t P,
  wf t P →
  ∃ t', add_transactions t db = Ok t' ∧
        wf t' (adds P (concat (map (prefixes []) db))).
Proof.
  induction db as [|tx db IH]; intros t P Hwf; simpl.
  - by exists t.
  - destruct (add_transaction_from_paths tx t P (root t) [] Hwf) as (t1 & H1 & Hwf1).
    { rewrite (wf_root _ _ Hwf). apply Hwf. }
    unfold add_transaction. rewrite H1. simpl. rewrite adds_app. by apply IH.
Qed.

Lemma prefixes_lastd tx : ∀ pp, map lastd (prefixes pp tx) = tx.
Proof.
  induction tx as [|x tx IH]; intros pp; simpl; [done|].
  unfold lastd at 1. by rewrite last_snoc, IH.
Qed.

Lemma concat_prefixes_lastd db : map lastd (concat (map (prefixes []) db)) = concat db.
Proof.
  induction db as [|tx db IH]; simpl; [done|].
  by rewrite map_app, prefixes_lastd, IH.
Qed.

Lemma nil_not_prefix db : [] ∉ concat (map (prefixes []) db).
Proof.
  intros (l & Hl & Hin)%elem_of_concat.
  apply list_elem_of_fmap in Hl as (tx & -> & _). by apply prefixes_not_nil in Hin.
Qed.

(** The keys of a tree whose paths are the prefixes of [db]. *)
Lemma keyed_paths t db :
  keyed t → wf t (adds [[]] (concat (map (prefixes []) db))) →
  (hyperlinks t).*1 = first_seen (concat db).
Proof.
  intros Hk Hwf. rewrite Hk, (wf_items_paths _ _ Hwf), tail_map.
  rewrite adds_cons by apply nil_not_prefix. simpl.
  fold (first_seen (concat (map (prefixes []) db))).
  by rewrite first_seen_map_first_seen, concat_prefixes_lastd.
Qed.

Lemma build_made db t : build db = Ok t → made t.
Proof. intros H. by apply reachable_made, (build_reachable db). Qed.

Lemma build_rep db :
  ∃ t, build db = Ok t ∧ rep t (adds [[]] (concat (map (prefixes []) db))) db.
Proof.
  destruct (add_transactions_paths db FPTree_init [[]] wf_init) as (t & Ht & Hwf).
  exists t. split; [done|].
  destruct (build_spec db) as (t0 & P0 & Ht0 & Hwf0 & _ & Hsum).
  assert (t0 = t) as -> by (unfold build in Ht0; congruence).
  constructor.
  - done.
  - done.
  - apply keyed_paths; [|done]. by destruct (made_keyed t (build_made db t Ht)).
  - intros φ. rewrite <- (wf_unique _ _ _ Hwf0 Hwf). apply Hsum.
Qed.

(** ** The way to a node *)

Lemma walk_up_way t P : ∀ r fuel acc q,
  wf t P → P !! r = Some q → r ≤ fuel →
  ∃ l, walk_up (store t) fuel r acc = Ok (l ++ acc) ∧ spells (view (store t)) l q ∧
       way P l q ∧ (r ≠ 0 → last l = Some r).
Proof.
  induction r as [r IH] using lt_wf_ind. intros fuel acc q Hwf Hq Hfuel.
  destruct (wf_point _ _ _ _ Hwf Hq) as [n Hn].
  destruct (decide (r = 0)) as [->|Hr].
  - destruct (wf_root_node _ _ Hwf) as (r0 & Hr0 & Hi & Hs).
    rewrite (wf_root_path _ _ Hwf) in Hq. inversion Hq; subst q.
    exists []. split; [|split; [constructor|split; [constructor|done]]].
    destruct fuel; simpl; rewrite (get_lookup _ _ _ Hr0); simpl;
      unfold FPNode_root; by rewrite Hi, Hs.
  - destruct (wf_node _ _ Hwf r n Hn Hr)
      as (p & np & pp & s & H1 & H2 & H3 & H4 & H5 & H6 & H7).
    assert (q = pp ++ [item n]) as -> by congruence.
    destruct fuel as [|fuel]; [lia|].
    destruct (IH p H2 fuel (r :: acc) pp Hwf H6 ltac:(lia)) as (l & Hl & Hsp & Hway & _).
    exists (l ++ [r]). split; [|split; [|split]].
    + simpl. rewrite (get_lookup _ _ _ Hn). simpl.
      unfold FPNode_root. rewrite H5.
      rewrite (bool_decide_eq_false_2 (Some s = None)) by done.
      rewrite andb_false_r, H1, Hl. by rewrite <- app_assoc.
    + apply Forall2_app; [done|]. constructor; [|constructor].
      split; [done|]. by rewrite (view_lookup _ _ _ Hn).
    + unfold way. rewrite prefixes_snoc. apply Forall2_app; [done|].
      constructor; [|constructor]. by rewrite Hq.
    + intros _. apply last_snoc.
Qed.

Lemma prefix_paths_of_way t P ns :
  wf t P → Forall (λ r, 0 < r < length (store t)) ns →
  ∃ paths, prefix_paths_of (store t) ns = Ok paths ∧
           Forall2 (trailw (view (store t)) P) ns paths.
Proof.
  intros Hwf. induction 1 as [|r ns Hr _ (paths & Hps & Htr)]; simpl.
  - exists []. split; [done|constructor].
  - destruct (lookup_lt_is_Some_2 P r) as [q Hq]; [rewrite (wf_len _ _ Hwf); lia|].
    destruct (walk_up_way t P r (length (store t)) [] q Hwf Hq ltac:(lia))
      as (l & Hl & Hsp & Hway & Hlast).
    rewrite Hl, app_nil_r, Hps. simpl. exists (l :: paths). split; [done|].
    constructor; [|done]. split; [apply Hlast; lia|]. eauto.
Qed.

Lemma prefix_paths_way t P x :
  wf t P → x ∈ (hyperlinks t).*1 →
  ∃ paths, prefix_paths t x = Ok paths ∧
           Forall2 (trailw (view (store t)) P) (ids_of (store t) x) paths.
Proof.
  intros Hwf Hx. unfold prefix_paths. rewrite (nodes_spec _ _ _ Hwf Hx). simpl.
  apply prefix_paths_of_way; [done|apply ids_of_range].
Qed.

Lemma trailw_trail V P : ∀ ids ps,
  Forall2 (trailw V P) ids ps → Forall2 (trail V P) ids ps.
Proof.
  intros ids ps H. eapply Forall2_impl; [done|].
  intros r l [Hlast (q & Hq & Hsp & _)]. split; [done|]. eauto.
Qed.

(** [project_spec], with the ways of the second pass. *)
Lemma project_way i paths :
  paths ≠ [] →
  Forall (λ path, ends_in i path ∧ Forall (λ n, is_Some (support n)) path) paths →
  ∃ c ps, project paths = Ok c ∧
    wf c (abs_paths (SeedItem i) abs_init paths).2 ∧
    Forall2 (trailw (abs_paths (SeedItem i) abs_init paths).1
                    (abs_paths (SeedItem i) abs_init paths).2)
            (ids_ofV (abs_paths (SeedItem i) abs_init paths).1 i) ps ∧
    view (store c) = propV (abs_paths (SeedItem i) abs_init paths).1 ps.
Proof.
  intros Hne Hall.
  destruct (project_spec i paths Hne Hall) as (c & ps0 & Hc & Hwfc & _ & Hv0).
  exists c. pose proof Hc as Hc0. unfold project in Hc.
  destruct (project_paths_spec i paths SeedFalse FPTree_init [[]] wf_init
              (or_introl eq_refl) Hall) as (c1 & P1 & Hp & Hwf1 & Habs).
  rewrite Hp in Hc. rewrite decide_False in Hc by done. simpl in Hc.
  change (view (store FPTree_init), [[]]) with abs_init in Habs.
  set (st := abs_paths (SeedItem i) abs_init paths) in *.
  assert (view (store c1) = st.1) as HV by (by rewrite <- Habs).
  assert (P1 = st.2) as HP by (by rewrite <- Habs).
  apply bind_Ok in Hc as (ps & Hps & Hc). apply bind_Ok in Hc as (h & Hh & Hc).
  inversion Hc; subst c. clear Hc.
  assert (i ∈ (hyperlinks c1).*1) as Hkey.
  { unfold prefix_paths, nodes in Hps.
    destruct (alist_lookup i (hyperlinks c1)) eqn:E; [|done].
    destruct (decide (i ∈ (hyperlinks c1).*1)) as [|Hn]; [done|].
    apply alist_lookup_None in Hn. congruence. }
  destruct (prefix_paths_way c1 P1 i Hwf1 Hkey) as (ps' & Hps' & Htr).
  assert (ps' = ps) as -> by congruence.
  exists ps. split; [done|]. split; [done|].
  rewrite <- HP, <- HV, <- ids_of_view. split; [done|].
  destruct (propagate_spec ps c1 P1 Hwf1) as (h' & Hh' & _ & Hv').
  { eapply Forall2_Forall_r; [done|]. apply Forall_forall.
    intros r _ l [Hlast (q & _ & Hsp & _)]. split; [by eexists|].
    rewrite <- view_length. by apply spells_range with (q := q). }
  assert (h' = h) as -> by congruence. done.
Qed.

(** ** The paths that the first pass makes *)

Lemma abs_path_paths seed path : ∀ st pp,
  (abs_path seed st pp path).2 = adds st.2 (prefixes pp (map item path)).
Proof.
  induction path as [|n path IH]; intros st pp; simpl; [done|].
  rewrite IH. f_equal. unfold add_key.
  by destruct (decide (pp ++ [item n] ∈ st.2)).
Qed.

Lemma abs_paths_paths seed paths : ∀ st,
  (abs_paths seed st paths).2 =
    adds st.2 (concat (map (prefixes []) (map (map item) paths))).
Proof.
  induction paths as [|path paths IH]; intros st; simpl; [done|].
  by rewrite IH, abs_path_paths, adds_app.
Qed.

(** ** The second pass, for every test of the nodes *)

Lemma zsum_reverse {A B} (F : A → B → Z) (l1 : list A) : ∀ l2 : list B,
  length l1 = length l2 → zsum F (reverse l1) (reverse l2) = zsum F l1 l2.
Proof.
  induction l1 as [|a l1 IH]; intros [|b l2] Hlen; simpl in *; try done.
  rewrite !reverse_cons, zsum_app by (rewrite !length_reverse; lia).
  rewrite IH by lia. simpl. lia.
Qed.

Lemma zsum_walk (φ : Item → list Item → bool) tx : ∀ pp,
  zsum (λ x q, if φ x q then 1%Z else 0%Z) tx (prefixes pp tx) = walk_count φ pp tx.
Proof. induction tx as [|x tx IH]; intros pp; simpl; [done|]. by rewrite IH. Qed.

Lemma bumpV_wsum_gen φ s V (P : list (list Item)) a x s0 q :
  a ≠ 0 → V !! a = Some (x, Some s0) → P !! a = Some q →
  wsum φ (bumpV s V a) P = (wsum φ V P + if φ x q then s else 0)%Z.
Proof.
  intros Ha HV Hq. rewrite (bumpV_lookup s V a x s0 HV).
  rewrite (wsum_insert φ V P a x s0 (s0 + s)%Z q Ha HV Hq).
  destruct (φ x q); lia.
Qed.

Lemma foldl_bumpV_wsum_gen φ s (P : list (list Item)) ns : ∀ xs qs V,
  spells V ns xs → Forall2 (λ a q, P !! a = Some q) ns qs → supported V →
  wsum φ (foldl (bumpV s) V ns) P =
    (wsum φ V P + s * zsum (λ x q, if φ x q then 1 else 0) xs qs)%Z.
Proof.
  induction ns as [|a ns IH]; intros xs qs V Hsp Hqs Hsup.
  - apply Forall2_nil_inv_l in Hsp as ->. simpl. lia.
  - apply Forall2_cons_inv_l in Hsp as (x & xs' & [Ha Hx] & Hsp & ->).
    apply Forall2_cons_inv_l in Hqs as (q & qs' & Hq & Hqs & ->). simpl.
    destruct (V !! a) as [[x' sa]|] eqn:E; [|done]. simpl in Hx.
    inversion Hx; subst x'. destruct (Hsup a _ Ha E) as [s0 Hs0]. simpl in Hs0. subst sa.
    rewrite (IH xs' qs' (bumpV s V a)).
    + rewrite (bumpV_wsum_gen φ s V P a x s0 q Ha E Hq). destruct (φ x q); lia.
    + apply (spells_items V); [by rewrite bumpV_items|done].
    + done.
    + by apply bumpV_supported.
Qed.

Lemma propV_wsum_gen φ i V1 P1 D S :
  seeded i (V1, P1) D S → Forall NoDup D →
  ∀ ids ps V,
    Forall2 (trailw V1 P1) ids ps →
    Forall (λ r, r ≠ 0 ∧ ∃ s, V1 !! r = Some (i, s)) ids →
    map fst V = map fst V1 →
    (∀ k s, V1 !! k = Some (i, s) → V !! k = Some (i, s)) →
    supported V →
    wsum φ (propV V ps) P1 =
      (wsum φ V P1 +
       isum (λ v q, walk_count φ [] (removelast q) * default 0 v.2) V1 P1 ids)%Z.
Proof.
  intros Hseed HD. induction ids as [|r ids IH]; intros ps V Htr Hids Hit Hkeep Hsup.
  - apply Forall2_nil_inv_l in Htr as ->. simpl. lia.
  - apply Forall2_cons_inv_l in Htr as (l & ps' & [Hlast (q & Hq & Hsp & Hway)] & Htr & ->).
    apply Forall_cons in Hids as [[Hr0 [sr Hr]] Hids].
    destruct (seeded_entry _ _ _ _ Hseed r (i, sr) q Hr0 Hr Hq) as (Hlq & [s Hs] & HqD & _).
    simpl in Hlq, Hs, HqD. subst sr.
    assert (NoDup q) as Hndq.
    { rewrite Forall_forall in HD. by apply HD, HqD. }
    apply last_Some in Hlast as [A ->].
    apply Forall2_app_inv_l in Hsp as (qA & qr & HspA & Hspr & ->).
    apply Forall2_cons_inv_l in Hspr as (x & qr' & [_ Hx] & Hnil & ->).
    apply Forall2_nil_inv_l in Hnil as ->.
    rewrite Hr in Hx. simpl in Hx. inversion Hx; subst x.
    apply NoDup_app in Hndq as (HndA & HiA & _).
    assert (i ∉ qA) as HiqA.
    { intros Hin. apply (HiA i Hin). apply list_elem_of_here. }
    unfold way in Hway. rewrite prefixes_snoc in Hway.
    apply Forall2_app_inv_r in Hway as (A' & r' & HwA & Hwr & HAr).
    apply Forall2_cons_inv_r in Hwr as (r1 & r2 & _ & Hnil & ->).
    apply Forall2_nil_inv_r in Hnil as ->.
    apply app_inj_tail in HAr as [E _]. subst A'.
    assert (propV_path V (A ++ [r]) = foldl (bumpV s) V (reverse A)) as Hpath.
    { unfold propV_path. rewrite last_snoc, (Hkeep r (Some s) Hr), removelast_last. done. }
    assert (spells V (reverse A) (reverse qA)) as HspR.
    { apply Forall2_reverse. by apply (spells_items V1). }
    assert (Forall2 (λ a q, P1 !! a = Some q) (reverse A) (reverse (prefixes [] qA)))
      as HwR.
    { apply Forall2_reverse. eapply Forall2_impl; [done|]. by intros a qa [_ ?]. }
    unfold propV. simpl. fold (propV (propV_path V (A ++ [r])) ps').
    rewrite Hpath.
    rewrite (IH ps' (foldl (bumpV s) V (reverse A))); try done.
    + rewrite (foldl_bumpV_wsum_gen φ s P1 (reverse A) (reverse qA)
                 (reverse (prefixes [] qA)) V HspR HwR Hsup).
      simpl. rewrite Hr, Hq. simpl. rewrite removelast_last.
      rewrite zsum_reverse by (by rewrite prefixes_length).
      rewrite zsum_walk. lia.
    + by rewrite foldl_bumpV_items.
    + intros k sk Hk. apply (foldl_bumpV_keeps i s (reverse A) (reverse qA)); try done.
      * by rewrite elem_of_reverse.
      * by apply Hkeep.
    + by apply foldl_bumpV_supported.
Qed.

Lemma zsum_ext_at {A B} (F G : A → B → Z) (l1 : list A) : ∀ l2 : list B,
  (∀ k a b, l1 !! k = Some a → l2 !! k = Some b → F a b = G a b) →
  zsum F l1 l2 = zsum G l1 l2.
Proof.
  induction l1 as [|a l1 IH]; intros [|b l2] H; simpl; try done.
  rewrite (H 0 a b) by done. rewrite (IH l2); [done|].
  intros k a' b' Ha Hb. by apply (H (S k)).
Qed.

Lemma walk_count_snoc φ tx x :
  walk_count φ [] (tx ++ [x]) =
    (walk_count φ [] tx + if φ x (tx ++ [x]) then 1 else 0)%Z.
Proof. rewrite walk_count_app. simpl. lia. Qed.

(** The conditional tree of [i], inserted from paths of distinct items that
    end in [i], is the tree of these paths, each as often as its last node
    tells. *)
Lemma conditional_sum φ i nps ps :
  Forall (λ np, ends_in i np ∧ Forall (λ n, is_Some (support n)) np) nps →
  Forall (λ np, NoDup (map item np)) nps →
  NoDup (map (map item) nps) →
  Forall2 (trailw (abs_paths (SeedItem i) abs_init nps).1
                  (abs_paths (SeedItem i) abs_init nps).2)
          (ids_ofV (abs_paths (SeedItem i) abs_init nps).1 i) ps →
  wsum φ (propV (abs_paths (SeedItem i) abs_init nps).1 ps)
       (abs_paths (SeedItem i) abs_init nps).2 =
    dsum i (λ v q, walk_count φ [] q * default 0 v.2)%Z nps.
Proof.
  intros Hall Hnds HD Htr.
  pose proof (abs_paths_seeded i nps abs_init [] (λ _, 0%Z) (seeded_init i) Hall Hnds HD)
    as Hseed. simpl in Hseed.
  destruct (abs_paths (SeedItem i) abs_init nps) as [V1 P1] eqn:Hst. simpl in *.
  assert (length V1 = length P1) as Hlen by apply (seeded_len _ _ _ _ Hseed).
  assert (supported V1) as Hsup.
  { intros k v Hk Hv. destruct (lookup_lt_is_Some_2 P1 k) as [q Hq].
    { rewrite <- Hlen. by apply lookup_lt_Some in Hv. }
    by destruct (seeded_entry _ _ _ _ Hseed k v q Hk Hv Hq) as (_ & ? & _). }
  assert (Forall NoDup ([] ++ map (map item) nps)) as HD'.
  { rewrite Forall_forall. intros np Hnp. simpl in Hnp.
    rewrite Forall_forall in Hnds.
    apply list_elem_of_fmap in Hnp as (np' & -> & Hnp'). by apply Hnds. }
  assert (Forall (λ r, r ≠ 0 ∧ ∃ s, V1 !! r = Some (i, s)) (ids_ofV V1 i)) as Hids.
  { apply Forall_forall. intros r Hr. by apply elem_of_ids_ofV. }
  rewrite (propV_wsum_gen φ i V1 P1 _ _ Hseed HD' (ids_ofV V1 i) ps V1
             Htr Hids eq_refl (λ k s H, H) Hsup).
  rewrite (isum_ids_ofV _ _ _ _ Hlen).
  pose proof (seeded_sum _ _ _ _ Hseed
    (λ v q, walk_count φ [] (removelast q) * default 0 v.2)%Z) as Hsum2.
  pose proof (seeded_sum _ _ _ _ Hseed
    (λ v q, if φ v.1 q then default 0 v.2 else 0)%Z) as Hsum1.
  simpl in Hsum1, Hsum2. rewrite Hsum2.
  assert (wsum φ V1 P1 =
          zsum (λ v q, if bool_decide (v.1 = i)
                       then (if φ v.1 q then default 0 v.2 else 0) else 0)%Z
               (tail V1) (tail P1)) as ->.
  { unfold wsum. apply zsum_ext_at. intros k [x s] q Hv Hq. simpl.
    rewrite lookup_tail in Hv. rewrite lookup_tail in Hq.
    destruct (decide (x = i)) as [->|Hne].
    - by rewrite bool_decide_eq_true_2.
    - rewrite bool_decide_eq_false_2 by done.
      destruct (seeded_entry _ _ _ _ Hseed (S k) (x, s) q) as (_ & _ & _ & H0); try done.
      simpl in H0. rewrite (H0 Hne). by destruct (φ x q). }
  rewrite Hsum1. clear -Hall.
  induction nps as [|np nps IH]; simpl; [done|].
  apply Forall_cons in Hall as [[(nl & Hlast & Hi) _] Hall].
  specialize (IH Hall).
  assert (map item np = removelast (map item np) ++ [i]) as E.
  { apply last_Some in Hlast as [np' ->]. rewrite map_app. simpl.
    by rewrite removelast_last, Hi. }
  assert (walk_count φ [] (map item np) =
          (walk_count φ [] (removelast (map item np)) +
           if φ i (map item np) then 1 else 0)%Z) as HW.
  { rewrite E at 1. rewrite walk_count_snoc. by rewrite <- E. }
  rewrite HW. destruct (φ i (map item np)); lia.
Qed.

(** ** Transactions cut after an item *)

Lemma upto_None i tx : upto i tx = None ↔ i ∉ tx.
Proof.
  induction tx as [|x tx IH]; simpl.
  - split; [intros _; apply not_elem_of_nil|done].
  - rewrite not_elem_of_cons. destruct (decide (x = i)) as [->|Hne].
    + split; [done|]. by intros [? _].
    + rewrite fmap_None, IH. split; [|tauto]. intros H. split; [congruence|done].
Qed.

Lemma upto_Some i tx p :
  upto i tx = Some p → ∃ p' rest, p = p' ++ [i] ∧ tx = p ++ rest ∧ i ∉ p'.
Proof.
  revert p. induction tx as [|x tx IH]; intros p; simpl; [done|].
  destruct (decide (x = i)) as [->|Hne].
  - intros [= <-]. exists [], tx. split; [done|]. split; [done|]. apply not_elem_of_nil.
  - destruct (upto i tx) as [p0|] eqn:E; [|done]. simpl. intros [= <-].
    destruct (IH p0 eq_refl) as (p' & rest & -> & -> & Hi).
    exists (x :: p'), rest. split; [done|]. split; [done|].
    rewrite not_elem_of_cons. split; [congruence|done].
Qed.

Lemma upto_NoDup i tx p : NoDup tx → upto i tx = Some p → NoDup p.
Proof.
  intros Hnd (p' & rest & -> & -> & _)%upto_Some.
  by apply NoDup_app in Hnd as [? _].
Qed.

Lemma cond_db_NoDup i db : Forall NoDup db → Forall NoDup (cond_db i db).
Proof.
  intros Hdb. apply Forall_forall. intros p Hp.
  apply list_elem_of_omap in Hp as (tx & Htx & Hup).
  rewrite Forall_forall in Hdb. apply (upto_NoDup i tx); [by apply Hdb|done].
Qed.

Lemma lastd_snoc q x : lastd (q ++ [x]) = x.
Proof. unfold lastd. by rewrite last_snoc. Qed.

(** The prefix of a transaction that ends in [i]. *)
Lemma filter_prefixes i tx : ∀ pp,
  NoDup tx →
  filter (λ q, lastd q = i) (prefixes pp tx) =
    match upto i tx with
    | Some p => [pp ++ p]
    | None => []
    end.
Proof.
  induction tx as [|x tx IH]; intros pp Hnd; simpl; [done|].
  apply NoDup_cons in Hnd as [Hx Hnd]. rewrite filter_cons, lastd_snoc.
  rewrite (IH (pp ++ [x]) Hnd). destruct (decide (x = i)) as [->|Hne].
  - apply upto_None in Hx. by rewrite Hx.
  - destruct (upto i tx) as [p|]; simpl; [|done]. by rewrite <- app_assoc.
Qed.

Lemma filter_concat {A} (φ : A → Prop) `{!∀ x, Decision (φ x)} (ls : list (list A)) :
  filter φ (concat ls) = concat (map (filter φ) ls).
Proof.
  induction ls as [|l ls IH]; simpl; [done|]. by rewrite filter_app, IH.
Qed.

Lemma filter_prefixes_db i db :
  Forall NoDup db →
  filter (λ q, lastd q = i) (concat (map (prefixes []) db)) = cond_db i db.
Proof.
  induction 1 as [|tx db Htx _ IH]; simpl; [done|].
  rewrite filter_app, IH, (filter_prefixes i tx [] Htx). unfold cond_db. simpl.
  by destruct (upto i tx).
Qed.

(** ** How often a path comes *)

Lemma walk_count_path q tx :
  walk_count (path_is q) [] tx = mult q (prefixes [] tx).
Proof.
  rewrite walk_count_prefixes. unfold mult, path_is.
  rewrite <- lsum_count. apply lsum_ext. intros q' _.
  destruct (decide (q' = q)).
  - by rewrite bool_decide_eq_true_2.
  - by rewrite bool_decide_eq_false_2.
Qed.

Lemma mult_app {A} `{EqDecision A} (x : A) l1 l2 :
  mult x (l1 ++ l2) = (mult x l1 + mult x l2)%Z.
Proof. unfold mult. rewrite filter_app, length_app. lia. Qed.

Lemma mult_filter {A} `{EqDecision A} (φ : A → Prop) `{!∀ x, Decision (φ x)} x l :
  φ x → mult x (filter φ l) = mult x l.
Proof.
  intros Hx. unfold mult. f_equal. f_equal.
  induction l as [|y l IH]; [done|]. rewrite !filter_cons.
  destruct (decide (φ y)) as [Hy|Hy].
  - rewrite filter_cons. destruct (decide (y = x)); by rewrite IH.
  - rewrite decide_False by congruence. done.
Qed.

Lemma mult_notin {A} `{EqDecision A} (x : A) l : x ∉ l → mult x l = 0%Z.
Proof.
  intros Hx. unfold mult.
  assert (filter (λ y, y = x) l = []) as ->; [|done].
  induction l as [|y l IH]; [done|]. apply not_elem_of_cons in Hx as [Hxy Hx].
  rewrite filter_cons, decide_False by congruence. by apply IH.
Qed.

Lemma mult_NoDup {A} `{EqDecision A} (x : A) l : NoDup l → x ∈ l → mult x l = 1%Z.
Proof.
  induction 1 as [|y l Hy Hnd IH]; intros Hin; [by apply elem_of_nil in Hin|].
  change (y :: l) with ([y] ++ l). rewrite mult_app.
  apply elem_of_cons in Hin as [->|Hin].
  - rewrite (mult_notin y l Hy). unfold mult. simpl. rewrite filter_cons.
    by rewrite decide_True.
  - rewrite IH by done. unfold mult. rewrite filter_cons.
    rewrite decide_False; [done|]. intros ->. done.
Qed.

(** A path that ends in [i] comes in the database as often as in the
    conditional database of [i]. *)
Lemma walk_count_all_path i q db :
  Forall NoDup db → lastd q = i →
  walk_count_all (path_is q) db = mult q (cond_db i db).
Proof.
  intros Hdb Hq. rewrite <- (filter_prefixes_db i db Hdb).
  rewrite (mult_filter (λ q0, lastd q0 = i)) by done.
  clear Hdb. induction db as [|tx db IH]; simpl; [done|].
  by rewrite mult_app, IH, walk_count_path.
Qed.

Lemma lsum_first_seen {A} `{EqDecision A} (f : A → Z) (L : list A) :
  lsum (λ q, (f q * mult q L)%Z) (first_seen L) = lsum f L.
Proof.
  induction L as [|x L IH] using rev_ind; [done|].
  unfold first_seen in *. rewrite adds_snoc, !lsum_app. simpl.
  assert (∀ l, lsum (λ q, (f q * mult q (L ++ [x]))%Z) l =
               (lsum (λ q, (f q * mult q L)%Z) l +
                lsum (λ q, if decide (q = x) then f q else 0%Z) l)%Z) as Hsplit.
  { intros l. rewrite <- lsum_plus. apply lsum_ext. intros q _.
    rewrite mult_app. unfold mult at 2. simpl. rewrite filter_cons.
    destruct (decide (x = q)) as [->|Hne].
    - rewrite decide_True by done. simpl. lia.
    - rewrite decide_False by congruence. simpl. lia. }
  unfold add_key. destruct (decide (x ∈ adds [] L)) as [Hin|Hin].
  - rewrite Hsplit, IH. rewrite lsum_one; [lia|apply first_seen_NoDup|done].
  - rewrite lsum_app, Hsplit, IH. simpl.
    rewrite (lsum_zero (λ q, if decide (q = x) then f q else 0%Z)).
    2:{ intros q Hq. rewrite decide_False; [done|]. intros ->. done. }
    rewrite mult_app, (mult_notin x L).
    2:{ intros Hx. apply Hin. apply elem_of_adds. by right. }
    unfold mult. simpl. rewrite filter_cons, decide_True by done. simpl. lia.
Qed.

Lemma walk_count_all_lsum φ db :
  walk_count_all φ db = lsum (walk_count φ []) db.
Proof. induction db as [|tx db IH]; simpl; [done|]. by rewrite IH. Qed.

(** ** The nodes of an item and their paths *)

Lemma ifilter_filter {A} (ψ : Item → bool) (f : A → Item) (Lall : list A) :
  ∀ (L : list A) k, (∀ j, L !! j = Lall !! (k + j)) →
  Forall2 (λ r q, Lall !! r = Some q)
          (ifilter ψ k (map f L)) (filter (λ q, ψ (f q) = true) L).
Proof.
  induction L as [|a L IH]; intros k HL; simpl; [constructor|].
  rewrite filter_cons.
  assert (Forall2 (λ r q, Lall !! r = Some q)
            (ifilter ψ (S k) (map f L)) (filter (λ q, ψ (f q) = true) L)) as Hrest.
  { apply IH. intros j. pose proof (HL (S j)) as Hj. simpl in Hj. rewrite Hj.
    f_equal. lia. }
  destruct (ψ (f a)) eqn:E.
  - rewrite decide_True by done. constructor; [|done].
    pose proof (HL 0) as H0. simpl in H0. rewrite Nat.add_0_r in H0. by rewrite <- H0.
  - rewrite decide_False by (by intros ?). done.
Qed.

Lemma Forall2_functional {A B} (R : A → B → Prop) :
  (∀ a b b', R a b → R a b' → b = b') →
  ∀ l k k', Forall2 R l k → Forall2 R l k' → k = k'.
Proof.
  intros HR l. induction l as [|a l IH]; intros k k' H1 H2.
  - apply Forall2_nil_inv_l in H1 as ->. by apply Forall2_nil_inv_l in H2 as ->.
  - apply Forall2_cons_inv_l in H1 as (b & k1 & Hb & H1 & ->).
    apply Forall2_cons_inv_l in H2 as (b' & k2 & Hb' & H2 & ->).
    f_equal; [by apply (HR a)|by apply IH].
Qed.

(** The paths of the nodes of [i], in the order of the nodes. *)
Lemma ids_of_paths t P i :
  wf t P →
  Forall2 (λ r q, P !! r = Some q) (ids_of (store t) i)
          (filter (λ q, lastd q = i) (tail P)).
Proof.
  intros Hwf. unfold ids_of. rewrite (wf_items_paths _ _ Hwf), tail_map.
  assert (filter (λ q, lastd q = i) (tail P) =
          filter (λ q, bool_decide (lastd q = i) = true) (tail P)) as ->.
  { apply list_filter_iff. intros q. by rewrite bool_decide_eq_true. }
  apply (ifilter_filter (λ it : Item, bool_decide (it = i)) lastd P (tail P) 1).
  intros j. by rewrite lookup_tail.
Qed.

(** ** The conditional tree stands for the conditional database *)

(** The prefix paths of [i] are the transactions that hold [i], each cut
    after [i] and taken once, in the order in which they first come. *)
Lemma rep_prefix_paths t P db i :
  rep t P db → Forall NoDup db → i ∈ (hyperlinks t).*1 →
  ∃ ps nps, prefix_paths t i = Ok ps ∧ deref (store t) ps = Ok nps ∧
    nps ≠ [] ∧
    Forall (λ path, ends_in i path ∧ Forall (λ n, is_Some (support n)) path) nps ∧
    Forall2 (λ r np, ∃ n q, store t !! r = Some n ∧ P !! r = Some q ∧
                            last np = Some n ∧ map item np = q)
            (ids_of (store t) i) nps ∧
    map (map item) nps = first_seen (cond_db i db).
Proof.
  intros [Hwf HP Hkeys Hsum] Hdb Hi.
  destruct (conditional_tree_parts t P i Hwf Hi)
    as (ps & nps & Hps & Hnps & Htr & Hd & Hne & Hall & _).
  pose proof (paths_of_nodes t P _ ps nps Htr Hd) as HF.
  exists ps, nps. split; [done|]. split; [done|]. split; [done|]. split; [done|].
  split; [done|].
  assert (Forall2 (λ r q, P !! r = Some q) (ids_of (store t) i) (map (map item) nps))
    as HF1.
  { apply Forall2_fmap_r. eapply Forall2_impl; [done|].
    intros r np (n & q & _ & Hq & _ & <-). done. }
  rewrite (Forall2_functional _ (λ r q q' H1 H2, eq_sym (Some_inj _ _ (eq_trans (eq_sym H2) H1)))
             _ _ _ HF1 (ids_of_paths t P i Hwf)).
  rewrite HP, adds_cons by apply nil_not_prefix. simpl.
  fold (first_seen (concat (map (prefixes []) db))).
  by rewrite filter_first_seen, filter_prefixes_db.
Qed.

(** The support of a node is the number of transactions that start with
    its path. *)
Lemma rep_support t P db r n q :
  rep t P db → store t !! r = Some n → r ≠ 0 → P !! r = Some q →
  support n = Some (walk_count_all (path_is q) db).
Proof.
  intros [Hwf HP Hkeys Hsum] Hn Hr Hq.
  destruct (wf_node _ _ Hwf r n Hn Hr) as (_ & _ & _ & s & _ & _ & _ & _ & Hs & _).
  pose proof (wsum_path t P r n q Hwf Hn Hr Hq) as Hw.
  change (λ (_ : Item) (q' : list Item), bool_decide (q' = q)) with (path_is q) in Hw.
  rewrite Hsum, Hs in Hw. simpl in Hw. by rewrite Hs, Hw.
Qed.

Lemma conditional_tree_rep t P db i :
  rep t P db → Forall NoDup db → i ∈ (hyperlinks t).*1 →
  ∃ c, conditional_tree t i = Ok c ∧
       rep c (adds [[]] (concat (map (prefixes []) (cond_db i db)))) (cond_db i db).
Proof.
  intros Hrep Hdb Hi.
  destruct (rep_prefix_paths t P db i Hrep Hdb Hi)
    as (ps & nps & Hps & Hnps & Hne & Hall & HF & Hitems).
  pose proof (rep_wf _ _ _ Hrep) as Hwf.
  assert (Forall (λ np, NoDup (map item np)) nps) as Hnds.
  { apply Forall_forall. intros np Hnp.
    assert (map item np ∈ first_seen (cond_db i db)) as Hin.
    { rewrite <- Hitems. by apply (list_elem_of_fmap_2 (map item)). }
    rewrite elem_of_first_seen in Hin.
    pose proof (cond_db_NoDup i db Hdb) as Hc. rewrite Forall_forall in Hc. by apply Hc. }
  assert (NoDup (map (map item) nps)) as HD.
  { rewrite Hitems. apply first_seen_NoDup. }
  destruct (project_way i nps Hne Hall) as (c & psc & Hc & Hwfc & Htrw & Hv).
  exists c. split.
  { unfold conditional_tree. rewrite Hps. simpl. by rewrite Hnps. }
  assert ((abs_paths (SeedItem i) abs_init nps).2 =
          adds [[]] (concat (map (prefixes []) (cond_db i db)))) as HPc.
  { rewrite abs_paths_paths, Hitems. simpl. apply adds_concat_first_seen. }
  rewrite HPc in Hwfc. constructor.
  - done.
  - done.
  - apply keyed_paths; [|done]. by destruct (made_keyed c (made_project nps c Hc)).
  - intros φ. rewrite <- HPc, Hv.
    rewrite (conditional_sum φ i nps psc Hall Hnds HD Htrw).
    rewrite walk_count_all_lsum, <- lsum_first_seen, <- Hitems.
    assert (Forall (λ r, r ≠ 0 ∧ ∃ n, store t !! r = Some n ∧ item n = i)
                   (ids_of (store t) i)) as Hids.
    { apply Forall_forall. intros r Hr. by apply elem_of_ids_of. }
    clear -HF Hids Hrep Hwf Hdb. revert HF Hids.
    generalize (ids_of (store t) i). intros ids HF.
    induction HF as [|r np ids nps (n & q & Hn & Hq & Hlast & Hit) _ IH]; intros Hids;
      simpl; [done|].
    apply Forall_cons in Hids as [[Hr0 (n' & Hn' & Hni)] Hids].
    assert (n' = n) as -> by congruence.
    rewrite (IH Hids), Hlast, Hit. simpl. f_equal.
    rewrite (rep_support t P db r n q Hrep Hn Hr0 Hq). simpl.
    rewrite (walk_count_all_path i q db Hdb); [done|].
    destruct (wf_node _ _ Hwf r n Hn Hr0) as (p & np0 & pp & s & _ & _ & _ & _ & _ & _ & Hqr).
    assert (q = pp ++ [item n]) as -> by congruence. by rewrite lastd_snoc.
Qed.

(** ** The search is the search of the databases *)

Lemma fp_search_items_mine rec rec' t P db epsilon suffix :
  rep t P db → Forall NoDup db →
  (∀ x c, x ∈ (hyperlinks t).*1 → conditional_tree t x = Ok c →
     rec c (x :: suffix) = rec' (cond_db x db) (x :: suffix)) →
  ∀ its : list (Item * (nat * nat)), Forall (λ e, e.1 ∈ (hyperlinks t).*1) its →
  fp_search_items rec t epsilon suffix (map (λ e, (e.1, nodes t e.1)) its) =
    mine_items rec' db epsilon suffix its.*1.
Proof.
  intros Hrep Hdb Hrec. induction its as [|[x v] its IH]; intros Hits; simpl; [done|].
  apply Forall_cons in Hits as [Hx Hits]. simpl in Hx.
  pose proof (rep_wf _ _ _ Hrep) as Hwf.
  rewrite (nodes_spec _ _ _ Hwf Hx). simpl.
  rewrite (sum_support_ids_of t P x Hwf). simpl.
  rewrite (rep_sum _ _ _ Hrep), (walk_count_all_item x db Hdb).
  rewrite (IH Hits).
  destruct ((epsilon <=? count_containing x db)%Z && negb (bool_decide (x ∈ suffix)));
    [|done].
  destruct (conditional_tree_rep t P db x Hrep Hdb Hx) as (c & Hc & _).
  rewrite Hc. simpl. by rewrite (Hrec x c Hx Hc).
Qed.

Lemma fp_search_mine epsilon depth : ∀ t P db suffix,
  rep t P db → Forall NoDup db →
  fp_search depth t epsilon suffix = mine depth db epsilon suffix.
Proof.
  induction depth as [|depth IH]; intros t P db suffix Hrep Hdb; simpl; [done|].
  unfold items. rewrite <- (rep_keys _ _ _ Hrep).
  apply (fp_search_items_mine _ _ t P); try done.
  - intros x c Hx Hc.
    destruct (conditional_tree_rep t P db x Hrep Hdb Hx) as (c' & Hc' & Hrep').
    assert (c' = c) as -> by congruence.
    eapply IH; [done|]. by apply cond_db_NoDup.
  - apply Forall_forall. intros e He. by apply (list_elem_of_fmap_2 fst).
Qed.

Lemma run_mine depth db epsilon :
  Forall NoDup db → run depth db epsilon = mine depth db epsilon [].
Proof.
  intros Hdb. unfold run. destruct (build_rep db) as (t & Ht & Hrep).
  rewrite Ht. simpl. by eapply fp_search_mine.
Qed.

(** ** Items in the order of a list *)

Lemma in_order_nil tx : in_order [] tx = true.
Proof. by destruct tx. Qed.

Lemma in_order_nil_r s : in_order s [] = true → s = [].
Proof. by destruct s. Qed.

Lemma in_order_elem s : ∀ tx x, in_order s tx = true → x ∈ s → x ∈ tx.
Proof.
  induction s as [|y s IH]; intros tx x H Hx; [by apply elem_of_nil in Hx|].
  induction tx as [|z tx IHtx]; [done|]. simpl in H.
  destruct (decide (y = z)) as [->|Hne].
  - apply elem_of_cons in Hx as [->|Hx]; [apply list_elem_of_here|].
    apply list_elem_of_further. by apply IH.
  - apply list_elem_of_further. by apply IHtx.
Qed.

Lemma in_order_NoDup s : ∀ tx, NoDup tx → in_order s tx = true → NoDup s.
Proof.
  induction s as [|y s IH]; intros tx Hnd H; [constructor|].
  induction tx as [|z tx IHtx]; [done|]. simpl in H.
  apply NoDup_cons in Hnd as [Hz Hnd].
  destruct (decide (y = z)) as [->|Hne].
  - constructor; [|by apply (IH tx)]. intros Hin. apply Hz.
    by apply (in_order_elem s tx).
  - by apply IHtx.
Qed.

Lemma in_order_single x tx : in_order [x] tx = true ↔ x ∈ tx.
Proof.
  induction tx as [|y tx IH]; simpl.
  - split; [done|]. by intros ?%elem_of_nil.
  - rewrite elem_of_cons. destruct (decide (x = y)) as [->|Hne].
    + split; [by left|]. intros _. by destruct tx.
    + rewrite IH. split; [by right|]. by intros [?|?].
Qed.

Lemma in_order_upto i tx : ∀ s,
  NoDup tx → i ∉ s →
  in_order (s ++ [i]) tx =
    match upto i tx with
    | Some p => in_order s p
    | None => false
    end.
Proof.
  induction tx as [|y tx IH]; intros s Hnd Hi.
  - by destruct s.
  - apply NoDup_cons in Hnd as [Hy Hnd]. simpl upto.
    destruct (decide (y = i)) as [->|Hne].
    + destruct s as [|x s]; simpl.
      * rewrite decide_True by done. apply in_order_nil.
      * apply not_elem_of_cons in Hi as [Hix Hi].
        rewrite !decide_False by congruence.
        destruct (in_order (x :: s ++ [i]) tx) eqn:E; [|done].
        exfalso. apply Hy. apply (in_order_elem _ _ i E).
        apply list_elem_of_further, elem_of_app. right. apply list_elem_of_here.
    + destruct s as [|x s].
      * simpl. rewrite decide_False by congruence.
        pose proof (IH [] Hnd Hi) as E. simpl in E. rewrite E.
        destruct (upto i tx) as [p|]; simpl; [|done]. by destruct p.
      * apply not_elem_of_cons in Hi as [Hix Hi]. simpl.
        destruct (decide (x = y)) as [->|Hxy].
        -- rewrite (IH s Hnd Hi). destruct (upto i tx); simpl; [|done].
           by rewrite decide_True.
        -- pose proof (IH (x :: s) Hnd) as E. simpl in E. rewrite E;
             [|by apply not_elem_of_cons].
           destruct (upto i tx); simpl; [|done]. by rewrite decide_False.
Qed.

Lemma count_sublist_cond i s db :
  Forall NoDup db → i ∉ s →
  count_sublist (s ++ [i]) db = count_sublist s (cond_db i db).
Proof.
  intros Hdb Hi. unfold count_sublist. f_equal.
  induction Hdb as [|tx db Htx _ IH]; [done|].
  unfold cond_db. simpl. rewrite filter_cons, (in_order_upto i tx s Htx Hi).
  destruct (upto i tx) as [p|]; simpl.
  - rewrite filter_cons. destruct (decide (in_order s p = true)); simpl; by rewrite IH.
  - apply IH.
Qed.

Lemma count_sublist_single x db : count_sublist [x] db = count_containing x db.
Proof.
  unfold count_sublist, count_containing. f_equal. f_equal.
  apply list_filter_iff. intros tx. apply in_order_single.
Qed.

Lemma filter_length_le {A} (φ ψ : A → Prop) `{!∀ x, Decision (φ x)}
    `{!∀ x, Decision (ψ x)} (l : list A) :
  (∀ x, φ x → ψ x) → length (filter φ l) ≤ length (filter ψ l).
Proof.
  intros Himp. induction l as [|x l IH]; [done|]. rewrite !filter_cons.
  destruct (decide (φ x)) as [Hx|Hx].
  - rewrite decide_True by auto. simpl. lia.
  - destruct (decide (ψ x)); simpl; lia.
Qed.

Lemma count_sublist_le s x db :
  x ∈ s → (count_sublist s db ≤ count_containing x db)%Z.
Proof.
  intros Hx. unfold count_sublist, count_containing.
  apply inj_le, filter_length_le. intros tx H. by apply (in_order_elem s).
Qed.

Lemma count_sublist_pos s db :
  (0 < count_sublist s db)%Z → ∃ tx, tx ∈ db ∧ in_order s tx = true.
Proof.
  unfold count_sublist. intros H.
  destruct (filter (λ tx, in_order s tx = true) db) as [|tx l] eqn:E; [simpl in H; lia|].
  exists tx. apply and_comm. apply (list_elem_of_filter (λ tx, in_order s tx = true)).
  rewrite E. apply list_elem_of_here.
Qed.

(** ** What the search of the databases yields *)

Lemma mine_items_sound rec db epsilon suffix (Q : list Item * Z → Prop) its :
  (∀ x sub, rec (cond_db x db) (x :: suffix) = Ok sub → x ∉ suffix →
     (epsilon ≤ count_containing x db)%Z → Forall Q sub) →
  (∀ x, x ∈ its → x ∉ suffix → (epsilon ≤ count_containing x db)%Z →
     Q (x :: suffix, count_containing x db)) →
  ∀ res, mine_items rec db epsilon suffix its = Ok res → Forall Q res.
Proof.
  intros Hrec. induction its as [|x its IH]; intros Hself res H; simpl in H.
  - inversion H. constructor.
  - assert (∀ res, mine_items rec db epsilon suffix its = Ok res → Forall Q res) as IH'.
    { apply IH. intros y Hy. by apply Hself, list_elem_of_further. }
    destruct ((epsilon <=? count_containing x db)%Z) eqn:E1; simpl in H; [|by apply IH'].
    destruct (bool_decide (x ∈ suffix)) eqn:E2; simpl in H; [by apply IH'|].
    apply Z.leb_le in E1. apply bool_decide_eq_false in E2.
    apply bind_Ok in H as (sub & Hsub & H). apply bind_Ok in H as (more & Hmore & H).
    inversion H; subst. constructor; [apply Hself; [apply list_elem_of_here|done|done]|].
    apply Forall_app. split; [by apply (Hrec x)|by apply IH'].
Qed.

Lemma count_containing_pos x db :
  x ∈ concat db → (0 < count_containing x db)%Z.
Proof.
  intros (tx & Htx & Hx)%elem_of_concat. unfold count_containing.
  assert (tx ∈ filter (λ tx, x ∈ tx) db) as Hin by (by apply list_elem_of_filter).
  destruct (filter (λ tx, x ∈ tx) db); [by apply elem_of_nil in Hin|]. simpl. lia.
Qed.

Lemma mine_sound epsilon depth : ∀ db suffix res,
  Forall NoDup db → NoDup suffix → mine depth db epsilon suffix = Ok res →
  Forall (λ r, ∃ new, r.1 = new ++ suffix ∧ new ≠ [] ∧ NoDup r.1 ∧
                      r.2 = count_sublist new db ∧ (epsilon ≤ r.2)%Z ∧ (0 < r.2)%Z) res.
Proof.
  induction depth as [|depth IH]; intros db suffix res Hdb Hsuf H; simpl in H; [done|].
  eapply mine_items_sound; [| |done].
  - intros x sub Hsub Hx Hc.
    assert (NoDup (x :: suffix)) as Hxs by (by constructor).
    pose proof (IH _ _ _ (cond_db_NoDup x db Hdb) Hxs Hsub) as HF.
    eapply Forall_impl; [done|]. simpl.
    intros [s c] (new & Hs & Hne & Hnd & Hcnt & Heps & Hpos). simpl in *.
    exists (new ++ [x]). rewrite <- app_assoc. split; [done|].
    split; [by destruct new|]. split; [done|]. split; [|done].
    rewrite count_sublist_cond; [done|done|].
    rewrite Hs in Hnd. apply NoDup_app in Hnd as (_ & Hnd & _).
    intros Hin. apply (Hnd x Hin). apply list_elem_of_here.
  - intros x Hin Hx Hc. exists [x]. simpl. split; [done|]. split; [done|].
    split; [by constructor|]. split; [by rewrite count_sublist_single|].
    split; [done|]. apply count_containing_pos. by rewrite elem_of_first_seen in Hin.
Qed.

Lemma mine_items_elem rec db epsilon suffix x : ∀ its res,
  mine_items rec db epsilon suffix its = Ok res → x ∈ its →
  (epsilon ≤ count_containing x db)%Z → x ∉ suffix →
  ∃ sub, rec (cond_db x db) (x :: suffix) = Ok sub ∧
         (x :: suffix, count_containing x db) ∈ res ∧ ∀ r, r ∈ sub → r ∈ res.
Proof.
  induction its as [|y its IH]; intros res H Hx Hc Hs; [by apply elem_of_nil in Hx|].
  simpl in H.
  destruct (decide (x = y)) as [<-|Hne].
  - apply Z.leb_le in Hc. rewrite Hc in H.
    rewrite bool_decide_eq_false_2 in H by done. simpl in H.
    apply bind_Ok in H as (sub & Hsub & H). apply bind_Ok in H as (more & Hmore & H).
    inversion H; subst. exists sub. split; [done|]. split; [apply list_elem_of_here|].
    intros r Hr. apply list_elem_of_further, elem_of_app. by left.
  - apply elem_of_cons in Hx as [?|Hx]; [done|].
    destruct ((epsilon <=? count_containing y db)%Z && negb (bool_decide (y ∈ suffix))).
    + apply bind_Ok in H as (sub & Hsub & H). apply bind_Ok in H as (more & Hmore & H).
      inversion H; subst. destruct (IH more Hmore Hx Hc Hs) as (sub' & H1 & H2 & H3).
      exists sub'. split; [done|]. split.
      * apply list_elem_of_further, elem_of_app. by right.
      * intros r Hr. apply list_elem_of_further, elem_of_app. right. by apply H3.
    + by apply IH.
Qed.

Lemma mine_complete epsilon depth : ∀ db suffix res new,
  Forall NoDup db → mine depth db epsilon suffix = Ok res →
  new ≠ [] → (∀ x, x ∈ new → x ∉ suffix) →
  (epsilon ≤ count_sublist new db)%Z → (0 < count_sublist new db)%Z →
  (new ++ suffix, count_sublist new db) ∈ res.
Proof.
  induction depth as [|depth IH]; intros db suffix res new Hdb H Hne Hdis Hc Heps;
    simpl in H; [done|].
  destruct new as [|x0 new0] using rev_ind; [done|]. clear IHnew0.
  rename new0 into new, x0 into x.
  destruct (count_sublist_pos (new ++ [x]) db) as (tx & Htx & Hord); [done|].
  assert (NoDup (new ++ [x])) as Hnd.
  { apply (in_order_NoDup _ tx); [|done]. rewrite Forall_forall in Hdb. by apply Hdb. }
  assert (x ∉ new) as Hxnew.
  { apply NoDup_app in Hnd as (_ & Hnd & _). intros Hin. apply (Hnd x Hin).
    apply list_elem_of_here. }
  assert (x ∈ new ++ [x]) as Hxin by (apply elem_of_app; right; apply list_elem_of_here).
  destruct (mine_items_elem _ db epsilon suffix x _ res H) as (sub & Hsub & Hself & Hin).
  - apply elem_of_first_seen, elem_of_concat. exists tx. split; [done|].
    by apply (in_order_elem (new ++ [x])).
  - pose proof (count_sublist_le (new ++ [x]) x db Hxin). lia.
  - by apply Hdis.
  - destruct new as [|y new].
    + simpl. by rewrite count_sublist_single.
    + apply Hin. rewrite count_sublist_cond by done. rewrite <- app_assoc. simpl.
      apply (IH (cond_db x db) (x :: suffix) sub (y :: new)); try done.
      * by apply cond_db_NoDup.
      * intros z Hz. rewrite not_elem_of_cons. split; [by intros ->|].
        apply Hdis, elem_of_app. by left.
      * by rewrite <- count_sublist_cond.
      * by rewrite <- count_sublist_cond.
Qed.

(** ** Descending from the root *)

Lemma wf_prefix t P : ∀ q2 c q1,
  wf t P → P !! c = Some (q1 ++ q2) → ∃ c1, P !! c1 = Some q1.
Proof.
  induction q2 as [|y q2 IH] using rev_ind; intros c q1 Hwf Hc.
  - rewrite app_nil_r in Hc. eauto.
  - destruct (wf_point _ _ _ _ Hwf Hc) as [n Hn].
    assert (c ≠ 0) as Hc0.
    { intros ->. rewrite (wf_root_path _ _ Hwf) in Hc. inversion Hc as [E].
      rewrite app_assoc in E. by destruct (q1 ++ q2). }
    destruct (wf_node _ _ Hwf c n Hn Hc0)
      as (p & np & pp & s & _ & _ & _ & _ & _ & Hp & Hq).
    rewrite Hc in Hq. inversion Hq as [E]. rewrite app_assoc in E.
    apply app_inj_tail in E as [<- _]. by apply (IH p q1).
Qed.

Lemma descend_spec t P : ∀ q r pp c,
  wf t P → P !! r = Some pp →
  descend (store t) r q = Some c ↔ P !! c = Some (pp ++ q).
Proof.
  induction q as [|x q IH]; intros r pp c Hwf Hr; simpl.
  - rewrite app_nil_r. split.
    + by intros [= <-].
    + intros Hc. f_equal. by apply (wf_path_inj t P pp).
  - destruct (wf_point _ _ _ _ Hwf Hr) as [np Hnp]. rewrite Hnp. simpl.
    unfold FPNode_search. split.
    + destruct (children np !! x) as [c1|] eqn:Hc1; [|done]. simpl. intros Hd.
      destruct (wf_found t P r np pp x c1 Hwf Hnp Hr Hc1) as (_ & _ & _ & _ & _ & _ & _ & Hp1).
      apply (IH c1 (pp ++ [x]) c Hwf Hp1) in Hd. by rewrite <- app_assoc in Hd.
    + intros Hc. change (x :: q) with ([x] ++ q) in Hc. rewrite app_assoc in Hc.
      destruct (wf_prefix t P q c (pp ++ [x]) Hwf Hc) as [c1 Hc1].
      rewrite (wf_search t P r np pp x c1 Hwf Hnp Hr Hc1). simpl.
      by apply (IH c1 (pp ++ [x]) c Hwf Hc1).
Qed.

Lemma mult_prefixes q tx :
  q ≠ [] →
  mult q (prefixes [] tx) = if decide (q `prefix_of` tx) then 1%Z else 0%Z.
Proof.
  intros Hq. destruct (decide (q `prefix_of` tx)) as [[k ->]|Hn].
  - apply mult_NoDup; [apply prefixes_NoDup|].
    apply elem_of_prefixes. exists (length q). split.
    + rewrite length_app. destruct q; [done|]. simpl. lia.
    + simpl. by rewrite take_app_length.
  - apply mult_notin. intros (k & Hk & ->)%elem_of_prefixes. apply Hn.
    simpl. apply prefix_take.
Qed.

Lemma walk_count_all_prefix q db :
  q ≠ [] → walk_count_all (path_is q) db = count_prefix q db.
Proof.
  intros Hq. unfold count_prefix. rewrite <- lsum_count.
  induction db as [|tx db IH]; simpl; [done|].
  by rewrite IH, walk_count_path, mult_prefixes.
Qed.

Lemma count_prefix_pos q db :
  (0 < count_prefix q db)%Z ↔ ∃ tx, tx ∈ db ∧ q `prefix_of` tx.
Proof.
  unfold count_prefix. split.
  - intros H. destruct (filter (λ tx, q `prefix_of` tx) db) as [|tx l] eqn:E;
      [simpl in H; lia|].
    exists tx. apply and_comm, (list_elem_of_filter (λ tx, q `prefix_of` tx)).
    rewrite E. apply list_elem_of_here.
  - intros (tx & Htx & Hq).
    assert (tx ∈ filter (λ tx, q `prefix_of` tx) db) as Hin
      by (by apply list_elem_of_filter).
    destruct (filter (λ tx, q `prefix_of` tx) db); [by apply elem_of_nil in Hin|].
    simpl. lia.
Qed.

(** The support of the node that a path leads to, in a tree that stands for
    a database. *)
Lemma rep_support_at t P db q :
  rep t P db → q ≠ [] →
  support_at t q =
    if decide (0 < count_prefix q db)%Z then Some (Some (count_prefix q db)) else None.
Proof.
  intros [Hwf HP Hkeys Hsum] Hq. unfold support_at.
  rewrite (wf_root _ _ Hwf).
  pose proof (λ c, descend_spec t P q 0 [] c Hwf (wf_root_path _ _ Hwf)) as Hd.
  simpl in Hd.
  destruct (decide (0 < count_prefix q db)%Z) as [Hpos|Hneg].
  - apply count_prefix_pos in Hpos as (tx & Htx & Hpre).
    assert (q ∈ P) as Hin.
    { rewrite HP. apply elem_of_adds. right. apply elem_of_concat.
      exists (prefixes [] tx). split; [by apply (list_elem_of_fmap_2 (prefixes []))|].
      destruct Hpre as [k ->]. apply elem_of_prefixes. exists (length q). split.
      - rewrite length_app. destruct q; [done|]. simpl. lia.
      - simpl. by rewrite take_app_length. }
    apply list_elem_of_lookup_1 in Hin as [c Hc].
    rewrite (proj2 (Hd c) Hc). simpl.
    destruct (wf_point _ _ _ _ Hwf Hc) as [n Hn]. rewrite Hn. simpl.
    assert (c ≠ 0) as Hc0.
    { intros ->. rewrite (wf_root_path _ _ Hwf) in Hc. congruence. }
    destruct (wf_node _ _ Hwf c n Hn Hc0) as (_ & _ & _ & s & _ & _ & _ & _ & Hs & _).
    pose proof (wsum_path t P c n q Hwf Hn Hc0 Hc) as Hw.
    change (λ (_ : Item) (q' : list Item), bool_decide (q' = q)) with (path_is q) in Hw.
    rewrite Hsum, walk_count_all_prefix, Hs in Hw by done. simpl in Hw.
    rewrite Hs. by rewrite Hw.
  - destruct (descend (store t) 0 q) as [c|] eqn:E; [|done]. exfalso. apply Hneg.
    apply (descend_spec t P q 0 [] c Hwf (wf_root_path _ _ Hwf)) in E. simpl in E.
    apply list_elem_of_lookup_2 in E. rewrite HP in E.
    apply elem_of_adds in E as [E|E].
    { apply list_elem_of_singleton in E. done. }
    apply elem_of_concat in E as (l & Hl & Hql).
    apply list_elem_of_fmap in Hl as (tx & -> & Htx).
    apply elem_of_prefixes in Hql as (k & Hk & ->).
    apply count_prefix_pos. exists tx. split; [done|]. apply prefix_take.
Qed.

(** ** The root is left alone *)

Lemma made_root_clean t : made t → linked t ∧ root_clean t.
Proof.
  revert t. apply (made_inv (λ t, linked t ∧ root_clean t)).
  - split; [apply linked_init|]. by exists (FPNode_init None None).
  - intros t point np x sup t' c [Hl (r0 & Hr0 & Hp0 & Hl0)] Hnp Hc Ha.
    destruct (attach_result t point np x sup (linked_route _ Hl) Hnp Hc)
      as (h' & HL' & Ha' & Hlen & Hold & Hroute & _).
    rewrite Ha in Ha'. inversion Ha'; subst t'. split.
    + apply linked_grow; try done.
      intros r n Hn. destruct (Hold r n Hn) as (n' & ? & ? & _ & _ & _ & ?). eauto.
    + destruct (Hold 0 r0 Hr0) as (n' & Hn' & _ & _ & Hp' & _ & Hl').
      exists n'. simpl. split; [by apply lookup_app_l_Some|]. split; [congruence|].
      rewrite Hl', decide_False; [done|].
      intros Hlast%last_Some_elem_of%ids_of_lt. lia.
  - intros t c n s [Hl (r0 & Hr0 & Hp0 & Hl0)] Hn. split.
    + by apply linked_set_support.
    + unfold root_clean. simpl. destruct (decide (c = 0)) as [->|Hc].
      * assert (n = r0) as -> by congruence. eexists. split.
        { apply list_lookup_insert_eq. by apply lookup_lt_Some in Hr0. }
        done.
      * exists r0. by rewrite list_lookup_insert_ne.
Qed.

(** ** A tree is what its paths and supports make it *)

Lemma chain_links h h' l :
  chain h l → chain h' l → ∀ r, r ∈ l → link <$> h !! r = link <$> h' !! r.
Proof.
  induction l as [|a l IH]; intros Hc Hc' r Hr; [by apply elem_of_nil in Hr|].
  destruct Hc as [(n & Ha & Hn) Hl]. destruct Hc' as [(n' & Ha' & Hn') Hl'].
  destruct (decide (r = a)) as [->|Hne].
  - rewrite Ha, Ha'. simpl. congruence.
  - apply elem_of_cons in Hr as [?|Hr]; [done|]. by apply IH.
Qed.

Lemma alist_eq {V} (l : list (Item * V)) : ∀ l' : list (Item * V),
  l.*1 = l'.*1 → NoDup l.*1 →
  (∀ k, alist_lookup k l = alist_lookup k l') → l = l'.
Proof.
  induction l as [|[k v] l IH]; intros [|[k' v'] l'] Hk Hnd Hlk; try done.
  rewrite !fmap_cons in Hk. rewrite fmap_cons in Hnd. simpl in Hk, Hnd.
  inversion Hk as [[E1 E2]]. change (l.*1 = l'.*1) in E2. subst k'.
  apply NoDup_cons in Hnd as [Hkl Hnd].
  pose proof (Hlk k) as Hv. simpl in Hv. rewrite !decide_True in Hv by done.
  inversion Hv; subst v'. f_equal. apply IH; try done.
  intros k0. specialize (Hlk k0). simpl in Hlk.
  destruct (decide (k0 = k)) as [->|Hne]; [|done].
  assert (k ∉ l'.*1) as Hkl' by (by rewrite <- E2).
  apply alist_lookup_None in Hkl, Hkl'. by rewrite Hkl, Hkl'.
Qed.

Lemma wf_children t P r n q x c :
  wf t P → store t !! r = Some n → P !! r = Some q →
  children n !! x = Some c ↔ P !! c = Some (q ++ [x]).
Proof.
  intros Hwf Hn Hq. split.
  - intros Hc. by destruct (wf_found t P r n q x c Hwf Hn Hq Hc)
      as (_ & _ & _ & _ & _ & _ & _ & ?).
  - by apply (wf_search t P r n q x c).
Qed.

Lemma FPNode_eq n n' :
  item n = item n' → support n = support n' → parent n = parent n' →
  children n = children n' → link n = link n' → n = n'.
Proof. destruct n, n'. simpl. by intros -> -> -> -> ->. Qed.

Lemma rep_unique t t' P db :
  rep t P db → rep t' P db → root_clean t → root_clean t' → t = t'.
Proof.
  intros [Hwf _ Hkeys Hsum] [Hwf' _ Hkeys' Hsum'] (r0 & Hr0 & Hp0 & Hl0)
    (r0' & Hr0' & Hp0' & Hl0').
  assert (map item (store t) = map item (store t')) as Hitems.
  { by rewrite (wf_items_paths _ _ Hwf), (wf_items_paths _ _ Hwf'). }
  assert (∀ r n n', store t !! r = Some n → store t' !! r = Some n' →
            children n = children n') as Hchildren.
  { intros r n n' Hn Hn'. destruct (wf_lookup_path _ _ _ _ Hwf Hn) as [q Hq].
    apply map_eq. intros x.
    destruct (children n !! x) as [c|] eqn:E.
    - apply (wf_children t P r n q x c Hwf Hn Hq) in E.
      symmetry. by apply (wf_children t' P r n' q x c Hwf' Hn' Hq).
    - destruct (children n' !! x) as [c|] eqn:E'; [|done].
      apply (wf_children t' P r n' q x c Hwf' Hn' Hq) in E'.
      apply (wf_children t P r n q x c Hwf Hn Hq) in E'. congruence. }
  assert (store t = store t') as Hstore.
  { apply list_eq. intros r.
    destruct (store t !! r) as [n|] eqn:Hn.
    2:{ apply lookup_ge_None in Hn. symmetry. apply lookup_ge_None.
        rewrite <- (wf_len _ _ Hwf'), (wf_len _ _ Hwf). done. }
    destruct (lookup_lt_is_Some_2 (store t') r) as [n' Hn'].
    { rewrite <- (wf_len _ _ Hwf'), (wf_len _ _ Hwf). by apply lookup_lt_Some in Hn. }
    rewrite Hn'. f_equal.
    assert (item n = item n') as Hi.
    { assert (map item (store t) !! r = map item (store t') !! r) as E by (by rewrite Hitems).
      change (map item) with (fmap (M := list) item) in E.
      rewrite !list_lookup_fmap, Hn, Hn' in E. simpl in E. congruence. }
    destruct (decide (r = 0)) as [->|Hr].
    - destruct (wf_root_node _ _ Hwf) as (a & Ha & _ & Hsa).
      destruct (wf_root_node _ _ Hwf') as (a' & Ha' & _ & Hsa').
      assert (a = n) as -> by congruence. assert (a' = n') as -> by congruence.
      assert (r0 = n) as -> by congruence. assert (r0' = n') as -> by congruence.
      apply FPNode_eq; try congruence. by apply (Hchildren 0).
    - destruct (wf_node _ _ Hwf r n Hn Hr)
        as (p & np & pp & s & H1 & H2 & H3 & H4 & H5 & H6 & H7).
      destruct (wf_node _ _ Hwf' r n' Hn' Hr)
        as (p' & np' & pp' & s' & H1' & H2' & H3' & H4' & H5' & H6' & H7').
      rewrite H7 in H7'. inversion H7' as [E]. apply app_inj_tail in E as [<- _].
      assert (p = p') as <-.
      { apply (wf_path_inj t P pp p p' Hwf H6). done. }
      apply FPNode_eq; try done.
      + pose proof (wsum_path t P r n _ Hwf Hn Hr H7) as Hw.
        pose proof (wsum_path t' P r n' _ Hwf' Hn' Hr H7) as Hw'.
        rewrite Hsum in Hw. rewrite Hsum' in Hw'. rewrite H5, H5' in *. simpl in *.
        congruence.
      + congruence.
      + by apply (Hchildren r).
      + assert (r ∈ ids_of (store t) (item n)) as Hin.
        { apply elem_of_ids_of. eauto. }
        pose proof (wf_chain _ _ Hwf (item n)) as Hch.
        pose proof (wf_chain _ _ Hwf' (item n)) as Hch'.
        rewrite <- (ids_of_items _ _ (item n) Hitems) in Hch'.
        pose proof (chain_links _ _ _ Hch Hch' r Hin) as E.
        rewrite Hn, Hn' in E. simpl in E. congruence. }
  pose proof (wf_root _ _ Hwf) as Hrt. pose proof (wf_root _ _ Hwf') as Hrt'.
  pose proof (wf_keys _ _ Hwf) as Hnd.
  pose proof (wf_route _ _ Hwf) as Hro. pose proof (wf_route _ _ Hwf') as Hro'.
  clear -Hstore Hrt Hrt' Hnd Hro Hro' Hkeys Hkeys'.
  destruct t as [h rt HL], t' as [h' rt' HL']. simpl in *. subst h' rt rt'.
  f_equal. apply alist_eq.
  - congruence.
  - done.
  - intros k. by rewrite Hro, Hro'.
Qed.

(** The conditional tree is the tree of the conditional database, node for
    node. *)
Lemma conditional_tree_build_rep t P db i :
  rep t P db → Forall NoDup db → i ∈ (hyperlinks t).*1 →
  conditional_tree t i = build (cond_db i db).
Proof.
  intros Hrep Hdb Hi.
  destruct (conditional_tree_rep t P db i Hrep Hdb Hi) as (c & Hc & Hrc).
  destruct (build_rep (cond_db i db)) as (c' & Hc' & Hrc').
  rewrite Hc, Hc'. f_equal. apply (rep_unique c c' _ _ Hrc Hrc').
  - apply made_root_clean. unfold conditional_tree in Hc.
    apply bind_Ok in Hc as (ps & _ & Hc). apply bind_Ok in Hc as (nps & _ & Hc).
    by apply (made_project nps).
  - by apply made_root_clean, (build_made (cond_db i db)).
Qed.

(** ** Items in order, and sublists *)

Lemma in_order_tail tx : ∀ a s, in_order (a :: s) tx = true → in_order s tx = true.
Proof.
  induction tx as [|y tx IH]; intros a s; [done|]. simpl.
  assert (in_order s tx = true → in_order s (y :: tx) = true) as Hweak.
  { destruct s as [|b s]; [done|]. simpl.
    destruct (decide (b = y)); [apply IH|done]. }
  destruct (decide (a = y)) as [->|Hne]; [done|].
  intros H. by apply Hweak, (IH a).
Qed.

Lemma in_order_sublist s tx : in_order s tx = true ↔ s `sublist_of` tx.
Proof.
  split.
  - revert s. induction tx as [|y tx IH]; intros s H.
    + apply in_order_nil_r in H as ->. constructor.
    + destruct s as [|x s]; [apply sublist_nil_l|]. simpl in H.
      destruct (decide (x = y)) as [->|Hne].
      * apply sublist_skip. by apply IH.
      * apply sublist_cons. by apply IH.
  - induction 1 as [|x l1 l2 _ IH|x l1 l2 _ IH].
    + done.
    + simpl. by rewrite decide_True.
    + destruct l1 as [|a l1]; [done|]. simpl.
      destruct (decide (a = x)) as [->|Hne]; [|done]. by apply (in_order_tail l2 x).
Qed.

Section sorted_items.

Context (R : relation Item) `{!StrictOrder R}.

Lemma in_order_sorted tx : ∀ s,
  StronglySorted R s → StronglySorted R tx →
  in_order s tx = true ↔ s ⊆ tx.
Proof.
  intros s Hs Htx. split.
  - intros H x Hx. by apply (in_order_elem s).
  - revert s Hs. induction Htx as [|y tx Htx IH Hy]; intros s Hs Hsub.
    + destruct s as [|x s]; [done|].
      specialize (Hsub x (list_elem_of_here _ _)). by apply elem_of_nil in Hsub.
    + destruct s as [|x s]; [done|]. simpl.
      apply StronglySorted_inv in Hs as [Hs Hx]. rewrite Forall_forall in Hx, Hy.
      destruct (decide (x = y)) as [->|Hne].
      * apply IH; [done|]. intros z Hz.
        pose proof (Hsub z (list_elem_of_further _ _ _ Hz)) as Hin.
        apply elem_of_cons in Hin as [->|Hin]; [|done].
        exfalso. by apply (irreflexivity R y), Hx.
      * apply IH; [by constructor; [|apply Forall_forall]|].
        assert (x ∈ tx) as Hxtx.
        { pose proof (Hsub x (list_elem_of_here _ _)) as Hin.
          by apply elem_of_cons in Hin as [?|Hin]. }
        intros z Hz. pose proof (Hsub z Hz) as Hin.
        apply elem_of_cons in Hin as [->|Hin]; [|done].
        apply elem_of_cons in Hz as [?|Hz]; [done|].
        exfalso. apply (irreflexivity R x). transitivity y; [by apply Hx|by apply Hy].
Qed.

Lemma in_order_sorted_l tx : ∀ s,
  StronglySorted R tx → in_order s tx = true → StronglySorted R s.
Proof.
  intros s Htx. revert s. induction Htx as [|y tx Htx IH Hy]; intros s H.
  - apply in_order_nil_r in H as ->. constructor.
  - destruct s as [|x s]; [constructor|]. simpl in H.
    destruct (decide (x = y)) as [->|Hne]; [|by apply IH].
    constructor; [by apply IH|].
    rewrite Forall_forall in Hy. apply Forall_forall. intros z Hz. apply Hy.
    by apply (in_order_elem s).
Qed.

Lemma count_sublist_sorted s db :
  StronglySorted R s → Forall (StronglySorted R) db →
  count_sublist s db = count_subset s db.
Proof.
  intros Hs Hdb. unfold count_sublist, count_subset. f_equal. f_equal.
  induction Hdb as [|tx db Htx _ IH]; [done|]. rewrite !filter_cons, IH.
  destruct (decide (in_order s tx = true)) as [H|H].
  - rewrite decide_True; [done|]. by apply in_order_sorted.
  - rewrite decide_False; [done|]. intros Hsub. apply H. by apply in_order_sorted.
Qed.

Lemma sorted_db_NoDup db : Forall (StronglySorted R) db → Forall NoDup db.
Proof.
  intros H. eapply Forall_impl; [done|]. intros tx Htx. by apply (sorted_NoDup R).
Qed.

End sorted_items.

(** ** No list is yielded twice *)

Lemma mine_items_shape rec db epsilon suffix :
  (∀ x sub, rec (cond_db x db) (x :: suffix) = Ok sub →
     Forall (λ r, ∃ new, r.1 = new ++ x :: suffix ∧ new ≠ []) sub) →
  ∀ its res, mine_items rec db epsilon suffix its = Ok res →
  Forall (λ r, ∃ new y, y ∈ its ∧ r.1 = new ++ y :: suffix) res.
Proof.
  intros Hrec. induction its as [|x its IH]; intros res H; simpl in H.
  - inversion H. constructor.
  - assert (∀ res' : list (list Item * Z),
              Forall (λ r, ∃ new y, y ∈ its ∧ r.1 = new ++ y :: suffix) res' →
              Forall (λ r, ∃ new y, y ∈ x :: its ∧ r.1 = new ++ y :: suffix) res') as Hup.
    { intros res' HF. eapply Forall_impl; [done|]. intros r (new & y & Hy & Hr).
      exists new, y. split; [by apply list_elem_of_further|done]. }
    destruct ((epsilon <=? count_containing x db)%Z && negb (bool_decide (x ∈ suffix)));
      [|by apply Hup, IH].
    apply bind_Ok in H as (sub & Hsub & H). apply bind_Ok in H as (more & Hmore & H).
    inversion H; subst. constructor.
    + exists [], x. split; [apply list_elem_of_here|done].
    + apply Forall_app. split; [|by apply Hup, IH].
      eapply Forall_impl; [by apply (Hrec x)|]. intros r (new & Hr & _).
      exists new, x. split; [apply list_elem_of_here|done].
Qed.

Lemma mine_shape epsilon depth : ∀ db suffix res,
  mine depth db epsilon suffix = Ok res →
  Forall (λ r, ∃ new, r.1 = new ++ suffix ∧ new ≠ []) res.
Proof.
  induction depth as [|depth IH]; intros db suffix res H; simpl in H; [done|].
  eapply Forall_impl; [apply (mine_items_shape _ db epsilon suffix (λ x sub, IH _ _ sub) _ _ H)|].
  intros r (new & y & _ & ->). exists (new ++ [y]). rewrite <- app_assoc.
  split; [done|]. by destruct new.
Qed.

Lemma app_cons_inj {A} (l1 l2 : list A) x y s :
  l1 ++ x :: s = l2 ++ y :: s → l1 = l2 ∧ x = y.
Proof.
  intros E. assert (length l1 = length l2) as Hlen.
  { apply (f_equal length) in E. rewrite !length_app in E. simpl in E. lia. }
  apply app_inj_1 in E as [-> E]; [|done]. by inversion E.
Qed.

Lemma mine_items_NoDup rec db epsilon suffix :
  (∀ x sub, rec (cond_db x db) (x :: suffix) = Ok sub →
     Forall (λ r, ∃ new, r.1 = new ++ x :: suffix ∧ new ≠ []) sub ∧ NoDup sub.*1) →
  ∀ its res, NoDup its → mine_items rec db epsilon suffix its = Ok res → NoDup res.*1.
Proof.
  intros Hrec. induction its as [|x its IH]; intros res Hnd H.
  - inversion H. constructor.
  - pose proof H as H0. simpl in H. apply NoDup_cons in Hnd as [Hx Hnd].
    destruct ((epsilon <=? count_containing x db)%Z && negb (bool_decide (x ∈ suffix)));
      [|by apply IH].
    apply bind_Ok in H as (sub & Hsub & H). apply bind_Ok in H as (more & Hmore & H).
    inversion H; subst. clear H.
    destruct (Hrec x sub Hsub) as [Hshape Hsubnd].
    pose proof (mine_items_shape rec db epsilon suffix (λ x sub H, proj1 (Hrec x sub H))
                  its more Hmore) as Hmoreshape.
    rewrite Forall_forall in Hshape, Hmoreshape.
    rewrite fmap_cons, fmap_app. simpl. constructor.
    + intros [Hin|Hin]%elem_of_app.
      * apply list_elem_of_fmap in Hin as (r & Hr & Hrin).
        destruct (Hshape r Hrin) as (new & Hnew & Hne). rewrite Hnew in Hr.
        apply (f_equal length) in Hr. rewrite length_app in Hr. simpl in Hr.
        destruct new; [done|]. simpl in Hr. lia.
      * apply list_elem_of_fmap in Hin as (r & Hr & Hrin).
        destruct (Hmoreshape r Hrin) as (new & y & Hy & Hnew). rewrite Hnew in Hr.
        apply (app_cons_inj [] new x y suffix) in Hr as [_ ->]. done.
    + apply NoDup_app. split; [done|]. split; [|by apply IH].
      intros s Hs1 Hs2.
      apply list_elem_of_fmap in Hs1 as (r1 & -> & Hr1).
      apply list_elem_of_fmap in Hs2 as (r2 & Hr & Hr2).
      destruct (Hshape r1 Hr1) as (new1 & Hnew1 & _).
      destruct (Hmoreshape r2 Hr2) as (new2 & y & Hy & Hnew2).
      rewrite Hnew1, Hnew2 in Hr. apply app_cons_inj in Hr as [_ ->]. done.
Qed.

Lemma mine_NoDup epsilon depth : ∀ db suffix res,
  mine depth db epsilon suffix = Ok res → NoDup res.*1.
Proof.
  induction depth as [|depth IH]; intros db suffix res H; simpl in H; [done|].
  apply (mine_items_NoDup _ db epsilon suffix) in H; [done| |apply first_seen_NoDup].
  intros x sub Hsub. split; [by apply (mine_shape epsilon depth _ _ _ Hsub)|].
  by apply (IH _ _ _ Hsub).
Qed.

(** ** A higher threshold yields less *)

Lemma fp_search_items_threshold rec rec' t epsilon epsilon' suffix :
  (epsilon ≤ epsilon')%Z →
  (∀ c s r, rec c s = Ok r → ∃ r', rec' c s = Ok r' ∧ r' `sublist_of` r) →
  ∀ its res, fp_search_items rec t epsilon suffix its = Ok res →
  ∃ res', fp_search_items rec' t epsilon' suffix its = Ok res' ∧ res' `sublist_of` res.
Proof.
  intros Heps Hrec. induction its as [|[x ns] its IH]; intros res H; simpl in *.
  - inversion H. by exists [].
  - apply bind_Ok in H as (ns' & -> & H). simpl.
    apply bind_Ok in H as (sup & -> & H). simpl.
    destruct (bool_decide (x ∈ suffix)) eqn:Ex.
    { rewrite !andb_false_r in *. by apply IH. }
    rewrite !andb_true_r in *.
    destruct (epsilon' <=? sup)%Z eqn:E'.
    + assert ((epsilon <=? sup)%Z = true) as E.
      { apply Z.leb_le. apply Z.leb_le in E'. lia. }
      rewrite E in H.
      apply bind_Ok in H as (c & -> & H). simpl.
      apply bind_Ok in H as (sub & Hsub & H). apply bind_Ok in H as (more & Hmore & H).
      inversion H; subst.
      destruct (Hrec _ _ _ Hsub) as (sub' & -> & Hs1).
      destruct (IH more Hmore) as (more' & -> & Hs2). simpl.
      eexists. split; [done|]. apply sublist_skip. by apply sublist_app.
    + destruct (epsilon <=? sup)%Z; [|by apply IH].
      apply bind_Ok in H as (c & _ & H).
      apply bind_Ok in H as (sub & Hsub & H). apply bind_Ok in H as (more & Hmore & H).
      inversion H; subst.
      destruct (IH more Hmore) as (more' & -> & Hs2).
      eexists. split; [done|]. apply sublist_cons. by apply sublist_inserts_l.
Qed.

Lemma fp_search_threshold_le epsilon epsilon' depth : ∀ t suffix res,
  (epsilon ≤ epsilon')%Z → fp_search depth t epsilon suffix = Ok res →
  ∃ res', fp_search depth t epsilon' suffix = Ok res' ∧ res' `sublist_of` res.
Proof.
  induction depth as [|depth IH]; intros t suffix res Heps H; simpl in *; [done|].
  apply (fp_search_items_threshold _ (λ t s, fp_search depth t epsilon' s)
           t epsilon epsilon' suffix Heps) in H; [done|].
  intros c s r Hr. by apply IH.
Qed.

Lemma fp_search_items_above rec t epsilon suffix (Q : list Item * Z → Prop) :
  (∀ c x r, x ∉ suffix → rec c (x :: suffix) = Ok r → Forall Q r) →
  (∀ x sup, (epsilon ≤ sup)%Z → x ∉ suffix → Q (x :: suffix, sup)) →
  ∀ its res, fp_search_items rec t epsilon suffix its = Ok res → Forall Q res.
Proof.
  intros Hrec Hself. induction its as [|[x ns] its IH]; intros res H; simpl in *.
  - inversion H. constructor.
  - apply bind_Ok in H as (ns' & _ & H). apply bind_Ok in H as (sup & _ & H).
    destruct (epsilon <=? sup)%Z eqn:E; simpl in H; [|by apply IH].
    destruct (bool_decide (x ∈ suffix)) eqn:Ex; simpl in H; [by apply IH|].
    apply bind_Ok in H as (c & _ & H).
    apply bind_Ok in H as (sub & Hsub & H). apply bind_Ok in H as (more & Hmore & H).
    inversion H; subst. apply bool_decide_eq_false in Ex. constructor.
    + apply Hself; [by apply Z.leb_le|done].
    + apply Forall_app. split; [by apply (Hrec c x)|by apply IH].
Qed.

Lemma fp_search_above epsilon depth : ∀ t suffix res,
  fp_search depth t epsilon suffix = Ok res →
  Forall (λ r, (epsilon ≤ r.2)%Z ∧ suffix `suffix_of` r.1 ∧
               length suffix < length r.1 ∧ (NoDup suffix → NoDup r.1)) res.
Proof.
  induction depth as [|depth IH]; intros t suffix res H; simpl in H; [done|].
  revert H. apply fp_search_items_above.
  - intros c x r Hx Hr.
    eapply Forall_impl; [apply (IH c (x :: suffix) r Hr)|].
    intros [s sup] (H1 & H2 & H3 & H4). simpl in *. split; [done|].
    split; [|split; [lia|]].
    + destruct H2 as [k ->]. exists (k ++ [x]). by rewrite <- app_assoc.
    + intros Hnd. apply H4. by constructor.
  - intros x sup Hsup Hx. simpl. split; [done|]. split; [by exists [x]|].
    split; [lia|]. intros Hnd. by constructor.
Qed.

(** ** Counters *)

Lemma alist_set_new {V} k (v : V) (l : list (Item * V)) :
  alist_lookup k l = None → alist_set k v l = l ++ [(k, v)].
Proof.
  induction l as [|[k1 v1] l IH]; simpl; [done|].
  destruct (decide (k = k1)); [done|]. intros H. by rewrite IH.
Qed.

Lemma alist_lookup_Some_elem {V} k (v : V) (l : list (Item * V)) :
  alist_lookup k l = Some v → (k, v) ∈ l.
Proof.
  induction l as [|[k1 v1] l IH]; simpl; [done|].
  destruct (decide (k = k1)) as [->|].
  - intros [= ->]. apply list_elem_of_here.
  - intros H. by apply list_elem_of_further, IH.
Qed.

Lemma alist_lookup_elem {V} k (v : V) (l : list (Item * V)) :
  NoDup l.*1 → (k, v) ∈ l ↔ alist_lookup k l = Some v.
Proof.
  intros Hnd. split; [|apply alist_lookup_Some_elem].
  induction l as [|[k1 v1] l IH]; [by intros ?%elem_of_nil|].
  rewrite fmap_cons in Hnd. apply NoDup_cons in Hnd as [Hk Hnd]. simpl in *.
  intros [[= -> ->]|Hin]%elem_of_cons.
  - by rewrite decide_True.
  - rewrite decide_False; [by apply IH|]. intros ->. apply Hk.
    by apply (list_elem_of_fmap_2 fst) in Hin.
Qed.

Lemma alist_set_keys_add {V} k (v : V) (l : list (Item * V)) :
  (alist_set k v l).*1 = add_key k l.*1.
Proof.
  unfold add_key. destruct (alist_lookup k l) as [v0|] eqn:E.
  - rewrite alist_set_keys by (by rewrite E). rewrite decide_True; [done|].
    destruct (decide (k ∈ l.*1)) as [|Hn]; [done|].
    apply alist_lookup_None in Hn. congruence.
  - rewrite (alist_set_new _ _ _ E), fmap_app. simpl.
    rewrite decide_False; [done|]. by apply alist_lookup_None.
Qed.

Lemma counter_add_keys x c l : (counter_add x c l).*1 = add_key x l.*1.
Proof. apply alist_set_keys_add. Qed.

Lemma counter_add_count x c l y :
  count_of (counter_add x c l) y =
    (count_of l y + if decide (y = x) then c else 0)%Z.
Proof.
  unfold count_of, counter_add. rewrite alist_lookup_set.
  destruct (decide (y = x)) as [->|]; simpl; lia.
Qed.

Lemma alist_set_elem {V} k (v : V) (l : list (Item * V)) e :
  e ∈ alist_set k v l → e = (k, v) ∨ e ∈ l.
Proof.
  induction l as [|[k1 v1] l IH]; simpl.
  - intros ->%list_elem_of_singleton. by left.
  - destruct (decide (k = k1)) as [->|].
    + intros [->|H]%elem_of_cons; [by left|]. right. by apply list_elem_of_further.
    + intros [->|H]%elem_of_cons; [right; apply list_elem_of_here|].
      destruct (IH H); [by left|]. right. by apply list_elem_of_further.
Qed.

Lemma count_of_pos c x : counter_ok c → x ∈ c.*1 ↔ (0 < count_of c x)%Z.
Proof.
  intros [Hnd Hpos]. unfold count_of. split.
  - intros Hx. destruct (alist_lookup x c) as [v|] eqn:E.
    + apply alist_lookup_Some_elem in E. rewrite Forall_forall in Hpos.
      by apply (Hpos (x, v)).
    + by apply alist_lookup_None in E.
  - intros H. destruct (decide (x ∈ c.*1)) as [|Hn]; [done|].
    apply alist_lookup_None in Hn. rewrite Hn in H. simpl in H. lia.
Qed.

Lemma counter_add_ok x c l :
  counter_ok l → (0 < c)%Z → counter_ok (counter_add x c l).
Proof.
  intros [Hnd Hpos] Hc. split.
  - rewrite counter_add_keys. by apply add_key_NoDup.
  - apply Forall_forall. intros e He. unfold counter_add in He.
    apply alist_set_elem in He as [->|He].
    + simpl. destruct (alist_lookup x l) as [v|] eqn:E; simpl; [|lia].
      apply alist_lookup_Some_elem in E. rewrite Forall_forall in Hpos.
      specialize (Hpos _ E). simpl in Hpos. lia.
    + rewrite Forall_forall in Hpos. by apply Hpos.
Qed.

Lemma filter_id {A} (φ : A → Prop) `{!∀ x, Decision (φ x)} (l : list A) :
  Forall φ l → filter φ l = l.
Proof.
  induction 1 as [|x l Hx _ IH]; [done|]. by rewrite filter_cons, decide_True, IH.
Qed.

Lemma Counter_spec l :
  counter_ok (Counter l) ∧ (Counter l).*1 = first_seen l ∧
  ∀ x, count_of (Counter l) x = mult x l.
Proof.
  unfold Counter, first_seen.
  assert (∀ c0, counter_ok c0 →
            counter_ok (foldl (λ counter elem, counter_add elem 1 counter) c0 l) ∧
            (foldl (λ counter elem, counter_add elem 1 counter) c0 l).*1 = adds c0.*1 l ∧
            ∀ x, count_of (foldl (λ counter elem, counter_add elem 1 counter) c0 l) x =
                 (count_of c0 x + mult x l)%Z) as H.
  { induction l as [|y l IH]; intros c0 Hc0; simpl.
    - split; [done|]. split; [done|]. intros x. unfold mult. simpl. lia.
    - destruct (IH (counter_add y 1 c0)) as (H1 & H2 & H3).
      { by apply counter_add_ok. }
      split; [done|]. split; [by rewrite H2, counter_add_keys|].
      intros x. rewrite H3, counter_add_count. unfold mult. rewrite filter_cons.
      destruct (decide (x = y)) as [->|Hne].
      + rewrite decide_True by done. simpl length. lia.
      + rewrite decide_False by congruence. lia. }
  destruct (H []) as (H1 & H2 & H3).
  { split; [constructor|constructor]. }
  split; [done|]. split; [done|]. intros x. rewrite H3. unfold count_of. simpl. lia.
Qed.

Lemma count_of_cons y c l x :
  count_of ((y, c) :: l) x = if decide (x = y) then c else count_of l x.
Proof. unfold count_of. simpl. by destruct (decide (x = y)). Qed.

Lemma count_of_absent l x : x ∉ l.*1 → count_of l x = 0%Z.
Proof. intros H%alist_lookup_None. unfold count_of. by rewrite H. Qed.

Lemma Counter_iadd_spec self other :
  counter_ok self → counter_ok other →
  counter_ok (Counter_iadd self other) ∧
  (Counter_iadd self other).*1 = adds self.*1 other.*1 ∧
  ∀ x, count_of (Counter_iadd self other) x = (count_of self x + count_of other x)%Z.
Proof.
  intros Hs [Hnd Hpos]. unfold Counter_iadd.
  assert (counter_ok (foldl (λ counter e, counter_add e.1 e.2 counter) self other) ∧
          (foldl (λ counter e, counter_add e.1 e.2 counter) self other).*1 =
            adds self.*1 other.*1 ∧
          ∀ x, count_of (foldl (λ counter e, counter_add e.1 e.2 counter) self other) x =
               (count_of self x + count_of other x)%Z) as (H1 & H2 & H3).
  { revert self Hs. induction other as [|[y c] other IH]; intros self Hs; simpl.
    - split; [done|]. split; [done|]. intros x. unfold count_of at 3. simpl. lia.
    - rewrite fmap_cons in Hnd. apply NoDup_cons in Hnd as [Hy Hnd].
      apply Forall_cons in Hpos as [Hc Hpos]. simpl in Hy, Hc.
      destruct (IH Hnd Hpos (counter_add y c self)) as (H1 & H2 & H3).
      { by apply counter_add_ok. }
      split; [done|]. split; [by rewrite H2, counter_add_keys|].
      intros x. rewrite H3, counter_add_count, count_of_cons.
      destruct (decide (x = y)) as [->|Hne]; [|lia].
      rewrite (count_of_absent other y Hy). lia. }
  rewrite filter_id by apply H1. done.
Qed.

(** The counter that the first scan makes of the transactions. *)
Lemma supporter_spec (t_sets : list (list Item)) :
  let supporter :=
    foldl (λ supporter t_set, Counter_iadd supporter (Counter t_set)) [] t_sets in
  counter_ok supporter ∧ supporter.*1 = first_seen (concat t_sets) ∧
  ∀ x, count_of supporter x = lsum (mult x) t_sets.
Proof.
  simpl.
  assert (∀ s0, counter_ok s0 →
    counter_ok (foldl (λ supporter t_set, Counter_iadd supporter (Counter t_set)) s0 t_sets) ∧
    (foldl (λ supporter t_set, Counter_iadd supporter (Counter t_set)) s0 t_sets).*1 =
      adds s0.*1 (concat t_sets) ∧
    ∀ x, count_of (foldl (λ supporter t_set, Counter_iadd supporter (Counter t_set))
                         s0 t_sets) x = (count_of s0 x + lsum (mult x) t_sets)%Z) as H.
  { induction t_sets as [|ts t_sets IH]; intros s0 Hs0; simpl.
    - split; [done|]. split; [done|]. intros x. lia.
    - destruct (Counter_spec ts) as (Hc1 & Hc2 & Hc3).
      destruct (Counter_iadd_spec s0 (Counter ts) Hs0 Hc1) as (Hi1 & Hi2 & Hi3).
      destruct (IH _ Hi1) as (H1 & H2 & H3).
      split; [done|]. split.
      + by rewrite H2, Hi2, Hc2, adds_app, adds_first_seen.
      + intros x. rewrite H3, Hi3, Hc3. lia. }
  destruct (H []) as (H1 & H2 & H3); [split; constructor|].
  split; [done|]. split; [done|]. intros x. rewrite H3. unfold count_of. simpl. lia.
Qed.

(** ** Sorting by count *)

Lemma insert_by_count_perm e l : insert_by_count e l ≡ₚ e :: l.
Proof.
  induction l as [|e' l IH]; simpl; [done|].
  destruct (e'.2 <=? e.2)%Z; [done|]. rewrite IH. apply perm_swap.
Qed.

Lemma sorted_by_count_perm l : sorted_by_count l ≡ₚ l.
Proof.
  induction l as [|e l IH]; simpl; [done|].
  by rewrite insert_by_count_perm, IH.
Qed.

Lemma insert_by_count_sorted e l :
  StronglySorted by_count l → StronglySorted by_count (insert_by_count e l).
Proof.
  induction 1 as [|e' l Hl IH He']; simpl.
  - constructor; [constructor|constructor].
  - destruct (e'.2 <=? e.2)%Z eqn:E.
    + apply Z.leb_le in E. constructor; [by constructor|].
      constructor; [done|]. eapply Forall_impl; [done|].
      unfold by_count. intros b Hb. lia.
    + apply Z.leb_gt in E. constructor; [done|].
      rewrite insert_by_count_perm. constructor; [|done]. unfold by_count. lia.
Qed.

Lemma sorted_by_count_sorted l : StronglySorted by_count (sorted_by_count l).
Proof.
  induction l as [|e l IH]; simpl; [constructor|]. by apply insert_by_count_sorted.
Qed.

(** The entries of one count keep their order. *)
Lemma insert_by_count_stable c e l :
  filter (λ a, a.2 = c) (insert_by_count e l) = filter (λ a, a.2 = c) (e :: l).
Proof.
  induction l as [|e' l IH]; simpl; [done|].
  destruct (e'.2 <=? e.2)%Z eqn:E; [done|]. apply Z.leb_gt in E.
  rewrite (filter_cons _ e'), IH, !filter_cons.
  destruct (decide (e'.2 = c)), (decide (e.2 = c)); try done. lia.
Qed.

Lemma sorted_by_count_stable c l :
  filter (λ a, a.2 = c) (sorted_by_count l) = filter (λ a, a.2 = c) l.
Proof.
  induction l as [|e l IH]; simpl; [done|].
  by rewrite insert_by_count_stable, !filter_cons, IH.
Qed.

Lemma dict_of_id l : NoDup l.*1 → dict_of l = l.
Proof.
  unfold dict_of. induction l as [|e l IH] using rev_ind; intros Hnd; [done|].
  rewrite fmap_app in Hnd. apply NoDup_app in Hnd as (Hnd & Hdis & _).
  rewrite foldl_app. simpl. rewrite (IH Hnd). destruct e as [k v]. simpl.
  apply alist_set_new, alist_lookup_None. intros Hk. apply (Hdis k Hk).
  apply list_elem_of_here.
Qed.

Lemma NoDup_fmap_filter {A B} (f : A → B) (φ : A → Prop) `{!∀ x, Decision (φ x)} l :
  NoDup (f <$> l) → NoDup (f <$> filter φ l).
Proof.
  induction l as [|x l IH]; [done|]. rewrite fmap_cons, filter_cons.
  intros [Hx Hnd]%NoDup_cons. destruct (decide (φ x)); [|by apply IH].
  rewrite fmap_cons. constructor; [|by apply IH]. intros Hin. apply Hx.
  apply list_elem_of_fmap in Hin as (y & -> & Hy%list_elem_of_filter).
  apply list_elem_of_fmap_2. tauto.
Qed.

Lemma StronglySorted_filter_keep {A} (R : relation A) (φ : A → Prop)
    `{!∀ x, Decision (φ x)} l :
  StronglySorted R l → StronglySorted R (filter φ l).
Proof.
  induction 1 as [|x l Hl IH Hx]; [constructor|]. rewrite filter_cons.
  destruct (decide (φ x)); [|done]. constructor; [done|].
  apply Forall_forall. intros y [_ Hy]%list_elem_of_filter.
  rewrite Forall_forall in Hx. by apply Hx.
Qed.

Lemma lsum_mult_NoDup x (t_sets : list (list Item)) :
  Forall NoDup t_sets → lsum (mult x) t_sets = count_containing x t_sets.
Proof.
  intros H. unfold count_containing. rewrite <- lsum_count.
  induction H as [|ts t_sets Hts _ IH]; simpl; [done|]. rewrite IH.
  destruct (decide (x ∈ ts)) as [Hin|Hin].
  - by rewrite mult_NoDup.
  - by rewrite mult_notin.
Qed.

(** ** What the first scan returns *)

Section first_scan_facts.

Variable frozenset : list Item → list Item.
Variable t_lines : list (Z * Z * list Item).
Variable epsilon : Z.

Let t_sets := map (λ t_line : Z * Z * list Item, t_line.2) t_lines.
Let supporter :=
  foldl (λ supporter t_set, Counter_iadd supporter (Counter t_set)) [] t_sets.

Lemma first_scan_l_table :
  (first_scan frozenset t_lines epsilon).1 =
    filter (λ e, (epsilon ≤ e.2)%Z) (sorted_by_count supporter).
Proof.
  unfold first_scan. simpl. apply dict_of_id, NoDup_fmap_filter.
  rewrite sorted_by_count_perm. apply (supporter_spec t_sets).
Qed.

Lemma first_scan_lookup x c :
  alist_lookup x (first_scan frozenset t_lines epsilon).1 = Some c ↔
  c = lsum (mult x) t_sets ∧ (epsilon ≤ c)%Z ∧ (0 < c)%Z.
Proof.
  destruct (supporter_spec t_sets) as ([Hnd Hpos] & Hkeys & Hcount).
  fold supporter in Hnd, Hpos, Hkeys, Hcount.
  assert (NoDup (sorted_by_count supporter).*1) as Hnd'
    by (by rewrite sorted_by_count_perm).
  rewrite first_scan_l_table.
  rewrite <- alist_lookup_elem by (by apply NoDup_fmap_filter).
  rewrite list_elem_of_filter, sorted_by_count_perm. simpl.
  rewrite (alist_lookup_elem x c supporter Hnd). rewrite <- Hcount.
  unfold count_of. split.
  - intros [He Hl]. rewrite Hl. simpl. split; [done|]. split; [done|].
    apply alist_lookup_Some_elem in Hl. rewrite Forall_forall in Hpos.
    by apply (Hpos (x, c)).
  - intros (-> & He & Hp). split; [done|].
    destruct (alist_lookup x supporter); [done|]. simpl in Hp. lia.
Qed.

Lemma first_scan_keys x :
  x ∈ (first_scan frozenset t_lines epsilon).1.*1 ↔
  (epsilon ≤ lsum (mult x) t_sets)%Z ∧ (0 < lsum (mult x) t_sets)%Z.
Proof.
  split.
  - intros Hx. destruct (alist_lookup x (first_scan frozenset t_lines epsilon).1)
      as [c|] eqn:E.
    + apply first_scan_lookup in E as (-> & ? & ?). done.
    + by apply alist_lookup_None in E.
  - intros [H1 H2].
    assert (alist_lookup x (first_scan frozenset t_lines epsilon).1 =
            Some (lsum (mult x) t_sets)) as E by (by apply first_scan_lookup).
    apply alist_lookup_Some_elem in E. by apply (list_elem_of_fmap_2 fst) in E.
Qed.

Lemma first_scan_sorted :
  NoDup (first_scan frozenset t_lines epsilon).1.*1 ∧
  StronglySorted by_count (first_scan frozenset t_lines epsilon).1.
Proof.
  rewrite first_scan_l_table. split.
  - apply NoDup_fmap_filter. rewrite sorted_by_count_perm. apply (supporter_spec t_sets).
  - apply StronglySorted_filter_keep. apply sorted_by_count_sorted.
Qed.

Lemma first_scan_transactions :
  frozenset_spec frozenset →
  Forall2 (λ t_line tx, NoDup tx ∧
             ∀ x, x ∈ tx ↔ x ∈ t_line.2 ∧ (epsilon ≤ lsum (mult x) t_sets)%Z)
          t_lines (first_scan frozenset t_lines epsilon).2.
Proof.
  intros Hfs. unfold first_scan. simpl. rewrite map_map.
  apply Forall2_fmap_r, Forall_Forall2_diag, Forall_forall.
  intros t_line Hin. destruct (Hfs (filter
    (λ item, item ∈ (first_scan frozenset t_lines epsilon).1.*1) t_line.2)) as [Hnd Hel].
  split; [done|]. intros x. unfold first_scan in Hel. simpl in Hel.
  rewrite Hel, list_elem_of_filter.
  pose proof (first_scan_keys x) as Hk. unfold first_scan in Hk. simpl in Hk.
  rewrite Hk. split; [tauto|]. intros [Hx He]. split; [|done]. split; [done|].
  assert (0 < mult x t_line.2)%Z as Hm.
  { unfold mult. destruct (filter (λ y, y = x) t_line.2) eqn:E; [|simpl; lia].
    assert (x ∈ filter (λ y, y = x) t_line.2) as Hf by (by apply list_elem_of_filter).
    rewrite E in Hf. by apply elem_of_nil in Hf. }
  assert (mult x t_line.2 ≤ lsum (mult x) t_sets)%Z; [|lia].
  assert (t_line.2 ∈ t_sets) as Hts.
  { unfold t_sets. by apply (list_elem_of_fmap_2 (λ t_line : Z * Z * list Item, t_line.2)). }
  clear -Hts. induction t_sets as [|ts l IH]; [by apply elem_of_nil in Hts|].
  simpl. assert (∀ l0, (0 ≤ lsum (mult x) l0)%Z) as Hnn.
  { induction l0; simpl; unfold mult in *; lia. }
  apply elem_of_cons in Hts as [<-|Hts].
  - specialize (Hnn l). lia.
  - specialize (IH Hts). unfold mult at 2. lia.
Qed.

Lemma filter_ext_elem {A} (φ ψ : A → Prop) `{!∀ x, Decision (φ x)}
    `{!∀ x, Decision (ψ x)} (l : list A) :
  (∀ x, x ∈ l → φ x ↔ ψ x) → filter φ l = filter ψ l.
Proof.
  induction l as [|x l IH]; intros Hext; [done|]. rewrite !filter_cons.
  rewrite IH by (intros y Hy; by apply Hext, list_elem_of_further).
  pose proof (Hext x (list_elem_of_here _ _)) as Hx.
  destruct (decide (φ x)), (decide (ψ x)); tauto || done.
Qed.

Lemma filter_count_keys (l : list (Item * Z)) c :
  NoDup l.*1 →
  (filter (λ e, e.2 = c) l).*1 = filter (λ x, alist_lookup x l = Some c) l.*1.
Proof.
  induction l as [|[k v] l IH]; [done|]. rewrite fmap_cons.
  intros [Hk Hnd]%NoDup_cons. cbn [fst] in Hk.
  rewrite !filter_cons. cbn [fst snd].
  assert (alist_lookup k ((k, v) :: l) = Some v) as Ek.
  { simpl. by rewrite decide_True. }
  assert (filter (λ x, alist_lookup x ((k, v) :: l) = Some c) l.*1
          = filter (λ x, alist_lookup x l = Some c) l.*1) as ->.
  { apply filter_ext_elem. intros x Hx. simpl.
    rewrite decide_False; [done|]. intros ->. done. }
  rewrite Ek. destruct (decide (v = c)) as [->|Hne].
  - rewrite decide_True by done. rewrite fmap_cons. cbn [fst]. by rewrite IH.
  - rewrite decide_False by congruence. by apply IH.
Qed.

(** The items of one count come in the table in the order in which they
    first come in the transactions. *)
Lemma first_scan_ties c :
  (epsilon ≤ c)%Z → (0 < c)%Z →
  (filter (λ e, e.2 = c) (first_scan frozenset t_lines epsilon).1).*1 =
    filter (λ x, lsum (mult x) t_sets = c) (first_seen (concat t_sets)).
Proof.
  intros He Hc. rewrite first_scan_l_table.
  destruct (supporter_spec t_sets) as ([Hnd Hpos] & Hkeys & Hcount).
  fold supporter in Hnd, Hpos, Hkeys, Hcount.
  assert (filter (λ e, e.2 = c) (filter (λ e, (epsilon ≤ e.2)%Z) (sorted_by_count supporter))
          = filter (λ e, e.2 = c) (sorted_by_count supporter)) as ->.
  { rewrite list_filter_filter. apply list_filter_iff. intros e. split; [tauto|].
    intros ->. done. }
  rewrite sorted_by_count_stable, (filter_count_keys supporter c Hnd), Hkeys.
  apply list_filter_iff. intros x. rewrite <- Hcount. unfold count_of.
  split; [by intros ->|]. intros H.
  destruct (alist_lookup x supporter); simpl in H; [by subst|lia].
Qed.

End first_scan_facts.

(** ** The search of a database whose transactions are in one order *)

Section sorted_search.

Context (R : relation Item) `{!StrictOrder R}.

Lemma mine_sorted epsilon depth db res :
  Forall (StronglySorted R) db → (0 < epsilon)%Z →
  mine depth db epsilon [] = Ok res →
  ∀ s c, (s, c) ∈ res ↔
         s ≠ [] ∧ StronglySorted R s ∧ c = count_subset s db ∧ (epsilon ≤ c)%Z.
Proof.
  intros Hdb Heps Hres s c.
  pose proof (sorted_db_NoDup R db Hdb) as Hnd. split.
  - intros Hin.
    pose proof (mine_sound epsilon depth db [] res Hnd (NoDup_nil_2) Hres) as HF.
    rewrite Forall_forall in HF.
    destruct (HF _ Hin) as (new & Hs & Hne & _ & Hc & He & Hpos). simpl in *.
    rewrite app_nil_r in Hs. subst new.
    destruct (count_sublist_pos s db) as (tx & Htx & Hord); [lia|].
    assert (StronglySorted R s) as Hsorted.
    { apply (in_order_sorted_l R tx); [|done]. rewrite Forall_forall in Hdb. by apply Hdb. }
    split; [done|]. split; [done|]. split; [|done].
    by rewrite <- (count_sublist_sorted R).
  - intros (Hne & Hs & -> & He).
    rewrite <- (count_sublist_sorted R s db Hs Hdb) in *.
    pose proof (mine_complete epsilon depth db [] res s Hnd Hres Hne) as H.
    rewrite app_nil_r in H. apply H; [|done|lia].
    intros x _. apply not_elem_of_nil.
Qed.

Lemma sorted_eq : ∀ s s' : list Item,
  StronglySorted R s → StronglySorted R s' → (∀ x, x ∈ s ↔ x ∈ s') → s = s'.
Proof.
  induction s as [|x s IH]; intros s' Hs Hs' Heq.
  - destruct s' as [|y s']; [done|].
    pose proof (proj2 (Heq y) (list_elem_of_here _ _)) as H. by apply elem_of_nil in H.
  - destruct s' as [|y s'].
    { pose proof (proj1 (Heq x) (list_elem_of_here _ _)) as H. by apply elem_of_nil in H. }
    apply StronglySorted_inv in Hs as [Hs Hx]. apply StronglySorted_inv in Hs' as [Hs' Hy].
    rewrite Forall_forall in Hx, Hy.
    assert (x = y) as ->.
    { destruct (decide (x = y)) as [|Hne]; [done|]. exfalso.
      pose proof (proj1 (Heq x) (list_elem_of_here _ _)) as H1.
      pose proof (proj2 (Heq y) (list_elem_of_here _ _)) as H2.
      apply elem_of_cons in H1 as [?|H1]; [done|].
      apply elem_of_cons in H2 as [?|H2]; [done|].
      apply (irreflexivity R x). transitivity y; [by apply Hx|by apply Hy]. }
    f_equal. apply IH; try done. intros z. split; intros Hz.
    + pose proof (proj1 (Heq z) (list_elem_of_further _ _ _ Hz)) as H.
      apply elem_of_cons in H as [->|H]; [|done].
      exfalso. by apply (irreflexivity R y), Hx.
    + pose proof (proj2 (Heq z) (list_elem_of_further _ _ _ Hz)) as H.
      apply elem_of_cons in H as [->|H]; [|done].
      exfalso. by apply (irreflexivity R y), Hy.
Qed.

End sorted_search.

(** ** The dict of the rules *)

Lemma rule_key_set (items : list Item) : rule_key items = list_to_set items.
Proof.
  destruct items as [|x [|y items]]; simpl; try done. by rewrite (right_id_L ∅ (∪)).
Qed.

Lemma rules_of_snoc res r :
  rules_of (res ++ [r]) = <[list_to_set r.1 := r.2]> (rules_of res).
Proof. unfold rules_of. rewrite foldl_app. simpl. by rewrite rule_key_set. Qed.

Lemma rules_of_lookup (res : list (list Item * Z)) (K : gset Item) :
  rules_of res !! K = snd <$> last (filter (λ r, list_to_set r.1 = K) res).
Proof.
  induction res as [|r res IH] using rev_ind; [done|].
  rewrite rules_of_snoc, filter_app, filter_cons, filter_nil.
  destruct (decide (list_to_set r.1 = K)) as [<-|Hne].
  - by rewrite lookup_insert_eq, last_snoc.
  - rewrite lookup_insert_ne by done. by rewrite app_nil_r.
Qed.

Lemma NoDup_fst_inj {A B} (l : list (A * B)) a b b' :
  NoDup l.*1 → (a, b) ∈ l → (a, b') ∈ l → b = b'.
Proof.
  induction l as [|[a0 b0] l IH]; [by intros _ ?%elem_of_nil|].
  rewrite fmap_cons. intros [Ha Hnd]%NoDup_cons H1 H2. simpl in Ha.
  apply elem_of_cons in H1 as [[= -> ->]|H1], H2 as [[= <-]|H2]; try done.
  - exfalso. apply Ha. by apply (list_elem_of_fmap_2 fst) in H2.
  - exfalso. apply Ha. by apply (list_elem_of_fmap_2 fst) in H1.
  - by apply IH.
Qed.

Lemma last_filter_unique {A B} (φ : A * B → Prop) `{!∀ x, Decision (φ x)}
    (res : list (A * B)) (c : B) :
  NoDup res.*1 →
  (∀ r r', r ∈ res → r' ∈ res → φ r → φ r' → r.1 = r'.1) →
  snd <$> last (filter φ res) = Some c ↔ ∃ a, (a, c) ∈ res ∧ φ (a, c).
Proof.
  intros Hnd Huniq. split.
  - destruct (last (filter φ res)) as [[a b]|] eqn:E; [|done]. simpl. intros [= ->].
    apply last_Some_elem_of, list_elem_of_filter in E as [? ?]. eauto.
  - intros (a & Hin & Hφ).
    assert ((a, c) ∈ filter φ res) as Hf by (by apply list_elem_of_filter).
    destruct (last (filter φ res)) as [[a' b']|] eqn:E.
    + apply last_Some_elem_of, list_elem_of_filter in E as [Hφ' Hin']. simpl.
      pose proof (Huniq _ _ Hin Hin' Hφ Hφ') as Ea. simpl in Ea. subst a'.
      f_equal. symmetry. by apply (NoDup_fst_inj res a).
    + apply last_None in E. rewrite E in Hf. by apply elem_of_nil in Hf.
Qed.

Lemma list_to_set_single (s : list Item) x :
  NoDup s → list_to_set (C := gset Item) s = {[x]} → s = [x].
Proof.
  intros Hnd Hs.
  assert (∀ y, y ∈ s ↔ y = x) as Hel.
  { intros y. by rewrite <- (elem_of_list_to_set (C := gset Item)), Hs, elem_of_singleton. }
  destruct s as [|y s].
  - pose proof (proj2 (Hel x) eq_refl) as H. by apply elem_of_nil in H.
  - pose proof (proj1 (Hel y) (list_elem_of_here _ _)) as ->.
    destruct s as [|z s]; [done|].
    pose proof (proj1 (Hel z) (list_elem_of_further _ _ _ (list_elem_of_here _ _))) as ->.
    apply NoDup_cons in Hnd as [Hx _]. exfalso. apply Hx, list_elem_of_here.
Qed.

Lemma filter_length_Forall2 {A B} (φ : A → Prop) (ψ : B → Prop)
    `{!∀ x, Decision (φ x)} `{!∀ x, Decision (ψ x)} l1 l2 :
  Forall2 (λ a b, φ a ↔ ψ b) l1 l2 → length (filter φ l1) = length (filter ψ l2).
Proof.
  induction 1 as [|a b l1 l2 Hab _ IH]; [done|]. rewrite !filter_cons.
  destruct (decide (φ a)) as [Ha|Ha].
  - rewrite decide_True by tauto. simpl. by rewrite IH.
  - rewrite decide_False by tauto. done.
Qed.

(** ** The main program *)

(** The transactions [db] are the transactions [t_sets] without the items
    that are not frequent. *)
Section filtered.

Variable epsilon : Z.
Variables t_sets db : list (list Item).
Hypothesis Hdb :
  Forall2 (λ t_set tx, NoDup tx ∧
             ∀ x, x ∈ tx ↔ x ∈ t_set ∧ (epsilon ≤ lsum (mult x) t_sets)%Z)
          t_sets db.

Lemma filtered_NoDup : Forall NoDup db.
Proof.
  eapply Forall2_Forall_r; [done|]. apply Forall_forall. intros tl _ tx [? _]. done.
Qed.

(** An item that some filtered transaction holds is frequent. *)
Lemma filtered_frequent x tx :
  tx ∈ db → x ∈ tx → (epsilon ≤ lsum (mult x) t_sets)%Z.
Proof.
  intros Htx Hx. apply list_elem_of_lookup_1 in Htx as [k Hk].
  destruct (Forall2_lookup_r _ _ _ _ _ Hdb Hk) as (tl & Htl & Hnd & Hel).
  by destruct (proj1 (Hel x) Hx).
Qed.

(** Among frequent items the filtered transactions are the transactions. *)
Lemma filtered_count (φ : list Item → Prop) (ψ : list Item → Prop)
    `{!∀ x, Decision (φ x)} `{!∀ x, Decision (ψ x)} :
  (∀ tl tx, (∀ x, x ∈ tx ↔ x ∈ tl ∧ (epsilon ≤ lsum (mult x) t_sets)%Z) →
            φ tx ↔ ψ tl) →
  length (filter φ db) = length (filter ψ t_sets).
Proof.
  intros Hiff. symmetry. apply filter_length_Forall2.
  eapply Forall2_impl; [done|]. intros tl tx [_ Hel]. simpl. symmetry. by apply Hiff.
Qed.

Lemma count_containing_filtered x :
  (epsilon ≤ lsum (mult x) t_sets)%Z →
  count_containing x db = count_containing x t_sets.
Proof.
  intros He. unfold count_containing. f_equal. apply filtered_count.
  intros tl tx Hel. rewrite Hel. tauto.
Qed.

(** The rules of the single items are the frequent items with their counts. *)
Lemma rules_single depth res x c :
  Forall NoDup t_sets →
  mine depth db epsilon [] = Ok res →
  rules_of res !! ({[x]} : gset Item) = Some c ↔
  c = count_containing x t_sets ∧ (epsilon ≤ c)%Z ∧ (0 < c)%Z.
Proof.
  intros Hts Hres.
  pose proof (mine_sound epsilon depth db [] res filtered_NoDup (NoDup_nil_2) Hres)
    as Hsound.
  pose proof (mine_NoDup epsilon depth db [] res Hres) as Hnd.
  rewrite Forall_forall in Hsound.
  assert (∀ r, r ∈ res → list_to_set (C := gset Item) r.1 = {[x]} → r.1 = [x]) as Hone.
  { intros r Hr Hk. destruct (Hsound r Hr) as (_ & _ & _ & Hndr & _).
    by apply list_to_set_single. }
  rewrite rules_of_lookup.
  rewrite (last_filter_unique (λ r, list_to_set (C := gset Item) r.1 = {[x]}) res c Hnd).
  2:{ intros r r' Hr Hr' Hk Hk'. by rewrite (Hone r Hr Hk), (Hone r' Hr' Hk'). }
  split.
  - intros (a & Hin & Hk).
    pose proof (Hone _ Hin Hk) as Ha. cbn [fst] in Ha. subst a.
    destruct (Hsound _ Hin) as (new & Hnew & _ & _ & Hc & He & Hpos).
    cbn [fst snd] in *.
    rewrite app_nil_r in Hnew. subst new. rewrite count_sublist_single in Hc.
    assert (epsilon ≤ lsum (mult x) t_sets)%Z as Hfreq.
    { destruct (count_sublist_pos [x] db) as (tx & Htx & Hord).
      { rewrite count_sublist_single. lia. }
      apply (filtered_frequent x tx Htx). by apply in_order_single. }
    rewrite (count_containing_filtered x Hfreq) in Hc. by subst c.
  - intros (-> & He & Hpos). exists [x]. split; [|cbn; by rewrite (right_id_L ∅ (∪))].
    assert (epsilon ≤ lsum (mult x) t_sets)%Z as Hfreq
      by (by rewrite (lsum_mult_NoDup x t_sets Hts)).
    rewrite <- (count_containing_filtered x Hfreq), <- count_sublist_single.
    pose proof (mine_complete epsilon depth db [] res [x] filtered_NoDup Hres)
      as Hcomp. rewrite app_nil_r in Hcomp. apply Hcomp; try done.
    + intros y _. apply not_elem_of_nil.
    + by rewrite count_sublist_single, (count_containing_filtered x Hfreq).
    + by rewrite count_sublist_single, (count_containing_filtered x Hfreq).
Qed.

Lemma count_subset_filtered s :
  (∀ x, x ∈ s → (epsilon ≤ lsum (mult x) t_sets)%Z) →
  count_subset s db = count_superset (list_to_set s) t_sets.
Proof.
  intros Hs. unfold count_subset, count_superset. f_equal. apply filtered_count.
  intros tl tx Hel. split.
  - intros Hsub x Hx%elem_of_list_to_set. apply elem_of_list_to_set.
    by destruct (proj1 (Hel x) (Hsub x Hx)).
  - intros Hsub x Hx. apply Hel. split; [|by apply Hs].
    apply (elem_of_list_to_set (C := gset Item)), Hsub. by apply elem_of_list_to_set.
Qed.

Lemma lsum_mult_nonneg (x : Item) (l : list (list Item)) : (0 ≤ lsum (mult x) l)%Z.
Proof. induction l as [|ts l IH]; simpl; [done|]. unfold mult at 1. lia. Qed.

Lemma mult_pos (x : Item) (l : list Item) : x ∈ l → (0 < mult x l)%Z.
Proof.
  intros Hx. unfold mult. destruct (filter (λ y, y = x) l) eqn:E; [|simpl; lia].
  assert (x ∈ filter (λ y, y = x) l) as Hf by (by apply list_elem_of_filter).
  rewrite E in Hf. by apply elem_of_nil in Hf.
Qed.

Lemma count_superset_le (K : gset Item) x (l : list (list Item)) :
  x ∈ K → (count_superset K l ≤ lsum (mult x) l)%Z.
Proof.
  intros Hx. unfold count_superset. induction l as [|ts l IH]; simpl; [done|].
  rewrite filter_cons. destruct (decide (K ⊆ list_to_set ts)) as [Hsub|Hsub].
  - assert (0 < mult x ts)%Z.
    { apply mult_pos. apply (elem_of_list_to_set (C := gset Item)). by apply Hsub. }
    simpl length. lia.
  - unfold mult at 1. lia.
Qed.

Lemma count_superset_pos (K : gset Item) (l : list (list Item)) :
  (0 < count_superset K l)%Z → ∃ ts, ts ∈ l ∧ K ⊆ list_to_set ts.
Proof.
  unfold count_superset. intros H.
  destruct (filter (λ ts, K ⊆ list_to_set ts) l) as [|ts l'] eqn:E; [simpl in H; lia|].
  exists ts. apply and_comm, (list_elem_of_filter (λ ts, K ⊆ list_to_set ts)).
  rewrite E. apply list_elem_of_here.
Qed.

Lemma count_subset_pos s (l : list (list Item)) :
  (0 < count_subset s l)%Z → ∃ tx, tx ∈ l ∧ s ⊆ tx.
Proof.
  unfold count_subset. intros H.
  destruct (filter (λ tx, s ⊆ tx) l) as [|tx l'] eqn:E; [simpl in H; lia|].
  exists tx. apply and_comm, (list_elem_of_filter (λ tx, s ⊆ tx)).
  rewrite E. apply list_elem_of_here.
Qed.

(** When every transaction is iterated in one order, the rules are the
    frequent sets of items with their counts. *)
Lemma rules_sorted (R : relation Item) `{!StrictOrder R} (depth : nat)
    (res : list (list Item * Z)) (K : gset Item) (c : Z) :
  Forall (StronglySorted R) db → (0 < epsilon)%Z →
  mine depth db epsilon [] = Ok res →
  rules_of res !! K = Some c ↔
  K ≠ ∅ ∧ c = count_superset K t_sets ∧ (epsilon ≤ c)%Z.
Proof.
  intros Hsorted Heps Hres.
  pose proof (mine_sorted R epsilon depth db res Hsorted Heps Hres) as Hmine.
  pose proof (mine_NoDup epsilon depth db [] res Hres) as Hnd.
  assert (∀ s c0, (s, c0) ∈ res → ∀ x, x ∈ s → (epsilon ≤ lsum (mult x) t_sets)%Z)
    as Hfreq.
  { intros s c0 Hin x Hx. apply Hmine in Hin as (_ & _ & -> & He).
    destruct (count_subset_pos s db) as (tx & Htx & Hsub); [lia|].
    apply (filtered_frequent x tx Htx). by apply Hsub. }
  rewrite rules_of_lookup.
  rewrite (last_filter_unique (λ r, list_to_set (C := gset Item) r.1 = K) res c Hnd).
  2:{ intros [s1 c1] [s2 c2] H1 H2 Hk1 Hk2. cbn [fst] in *.
      apply Hmine in H1 as (_ & Hs1 & _). apply Hmine in H2 as (_ & Hs2 & _).
      apply (sorted_eq R); try done. intros x.
      by rewrite <- !(elem_of_list_to_set (C := gset Item)), Hk1, Hk2. }
  split.
  - intros (s & Hin & Hk). cbn [fst] in Hk. pose proof (Hfreq s c Hin) as Hf.
    apply Hmine in Hin as (Hne & Hs & -> & He). subst K.
    split; [|split; [by apply count_subset_filtered|done]].
    destruct s as [|x s]; [done|]. intros E.
    assert (x ∈ (∅ : gset Item)) as Hx.
    { rewrite <- E. apply elem_of_list_to_set, list_elem_of_here. }
    by apply not_elem_of_empty in Hx.
  - intros (HK & -> & He).
    destruct (count_superset_pos K t_sets) as (ts & Hts & Hsub); [lia|].
    apply list_elem_of_lookup_1 in Hts as [k Hk].
    destruct (Forall2_lookup_l _ _ _ _ _ Hdb Hk) as (tx & Htx & Hndtx & Hel).
    assert (∀ x, x ∈ K → (epsilon ≤ lsum (mult x) t_sets)%Z) as HKfreq.
    { intros x Hx. pose proof (count_superset_le K x t_sets Hx). lia. }
    assert (∀ x, x ∈ K → x ∈ tx) as HKtx.
    { intros x Hx. apply Hel. split; [|by apply HKfreq].
      apply (elem_of_list_to_set (C := gset Item)). by apply Hsub. }
    set (s := filter (λ x, x ∈ K) tx).
    assert (list_to_set (C := gset Item) s = K) as Hs.
    { apply set_eq. intros x. rewrite elem_of_list_to_set. unfold s.
      rewrite list_elem_of_filter. split; [tauto|]. intros Hx. split; [done|by apply HKtx]. }
    exists s. split; [|done]. apply Hmine.
    assert (∀ x, x ∈ s → x ∈ K) as HsK.
    { intros x Hx. rewrite <- Hs. by apply elem_of_list_to_set. }
    rewrite (count_subset_filtered s), Hs by (intros x Hx; by apply HKfreq, HsK).
    split; [|split; [|done]].
    + intros E. apply HK. rewrite <- Hs, E. done.
    + apply StronglySorted_filter_keep. rewrite Forall_forall in Hsorted.
      apply Hsorted. by apply list_elem_of_lookup_2 in Htx.
Qed.

End filtered.

Lemma first_scan_filtered frozenset t_lines epsilon :
  frozenset_spec frozenset →
  Forall2 (λ t_set tx, NoDup tx ∧
             ∀ x, x ∈ tx ↔ x ∈ t_set ∧
                  (epsilon ≤ lsum (mult x) (map (λ t_line : Z * Z * list Item, t_line.2)
                                                t_lines))%Z)
          (map (λ t_line : Z * Z * list Item, t_line.2) t_lines)
          (first_scan frozenset t_lines epsilon).2.
Proof.
  intros Hfs. apply Forall2_fmap_l.
  apply (first_scan_transactions frozenset t_lines epsilon Hfs).
Qed.

Lemma main_rules_mine frozenset depth t_lines epsilon :
  frozenset_spec frozenset →
  main_rules frozenset depth t_lines epsilon =
    (res ← mine depth (first_scan frozenset t_lines epsilon).2 epsilon [];
     Ok (rules_of res)).
Proof.
  intros Hfs.
  pose proof (run_mine depth (first_scan frozenset t_lines epsilon).2 epsilon
                (filtered_NoDup _ _ _ (first_scan_filtered _ t_lines epsilon Hfs))) as H.
  unfold main_rules.
  destruct (first_scan frozenset t_lines epsilon) as [l txs]. cbn [snd] in *.
  unfold run in H. rewrite <- H. by destruct (build txs).
Qed.

Lemma main_single frozenset depth t_lines epsilon rules x :
  frozenset_spec frozenset →
  Forall (λ t_line : Z * Z * list Item, NoDup t_line.2) t_lines →
  main_rules frozenset depth t_lines epsilon = Ok rules →
  rules !! ({[x]} : gset Item) = alist_lookup x (first_scan frozenset t_lines epsilon).1.
Proof.
  intros Hfs Hts H. rewrite main_rules_mine in H by done.
  apply bind_Ok in H as (res & Hres & H). inversion H; subst rules. clear H.
  assert (Forall NoDup (map (λ t_line : Z * Z * list Item, t_line.2) t_lines)) as Hts'.
  { by apply Forall_fmap. }
  apply option_eq. intros c.
  rewrite (rules_single epsilon _ _ (first_scan_filtered _ t_lines epsilon Hfs)
             depth res x c Hts' Hres).
  rewrite (first_scan_lookup frozenset t_lines epsilon x c).
  by rewrite (lsum_mult_NoDup x _ Hts').
Qed.

Lemma main_sorted (R : relation Item) `{!StrictOrder R}
    (frozenset : list Item → list Item) (depth : nat)
    (t_lines : list (Z * Z * list Item)) (epsilon : Z)
    (rules : gmap (gset Item) Z) (K : gset Item) (c : Z) :
  frozenset_spec frozenset →
  Forall (StronglySorted R) (first_scan frozenset t_lines epsilon).2 →
  (0 < epsilon)%Z →
  main_rules frozenset depth t_lines epsilon = Ok rules →
  rules !! K = Some c ↔
  K ≠ ∅ ∧
  c = count_superset K (map (λ t_line : Z * Z * list Item, t_line.2) t_lines) ∧
  (epsilon ≤ c)%Z.
Proof.
  intros Hfs Hsorted Heps H. rewrite main_rules_mine in H by done.
  apply bind_Ok in H as (res & Hres & H). inversion H; subst rules. clear H.
  by apply (rules_sorted epsilon _ _ (first_scan_filtered _ t_lines epsilon Hfs) R depth).
Qed.

(** ** The conditional pattern base *)

Lemma rep_pattern_base t P db i :
  rep t P db → Forall NoDup db → i ∈ (hyperlinks t).*1 →
  ∃ ps nps, prefix_paths t i = Ok ps ∧ deref (store t) ps = Ok nps ∧
    map (map item) nps = first_seen (cond_db i db) ∧
    Forall (λ np, ∃ n, last np = Some n ∧
                       support n = Some (count_prefix (map item np) db)) nps.
Proof.
  intros Hrep Hdb Hi.
  destruct (rep_prefix_paths t P db i Hrep Hdb Hi)
    as (ps & nps & Hps & Hnps & Hne & Hall & HF & Hitems).
  exists ps, nps. split; [done|]. split; [done|]. split; [done|].
  apply Forall_forall. intros np Hnp.
  apply list_elem_of_lookup_1 in Hnp as [k Hk].
  destruct (Forall2_lookup_r _ _ _ _ _ HF Hk) as (r & Hr & n & q & Hn & Hq & Hlast & Hit).
  exists n. split; [done|].
  apply list_elem_of_lookup_2, elem_of_ids_of in Hr as [Hr0 _].
  rewrite (rep_support t P db r n q Hrep Hn Hr0 Hq), Hit.
  rewrite walk_count_all_prefix; [done|]. intros ->.
  pose proof (rep_wf _ _ _ Hrep) as Hwf.
  apply Hr0. apply (wf_path_inj t P [] r 0 Hwf Hq). apply Hwf.
Qed.

(** ** [FPNode.add] and [FPNode.search] *)

Lemma FPNode_add_search h self child s c :
  h !! self = Some s → h !! child = Some c →
  ∃ h', FPNode_add h self child = Ok h' ∧ length h' = length h ∧
    (∃ s', h' !! self = Some s' ∧
       FPNode_search s' (item c) = Some (default child (FPNode_search s (item c))) ∧
       ∀ x, x ≠ item c → FPNode_search s' x = FPNode_search s x) ∧
    (FPNode_search s (item c) = None →
       ∃ c', h' !! child = Some c' ∧ parent c' = Some self ∧ item c' = item c) ∧
    (is_Some (FPNode_search s (item c)) → h' = h).
Proof.
  intros Hs Hc. unfold FPNode_add, FPNode_search.
  rewrite (get_lookup _ _ _ Hs), (get_lookup _ _ _ Hc). simpl.
  pose proof (lookup_lt_Some _ _ _ Hs) as Hls.
  pose proof (lookup_lt_Some _ _ _ Hc) as Hlc.
  destruct (children s !! item c) as [old|] eqn:E; simpl.
  - exists h. split; [done|]. split; [done|]. split; [|split; [done|done]].
    exists s. split; [done|]. split; [done|]. done.
  - set (s1 := set_children (<[item c := child]> (children s)) s).
    destruct (decide (child = self)) as [->|Hne].
    + assert (c = s) as -> by congruence.
      rewrite (get_lookup _ self s1) by (by apply list_lookup_insert_eq). simpl.
      eexists. split; [done|]. split; [by rewrite !length_insert|].
      split; [|split].
      * eexists. split; [apply list_lookup_insert_eq; by rewrite length_insert|].
        simpl. split; [by rewrite lookup_insert_eq|].
        intros x Hx. by rewrite lookup_insert_ne.
      * intros _. eexists. split; [apply list_lookup_insert_eq; by rewrite length_insert|].
        done.
      * by intros [? ?].
    + rewrite (get_lookup _ child c) by (by rewrite list_lookup_insert_ne). simpl.
      eexists. split; [done|]. split; [by rewrite !length_insert|].
      split; [|split].
      * exists s1. split.
        { rewrite list_lookup_insert_ne by done. by apply list_lookup_insert_eq. }
        simpl. split; [by rewrite lookup_insert_eq|].
        intros x Hx. by rewrite lookup_insert_ne.
      * intros _. eexists. split; [apply list_lookup_insert_eq; by rewrite length_insert|].
        done.
      * by intros [? ?].
Qed.

(** ** [project] on no path, and on empty paths *)

Lemma project_no_paths : project [] = Err UnboundLocalError.
Proof. reflexivity. Qed.

Lemma project_first_empty ps : project ([] :: ps) = Err IndexError.
Proof. reflexivity. Qed.

Lemma take_seed_first p n :
  last p = Some n → take_seed SeedFalse p = Ok (SeedItem (item n)).
Proof. intros H. unfold take_seed. simpl. by rewrite H. Qed.

Lemma take_seed_truthy seed p : seed_truthy seed = true → take_seed seed p = Ok seed.
Proof. intros H. unfold take_seed. by rewrite H. Qed.

Lemma take_seed_falsy_empty seed : seed_truthy seed = false → take_seed seed [] = Err IndexError.
Proof. intros H. unfold take_seed. by rewrite H. Qed.

Lemma project_later_empty p n ps :
  last p = Some n → seed_truthy (SeedItem (item n)) = true →
  project (p :: [] :: ps) = project (p :: ps).
Proof.
  intros Hlast Htruthy. unfold project.
  assert (project_paths SeedFalse FPTree_init (p :: [] :: ps) =
          project_paths SeedFalse FPTree_init (p :: ps)) as ->; [|done].
  cbn [project_paths]. rewrite (take_seed_first p n Hlast).
  change (Ok (SeedItem (item n)) ≫= ?f) with (f (SeedItem (item n))). cbn beta.
  destruct (project_path (SeedItem (item n)) FPTree_init (root FPTree_init) p) as [t1|];
    [|done].
  change (Ok t1 ≫= ?f) with (f t1). cbn beta.
  by rewrite (take_seed_truthy _ [] Htruthy).
Qed.

Lemma project_later_empty_falsy p n ps t1 :
  last p = Some n → seed_truthy (SeedItem (item n)) = false →
  project_path (SeedItem (item n)) FPTree_init (root FPTree_init) p = Ok t1 →
  project (p :: [] :: ps) = Err IndexError.
Proof.
  intros Hlast Hfalsy Hp. unfold project. cbn [project_paths].
  rewrite (take_seed_first p n Hlast).
  change (Ok (SeedItem (item n)) ≫= ?f) with (f (SeedItem (item n))). cbn beta.
  rewrite Hp. change (Ok t1 ≫= ?f) with (f t1). cbn beta.
  by rewrite (take_seed_falsy_empty _ Hfalsy).
Qed.

(** ** The trees of the program take every call *)

Lemma reachable_add_transaction t tx :
  reachable t → ∃ t', add_transaction t tx = Ok t' ∧ reachable t'.
Proof.
  intros Hr. destruct (reachable_wf t Hr) as [P Hwf].
  destruct (add_transaction_spec t P tx Hwf) as (t' & P' & Ht' & _).
  exists t'. split; [done|]. by apply (reachable_add t tx).
Qed.

Lemma reachable_prefix_paths t i :
  reachable t → i ∈ (hyperlinks t).*1 →
  ∃ ns ps c, nodes t i = Ok ns ∧ prefix_paths t i = Ok ps ∧
    Forall2 (λ r l, last l = Some r) ns ps ∧ ns ≠ [] ∧
    conditional_tree t i = Ok c ∧ reachable c.
Proof.
  intros Hr Hi. destruct (reachable_wf t Hr) as [P Hwf].
  destruct (prefix_paths_spec t P i Hwf Hi) as (ps & Hps & Htr).
  destruct (conditional_tree_wf t P i Hwf Hi) as (c & Pc & Hc & _).
  exists (ids_of (store t) i), ps, c. split; [by apply (nodes_spec t P)|].
  split; [done|]. split; [|split; [|split; [done|]]].
  - eapply Forall2_impl; [done|]. by intros r l [? _].
  - by apply (wf_key t P).
  - by apply (reachable_project t i).
Qed.

Lemma absent_prefix_paths t i :
  i ∉ (hyperlinks t).*1 →
  prefix_paths t i = Err UnboundLocalError ∧
  conditional_tree t i = Err UnboundLocalError.
Proof.
  intros Hi%alist_lookup_None. unfold conditional_tree, prefix_paths, nodes.
  by rewrite Hi.
Qed.

(** ** Supports fall along a path *)

Lemma count_prefix_snoc q x db : (count_prefix (q ++ [x]) db ≤ count_prefix q db)%Z.
Proof.
  unfold count_prefix. apply inj_le, filter_length_le.
  intros tx [k ->]. exists ([x] ++ k). by rewrite <- app_assoc.
Qed.

Lemma rep_support_falls t P db q x s' :
  rep t P db → q ≠ [] → support_at t (q ++ [x]) = Some (Some s') →
  ∃ s, support_at t q = Some (Some s) ∧ (s' ≤ s)%Z.
Proof.
  intros Hrep Hq H.
  rewrite (rep_support_at t P db (q ++ [x]) Hrep) in H by (by destruct q).
  destruct (decide (0 < count_prefix (q ++ [x]) db)%Z) as [Hpos|]; [|done].
  inversion H; subst s'. pose proof (count_prefix_snoc q x db) as Hle.
  exists (count_prefix q db). split; [|done].
  rewrite (rep_support_at t P db q Hrep Hq). rewrite decide_True; [done|lia].
Qed.

(** ** The examples *)

Lemma ex_db_NoDup : Forall NoDup ex_db.
Proof. refine (bool_decide_unpack _ _). vm_compute. exact I. Qed.

Lemma ex_db_sorted : Forall (StronglySorted item_lt) ex_db.
Proof. unfold ex_db. simpl. repeat constructor; simpl; lia. Qed.

Lemma ex_key : Some 3%Z ∈ (hyperlinks ex_tree).*1.
Proof. refine (bool_decide_unpack _ _). vm_compute. exact I. Qed.

Lemma ex_search : fp_search 5 ex_tree 3 [] = Ok ex_result.
Proof. vm_compute. reflexivity. Qed.

Lemma ex_search_4 : fp_search 5 ex_tree 3 [Some 4%Z] = Ok ex_result_4.
Proof. vm_compute. reflexivity. Qed.

Lemma ex_lines_NoDup : Forall (λ t_line : Z * Z * list Item, NoDup t_line.2) ex_lines.
Proof. refine (bool_decide_unpack _ _). vm_compute. exact I. Qed.

Lemma remove_dups_frozenset : frozenset_spec remove_dups.
Proof. intros l. split; [apply NoDup_remove_dups|]. intros x. apply elem_of_remove_dups. Qed.

Lemma ex_first_scan :
  first_scan remove_dups ex_lines 3 =
    ([(Some 1, 4); (Some 2, 4); (Some 3, 4)]%Z, ex_db_filtered).
Proof. vm_compute. reflexivity. Qed.

Lemma ex_filtered_search :
  (t ← build ex_db_filtered; fp_search 5 t 3 []) = Ok ex_result.
Proof. vm_compute. reflexivity. Qed.

Lemma ex_main : main_rules remove_dups 5 ex_lines 3 = Ok (rules_of ex_result).
Proof.
  unfold main_rules. rewrite ex_first_scan.
  pose proof ex_filtered_search as H.
  destruct (build ex_db_filtered) as [t|]; simpl in *; [|done]. by rewrite H.
Qed.

Lemma items_keys t : (items t).*1 = (hyperlinks t).*1.
Proof.
  unfold items. generalize (hyperlinks t). intros l.
  induction l as [|e l IH]; [done|]. rewrite fmap_cons. simpl. f_equal. apply IH.
Qed.

Lemma build_search_mine db t depth epsilon :
  Forall NoDup db → build db = Ok t →
  fp_search depth t epsilon [] = mine depth db epsilon [].
Proof.
  intros Hdb Ht. destruct (build_rep db) as (t' & Ht' & Hrep).
  assert (t' = t) as -> by congruence. by eapply fp_search_mine.
Qed.

Lemma build_is_rep db t :
  build db = Ok t → rep t (adds [[]] (concat (map (prefixes []) db))) db.
Proof.
  intros Ht. destruct (build_rep db) as (t' & Ht' & Hrep). congruence.
Qed.

(** * The claims *)

(** C1: on the transactions [{1,2,3},{1,2},{1,3},{2,3},{1,2,3,4}], each listed
    by descending support, [fp_search] with [epsilon = 3] on the tree built by
    [add_transaction] yields [{1}:4, {2}:4, {1,2}:3, {3}:4, {1,3}:3, {2,3}:3]
    and nothing else, at any recursion limit of at least 3; no yielded itemset
    holds 1, 2 and 3 together and none holds 4.  The same holds when 4 has been
    filtered out beforehand. *)
Theorem fp_search_example :
  (∀ d, run (3 + d) ex_db 3 = Ok ex_result) ∧
  (∀ d, run (3 + d) ex_db_filtered 3 = Ok ex_result) ∧
  Forall (λ e, (Some 4%Z ∉ e.1) ∧ ¬ (Some 1%Z ∈ e.1 ∧ Some 2%Z ∈ e.1 ∧ Some 3%Z ∈ e.1))
         ex_result.
Proof.
  split; [|split].
  - intros d. apply (run_mono 3); [lia|]. vm_compute. reflexivity.
  - intros d. apply (run_mono 3); [lia|]. vm_compute. reflexivity.
  - unfold ex_result. repeat constructor; simpl;
      rewrite ?elem_of_cons, ?elem_of_nil; intros H; decompose [and or] H; congruence.
Qed.

(** C2: let the transactions be listed in one strict order of the items, as
    they are when ordered by frequency, and let [j] come before [i] in some
    transaction [tx], that is, on a path to an occurrence of [i].  Then the
    tree of the transactions is built, [i] is an item of it, and
    [project(tree.prefix_paths(i))] returns a tree in which [j] is a key and
    the supports of the nodes on the linked list of [j] sum to the number of
    transactions that contain both [i] and [j]. *)
Theorem projection_counts (R : relation Item) `{!StrictOrder R}
    (txs : list (list Item)) (i j : Item) (tx q : list Item) :
  Forall (StronglySorted R) txs →
  tx ∈ txs → (q ++ [i]) `prefix_of` tx → j ∈ q →
  ∃ t paths npaths c,
    build txs = Ok t ∧ i ∈ (hyperlinks t).*1 ∧
    prefix_paths t i = Ok paths ∧ deref (store t) paths = Ok npaths ∧
    project npaths = Ok c ∧ conditional_tree t i = Ok c ∧
    ∃ ns, nodes c j = Ok ns ∧ sum_support (store c) ns = Ok (count_both i j txs).
Proof.
  intros Hsorted Htx Hpre Hjq.
  destruct (build_spec txs) as (t & P & Hb & Hwf & HQ & Hs).
  assert (i ∈ (hyperlinks t).*1) as Hi.
  { rewrite (rep_keys _ _ _ (build_is_rep txs t Hb)), elem_of_first_seen.
    apply elem_of_concat. exists tx. split; [done|]. destruct Hpre as [k ->].
    rewrite !elem_of_app. left. right. apply list_elem_of_here. }
  assert (R j i) as HR.
  { rewrite Forall_forall in Hsorted. specialize (Hsorted tx Htx).
    destruct Hpre as [k ->]. apply StronglySorted_app_1_l in Hsorted.
    apply (StronglySorted_app_1_elem_of R q [i]); [done|done|apply list_elem_of_here]. }
  assert (j ≠ i) as Hji.
  { intros ->. by apply (irreflexivity R i). }
  assert ((0 < count_both i j txs)%Z) as Hpos.
  { assert (tx ∈ filter (λ tx, i ∈ tx ∧ j ∈ tx) txs) as Hin.
    { apply list_elem_of_filter. split; [|done]. destruct Hpre as [k ->].
      split; rewrite !elem_of_app; left; [right; apply list_elem_of_here|by left]. }
    unfold count_both. destruct (filter _ txs); [by apply elem_of_nil in Hin|].
    simpl. lia. }
  assert (Forall (StronglySorted R) P) as HPs.
  { apply HQ; [constructor|]. intros tx' k Htx' _. apply sorted_take.
    rewrite Forall_forall in Hsorted. by apply Hsorted. }
  destruct (conditional_tree_parts t P i Hwf Hi)
    as (ps & nps & Hps & Hnps & Htr & Hd & Hne & Hall & _).
  pose proof (paths_of_nodes t P _ ps nps Htr Hd) as Hfacts.
  assert (∀ np, np ∈ nps →
            ∃ r n q', r ≠ 0 ∧ store t !! r = Some n ∧ item n = i ∧
                      P !! r = Some (q' ++ [i]) ∧ map item np = q' ++ [i]) as Hnp.
  { intros np [k Hk]%list_elem_of_lookup_1.
    destruct (Forall2_lookup_r _ _ _ _ _ Hfacts Hk) as (r & Hr & n & q0 & Hn & Hq & _ & Hit).
    apply list_elem_of_lookup_2, elem_of_ids_of in Hr as (Hr0 & n' & Hn' & Hin).
    assert (n' = n) as -> by congruence.
    destruct (wf_path_nonroot _ _ _ _ _ Hwf Hn Hr0 Hq) as (q' & ->).
    exists r, n, q'. rewrite Hin in *. done. }
  assert (Forall (λ np, NoDup (map item np)) nps) as Hnds.
  { apply Forall_forall. intros np (r & n & q' & _ & _ & _ & Hq & ->)%Hnp.
    apply (sorted_NoDup R). rewrite Forall_forall in HPs.
    by apply HPs, (list_elem_of_lookup_2 _ r). }
  assert (NoDup (map (map item) nps)) as HD.
  { apply (paths_distinct t P _ nps Hfacts); [apply ids_of_NoDup|].
    by apply (wf_paths_NoDup t). }
  destruct (project_spec i nps Hne Hall) as (c & psc & Hc & Hwfc & Htrc & Hvc).
  exists t, ps, nps, c. split; [done|]. split; [done|]. split; [done|].
  split; [done|]. split; [done|]. split.
  { unfold conditional_tree. rewrite Hps. simpl. rewrite Hnps. done. }
  assert (wsum (item_is j) (view (store c))
               (abs_paths (SeedItem i) abs_init nps).2 = count_both i j txs) as Hsum.
  { rewrite Hvc, (conditional_count i j nps psc Hall Hnds HD Hji Htrc).
    rewrite (paths_dsum t i (on_path j) P _ nps Hfacts).
    2:{ apply Forall_forall. intros r' (_ & n' & ? & ?)%elem_of_ids_of. eauto. }
    rewrite (isum_ids_of _ _ _ _ Hwf), below_sum, Hs.
    by apply (walk_count_all_below R). }
  pose proof (sum_support_ids_of c _ j Hwfc) as Hss.
  change (λ it _, bool_decide (it = j)) with (item_is j) in Hss. rewrite Hsum in Hss.
  exists (ids_of (store c) j). split; [|done].
  apply (nodes_spec c _ j Hwfc). apply (wf_key _ _ _ Hwfc).
  intros E. rewrite E in Hss. simpl in Hss. inversion Hss. lia.
Qed.

Lemma projection_counts_witness :
  (Forall (StronglySorted item_lt) ex_db ∧
   map Some [1; 2; 3]%Z ∈ ex_db ∧
   (map Some [1; 2]%Z ++ [Some 3%Z]) `prefix_of` map Some [1; 2; 3]%Z ∧
   Some 1%Z ∈ map Some [1; 2]%Z) ∧
  ∃ t paths npaths c,
    build ex_db = Ok t ∧ Some 3%Z ∈ (hyperlinks t).*1 ∧
    prefix_paths t (Some 3%Z) = Ok paths ∧ deref (store t) paths = Ok npaths ∧
    project npaths = Ok c ∧ conditional_tree t (Some 3%Z) = Ok c ∧
    ∃ ns, nodes c (Some 1%Z) = Ok ns ∧
          sum_support (store c) ns = Ok (count_both (Some 3%Z) (Some 1%Z) ex_db).
Proof.
  assert (Forall (StronglySorted item_lt) ex_db) as H1.
  { unfold ex_db. simpl. repeat constructor; simpl; lia. }
  assert (map Some [1; 2; 3]%Z ∈ ex_db) as H2.
  { refine (bool_decide_unpack _ _). vm_compute. exact I. }
  assert ((map Some [1; 2]%Z ++ [Some 3%Z]) `prefix_of` map Some [1; 2; 3]%Z) as H3.
  { by exists []. }
  assert (Some 1%Z ∈ map Some [1; 2]%Z) as H4.
  { refine (bool_decide_unpack _ _). vm_compute. exact I. }
  split; [split; [exact H1|split; [exact H2|split; [exact H3|exact H4]]]|].
  apply (projection_counts item_lt (StrictOrder0 := item_lt_strict)
           ex_db (Some 3%Z) (Some 1%Z) (map Some [1; 2; 3]%Z) (map Some [1; 2]%Z)
           H1 H2 H3 H4).
Defined.

(** C3: [add_transaction] walks from the root, item by item.  At a position
    that has a child with the item, the support of the child goes up by one
    and the walk goes on from the child; at a position that has none, a node
    with support 1 is created, with the next reference of the store, made a
    child of the position and added at the end of the linked list of its item,
    and the walk goes on from it. *)
Theorem add_transaction_walk t P :
  wf t P →
  (∀ itemset, add_transaction t itemset = add_transaction_from t (root t) itemset) ∧
  (∀ point, add_transaction_from t point [] = Ok t) ∧
  (∀ point x rest,
     add_transaction_from t point (x :: rest) =
       add_transaction_step t point x ≫= λ '(t', c), add_transaction_from t' c rest) ∧
  ∀ point x, point < length (store t) →
    ∃ np, store t !! point = Some np ∧
      match FPNode_search np x with
      | Some c =>
          ∃ nc s t', store t !! c = Some nc ∧ item nc = x ∧ support nc = Some s ∧
            t' = set_store (<[c := set_support (Some (s + 1)%Z) nc]> (store t)) t ∧
            add_transaction_step t point x = Ok (t', c) ∧
            c < length (store t') ∧ ∃ P', wf t' P'
      | None =>
          ∃ t', add_transaction_step t point x = Ok (t', length (store t)) ∧
            store t' !! length (store t) =
              Some (mkFPNode x (Some 1%Z) (Some point) ∅ None) ∧
            (∃ np', store t' !! point = Some np' ∧
                    children np' = <[x := length (store t)]> (children np)) ∧
            view (store t') = view (store t) ++ [(x, Some 1%Z)] ∧
            nodes t' x = Ok (ids_of (store t) x ++ [length (store t)]) ∧
            ∃ P', wf t' P'
      end.
Proof.
  intros Hwf. split; [done|]. split; [done|]. split; [done|].
  intros point x Hpoint.
  destruct (lookup_lt_is_Some_2 (store t) point Hpoint) as [np Hpt].
  destruct (wf_lookup_path _ _ _ _ Hwf Hpt) as [pp Hpp].
  exists np. split; [done|]. unfold FPNode_search.
  destruct (children np !! x) as [c|] eqn:Hc.
  - destruct (wf_found _ _ _ _ _ _ _ Hwf Hpt Hpp Hc)
      as (nc & s & Hc0 & Hnc & Hi & Hs & _ & HPc).
    eexists nc, s, _. split; [done|]. split; [done|]. split; [done|].
    split; [done|]. split; [by apply add_transaction_step_found with (np := np)|].
    split.
    + simpl. rewrite length_insert. by apply lookup_lt_Some in Hnc.
    + exists P. by apply wf_set_support.
  - rewrite (add_transaction_step_new _ _ _ _ Hpt Hc).
    destruct (attach_spec t P point np pp x 1%Z Hwf Hpt Hc Hpp)
      as (t' & Ha & Hwf' & Hv & Hnew & Hch).
    exists t'. split; [done|]. split; [done|]. split; [done|]. split; [done|].
    split; [|by eexists].
    assert (ids_of (store t') x = ids_of (store t) x ++ [length (store t)]) as Hids.
    { rewrite (ids_of_view_snoc (store t) (store t') x x (Some 1%Z));
        [|by apply (wf_store_nonempty t P)|done].
      by rewrite decide_True. }
    rewrite <- Hids. apply (nodes_spec t' _ x Hwf').
    apply (wf_key _ _ _ Hwf'). rewrite Hids. by destruct (ids_of (store t) x).
Qed.

Lemma add_transaction_walk_witness :
  wf FPTree_init [[]] ∧
  ∃ np, store FPTree_init !! 0 = Some np ∧
    match FPNode_search np (Some 1%Z) with
    | Some c => False
    | None =>
        ∃ t', add_transaction_step FPTree_init 0 (Some 1%Z) = Ok (t', 1) ∧
              nodes t' (Some 1%Z) = Ok [1]
    end.
Proof.
  split; [exact wf_init|].
  destruct (proj2 (proj2 (proj2 (add_transaction_walk FPTree_init [[]] wf_init)))
              0 (Some 1%Z)) as (np & Hnp & H); [simpl; lia|].
  exists np. split; [exact Hnp|].
  inversion Hnp; subst np. simpl in *.
  destruct H as (t' & H1 & _ & _ & _ & H5 & _). exists t'. split; [exact H1|exact H5].
Defined.

(** C4: when no transaction lists an item twice, the supports of the nodes on
    the linked list of an item of the tree built from the transactions sum to
    the number of transactions that contain the item; an item that no
    transaction contains has no linked list. *)
Theorem support_conservation txs :
  Forall NoDup txs →
  ∃ t, build txs = Ok t ∧
    ∀ i, ((0 < count_containing i txs)%Z →
            ∃ ns, nodes t i = Ok ns ∧
                  sum_support (store t) ns = Ok (count_containing i txs)) ∧
         (count_containing i txs = 0%Z → nodes t i = Err UnboundLocalError).
Proof.
  intros Hnd. destruct (build_spec txs) as (t & P & Hb & Hwf & HQ & Hs).
  exists t. split; [done|]. intros i.
  pose proof (sum_support_ids_of t P i Hwf) as Hsum.
  rewrite Hs, (walk_count_all_item i txs Hnd) in Hsum. split.
  - intros Hpos. exists (ids_of (store t) i). split; [|done].
    apply (nodes_spec t P i Hwf). apply (wf_key _ _ _ Hwf).
    intros E. rewrite E in Hsum. simpl in Hsum. inversion Hsum. lia.
  - intros H0. apply nodes_absent. rewrite (wf_route _ _ Hwf). apply route_of_None.
    destruct (ids_of (store t) i) as [|r l] eqn:E; [done|]. exfalso.
    assert (r ∈ ids_of (store t) i) as Hin by (rewrite E; apply list_elem_of_here).
    apply elem_of_ids_of in Hin as (Hr & n & Hn & Hi).
    destruct (wf_lookup_path _ _ _ _ Hwf Hn) as [q Hq].
    destruct (wf_path_nonroot _ _ _ _ _ Hwf Hn Hr Hq) as (q' & ->).
    assert (Forall (λ q, i ∉ q) P) as HP.
    { apply HQ; [apply not_elem_of_nil|]. intros tx k Htx _ Hik.
      apply (count_containing_0 i txs tx H0 Htx).
      rewrite <- (take_drop k tx). apply elem_of_app. by left. }
    rewrite Forall_forall in HP. apply (HP _ (list_elem_of_lookup_2 _ _ _ Hq)).
    apply elem_of_app. right. rewrite Hi. apply list_elem_of_here.
Qed.

Lemma support_conservation_witness :
  Forall NoDup ex_db ∧
  ∃ t, build ex_db = Ok t ∧
    ∀ i, ((0 < count_containing i ex_db)%Z →
            ∃ ns, nodes t i = Ok ns ∧
                  sum_support (store t) ns = Ok (count_containing i ex_db)) ∧
         (count_containing i ex_db = 0%Z → nodes t i = Err UnboundLocalError).
Proof.
  assert (Forall NoDup ex_db) as H.
  { refine (bool_decide_unpack _ _). vm_compute. exact I. }
  split; [exact H|]. apply (support_conservation ex_db H).
Defined.

(** C5: let [project] be given a sequence of paths that is not empty and
    whose paths all end in a node of one item [i], as the prefix paths of [i]
    do.  Then the seed is the item of the last node of the first path: every
    path is inserted with it, and the second pass takes the prefix paths of
    it.  This holds also when the item is 0 or [None], which are false as
    truth values, so that the seed is taken again at every path. *)
Theorem project_seed (i : Item) (p : list FPNode) (ps : list (list FPNode)) :
  Forall (ends_in i) (p :: ps) →
  ∃ n, last p = Some n ∧ item n = i ∧
    (∀ t, project_paths SeedFalse t (p :: ps) =
          (t' ← project_paths_fixed (SeedItem (item n)) t (p :: ps);
           Ok (SeedItem (item n), t'))) ∧
    project (p :: ps) =
      (new_tree ← project_paths_fixed (SeedItem (item n)) FPTree_init (p :: ps);
       paths ← prefix_paths new_tree (item n);
       h ← propagate (store new_tree) paths;
       Ok (set_store h new_tree)).
Proof.
  intros Hall. apply Forall_cons in Hall as [(n & Hlast & Hi) Hps].
  exists n. split; [done|]. split; [done|].
  apply (project_seed_kept p ps n Hlast). right. by rewrite Hi.
Qed.

Lemma project_seed_witness :
  Forall (ends_in (Some 0%Z))
         [[FPNode_init (Some 1%Z) (Some 2%Z); FPNode_init (Some 0%Z) (Some 2%Z)];
          [FPNode_init (Some 0%Z) (Some 1%Z)]] ∧
  ∃ n, last [FPNode_init (Some 1%Z) (Some 2%Z); FPNode_init (Some 0%Z) (Some 2%Z)]
         = Some n ∧ item n = Some 0%Z ∧
    (∀ t, project_paths SeedFalse t
            [[FPNode_init (Some 1%Z) (Some 2%Z); FPNode_init (Some 0%Z) (Some 2%Z)];
             [FPNode_init (Some 0%Z) (Some 1%Z)]] =
          (t' ← project_paths_fixed (SeedItem (item n)) t
                  [[FPNode_init (Some 1%Z) (Some 2%Z); FPNode_init (Some 0%Z) (Some 2%Z)];
                   [FPNode_init (Some 0%Z) (Some 1%Z)]];
           Ok (SeedItem (item n), t'))) ∧
    project [[FPNode_init (Some 1%Z) (Some 2%Z); FPNode_init (Some 0%Z) (Some 2%Z)];
             [FPNode_init (Some 0%Z) (Some 1%Z)]] =
      (new_tree ← project_paths_fixed (SeedItem (item n)) FPTree_init
                    [[FPNode_init (Some 1%Z) (Some 2%Z); FPNode_init (Some 0%Z) (Some 2%Z)];
                     [FPNode_init (Some 0%Z) (Some 1%Z)]];
       paths ← prefix_paths new_tree (item n);
       h ← propagate (store new_tree) paths;
       Ok (set_store h new_tree)).
Proof.
  assert (Forall (ends_in (Some 0%Z))
            [[FPNode_init (Some 1%Z) (Some 2%Z); FPNode_init (Some 0%Z) (Some 2%Z)];
             [FPNode_init (Some 0%Z) (Some 1%Z)]]) as H.
  { repeat constructor; eexists; (split; [reflexivity|reflexivity]). }
  split; [exact H|].
  apply (project_seed (Some 0%Z)
           [FPNode_init (Some 1%Z) (Some 2%Z); FPNode_init (Some 0%Z) (Some 2%Z)]
           [[FPNode_init (Some 0%Z) (Some 1%Z)]] H).
Defined.

(** C6, as stated, fails: the conditional tree of the only item of the tree
    of the single transaction [{1}] has that item too, so the recursive call
    that [fp_search] makes for it is on a tree with as many distinct items. *)
Lemma conditional_tree_not_smaller :
  ∃ t c, build [[Some 1%Z]] = Ok t ∧ conditional_tree t (Some 1%Z) = Ok c ∧
         fp_search 2 t 1 [] = Ok [([Some 1%Z], 1%Z)] ∧
         distinct_items t = 1 ∧ distinct_items c = 1 ∧
         ¬ (distinct_items c < distinct_items t).
Proof.
  eexists _, _. split; [vm_compute; reflexivity|].
  split; [vm_compute; reflexivity|]. split; [vm_compute; reflexivity|].
  split; [reflexivity|]. split; [reflexivity|]. vm_compute. lia.
Qed.

(** C6, amended: [fp_search] on the tree built from any list of transactions
    returns a list of results, the same at every recursion limit above the
    number of distinct items of the tree.  A recursive call is on a
    conditional tree whose items are items of the tree it is made from, and
    fewer of them are outside the suffix it is called with; the item just
    added to the suffix stays in the conditional tree.  A tree with no item
    yields nothing. *)
Theorem fp_search_terminates (txs : list (list Item)) (epsilon : Z) :
  ∃ t res, build txs = Ok t ∧
    (∀ depth, distinct_items t < depth → fp_search depth t epsilon [] = Ok res) ∧
    (∀ t' suffix it c, reachable t' → it ∈ (hyperlinks t').*1 → it ∉ suffix →
       conditional_tree t' it = Ok c →
       (∀ y, y ∈ (hyperlinks c).*1 → y ∈ (hyperlinks t').*1) ∧
       mes c (it :: suffix) < mes t' suffix) ∧
    (∀ t' depth suffix, hyperlinks t' = [] →
       fp_search (S depth) t' epsilon suffix = Ok []).
Proof.
  destruct (build_spec txs) as (t & P & Hb & Hwf & _).
  destruct (fp_search_result epsilon t P [] Hwf) as (res & Hres).
  exists t, res. split; [done|]. split; [|split].
  - intros depth Hd. apply Hres. by rewrite mes_nil.
  - intros t' suffix it c [P' Hwf']%reachable_wf Hit Hsuf Hc.
    destruct (conditional_tree_wf t' P' it Hwf' Hit) as (c' & Pc & Hc' & Hwfc & Hsub).
    assert (c' = c) as -> by congruence. split; [done|].
    by apply (mes_decrease t' c it suffix (wf_keys _ _ Hwfc)).
  - intros t' depth suffix Hnil. simpl. unfold items. by rewrite Hnil.
Qed.

(** C7: inserting a transaction twice into a new tree makes no node that the
    first insertion has not made, doubles the support of every node, and
    leaves no two nodes with the same item under the same parent; every entry
    of a [children] dictionary is such a node. *)
Theorem reinsertion_doubles (tx : list Item) :
  ∃ t1 t2, add_transaction FPTree_init tx = Ok t1 ∧ add_transaction t1 tx = Ok t2 ∧
    length (store t2) = length (store t1) ∧
    (∀ r n1, store t1 !! r = Some n1 →
       ∃ n2, store t2 !! r = Some n2 ∧ item n2 = item n1 ∧
             support n2 = Z.mul 2 <$> support n1) ∧
    (∀ a b na nb, store t2 !! a = Some na → store t2 !! b = Some nb →
       a ≠ root t2 → b ≠ root t2 → parent na = parent nb → item na = item nb → a = b) ∧
    (∀ p np x c, store t2 !! p = Some np → children np !! x = Some c →
       ∃ nc, store t2 !! c = Some nc ∧ item nc = x ∧ parent nc = Some p).
Proof.
  destruct (add_transaction_spec FPTree_init [[]] tx wf_init)
    as (t1 & P1 & H1 & Hwf1 & _ & _ & Hs1 & _ & Hin1).
  destruct (add_transaction_spec t1 P1 tx Hwf1)
    as (t2 & P2 & H2 & Hwf2 & _ & Hsame & Hs2 & _).
  destruct (Hsame Hin1) as [-> Hitems].
  exists t1, t2. split; [done|]. split; [done|].
  assert (length (store t2) = length (store t1)) as Hlen.
  { by rewrite <- (wf_len _ _ Hwf2), (wf_len _ _ Hwf1). }
  split; [done|]. split; [|split].
  - intros r n1 Hn1.
    destruct (lookup_lt_is_Some_2 (store t2) r) as [n2 Hn2].
    { rewrite Hlen. by apply lookup_lt_Some in Hn1. }
    exists n2. split; [done|].
    assert (item n2 = item n1) as Hi.
    { assert (map item (store t2) !! r = map item (store t1) !! r) as E by (by rewrite Hitems).
      change (map item) with (fmap (M := list) item) in E.
      rewrite !list_lookup_fmap, Hn1, Hn2 in E. simpl in E. congruence. }
    split; [done|]. destruct (decide (r = 0)) as [->|Hr].
    + destruct (wf_root_node _ _ Hwf1) as (r1 & Hr1 & _ & Hsr1).
      destruct (wf_root_node _ _ Hwf2) as (r2 & Hr2 & _ & Hsr2).
      assert (n1 = r1) as -> by congruence. assert (n2 = r2) as -> by congruence.
      by rewrite Hsr1, Hsr2.
    + destruct (wf_node _ _ Hwf1 r n1 Hn1 Hr) as (_ & _ & _ & s1 & _ & _ & _ & _ & Hsp1 & _).
      destruct (wf_node _ _ Hwf2 r n2 Hn2 Hr) as (_ & _ & _ & s2 & _ & _ & _ & _ & Hsp2 & _).
      destruct (wf_lookup_path _ _ _ _ Hwf1 Hn1) as [q Hq].
      pose proof (wsum_path t1 P1 r n1 q Hwf1 Hn1 Hr Hq) as E1.
      pose proof (wsum_path t2 P1 r n2 q Hwf2 Hn2 Hr Hq) as E2.
      rewrite Hs2, E1 in E2. rewrite Hs1 in E1.
      unfold wsum in E1. simpl in E1. rewrite Hsp1 in E1. rewrite Hsp1, Hsp2 in *.
      simpl in *. f_equal. lia.
  - intros a b na nb Ha Hb Ha0 Hb0 Hpar Hit. rewrite (wf_root _ _ Hwf2) in Ha0, Hb0.
    destruct (wf_node _ _ Hwf2 a na Ha Ha0) as (pa & npa & _ & _ & Hpa & _ & Hnpa & Hca & _).
    destruct (wf_node _ _ Hwf2 b nb Hb Hb0) as (pb & npb & _ & _ & Hpb & _ & Hnpb & Hcb & _).
    assert (pa = pb) as -> by congruence. rewrite Hit in Hca. congruence.
  - intros p np x c Hp Hc.
    destruct (wf_child _ _ Hwf2 p np x c Hp Hc) as (nc & _ & Hnc & Hpa & Hi).
    exists nc. done.
Qed.

(** C8: in a tree made by [add_transaction] or returned by [project],
    whatever the paths it was given, following [link] from the head that
    [hyperlinks] holds for an item visits every node other than the root that
    carries the item, each once, by increasing reference: a new node takes
    the next reference of the store, so this is the order in which the nodes
    were made. *)
Theorem linked_list_invariant t i :
  made t → i ∈ (hyperlinks t).*1 →
  ∃ ns, nodes t i = Ok ns ∧
    (∀ r, r ∈ ns ↔ r ≠ root t ∧ ∃ n, store t !! r = Some n ∧ item n = i) ∧
    NoDup ns ∧ StronglySorted lt ns.
Proof.
  intros Hl%made_linked Hi. exists (ids_of (store t) i).
  split; [by apply nodes_linked|]. split; [|split].
  - intros r. rewrite (linked_root _ Hl). apply elem_of_ids_of.
  - apply ids_of_NoDup.
  - apply ifilter_sorted.
Qed.

Lemma linked_list_invariant_witness :
  made ex_tree ∧ Some 3%Z ∈ (hyperlinks ex_tree).*1 ∧
  ∃ ns, nodes ex_tree (Some 3%Z) = Ok ns ∧
    (∀ r, r ∈ ns ↔ r ≠ root ex_tree ∧
                   ∃ n, store ex_tree !! r = Some n ∧ item n = Some 3%Z) ∧
    NoDup ns ∧ StronglySorted lt ns.
Proof.
  assert (Some 3%Z ∈ (hyperlinks ex_tree).*1) as H.
  { refine (bool_decide_unpack _ _). vm_compute. exact I. }
  split; [exact (reachable_made _ ex_tree_reachable)|]. split; [exact H|].
  apply (linked_list_invariant ex_tree (Some 3%Z) (reachable_made _ ex_tree_reachable) H).
Defined.

(** The linked list is not ordered by support: here the supports along the
    list of item 2 go up, and along the list of item 3 they go down. *)
Example linked_list_not_by_support :
  ∃ t, build (map (map Some) [[1;2;3]; [1;2;3]; [4;2]; [4;2]; [4;2]; [5;3]]%Z) = Ok t ∧
       nodes t (Some 2%Z) = Ok [2; 5] ∧ sum_support (store t) [2] = Ok 2%Z ∧
       sum_support (store t) [5] = Ok 3%Z ∧
       nodes t (Some 3%Z) = Ok [3; 7] ∧ sum_support (store t) [3] = Ok 2%Z ∧
       sum_support (store t) [7] = Ok 1%Z.
Proof. eexists. vm_compute. repeat split; reflexivity. Qed.

(** C9: [increment_node_support] on the root of a tree raises [TypeError]:
    the root's support is [None], in the new tree and in every tree made from
    it, and [None + 1] is an error whatever the node. *)
Theorem increment_root_raises :
  increment_node_support (store FPTree_init) (root FPTree_init) = Err TypeError ∧
  (∀ t, reachable t → increment_node_support (store t) (root t) = Err TypeError) ∧
  (∀ h r n, h !! r = Some n → FPNode_root n = true →
     increment_node_support h r = Err TypeError).
Proof.
  assert (∀ h r n, h !! r = Some n → FPNode_root n = true →
            increment_node_support h r = Err TypeError) as Hgen.
  { intros h r n Hn Hroot. unfold increment_node_support.
    rewrite (get_lookup _ _ _ Hn). simpl.
    unfold FPNode_root in Hroot. apply andb_true_iff in Hroot as [_ Hs].
    apply bool_decide_eq_true in Hs. by rewrite Hs. }
  split; [done|]. split; [|done].
  intros t [P Hwf]%reachable_wf.
  destruct (wf_root_node _ _ Hwf) as (r & Hr & Hi & Hs).
  rewrite (wf_root _ _ Hwf). apply (Hgen _ _ r Hr).
  unfold FPNode_root. by rewrite Hi, Hs.
Qed.

(** C10: for an item that is not a key of [hyperlinks], consuming
    [nodes(item)] raises [UnboundLocalError]; and [nodes] never yields the
    empty sequence. *)
Theorem nodes_absent_raises :
  (∀ t it, it ∉ (hyperlinks t).*1 → nodes t it = Err UnboundLocalError) ∧
  (∀ t it, nodes t it ≠ Ok []).
Proof.
  split.
  - intros t it Hit. apply nodes_absent. by apply alist_lookup_None.
  - intros t it. unfold nodes.
    destruct (alist_lookup it (hyperlinks t)) as [[hd tl]|]; [|done].
    destruct (length (store t)) as [|fuel]; simpl;
      destruct (get (store t) hd) as [n|]; simpl; try done;
      destruct (link n); try done.
    destruct (follow_links (store t) fuel n0); done.
Qed.

(** * Further properties of the code *)

(** X1: the tree built from a database is the trie of its transactions with
    counts: descending from the root along a non-empty path [q] by
    [FPNode.search] reaches a node exactly when some transaction starts with
    [q], and the support of that node is the number of transactions that
    start with [q]. *)
Theorem build_supports (db : list (list Item)) :
  ∃ t, build db = Ok t ∧
    ∀ q, q ≠ [] →
      support_at t q =
        if decide (0 < count_prefix q db)%Z
        then Some (Some (count_prefix q db)) else None.
Proof.
  destruct (build_rep db) as (t & Ht & Hrep). exists t. split; [done|].
  intros q Hq. by apply (rep_support_at t _ db q Hrep).
Qed.

(** X2: [FPTree.items] yields the items in the order in which their first
    nodes were made: for the tree built from a database, the order in which
    the items first come in the transactions; for every tree made by
    [add_transaction] or [project], the order of the first node of each item
    in the store. *)
Theorem items_order (db : list (list Item)) :
  (∃ t, build db = Ok t ∧ (items t).*1 = first_seen (concat db)) ∧
  ∀ t, made t → (items t).*1 = first_seen (tail (map item (store t))).
Proof.
  split.
  - destruct (build_rep db) as (t & Ht & Hrep). exists t. split; [done|].
    rewrite items_keys. apply (rep_keys _ _ _ Hrep).
  - intros t Hm. rewrite items_keys. by destruct (made_keyed t Hm).
Qed.

(** X3: in the tree built from a database of transactions without repeated
    items, the prefix paths of an item [i] are the conditional pattern base
    of [i]: the transactions that hold [i], each cut after [i], each distinct
    one once and in the order in which it first comes; the last node of each
    path carries as support the number of transactions that start with the
    path. *)
Theorem prefix_paths_pattern_base (db : list (list Item)) (t : FPTree) (i : Item) :
  Forall NoDup db → build db = Ok t → i ∈ (hyperlinks t).*1 →
  ∃ ps nps, prefix_paths t i = Ok ps ∧ deref (store t) ps = Ok nps ∧
    map (map item) nps = first_seen (cond_db i db) ∧
    Forall (λ np, ∃ n, last np = Some n ∧
                       support n = Some (count_prefix (map item np) db)) nps.
Proof.
  intros Hdb Ht Hi. by apply (rep_pattern_base t _ db i (build_is_rep db t Ht)).
Qed.

Lemma prefix_paths_pattern_base_witness :
  (Forall NoDup ex_db ∧ build ex_db = Ok ex_tree ∧ Some 3%Z ∈ (hyperlinks ex_tree).*1) ∧
  ∃ ps nps, prefix_paths ex_tree (Some 3%Z) = Ok ps ∧
    deref (store ex_tree) ps = Ok nps ∧
    map (map item) nps = first_seen (cond_db (Some 3%Z) ex_db) ∧
    Forall (λ np, ∃ n, last np = Some n ∧
                       support n = Some (count_prefix (map item np) ex_db)) nps.
Proof.
  split; [split; [exact ex_db_NoDup|split; [exact ex_tree_build|exact ex_key]]|].
  apply (prefix_paths_pattern_base ex_db ex_tree (Some 3%Z)
           ex_db_NoDup ex_tree_build ex_key).
Defined.

(** X4: for the tree built from a database of transactions without repeated
    items, [project(tree.prefix_paths(i))] returns the very tree that
    [add_transaction] builds from the conditional database of [i] (the
    transactions that hold [i], each cut after [i]): the same nodes in the
    same order, with the same supports, parents, children and links, and the
    same [hyperlinks]. *)
Theorem conditional_tree_is_build (db : list (list Item)) (t : FPTree) (i : Item) :
  Forall NoDup db → build db = Ok t → i ∈ (hyperlinks t).*1 →
  conditional_tree t i = build (cond_db i db).
Proof.
  intros Hdb Ht Hi. by apply (conditional_tree_build_rep t _ db i (build_is_rep db t Ht)).
Qed.

Lemma conditional_tree_is_build_witness :
  (Forall NoDup ex_db ∧ build ex_db = Ok ex_tree ∧ Some 3%Z ∈ (hyperlinks ex_tree).*1) ∧
  conditional_tree ex_tree (Some 3%Z) = build (cond_db (Some 3%Z) ex_db).
Proof.
  split; [split; [exact ex_db_NoDup|split; [exact ex_tree_build|exact ex_key]]|].
  apply (conditional_tree_is_build ex_db ex_tree (Some 3%Z)
           ex_db_NoDup ex_tree_build ex_key).
Defined.

(** X5: on the tree built from a database of transactions without repeated
    items, [fp_search] yields, pair for pair and in the same order, what the
    direct search of the databases yields: for each item in the order of
    first coming, if it is in at least [epsilon] transactions and not in the
    suffix, the item before the suffix with that number, then the search of
    the conditional database of the item; and it reaches the recursion limit
    at the same depth. *)
Theorem fp_search_is_mine (db : list (list Item)) (t : FPTree) (depth : nat)
    (epsilon : Z) :
  Forall NoDup db → build db = Ok t →
  fp_search depth t epsilon [] = mine depth db epsilon [].
Proof.
  intros Hdb Ht. by apply build_search_mine.
Qed.

Lemma fp_search_is_mine_witness :
  (Forall NoDup ex_db ∧ build ex_db = Ok ex_tree) ∧
  fp_search 5 ex_tree 3 [] = mine 5 ex_db 3 [].
Proof.
  split; [split; [exact ex_db_NoDup|exact ex_tree_build]|].
  apply (fp_search_is_mine ex_db ex_tree 5 3 ex_db_NoDup ex_tree_build).
Defined.

(** X6: every pair that [fp_search] yields on the tree built from a database
    of transactions without repeated items is a non-empty list of distinct
    items with the number of transactions in which these items come in the
    order of the list; that number is at least [epsilon] and at least 1. *)
Theorem fp_search_counts (db : list (list Item)) (t : FPTree) (depth : nat)
    (epsilon : Z) (res : list (list Item * Z)) :
  Forall NoDup db → build db = Ok t → fp_search depth t epsilon [] = Ok res →
  Forall (λ r, r.1 ≠ [] ∧ NoDup r.1 ∧ r.2 = count_sublist r.1 db ∧
               (epsilon ≤ r.2)%Z ∧ (0 < r.2)%Z) res.
Proof.
  intros Hdb Ht Hres. rewrite (build_search_mine db t depth epsilon Hdb Ht) in Hres.
  eapply Forall_impl; [apply (mine_sound epsilon depth db [] res Hdb (NoDup_nil_2) Hres)|].
  intros [s c] (new & Hs & Hne & Hnd & Hc & He & Hp). simpl in *.
  rewrite app_nil_r in Hs. by subst new.
Qed.

Lemma fp_search_counts_witness :
  (Forall NoDup ex_db ∧ build ex_db = Ok ex_tree ∧
   fp_search 5 ex_tree 3 [] = Ok ex_result) ∧
  Forall (λ r, r.1 ≠ [] ∧ NoDup r.1 ∧ r.2 = count_sublist r.1 ex_db ∧
               (3 ≤ r.2)%Z ∧ (0 < r.2)%Z) ex_result.
Proof.
  split; [split; [exact ex_db_NoDup|split; [exact ex_tree_build|exact ex_search]]|].
  apply (fp_search_counts ex_db ex_tree 5 3 ex_result
           ex_db_NoDup ex_tree_build ex_search).
Defined.

(** X7: [fp_search], when it returns on the tree built from a database of
    transactions without repeated items, yields every non-empty list of
    items that come in that order in at least [epsilon] transactions, and in
    at least one, with the number of these transactions. *)
Theorem fp_search_finds (db : list (list Item)) (t : FPTree) (depth : nat)
    (epsilon : Z) (res : list (list Item * Z)) (s : list Item) :
  Forall NoDup db → build db = Ok t → fp_search depth t epsilon [] = Ok res →
  s ≠ [] → (epsilon ≤ count_sublist s db)%Z → (0 < count_sublist s db)%Z →
  (s, count_sublist s db) ∈ res.
Proof.
  intros Hdb Ht Hres Hs He Hp.
  rewrite (build_search_mine db t depth epsilon Hdb Ht) in Hres.
  pose proof (mine_complete epsilon depth db [] res s Hdb Hres Hs) as H.
  rewrite app_nil_r in H. apply H; try done. intros x _. apply not_elem_of_nil.
Qed.

Lemma fp_search_finds_witness :
  (Forall NoDup ex_db ∧ build ex_db = Ok ex_tree ∧
   fp_search 5 ex_tree 3 [] = Ok ex_result ∧ [Some 1%Z; Some 2%Z] ≠ [] ∧
   (3 ≤ count_sublist [Some 1%Z; Some 2%Z] ex_db)%Z ∧
   (0 < count_sublist [Some 1%Z; Some 2%Z] ex_db)%Z) ∧
  ([Some 1%Z; Some 2%Z], count_sublist [Some 1%Z; Some 2%Z] ex_db) ∈ ex_result.
Proof.
  assert ([Some 1%Z; Some 2%Z] ≠ []) as H1 by done.
  assert (3 ≤ count_sublist [Some 1%Z; Some 2%Z] ex_db)%Z as H2.
  { refine (bool_decide_unpack _ _). vm_compute. exact I. }
  assert (0 < count_sublist [Some 1%Z; Some 2%Z] ex_db)%Z as H3.
  { refine (bool_decide_unpack _ _). vm_compute. exact I. }
  split.
  { split; [exact ex_db_NoDup|]. split; [exact ex_tree_build|].
    split; [exact ex_search|]. split; [exact H1|]. split; [exact H2|exact H3]. }
  apply (fp_search_finds ex_db ex_tree 5 3 ex_result [Some 1%Z; Some 2%Z]
           ex_db_NoDup ex_tree_build ex_search H1 H2 H3).
Defined.

(** X8: when every transaction lists its items in one strict order and
    [epsilon] is positive, [fp_search] on the tree built from the database
    yields exactly the frequent itemsets: a pair is yielded if and only if
    its list of items is not empty, is in that order, and is held by at least
    [epsilon] transactions, and its number is the number of the transactions
    that hold all its items. *)
Theorem fp_search_frequent_itemsets (R : relation Item) `{!StrictOrder R}
    (db : list (list Item)) (t : FPTree) (depth : nat) (epsilon : Z)
    (res : list (list Item * Z)) :
  Forall (StronglySorted R) db → (0 < epsilon)%Z → build db = Ok t →
  fp_search depth t epsilon [] = Ok res →
  ∀ s c, (s, c) ∈ res ↔
         s ≠ [] ∧ StronglySorted R s ∧ c = count_subset s db ∧ (epsilon ≤ c)%Z.
Proof.
  intros Hdb He Ht Hres.
  rewrite (build_search_mine db t depth epsilon (sorted_db_NoDup R db Hdb) Ht) in Hres.
  by apply (mine_sorted R epsilon depth db res).
Qed.

Lemma fp_search_frequent_itemsets_witness :
  (StrictOrder item_lt ∧ Forall (StronglySorted item_lt) ex_db ∧ (0 < 3)%Z ∧
   build ex_db = Ok ex_tree ∧ fp_search 5 ex_tree 3 [] = Ok ex_result) ∧
  ∀ s c, (s, c) ∈ ex_result ↔
         s ≠ [] ∧ StronglySorted item_lt s ∧ c = count_subset s ex_db ∧ (3 ≤ c)%Z.
Proof.
  assert (0 < 3)%Z as H by lia.
  split.
  { split; [exact item_lt_strict|]. split; [exact ex_db_sorted|]. split; [exact H|].
    split; [exact ex_tree_build|exact ex_search]. }
  apply (fp_search_frequent_itemsets item_lt (StrictOrder0 := item_lt_strict)
           ex_db ex_tree 5 3 ex_result ex_db_sorted H ex_tree_build ex_search).
Defined.

(** X9: [fp_search] on the tree built from a database of transactions
    without repeated items yields no list of items twice. *)
Theorem fp_search_yields_once (db : list (list Item)) (t : FPTree) (depth : nat)
    (epsilon : Z) (res : list (list Item * Z)) :
  Forall NoDup db → build db = Ok t → fp_search depth t epsilon [] = Ok res →
  NoDup res.*1.
Proof.
  intros Hdb Ht Hres. rewrite (build_search_mine db t depth epsilon Hdb Ht) in Hres.
  by apply (mine_NoDup epsilon depth db []).
Qed.

Lemma fp_search_yields_once_witness :
  (Forall NoDup ex_db ∧ build ex_db = Ok ex_tree ∧
   fp_search 5 ex_tree 3 [] = Ok ex_result) ∧
  NoDup ex_result.*1.
Proof.
  split; [split; [exact ex_db_NoDup|split; [exact ex_tree_build|exact ex_search]]|].
  apply (fp_search_yields_once ex_db ex_tree 5 3 ex_result
           ex_db_NoDup ex_tree_build ex_search).
Defined.

(** X10: raising the threshold only removes results: whatever the tree and
    the suffix, if [fp_search] returns with [epsilon], it returns with any
    greater [epsilon'], and what it yields then is what it yielded before
    with some pairs left out, the others in the same order. *)
Theorem fp_search_threshold (t : FPTree) (depth : nat) (epsilon epsilon' : Z)
    (suffix : list Item) (res : list (list Item * Z)) :
  (epsilon ≤ epsilon')%Z → fp_search depth t epsilon suffix = Ok res →
  ∃ res', fp_search depth t epsilon' suffix = Ok res' ∧ res' `sublist_of` res.
Proof. apply fp_search_threshold_le. Qed.

Lemma fp_search_threshold_witness :
  ((3 ≤ 4)%Z ∧ fp_search 5 ex_tree 3 [] = Ok ex_result) ∧
  ∃ res', fp_search 5 ex_tree 4 [] = Ok res' ∧ res' `sublist_of` ex_result.
Proof.
  assert (3 ≤ 4)%Z as H by lia.
  split; [split; [exact H|exact ex_search]|].
  apply (fp_search_threshold ex_tree 5 3 4 [] ex_result H ex_search).
Defined.

(** X11: whatever the tree and the suffix, every pair that [fp_search]
    yields has a number that is at least [epsilon] and a list of items that
    ends with the suffix and is longer than the suffix; when the suffix has
    no item twice, the list has none either. *)
Theorem fp_search_above_threshold (t : FPTree) (depth : nat) (epsilon : Z)
    (suffix : list Item) (res : list (list Item * Z)) :
  fp_search depth t epsilon suffix = Ok res →
  Forall (λ r, (epsilon ≤ r.2)%Z ∧ suffix `suffix_of` r.1 ∧
               length suffix < length r.1 ∧ (NoDup suffix → NoDup r.1)) res.
Proof. apply fp_search_above. Qed.

Lemma fp_search_above_threshold_witness :
  fp_search 5 ex_tree 3 [Some 4%Z] = Ok ex_result_4 ∧
  Forall (λ r, (3 ≤ r.2)%Z ∧ [Some 4%Z] `suffix_of` r.1 ∧
               length [Some 4%Z] < length r.1 ∧
               (NoDup [Some 4%Z] → NoDup r.1)) ex_result_4.
Proof.
  split; [exact ex_search_4|].
  apply (fp_search_above_threshold ex_tree 5 3 [Some 4%Z] ex_result_4
           ex_search_4).
Defined.

(** X12: [FPNode.add] followed by [FPNode.search]: after [self.add(child)],
    [self.search(child.item)] is the child that [self] had for that item, if
    it had one (then nothing at all is changed), and [child] otherwise, whose
    parent is then [self]; the children of [self] for other items are
    unchanged.  This holds also when [child] is [self]. *)
Theorem FPNode_add_then_search (h : list FPNode) (self child : nat) (s c : FPNode) :
  h !! self = Some s → h !! child = Some c →
  ∃ h', FPNode_add h self child = Ok h' ∧ length h' = length h ∧
    (∃ s', h' !! self = Some s' ∧
       FPNode_search s' (item c) = Some (default child (FPNode_search s (item c))) ∧
       ∀ x, x ≠ item c → FPNode_search s' x = FPNode_search s x) ∧
    (FPNode_search s (item c) = None →
       ∃ c', h' !! child = Some c' ∧ parent c' = Some self ∧ item c' = item c) ∧
    (is_Some (FPNode_search s (item c)) → h' = h).
Proof. apply FPNode_add_search. Qed.

Lemma FPNode_add_then_search_witness :
  (ex_store !! 0 = Some (FPNode_init None None) ∧
   ex_store !! 1 = Some (FPNode_init (Some 7%Z) (Some 1%Z))) ∧
  ∃ h', FPNode_add ex_store 0 1 = Ok h' ∧ length h' = length ex_store ∧
    (∃ s', h' !! 0 = Some s' ∧
       FPNode_search s' (item (FPNode_init (Some 7%Z) (Some 1%Z))) =
         Some (default 1 (FPNode_search (FPNode_init None None)
                            (item (FPNode_init (Some 7%Z) (Some 1%Z))))) ∧
       ∀ x, x ≠ item (FPNode_init (Some 7%Z) (Some 1%Z)) →
            FPNode_search s' x = FPNode_search (FPNode_init None None) x) ∧
    (FPNode_search (FPNode_init None None) (item (FPNode_init (Some 7%Z) (Some 1%Z)))
       = None →
       ∃ c', h' !! 1 = Some c' ∧ parent c' = Some 0 ∧
             item c' = item (FPNode_init (Some 7%Z) (Some 1%Z))) ∧
    (is_Some (FPNode_search (FPNode_init None None)
                (item (FPNode_init (Some 7%Z) (Some 1%Z)))) → h' = ex_store).
Proof.
  assert (ex_store !! 0 = Some (FPNode_init None None)) as H0 by reflexivity.
  assert (ex_store !! 1 = Some (FPNode_init (Some 7%Z) (Some 1%Z))) as H1 by reflexivity.
  split; [split; [exact H0|exact H1]|].
  apply (FPNode_add_then_search ex_store 0 1 _ _ H0 H1).
Defined.

(** X13: [project] on no path and on empty paths.  With no path at all it
    raises [UnboundLocalError] (the seed is still [False], which is no key of
    the new tree); with an empty first path it raises [IndexError]; an empty
    path after a first path whose last item is true as a Python truth value
    is skipped, and after a first path whose last item is not (the item 0 or
    [None]) it raises [IndexError]. *)
Theorem project_empty_paths :
  project [] = Err UnboundLocalError ∧
  (∀ ps, project ([] :: ps) = Err IndexError) ∧
  (∀ p n ps, last p = Some n → seed_truthy (SeedItem (item n)) = true →
     project (p :: [] :: ps) = project (p :: ps)) ∧
  (∀ p n ps t1, last p = Some n → seed_truthy (SeedItem (item n)) = false →
     project_path (SeedItem (item n)) FPTree_init (root FPTree_init) p = Ok t1 →
     project (p :: [] :: ps) = Err IndexError).
Proof.
  split; [apply project_no_paths|]. split; [apply project_first_empty|].
  split; [apply project_later_empty|apply project_later_empty_falsy].
Qed.

(** X14: the support table of [first_scan]: its keys are distinct, it is
    ordered by falling count, an item has the count [c] in it exactly when
    [c] is the number of transactions that hold the item, is at least
    [epsilon] and is positive, and the items of one count are in the order in
    which they first come in the transactions. *)
Theorem first_scan_table (frozenset : list Item → list Item)
    (t_lines : list (Z * Z * list Item)) (epsilon : Z) :
  Forall (λ t_line : Z * Z * list Item, NoDup t_line.2) t_lines →
  NoDup (first_scan frozenset t_lines epsilon).1.*1 ∧
  StronglySorted by_count (first_scan frozenset t_lines epsilon).1 ∧
  (∀ x c, alist_lookup x (first_scan frozenset t_lines epsilon).1 = Some c ↔
          c = count_containing x (map (λ t_line : Z * Z * list Item, t_line.2) t_lines) ∧
          (epsilon ≤ c)%Z ∧ (0 < c)%Z) ∧
  (∀ c, (epsilon ≤ c)%Z → (0 < c)%Z →
        (filter (λ e, e.2 = c) (first_scan frozenset t_lines epsilon).1).*1 =
          filter (λ x, count_containing x
                         (map (λ t_line : Z * Z * list Item, t_line.2) t_lines) = c)
                 (first_seen (concat (map (λ t_line : Z * Z * list Item, t_line.2)
                                          t_lines)))).
Proof.
  intros Hts.
  assert (Forall NoDup (map (λ t_line : Z * Z * list Item, t_line.2) t_lines)) as Hts'
    by (by apply Forall_fmap).
  destruct (first_scan_sorted frozenset t_lines epsilon) as [H1 H2].
  split; [done|]. split; [done|]. split.
  - intros x c. rewrite first_scan_lookup.
    by rewrite (lsum_mult_NoDup x _ Hts').
  - intros c He Hc. rewrite first_scan_ties by done.
    apply list_filter_iff. intros x. by rewrite (lsum_mult_NoDup x _ Hts').
Qed.

Lemma first_scan_table_witness :
  Forall (λ t_line : Z * Z * list Item, NoDup t_line.2) ex_lines ∧
  NoDup (first_scan remove_dups ex_lines 3).1.*1 ∧
  StronglySorted by_count (first_scan remove_dups ex_lines 3).1 ∧
  (∀ x c, alist_lookup x (first_scan remove_dups ex_lines 3).1 = Some c ↔
          c = count_containing x (map (λ t_line : Z * Z * list Item, t_line.2) ex_lines) ∧
          (3 ≤ c)%Z ∧ (0 < c)%Z) ∧
  (∀ c, (3 ≤ c)%Z → (0 < c)%Z →
        (filter (λ e, e.2 = c) (first_scan remove_dups ex_lines 3).1).*1 =
          filter (λ x, count_containing x
                         (map (λ t_line : Z * Z * list Item, t_line.2) ex_lines) = c)
                 (first_seen (concat (map (λ t_line : Z * Z * list Item, t_line.2)
                                          ex_lines)))).
Proof.
  split; [exact ex_lines_NoDup|].
  apply (first_scan_table remove_dups ex_lines 3 ex_lines_NoDup).
Defined.

(** X15: the transactions that [first_scan] returns: one for each line, in
    the order of the lines, none dropped even when no item of it is left;
    each holds, once, exactly the items of its line that are in at least
    [epsilon] transactions, in whatever order the frozenset is iterated. *)
Theorem first_scan_keeps_transactions (frozenset : list Item → list Item)
    (t_lines : list (Z * Z * list Item)) (epsilon : Z) :
  frozenset_spec frozenset →
  Forall (λ t_line : Z * Z * list Item, NoDup t_line.2) t_lines →
  Forall2 (λ t_line tx, NoDup tx ∧
             ∀ x, x ∈ tx ↔
                  x ∈ t_line.2 ∧
                  (epsilon ≤ count_containing x
                               (map (λ t_line : Z * Z * list Item, t_line.2) t_lines))%Z)
          t_lines (first_scan frozenset t_lines epsilon).2.
Proof.
  intros Hfs Hts.
  assert (Forall NoDup (map (λ t_line : Z * Z * list Item, t_line.2) t_lines)) as Hts'
    by (by apply Forall_fmap).
  eapply Forall2_impl; [apply (first_scan_transactions frozenset t_lines epsilon Hfs)|].
  intros tl tx [Hnd Hel]. split; [done|]. intros x.
  by rewrite Hel, (lsum_mult_NoDup x _ Hts').
Qed.

Lemma first_scan_keeps_transactions_witness :
  (frozenset_spec remove_dups ∧
   Forall (λ t_line : Z * Z * list Item, NoDup t_line.2) ex_lines) ∧
  Forall2 (λ t_line tx, NoDup tx ∧
             ∀ x, x ∈ tx ↔
                  x ∈ t_line.2 ∧
                  (3 ≤ count_containing x
                         (map (λ t_line : Z * Z * list Item, t_line.2) ex_lines))%Z)
          ex_lines (first_scan remove_dups ex_lines 3).2.
Proof.
  split; [split; [exact remove_dups_frozenset|exact ex_lines_NoDup]|].
  apply (first_scan_keeps_transactions remove_dups ex_lines 3
           remove_dups_frozenset ex_lines_NoDup).
Defined.

(** X16: the main program, whatever the order in which frozensets are
    iterated: when it returns, the dict [RULES] holds for the set of one item
    exactly what the support table of [first_scan] holds for the item: the
    number of transactions that hold it, when that is at least [epsilon], and
    nothing otherwise. *)
Theorem main_single_items (frozenset : list Item → list Item) (depth : nat)
    (t_lines : list (Z * Z * list Item)) (epsilon : Z)
    (rules : gmap (gset Item) Z) (x : Item) :
  frozenset_spec frozenset →
  Forall (λ t_line : Z * Z * list Item, NoDup t_line.2) t_lines →
  main_rules frozenset depth t_lines epsilon = Ok rules →
  rules !! ({[x]} : gset Item) = alist_lookup x (first_scan frozenset t_lines epsilon).1.
Proof. apply main_single. Qed.

Lemma main_single_items_witness :
  (frozenset_spec remove_dups ∧
   Forall (λ t_line : Z * Z * list Item, NoDup t_line.2) ex_lines ∧
   main_rules remove_dups 5 ex_lines 3 = Ok (rules_of ex_result)) ∧
  rules_of ex_result !! ({[Some 2%Z]} : gset Item) =
    alist_lookup (Some 2%Z) (first_scan remove_dups ex_lines 3).1.
Proof.
  split; [split; [exact remove_dups_frozenset|split; [exact ex_lines_NoDup|exact ex_main]]|].
  apply (main_single_items remove_dups 5 ex_lines 3 (rules_of ex_result) (Some 2%Z)
           remove_dups_frozenset ex_lines_NoDup ex_main).
Defined.

(** X17: the main program, when the filtered transactions are iterated in
    one strict order and [epsilon] is positive: when it returns, the dict
    [RULES] holds exactly the frequent itemsets, each with the number of
    lines whose transaction holds all its items: a set [K] has the value [c]
    if and only if [K] is not empty, [c] is that number, and [c] is at least
    [epsilon]. *)
Theorem main_frequent_sets (R : relation Item) `{!StrictOrder R}
    (frozenset : list Item → list Item) (depth : nat)
    (t_lines : list (Z * Z * list Item)) (epsilon : Z)
    (rules : gmap (gset Item) Z) (K : gset Item) (c : Z) :
  frozenset_spec frozenset →
  Forall (StronglySorted R) (first_scan frozenset t_lines epsilon).2 →
  (0 < epsilon)%Z →
  main_rules frozenset depth t_lines epsilon = Ok rules →
  rules !! K = Some c ↔
  K ≠ ∅ ∧
  c = count_superset K (map (λ t_line : Z * Z * list Item, t_line.2) t_lines) ∧
  (epsilon ≤ c)%Z.
Proof. by apply main_sorted. Qed.

Lemma main_frequent_sets_witness :
  (StrictOrder item_lt ∧ frozenset_spec remove_dups ∧
   Forall (StronglySorted item_lt) (first_scan remove_dups ex_lines 3).2 ∧
   (0 < 3)%Z ∧ main_rules remove_dups 5 ex_lines 3 = Ok (rules_of ex_result)) ∧
  (rules_of ex_result !! ({[Some 1%Z; Some 2%Z]} : gset Item) = Some 3%Z ↔
   ({[Some 1%Z; Some 2%Z]} : gset Item) ≠ ∅ ∧
   3%Z = count_superset {[Some 1%Z; Some 2%Z]}
           (map (λ t_line : Z * Z * list Item, t_line.2) ex_lines) ∧
   (3 ≤ 3)%Z).
Proof.
  assert (Forall (StronglySorted item_lt) (first_scan remove_dups ex_lines 3).2) as H1.
  { rewrite ex_first_scan. unfold ex_db_filtered. simpl. repeat constructor; simpl; lia. }
  assert (0 < 3)%Z as H2 by lia.
  split.
  { split; [exact item_lt_strict|]. split; [exact remove_dups_frozenset|].
    split; [exact H1|]. split; [exact H2|exact ex_main]. }
  apply (main_frequent_sets item_lt (StrictOrder0 := item_lt_strict)
           remove_dups 5 ex_lines 3 (rules_of ex_result) {[Some 1%Z; Some 2%Z]} 3%Z
           remove_dups_frozenset H1 H2 ex_main).
Defined.

(** X18: the trees that the program makes take every call: on a tree made
    from the empty one by [add_transaction] and by projection,
    [add_transaction] returns for every list of items; for an item that is a
    key of [hyperlinks], [nodes] and [prefix_paths] return, with one path for
    each node, that ends in the node, and the projection returns; for an item
    that is no key, [prefix_paths] and the projection raise
    [UnboundLocalError]. *)
Theorem reachable_calls_return (t : FPTree) :
  reachable t →
  (∀ tx, ∃ t', add_transaction t tx = Ok t' ∧ reachable t') ∧
  (∀ i, i ∈ (hyperlinks t).*1 →
     ∃ ns ps c, nodes t i = Ok ns ∧ prefix_paths t i = Ok ps ∧
       Forall2 (λ r l, last l = Some r) ns ps ∧ ns ≠ [] ∧
       conditional_tree t i = Ok c ∧ reachable c) ∧
  (∀ i, i ∉ (hyperlinks t).*1 →
     prefix_paths t i = Err UnboundLocalError ∧
     conditional_tree t i = Err UnboundLocalError).
Proof.
  intros Hr. split; [|split].
  - intros tx. by apply reachable_add_transaction.
  - intros i Hi. by apply reachable_prefix_paths.
  - intros i Hi. by apply absent_prefix_paths.
Qed.

Lemma reachable_calls_return_witness :
  reachable ex_tree ∧
  (∀ tx, ∃ t', add_transaction ex_tree tx = Ok t' ∧ reachable t') ∧
  (∀ i, i ∈ (hyperlinks ex_tree).*1 →
     ∃ ns ps c, nodes ex_tree i = Ok ns ∧ prefix_paths ex_tree i = Ok ps ∧
       Forall2 (λ r l, last l = Some r) ns ps ∧ ns ≠ [] ∧
       conditional_tree ex_tree i = Ok c ∧ reachable c) ∧
  (∀ i, i ∉ (hyperlinks ex_tree).*1 →
     prefix_paths ex_tree i = Err UnboundLocalError ∧
     conditional_tree ex_tree i = Err UnboundLocalError).
Proof.
  split; [exact ex_tree_reachable|].
  apply (reachable_calls_return ex_tree ex_tree_reachable).
Defined.

(** X19: supports fall along a path: in the tree built from a database, a
    node that is reached by descending from the root along [q] and then to
    the child for [x] has a support that is at most that of the node reached
    along [q]. *)
Theorem support_falls (db : list (list Item)) (t : FPTree) (q : list Item)
    (x : Item) (s' : Z) :
  build db = Ok t → q ≠ [] → support_at t (q ++ [x]) = Some (Some s') →
  ∃ s, support_at t q = Some (Some s) ∧ (s' ≤ s)%Z.
Proof.
  intros Ht. by apply (rep_support_falls t _ db q x s' (build_is_rep db t Ht)).
Qed.

Lemma support_falls_witness :
  (build ex_db = Ok ex_tree ∧ [Some 1%Z] ≠ [] ∧
   support_at ex_tree ([Some 1%Z] ++ [Some 2%Z]) = Some (Some 3%Z)) ∧
  ∃ s, support_at ex_tree [Some 1%Z] = Some (Some s) ∧ (3 ≤ s)%Z.
Proof.
  assert ([Some 1%Z] ≠ []) as H1 by done.
  assert (support_at ex_tree ([Some 1%Z] ++ [Some 2%Z]) = Some (Some 3%Z)) as H2
    by (vm_compute; reflexivity).
  split; [split; [exact ex_tree_build|split; [exact H1|exact H2]]|].
  apply (support_falls ex_db ex_tree [Some 1%Z] (Some 2%Z) 3%Z ex_tree_build H1 H2).
Defined.
